(** * A shallow embedding of [vector.h]: [RawMemory<T>] and [Vector<T>]

    The C++ source manages raw storage by hand: placement [new], explicit
    destructor calls, the [std::uninitialized_*] algorithms and exceptions.
    The embedding keeps all of that visible:

    - storage is a heap of blocks, each block a list of cells; a cell is
      uninitialised, holds a constructed object, or holds a value written by
      an assignment into storage that holds no object;
    - a pointer is a block and an element offset, [nullptr] has no block;
    - every member function is a computation in a state-and-exception monad
      whose result is a normal return, a C++ exception in flight, or an
      abort (a failed [assert] or an access outside the storage);
    - constructors, assignments and destructors of [T] are recorded in a log,
      the way a counting test type would observe them;
    - which operations throw is fixed by a schedule over the fallible
      operations, in the order in which they are attempted;
    - a [size_t] is a natural number: sizes and capacities count the cells of
      allocated blocks, so products such as [size_ * 2] stay far from the
      wrap-around; a decrement below zero stops the run. A number chosen by
      the caller ([Reserve], [Resize], [Vector(size_t)]) has no such bound:
      for those calls the size in bytes is computed as the source computes
      it, in 64 bits. *)

From stdpp Require Import base option list gmap.

(** ** Pointers *)

Abbreviation block := positive.

Record ptr := Ptr { base : option block; offs : nat }.

#[global] Instance ptr_eq_dec : EqDecision ptr.
Proof. solve_decision. Defined.

Definition nullptr : ptr := Ptr None 0.

(** [p + k] on element pointers. *)
Definition ptr_add (p : ptr) (k : nat) : ptr := Ptr (base p) (offs p + k).

(** [p - k]; stepping below the start of a block has no meaning. *)
Definition ptr_sub (p : ptr) (k : nat) : option ptr :=
  if decide (k ≤ offs p) then Some (Ptr (base p) (offs p - k)) else None.

(** ** What a run observes

    [None] as a place stands for an object outside the vector's storage: the
    caller's argument or a temporary. *)

Inductive event :=
| EvAlloc (b : block) (n : nat)
| EvFree (b : block)
| EvValueCtor (dst : ptr)
| EvCtor (dst : option ptr)
| EvCopyCtor (src dst : option ptr)
| EvMoveCtor (src dst : option ptr)
| EvCopyAssign (src dst : option ptr)
| EvMoveAssign (src dst : option ptr)
| EvDtor (p : option ptr).

#[global] Instance event_eq_dec : EqDecision event.
Proof. solve_decision. Defined.

(** ** Outcomes and the monad *)

Inductive outcome (St A : Type) : Type :=
| Ok (a : A) (s : St)
| Throw (s : St)
| Abort.

Arguments Ok {St A} a s.
Arguments Throw {St A} s.
Arguments Abort {St A}.

Definition M (St A : Type) : Type := St → outcome St A.

Definition ret {St A} (a : A) : M St A := λ s, Ok a s.

Definition bind {St A B} (c : M St A) (k : A → M St B) : M St B :=
  λ s, match c s with
       | Ok a s' => k a s'
       | Throw s' => Throw s'
       | Abort => Abort
       end.

Definition abort {St A} : M St A := λ _, Abort.

Notation "x <- c ;; k" := (bind c (λ x, k))
  (at level 100, c at next level, right associativity).
Notation "c ;; k" := (bind c (λ _, k))
  (at level 100, right associativity).

(** [assert(b)]. *)
Definition assert_ {St} (b : bool) : M St unit :=
  if b then ret tt else abort.

Definition some_or_abort {St A} (o : option A) : M St A :=
  match o with Some a => ret a | None => abort end.

(** Stack unwinding: when [c] throws, [cleanup] (the destructors of the
    locals in scope) runs and the exception continues. *)
Definition on_throw {St A} (c : M St A) (cleanup : M St unit) : M St A :=
  λ s, match c s with
       | Ok a s' => Ok a s'
       | Throw s' =>
           match cleanup s' with
           | Ok _ s'' => Throw s''
           | Throw s'' => Throw s''
           | Abort => Abort
           end
       | Abort => Abort
       end.

(** Run a computation on the second component of a pair of states. *)
Definition lift {V St A} (c : M St A) : M (V * St) A :=
  λ vs, match c vs.2 with
        | Ok a s' => Ok a (vs.1, s')
        | Throw s' => Throw (vs.1, s')
        | Abort => Abort
        end.

(** A counted loop: [for (i = i0; n iterations; ++i) body(i)]. *)
Fixpoint for_n {St} (i n : nat) (body : nat → M St unit) : M St unit :=
  match n with
  | 0 => ret tt
  | S k => body i ;; for_n (S i) k body
  end.

(** [--n] on a [size_t]: below zero it wraps to the largest value, which no
    storage access survives; the embedding stops there. *)
Definition dec {St} (n : nat) : M St nat :=
  match n with 0 => abort | S k => ret k end.

(** [std::distance(first, last)] on pointers into one array. The algorithms
    below take their length from it: a range whose start is past its end is
    not a range, the standard gives such a call no meaning, and the embedding
    stops there. *)
Definition distance {St} (first last : ptr) : M St nat :=
  if decide (base first = base last ∧ offs first ≤ offs last)
  then ret (offs last - offs first) else abort.

(** [std::prev(p)]. *)
Definition prev {St} (p : ptr) : M St ptr := some_or_abort (ptr_sub p 1).

(** ** Two element types used in the examples: what a move leaves behind *)

Definition keep (v : nat) : nat := v.
Definition husk (v : nat) : nat := 0.
Definition never (k : nat) : bool := false.
Definition throw_at (n k : nat) : bool := k =? n.

Section Model.

Context {T : Type}.

(** [T()]. *)
Variable default_value : T.
(** The value a moved-from object is left with. *)
Variable moved : T → T.
(** [std::is_nothrow_move_constructible_v<T>] and
    [std::is_copy_constructible_v<T>]. *)
Variable nothrow_move_constructible : bool.
Variable copy_constructible : bool.
(** [throws k]: the [k]-th fallible operation of the run throws. *)
Variable throws : nat → bool.

(** ** Storage *)

Inductive cell :=
| Raw
| Live (v : T)
| Stale (v : T).

Definition cell_val (c : cell) : option T :=
  match c with Raw => None | Live v | Stale v => Some v end.

Definition is_live (c : cell) : bool :=
  match c with Live _ => true | _ => false end.

(** An assignment writes the value; it neither starts nor ends a lifetime. *)
Definition assigned (c : cell) (v : T) : cell :=
  match c with Live _ => Live v | _ => Stale v end.

Record mem := Mem { heap : gmap block (list cell); log : list event; tick : nat }.

Definition cell_at (m : mem) (p : ptr) : option cell :=
  match base p with
  | Some b => match heap m !! b with Some cs => cs !! offs p | None => None end
  | None => None
  end.

Definition blen (m : mem) (b : block) : option nat := length <$> heap m !! b.

Definition upd (m : mem) (p : ptr) (c : cell) : mem :=
  match base p with
  | Some b => Mem (alter (λ cs, <[offs p := c]> cs) b (heap m)) (log m) (tick m)
  | None => m
  end.

Definition logged (e : event) (m : mem) : mem := Mem (heap m) (e :: log m) (tick m).
Definition ticked (m : mem) : mem := Mem (heap m) (log m) (S (tick m)).

(** *** Primitive steps *)

Definition fallible : M mem unit :=
  λ m, if throws (tick m) then Throw (ticked m) else Ok tt (ticked m).

Definition record (e : event) : M mem unit := λ m, Ok tt (logged e m).

Definition load (p : ptr) : M mem cell :=
  λ m, match cell_at m p with Some c => Ok c m | None => Abort end.

Definition store (p : ptr) (c : cell) : M mem unit :=
  λ m, match cell_at m p with Some _ => Ok tt (upd m p c) | None => Abort end.

(** Reading an object's value; reading uninitialised storage is undefined. *)
Definition read (p : ptr) : M mem T :=
  c <- load p ;; some_or_abort (cell_val c).

(** *** Constructors, assignments and the destructor of [T] *)

(** How [T(std::forward<Args>(args)...)] builds its object: from a
    [const T&], from a [T&&], or from other arguments. The argument lives
    outside the vector's storage. *)
Inductive init :=
| ByCopy (v : T)
| ByMove (v : T)
| ByArgs (v : T).

Definition init_val (a : init) : T :=
  match a with ByCopy v | ByMove v | ByArgs v => v end.

Definition init_event (a : init) (dst : option ptr) : event :=
  match a with
  | ByCopy _ => EvCopyCtor None dst
  | ByMove _ => EvMoveCtor None dst
  | ByArgs _ => EvCtor dst
  end.

Definition move_ctor_check : M mem unit :=
  if nothrow_move_constructible then ret tt else fallible.

Definition init_check (a : init) : M mem unit :=
  match a with ByMove _ => move_ctor_check | _ => fallible end.

(** [new (p) T(args...)]. *)
Definition construct_at (p : ptr) (a : init) : M mem unit :=
  init_check a ;;
  store p (Live (init_val a)) ;;
  record (init_event a (Some p)).

(** [new (p) T()]. *)
Definition value_construct (p : ptr) : M mem unit :=
  fallible ;;
  store p (Live default_value) ;;
  record (EvValueCtor p).

(** Copy construction of the object at [src] into the slot [dst]. *)
Definition copy_construct (dst src : ptr) : M mem unit :=
  v <- read src ;;
  fallible ;;
  store dst (Live v) ;;
  record (EvCopyCtor (Some src) (Some dst)).

(** Move construction of the object at [src] into the slot [dst]. *)
Definition move_construct (dst src : ptr) : M mem unit :=
  v <- read src ;;
  move_ctor_check ;;
  store dst (Live v) ;;
  c <- load src ;;
  store src (assigned c (moved v)) ;;
  record (EvMoveCtor (Some src) (Some dst)).

(** Copy assignment of the object at [src] to the slot [dst]. *)
Definition copy_assign_elem (dst src : ptr) : M mem unit :=
  v <- read src ;;
  fallible ;;
  d <- load dst ;;
  store dst (assigned d v) ;;
  record (EvCopyAssign (Some src) (Some dst)).

(** Move assignment of the object at [src] to the slot [dst]. *)
Definition move_assign_elem (dst src : ptr) : M mem unit :=
  v <- read src ;;
  fallible ;;
  d <- load dst ;;
  store dst (assigned d v) ;;
  c <- load src ;;
  store src (assigned c (moved v)) ;;
  record (EvMoveAssign (Some src) (Some dst)).

(** The temporary [T(args...)] of [data_[i] = T(args...)], its move
    assignment into the slot and its destruction at the end of the
    statement. *)
Definition make_temp (a : init) : M mem T :=
  init_check a ;;
  record (init_event a None) ;;
  ret (init_val a).

Definition assign_from_temp (dst : ptr) (v : T) : M mem unit :=
  fallible ;;
  d <- load dst ;;
  store dst (assigned d v) ;;
  record (EvMoveAssign None (Some dst)).

Definition destroy_temp : M mem unit := record (EvDtor None).

(** [std::destroy_at(p)]: destructors do not throw. *)
Definition destroy_at (p : ptr) : M mem unit :=
  store p Raw ;;
  record (EvDtor (Some p)).

(** *** The standard algorithms the vector calls *)

Definition destroy_n (first : ptr) (n : nat) : M mem unit :=
  for_n 0 n (λ i, destroy_at (ptr_add first i)).

(** The [uninitialized_*] algorithms destroy what they built when a
    constructor throws, and rethrow. *)
Definition uninitialized_value_construct_n (first : ptr) (n : nat) : M mem unit :=
  for_n 0 n (λ i, on_throw (value_construct (ptr_add first i)) (destroy_n first i)).

Definition uninitialized_copy_n (first : ptr) (n : nat) (d_first : ptr) : M mem unit :=
  for_n 0 n (λ i, on_throw (copy_construct (ptr_add d_first i) (ptr_add first i))
                           (destroy_n d_first i)).

Definition uninitialized_move_n (first : ptr) (n : nat) (d_first : ptr) : M mem unit :=
  for_n 0 n (λ i, on_throw (move_construct (ptr_add d_first i) (ptr_add first i))
                           (destroy_n d_first i)).

Definition copy_n (first : ptr) (n : nat) (d_first : ptr) : M mem unit :=
  for_n 0 n (λ i, copy_assign_elem (ptr_add d_first i) (ptr_add first i)).

(** [std::copy(first, last, d_first)] and [std::move(first, last, d_first)]. *)
Definition std_copy (first last d_first : ptr) : M mem unit :=
  n <- distance first last ;;
  for_n 0 n (λ i, copy_assign_elem (ptr_add d_first i) (ptr_add first i)).

Definition std_move (first last d_first : ptr) : M mem unit :=
  n <- distance first last ;;
  for_n 0 n (λ i, move_assign_elem (ptr_add d_first i) (ptr_add first i)).

(** [std::move_backward(first, last, d_last)]: from the last element down. *)
Definition move_backward (first last d_last : ptr) : M mem unit :=
  n <- distance first last ;;
  for_n 0 n (λ i, dst <- some_or_abort (ptr_sub d_last (S i)) ;;
                  src <- some_or_abort (ptr_sub last (S i)) ;;
                  move_assign_elem dst src).

(** ** [RawMemory<T>] *)

Record RawMemory := mkRaw { buffer_ : ptr; capacity_ : nat }.

(** [operator new(n * sizeof(T))] for [n != 0], else [nullptr], for the
    requests the vector computes itself: [size_ * 2] and the size of another
    vector count cells of blocks that exist, their size in bytes is far from
    the wrap-around and the block has [n] cells. [operator new] may throw.
    [Allocate_sized] below is the same function for a number chosen by the
    caller. *)
Definition Allocate (n : nat) : M mem ptr :=
  if decide (n = 0) then ret nullptr
  else
    fallible ;;
    λ m, let b := fresh (dom (heap m)) in
         Ok (Ptr (Some b) 0)
            (Mem (<[b := replicate n Raw]> (heap m)) (EvAlloc b n :: log m) (tick m)).

(** [operator delete(buf)]; deleting [nullptr] does nothing. *)
Definition Deallocate (buf : ptr) : M mem unit :=
  match base buf with
  | None => ret tt
  | Some b =>
      λ m, match heap m !! b with
           | Some _ =>
               if decide (offs buf = 0)
               then Ok tt (Mem (delete b (heap m)) (EvFree b :: log m) (tick m))
               else Abort
           | None => Abort
           end
  end.

Definition RawMemory_default : RawMemory := mkRaw nullptr 0.

(** [explicit RawMemory(size_t capacity)]. *)
Definition RawMemory_ctor (capacity : nat) : M mem RawMemory :=
  buf <- Allocate capacity ;;
  ret (mkRaw buf capacity).

(** [RawMemory(RawMemory&& other)]: the new object and what is left of
    [other]. *)
Definition RawMemory_move_ctor (other : RawMemory) : RawMemory * RawMemory :=
  let buffer := buffer_ other in
  let other := mkRaw nullptr (capacity_ other) in
  let capacity := capacity_ other in
  let other := mkRaw (buffer_ other) 0 in
  (mkRaw buffer capacity, other).

(** [operator=(RawMemory&& other)] on two distinct objects: [this] and
    [other] afterwards. The operator has no [return] statement; what is
    embedded is what its two assignments do to the two objects. *)
Definition RawMemory_move_assign (this other : RawMemory) : RawMemory * RawMemory :=
  let this := mkRaw (buffer_ other) (capacity_ this) in
  let other := mkRaw nullptr (capacity_ other) in
  let this := mkRaw (buffer_ this) (capacity_ other) in
  (this, other).

(** [~RawMemory()]. *)
Definition RawMemory_dtor (r : RawMemory) : M mem unit := Deallocate (buffer_ r).

(** [operator+(size_t offset)]. *)
Definition RawMemory_plus {St} (r : RawMemory) (offset : nat) : M St ptr :=
  assert_ (offset <=? capacity_ r) ;;
  ret (ptr_add (buffer_ r) offset).

(** [operator[](size_t index)]; the reference is the address of the slot. *)
Definition RawMemory_index {St} (r : RawMemory) (index : nat) : M St ptr :=
  assert_ (index <=? capacity_ r) ;;
  ret (ptr_add (buffer_ r) index).

Definition RawMemory_Swap (a b : RawMemory) : RawMemory * RawMemory :=
  (mkRaw (buffer_ b) (capacity_ b), mkRaw (buffer_ a) (capacity_ a)).

Definition GetAddress (r : RawMemory) : ptr := buffer_ r.

Definition RawMemory_Capacity (r : RawMemory) : nat := capacity_ r.

(** ** [Vector<T>] *)

Record Vector := mkVec { data_ : RawMemory; size_ : nat }.

(** Member functions run on [this] and the memory. *)
Abbreviation Meth := (M (Vector * mem)%type).

Definition get_data : Meth RawMemory := λ s, Ok (data_ s.1) s.
Definition get_size : Meth nat := λ s, Ok (size_ s.1) s.
Definition set_data (d : RawMemory) : Meth unit := λ s, Ok tt (mkVec d (size_ s.1), s.2).
Definition set_size (n : nat) : Meth unit := λ s, Ok tt (mkVec (data_ s.1) n, s.2).

(** [data_.Swap(local)]: returns what the local now holds. *)
Definition Swap_data (local : RawMemory) : Meth RawMemory :=
  d <- get_data ;;
  set_data (RawMemory_Swap d local).1 ;;
  ret (RawMemory_Swap d local).2.

(** The relocation rule of the three [if constexpr]. *)
Definition use_move : bool := nothrow_move_constructible || negb copy_constructible.

Definition Size : Meth nat := get_size.

Definition Capacity : Meth nat :=
  d <- get_data ;; ret (RawMemory_Capacity d).

Definition begin_ : Meth ptr :=
  d <- get_data ;; ret (GetAddress d).

Definition end_ : Meth ptr :=
  size <- get_size ;;
  if decide (size = 0) then begin_
  else d <- get_data ;; RawMemory_plus d size.

Definition cbegin : Meth ptr := begin_.
Definition cend : Meth ptr := end_.

Definition Vector_default : Vector := mkVec RawMemory_default 0.

(** [explicit Vector(size_t size)]: a throwing element constructor
    releases the already constructed member [data_]. Here the block has
    [size] cells; [Vector_ctor_sized] below is the constructor with the size
    in bytes computed in [size_t], and is this one when the size fits. *)
Definition Vector_ctor (size : nat) : M mem Vector :=
  d <- RawMemory_ctor size ;;
  on_throw (uninitialized_value_construct_n (GetAddress d) size) (RawMemory_dtor d) ;;
  ret (mkVec d size).

(** [Vector(const Vector& other)]. *)
Definition Vector_copy_ctor (other : Vector) : M mem Vector :=
  d <- RawMemory_ctor (size_ other) ;;
  on_throw (uninitialized_copy_n (GetAddress (data_ other)) (size_ other) (GetAddress d))
           (RawMemory_dtor d) ;;
  ret (mkVec d (size_ other)).

(** [Swap(Vector& other)] on two distinct objects. *)
Definition Swap (this other : Vector) : Vector * Vector :=
  let d := RawMemory_Swap (data_ this) (data_ other) in
  (mkVec d.1 (size_ other), mkVec d.2 (size_ this)).

(** [Swap(local)] as a member call: returns what the local now holds. *)
Definition Swap_this (local : Vector) : Meth Vector :=
  λ s, Ok (Swap s.1 local).2 ((Swap s.1 local).1, s.2).

(** [Vector(Vector&& other)]: a default-constructed [this] swapped with
    [other]. *)
Definition Vector_move_ctor (other : Vector) : Vector * Vector :=
  Swap Vector_default other.

(** [~Vector()], followed by the destructor of the member [data_]. *)
Definition Vector_dtor (v : Vector) : M mem unit :=
  destroy_n (GetAddress (data_ v)) (size_ v) ;;
  RawMemory_dtor (data_ v).

(** The body of [operator=(const Vector& other)] under [this != &other]. *)
Definition copy_assign_body (other : Vector) : Meth unit :=
  cap <- Capacity ;;
  if cap <? size_ other then
    tmp <- lift (Vector_copy_ctor other) ;;
    tmp <- Swap_this tmp ;;
    lift (Vector_dtor tmp)
  else
    size <- Size ;;
    d <- get_data ;;
    lift (copy_n (GetAddress (data_ other)) (size `min` size_ other) (GetAddress d)) ;;
    (if size_ other <? size then
       p <- RawMemory_plus d (size_ other) ;;
       lift (destroy_n p (size - size_ other))
     else
       src <- RawMemory_plus (data_ other) size ;;
       dst <- RawMemory_plus d size ;;
       lift (uninitialized_copy_n src (size_ other - size) dst)) ;;
    set_size (size_ other).

(** [Reserve(size_t new_capacity)]. The local [new_data] is released when
    an exception leaves its scope. Here the new block has [new_capacity]
    cells; [Reserve_sized] below is the call with the size in bytes computed
    in [size_t], and is this one when the request fits. *)
Definition Reserve (new_capacity : nat) : Meth unit :=
  d <- get_data ;;
  if new_capacity <=? RawMemory_Capacity d then ret tt
  else
    new_data <- lift (RawMemory_ctor new_capacity) ;;
    size <- get_size ;;
    on_throw
      (if use_move
       then lift (uninitialized_move_n (GetAddress d) size (GetAddress new_data))
       else lift (uninitialized_copy_n (GetAddress d) size (GetAddress new_data)))
      (lift (RawMemory_dtor new_data)) ;;
    new_data <- Swap_data new_data ;;
    lift (destroy_n (GetAddress new_data) size) ;;
    lift (RawMemory_dtor new_data).

(** [Resize(size_t new_size)], on [Reserve] above; [Resize_sized] below is
    the call on [Reserve_sized]. *)
Definition Resize (new_size : nat) : Meth unit :=
  size <- get_size ;;
  (if new_size <? size then
     d <- get_data ;;
     p <- RawMemory_plus d new_size ;;
     lift (destroy_n p (size - new_size))
   else
     cap <- Capacity ;;
     (if cap <? new_size then Reserve new_size else ret tt) ;;
     d <- get_data ;;
     p <- RawMemory_plus d size ;;
     lift (uninitialized_value_construct_n p (new_size - size))) ;;
  set_size new_size.

(** [EmplaceBack(Args&&... args)]; returns the reference [data_[size_ - 1]]. *)
Definition EmplaceBack (a : init) : Meth ptr :=
  size <- get_size ;;
  cap <- Capacity ;;
  (if size <? cap then
     d <- get_data ;;
     p <- RawMemory_plus d size ;;
     lift (construct_at p a)
   else
     d <- get_data ;;
     new_data <- lift (RawMemory_ctor (if decide (size = 0) then 1 else size * 2)) ;;
     on_throw
       (p <- RawMemory_plus new_data size ;;
        lift (construct_at p a) ;;
        if use_move
        then lift (uninitialized_move_n (GetAddress d) size (GetAddress new_data))
        else lift (uninitialized_copy_n (GetAddress d) size (GetAddress new_data)))
       (lift (RawMemory_dtor new_data)) ;;
     new_data <- Swap_data new_data ;;
     lift (destroy_n (GetAddress new_data) size) ;;
     lift (RawMemory_dtor new_data)) ;;
  size <- get_size ;;
  set_size (size + 1) ;;
  size <- get_size ;;
  i <- dec size ;;
  d <- get_data ;;
  RawMemory_index d i.

(** [PushBack(const T&)] and [PushBack(T&&)] return [void]. *)
Definition PushBack (value : T) : Meth unit :=
  EmplaceBack (ByCopy value) ;; ret tt.

Definition PushBack_move (value : T) : Meth unit :=
  EmplaceBack (ByMove value) ;; ret tt.

(** [Emplace(const_iterator pos, Args&&... args)]. *)
Definition Emplace (pos : ptr) (a : init) : Meth ptr :=
  e <- cend ;;
  if decide (pos = e) then
    EmplaceBack a ;;
    e <- end_ ;;
    prev e
  else
    b <- cbegin ;;
    pos_index <- distance b pos ;;
    size <- get_size ;;
    cap <- Capacity ;;
    (if size <? cap then
       d <- get_data ;;
       slot <- RawMemory_plus d size ;;
       i <- dec size ;;
       last <- RawMemory_index d i ;;
       lift (move_construct slot last) ;;
       b <- begin_ ;;
       e <- end_ ;;
       pe <- prev e ;;
       e <- end_ ;;
       lift (move_backward (ptr_add b pos_index) pe e) ;;
       tmp <- lift (make_temp a) ;;
       slot <- RawMemory_index d pos_index ;;
       lift (assign_from_temp slot tmp) ;;
       lift destroy_temp
     else
       d <- get_data ;;
       new_data <- lift (RawMemory_ctor (if decide (size = 0) then 1 else size * 2)) ;;
       on_throw
         (p <- RawMemory_plus new_data pos_index ;;
          lift (construct_at p a) ;;
          if use_move then
            lift (uninitialized_move_n (GetAddress d) pos_index (GetAddress new_data)) ;;
            src <- RawMemory_plus d pos_index ;;
            dst <- RawMemory_plus new_data (pos_index + 1) ;;
            lift (uninitialized_move_n src (size - pos_index) dst)
          else
            lift (uninitialized_copy_n (GetAddress d) pos_index (GetAddress new_data)) ;;
            src <- RawMemory_plus d pos_index ;;
            dst <- RawMemory_plus new_data (pos_index + 1) ;;
            lift (uninitialized_copy_n src (size - pos_index) dst))
         (lift (RawMemory_dtor new_data)) ;;
       new_data <- Swap_data new_data ;;
       lift (destroy_n (GetAddress new_data) size) ;;
       lift (RawMemory_dtor new_data)) ;;
    size <- get_size ;;
    set_size (size + 1) ;;
    b <- begin_ ;;
    ret (ptr_add b pos_index).

Definition Insert (pos : ptr) (value : T) : Meth ptr := Emplace pos (ByCopy value).
Definition Insert_move (pos : ptr) (value : T) : Meth ptr := Emplace pos (ByMove value).

(** [Erase(const_iterator pos)]. *)
Definition Erase (pos : ptr) : Meth ptr :=
  b <- cbegin ;;
  pos_index <- distance b pos ;;
  b <- begin_ ;;
  lift (destroy_at (ptr_add b pos_index)) ;;
  b <- begin_ ;;
  e <- end_ ;;
  b' <- begin_ ;;
  (if use_move
   then lift (std_move (ptr_add b (pos_index + 1)) e (ptr_add b' pos_index))
   else lift (std_copy (ptr_add b (pos_index + 1)) e (ptr_add b' pos_index))) ;;
  size <- get_size ;;
  size' <- dec size ;;
  set_size size' ;;
  b <- begin_ ;;
  ret (ptr_add b pos_index).

(** [PopBack()]. *)
Definition PopBack : Meth unit :=
  size <- get_size ;;
  assert_ (0 <? size) ;;
  d <- get_data ;;
  i <- dec size ;;
  p <- RawMemory_plus d i ;;
  lift (destroy_at p) ;;
  size <- get_size ;;
  size' <- dec size ;;
  set_size size'.

(** [operator[](size_t index)]. *)
Definition index (i : nat) : Meth ptr :=
  size <- get_size ;;
  assert_ (i <? size) ;;
  d <- get_data ;;
  RawMemory_index d i.

(** ** An argument that is an element of the vector

    The parameters of [EmplaceBack], [Emplace], [PushBack] and [Insert] are
    references. An [init] stands for an argument outside the vector's storage,
    whose value no step of the call changes. In [v.Insert(pos, v[j])] the
    reference is bound to a slot of the storage itself, and [T(args...)]
    reads that slot at the point where the source builds the object. *)

Inductive arg :=
| Outside (a : init)      (* an argument outside the storage *)
| Element (src : ptr).    (* a [const T&] bound to the object at [src] *)

(** [new (p) T(args...)]. *)
Definition construct_from (p : ptr) (x : arg) : M mem unit :=
  match x with
  | Outside a => construct_at p a
  | Element src => copy_construct p src
  end.

(** The temporary [T(value)] for a [value] bound to the object at [src]. *)
Definition make_temp_of (src : ptr) : M mem T :=
  v <- read src ;;
  fallible ;;
  record (EvCopyCtor (Some src) None) ;;
  ret v.

Definition make_temp_from (x : arg) : M mem T :=
  match x with
  | Outside a => make_temp a
  | Element src => make_temp_of src
  end.

(** [EmplaceBack(Args&&... args)]. *)
Definition EmplaceBack_ref (x : arg) : Meth ptr :=
  size <- get_size ;;
  cap <- Capacity ;;
  (if size <? cap then
     d <- get_data ;;
     p <- RawMemory_plus d size ;;
     lift (construct_from p x)
   else
     d <- get_data ;;
     new_data <- lift (RawMemory_ctor (if decide (size = 0) then 1 else size * 2)) ;;
     on_throw
       (p <- RawMemory_plus new_data size ;;
        lift (construct_from p x) ;;
        if use_move
        then lift (uninitialized_move_n (GetAddress d) size (GetAddress new_data))
        else lift (uninitialized_copy_n (GetAddress d) size (GetAddress new_data)))
       (lift (RawMemory_dtor new_data)) ;;
     new_data <- Swap_data new_data ;;
     lift (destroy_n (GetAddress new_data) size) ;;
     lift (RawMemory_dtor new_data)) ;;
  size <- get_size ;;
  set_size (size + 1) ;;
  size <- get_size ;;
  i <- dec size ;;
  d <- get_data ;;
  RawMemory_index d i.

(** [Emplace(const_iterator pos, Args&&... args)]. *)
Definition Emplace_ref (pos : ptr) (x : arg) : Meth ptr :=
  e <- cend ;;
  if decide (pos = e) then
    EmplaceBack_ref x ;;
    e <- end_ ;;
    prev e
  else
    b <- cbegin ;;
    pos_index <- distance b pos ;;
    size <- get_size ;;
    cap <- Capacity ;;
    (if size <? cap then
       d <- get_data ;;
       slot <- RawMemory_plus d size ;;
       i <- dec size ;;
       last <- RawMemory_index d i ;;
       lift (move_construct slot last) ;;
       b <- begin_ ;;
       e <- end_ ;;
       pe <- prev e ;;
       e <- end_ ;;
       lift (move_backward (ptr_add b pos_index) pe e) ;;
       tmp <- lift (make_temp_from x) ;;
       slot <- RawMemory_index d pos_index ;;
       lift (assign_from_temp slot tmp) ;;
       lift destroy_temp
     else
       d <- get_data ;;
       new_data <- lift (RawMemory_ctor (if decide (size = 0) then 1 else size * 2)) ;;
       on_throw
         (p <- RawMemory_plus new_data pos_index ;;
          lift (construct_from p x) ;;
          if use_move then
            lift (uninitialized_move_n (GetAddress d) pos_index (GetAddress new_data)) ;;
            src <- RawMemory_plus d pos_index ;;
            dst <- RawMemory_plus new_data (pos_index + 1) ;;
            lift (uninitialized_move_n src (size - pos_index) dst)
          else
            lift (uninitialized_copy_n (GetAddress d) pos_index (GetAddress new_data)) ;;
            src <- RawMemory_plus d pos_index ;;
            dst <- RawMemory_plus new_data (pos_index + 1) ;;
            lift (uninitialized_copy_n src (size - pos_index) dst))
         (lift (RawMemory_dtor new_data)) ;;
       new_data <- Swap_data new_data ;;
       lift (destroy_n (GetAddress new_data) size) ;;
       lift (RawMemory_dtor new_data)) ;;
    size <- get_size ;;
    set_size (size + 1) ;;
    b <- begin_ ;;
    ret (ptr_add b pos_index).

(** [Insert(pos, value)] with [value] bound to the element at [src]. *)
Definition Insert_ref (pos src : ptr) : Meth ptr := Emplace_ref pos (Element src).

(** ** Requests chosen by the caller

    [Allocate] multiplies in [size_t]. [Reserve], [Resize] and
    [Vector(size_t)] pass it a number that comes from the caller, so the
    product may wrap, and [operator new] then returns a block that is too
    small for the capacity the vector records. [sizeof_T] is [sizeof(T)], in
    bytes. *)

Definition size_t_mul (a b : Z) : Z := ((a * b) mod 2 ^ 64)%Z.

(** The request for [n] objects does not wrap. *)
Definition fits (sizeof_T : positive) (n : nat) : Prop :=
  (Z.of_nat n * Z.pos sizeof_T < 2 ^ 64)%Z.

(** The number of objects that the block [operator new(n * sizeof(T))]
    returns has room for. *)
Definition granted (sizeof_T : positive) (n : nat) : nat :=
  Z.to_nat (size_t_mul (Z.of_nat n) (Z.pos sizeof_T) / Z.pos sizeof_T).

(** [Allocate(size_t n)]: [operator new(n * sizeof(T))] with the product
    taken in [size_t]; a request of 0 bytes gets a block with no room. *)
Definition Allocate_sized (sizeof_T : positive) (n : nat) : M mem ptr :=
  if decide (n = 0) then ret nullptr
  else
    fallible ;;
    λ m, let b := fresh (dom (heap m)) in
         Ok (Ptr (Some b) 0)
            (Mem (<[b := replicate (granted sizeof_T n) Raw]> (heap m))
                 (EvAlloc b n :: log m) (tick m)).

(** [explicit RawMemory(size_t capacity)]: the capacity recorded is the one
    asked for. *)
Definition RawMemory_ctor_sized (sizeof_T : positive) (capacity : nat) : M mem RawMemory :=
  buf <- Allocate_sized sizeof_T capacity ;;
  ret (mkRaw buf capacity).


(** [Reserve(size_t new_capacity)], lines 165-178. *)
Definition Reserve_sized (sizeof_T : positive) (new_capacity : nat) : Meth unit :=
  d <- get_data ;;
  if new_capacity <=? RawMemory_Capacity d then ret tt
  else
    new_data <- lift (RawMemory_ctor_sized sizeof_T new_capacity) ;;
    size <- get_size ;;
    on_throw
      (if use_move
       then lift (uninitialized_move_n (GetAddress d) size (GetAddress new_data))
       else lift (uninitialized_copy_n (GetAddress d) size (GetAddress new_data)))
      (lift (RawMemory_dtor new_data)) ;;
    new_data <- Swap_data new_data ;;
    lift (destroy_n (GetAddress new_data) size) ;;
    lift (RawMemory_dtor new_data).

(** [Resize(size_t new_size)], lines 180-191. *)
Definition Resize_sized (sizeof_T : positive) (new_size : nat) : Meth unit :=
  size <- get_size ;;
  (if new_size <? size then
     d <- get_data ;;
     p <- RawMemory_plus d new_size ;;
     lift (destroy_n p (size - new_size))
   else
     cap <- Capacity ;;
     (if cap <? new_size then Reserve_sized sizeof_T new_size else ret tt) ;;
     d <- get_data ;;
     p <- RawMemory_plus d size ;;
     lift (uninitialized_value_construct_n p (new_size - size))) ;;
  set_size new_size.

(** ** Vector objects and their addresses

    [operator=] compares the address of [this] with the address of its
    argument, so the two assignment operators run on a store of objects. *)

Definition object (p : nat) : M (gmap nat Vector * mem) Vector :=
  λ s, match s.1 !! p with Some v => Ok v s | None => Abort end.

Definition at_this {A} (this : nat) (c : Meth A) : M (gmap nat Vector * mem) A :=
  λ s, match s.1 !! this with
       | None => Abort
       | Some v =>
           match c (v, s.2) with
           | Ok a (v', m') => Ok a (<[this := v']> s.1, m')
           | Throw (v', m') => Throw (<[this := v']> s.1, m')
           | Abort => Abort
           end
       end.

(** [Vector& operator=(const Vector& other)]. *)
Definition copy_assign (this other : nat) : M (gmap nat Vector * mem) unit :=
  if decide (this ≠ other) then
    o <- object other ;;
    at_this this (copy_assign_body o)
  else ret tt.

(** [Vector& operator=(Vector&& other)]: [Swap(other)]. *)
Definition move_assign (this other : nat) : M (gmap nat Vector * mem) unit :=
  a <- object this ;;
  b <- object other ;;
  λ s, Ok tt (<[other := (Swap a b).2]> (<[this := (Swap a b).1]> s.1), s.2).

(** ** Runs of several appends *)

Fixpoint appends (xs : list T) : Meth unit :=
  match xs with
  | [] => ret tt
  | x :: xs' => PushBack x ;; appends xs'
  end.

(** [c] is the smallest of 1, 2, 4, 8, ... that is at least [k]. *)
Definition smallest_doubling (k c : nat) : Prop :=
  (∃ j, c = 2 ^ j) ∧ k ≤ c ∧ ∀ j, k ≤ 2 ^ j → c ≤ 2 ^ j.

(** The capacity expected after [k] appends to an empty vector. *)
Definition cap_ok (k c : nat) : Prop :=
  (k = 0 ∧ c = 0) ∨ (0 < k ∧ smallest_doubling k c).

(** ** The in-place insertion as the specification words it

    "constructs a copy of the current last element into the new one-past-end
    slot, shifts elements in [position, end) one slot to the right (moving if
    safe, else copying), then assigns the new value into position". Written
    to be compared with the in-place branch of [Emplace]. *)

Definition copy_backward (first last d_last : ptr) : M mem unit :=
  n <- distance first last ;;
  for_n 0 n (λ i, dst <- some_or_abort (ptr_sub d_last (S i)) ;;
                  src <- some_or_abort (ptr_sub last (S i)) ;;
                  copy_assign_elem dst src).

Definition Emplace_in_place_as_specified (pos : ptr) (a : init) : Meth ptr :=
  b <- cbegin ;;
  pos_index <- distance b pos ;;
  size <- get_size ;;
  d <- get_data ;;
  slot <- RawMemory_plus d size ;;
  i <- dec size ;;
  last <- RawMemory_index d i ;;
  lift (copy_construct slot last) ;;
  b <- begin_ ;;
  e <- end_ ;;
  pe <- prev e ;;
  e <- end_ ;;
  (if use_move
   then lift (move_backward (ptr_add b pos_index) pe e)
   else lift (copy_backward (ptr_add b pos_index) pe e)) ;;
  tmp <- lift (make_temp a) ;;
  slot <- RawMemory_index d pos_index ;;
  lift (assign_from_temp slot tmp) ;;
  lift destroy_temp ;;
  size <- get_size ;;
  set_size (size + 1) ;;
  b <- begin_ ;;
  ret (ptr_add b pos_index).

(** ** Views of the memory used in the statements *)

(** The value stored at [p], if the cell holds one. *)
Definition val_at (m : mem) (p : ptr) : option T :=
  match cell_at m p with Some c => cell_val c | None => None end.

(** What [T(args...)] logs, and the value it builds in the memory [m]. *)
Definition arg_event (x : arg) (dst : option ptr) : event :=
  match x with
  | Outside a => init_event a dst
  | Element src => EvCopyCtor (Some src) dst
  end.

Definition arg_val (m : mem) (x : arg) : option T :=
  match x with
  | Outside a => Some (init_val a)
  | Element src => val_at m src
  end.

(** An argument that is an element is one of the elements of [v]. *)
Definition arg_in (v : Vector) (x : arg) : Prop :=
  match x with
  | Outside _ => True
  | Element src => ∃ j, j < size_ v ∧ src = ptr_add (buffer_ (data_ v)) j
  end.

(** [q] lies in the array of [n] elements that starts at [p]. *)
Definition in_range (p : ptr) (n : nat) (q : ptr) : Prop :=
  base q = base p ∧ offs p ≤ offs q < offs p + n.

(** [m'] has the blocks of [m], with the same cells outside [P]. *)
Definition agree (P : ptr → Prop) (m m' : mem) : Prop :=
  (∀ b, blen m' b = blen m b) ∧ (∀ q, ¬ P q → cell_at m' q = cell_at m q).

(** [m'] is [m] after the logged events [l] (latest first), with changes
    to cells inside [P] only. *)
Definition eff (P : ptr → Prop) (l : list event) (m m' : mem) : Prop :=
  agree P m m' ∧ log m' = l ++ log m.

(** The schedule contains an exception. *)
Definition raised : Prop := ∃ k, throws k = true.

(** The events of [n] iterations, the latest first. *)
Definition evs (f : nat → event) (n : nat) : list event := rev (map f (seq 0 n)).

(** ** The representation invariant of a vector

    [wf v m]: the size is within the capacity, the buffer is the start of a
    block of exactly [capacity] cells (or null when the capacity is 0), and
    the first [size] cells hold values. *)
Definition wf (v : Vector) (m : mem) : Prop :=
  size_ v ≤ capacity_ (data_ v) ∧
  offs (buffer_ (data_ v)) = 0 ∧
  match base (buffer_ (data_ v)) with
  | None => capacity_ (data_ v) = 0
  | Some b => blen m b = Some (capacity_ (data_ v)) ∧ 0 < capacity_ (data_ v)
  end ∧
  ∀ i, i < size_ v → is_Some (val_at m (ptr_add (buffer_ (data_ v)) i)).

(** The sequence of element values, index by index. *)
Definition contents (v : Vector) (m : mem) : list (option T) :=
  map (λ i, val_at m (ptr_add (GetAddress (data_ v)) i)) (seq 0 (size_ v)).

(** The invariant of the data model, as a check: [size <= capacity], the
    slots below [size] hold constructed objects and the slots from [size] to
    [capacity] hold none. *)
Definition slot_ok (v : Vector) (m : mem) (i : nat) : bool :=
  match cell_at m (ptr_add (buffer_ (data_ v)) i) with
  | Some c => bool_decide (is_live c = (i <? size_ v))
  | None => false
  end.

Definition invariant (v : Vector) (m : mem) : bool :=
  (size_ v <=? capacity_ (data_ v)) && forallb (slot_ok v m) (seq 0 (capacity_ (data_ v))).

(** [wf] as a check, for concrete states. *)
Definition wfb (v : Vector) (m : mem) : bool :=
  (size_ v <=? capacity_ (data_ v)) &&
  (offs (buffer_ (data_ v)) =? 0) &&
  match base (buffer_ (data_ v)) with
  | None => capacity_ (data_ v) =? 0
  | Some b => bool_decide (blen m b = Some (capacity_ (data_ v))) && (0 <? capacity_ (data_ v))
  end &&
  forallb (λ i, bool_decide (is_Some (val_at m (ptr_add (buffer_ (data_ v)) i))))
          (seq 0 (size_ v)).

(** What the cell at [q] is for the object model: no such cell, a cell that
    holds a constructed object ([Some true]), or one that holds none. *)
Definition tag (m : mem) (q : ptr) : option bool := is_live <$> cell_at m q.

(** The same kinds of cells outside [P]. *)
Definition tags (P : ptr → Prop) (m m' : mem) : Prop :=
  ∀ q, ¬ P q → tag m' q = tag m q.

Definition same_tags (m m' : mem) : Prop := ∀ q, tag m' q = tag m q.

(** The cell at [p] now holds an object, or now holds none; the others are
    of the kind they were. *)
Definition sets_tag (p : ptr) (b : bool) (m m' : mem) : Prop :=
  ∀ q, tag m' q = if decide (q = p) then Some b else tag m q.

(** The invariant of the data model in terms of the kinds of cells. *)
Definition inv_tags (v : Vector) (m : mem) : Prop :=
  size_ v ≤ capacity_ (data_ v) ∧
  ∀ i, i < capacity_ (data_ v) →
    tag m (ptr_add (buffer_ (data_ v)) i) = Some (i <? size_ v).

(** Two vectors do not share a block. *)
Definition separate (a b : Vector) : Prop :=
  base (buffer_ (data_ a)) = base (buffer_ (data_ b)) → base (buffer_ (data_ a)) = None.

(** The state a run ends in. *)
Definition after {A} (o : outcome (Vector * mem) A) : Vector * mem :=
  match o with
  | Ok _ s | Throw s => s
  | Abort => (Vector_default, Mem ∅ [] 0)
  end.

(** The event of relocating one element under the rule of the source. *)
Definition reloc_event (src dst : ptr) : event :=
  if use_move then EvMoveCtor (Some src) (Some dst) else EvCopyCtor (Some src) (Some dst).

Definition free_event (r : RawMemory) : list event :=
  match base (buffer_ r) with Some b => [EvFree b] | None => [] end.

(** The capacity chosen when a full vector grows. *)
Definition grown (size : nat) : nat := if decide (size = 0) then 1 else size * 2.

(** The relocation algorithm selected by the rule of the source. *)
Definition relocate_n (first : ptr) (n : nat) (d_first : ptr) : M mem unit :=
  if use_move then uninitialized_move_n first n d_first
  else uninitialized_copy_n first n d_first.

(** * Reasoning about runs

    [wp c s Q R]: from [s] the computation [c] does not abort; a normal
    return satisfies [Q], an exception leaves a state satisfying [R]. *)

Definition wp {St A} (c : M St A) (s : St) (Q : A → St → Prop) (R : St → Prop) : Prop :=
  match c s with
  | Ok a s' => Q a s'
  | Throw s' => R s'
  | Abort => False
  end.

(** [pc c s Q R]: what holds of a run of [c] from [s] that returns ([Q]) or
    throws ([R]); nothing is said of a run that stops. *)
Definition pc {St A} (c : M St A) (s : St) (Q : A → St → Prop) (R : St → Prop) : Prop :=
  match c s with
  | Ok a s' => Q a s'
  | Throw s' => R s'
  | Abort => True
  end.

Lemma wp_ret {St A} (a : A) (s : St) Q R : Q a s → wp (ret a) s Q R.
Proof. done. Qed.

Lemma wp_bind {St A B} (c : M St A) (k : A → M St B) s Q R :
  wp c s (λ a s', wp (k a) s' Q R) R → wp (x <- c ;; k x) s Q R.
Proof. unfold wp, bind. by destruct (c s). Qed.

Lemma wp_mono {St A} (c : M St A) s (Q Q' : A → St → Prop) (R R' : St → Prop) :
  wp c s Q R → (∀ a s', Q a s' → Q' a s') → (∀ s', R s' → R' s') → wp c s Q' R'.
Proof. unfold wp. destruct (c s); auto. Qed.

Lemma wp_on_throw {St A} (c : M St A) cleanup s Q R :
  wp c s Q (λ s', wp cleanup s' (λ _ s'', R s'') R) → wp (on_throw c cleanup) s Q R.
Proof.
  unfold wp, on_throw. destruct (c s) as [a s'|s'|]; [done| |done].
  by destruct (cleanup s').
Qed.

Lemma wp_lift {V St A} (c : M St A) (v : V) s Q R :
  wp c s (λ a s', Q a (v, s')) (λ s', R (v, s')) → wp (lift c) (v, s) Q R.
Proof. unfold wp, lift. simpl. by destruct (c s). Qed.

Lemma wp_assert {St} (b : bool) (s : St) Q R : b = true → Q tt s → wp (assert_ b) s Q R.
Proof. by intros ->. Qed.

Lemma wp_some {St A} (o : option A) a (s : St) Q R :
  o = Some a → Q a s → wp (some_or_abort o) s Q R.
Proof. by intros ->. Qed.

(** The invariant rule for counted loops. *)
Lemma wp_for_n {St} (I : nat → St → Prop) (R : St → Prop) body n : ∀ i s,
  I i s →
  (∀ j s', i ≤ j < i + n → I j s' → wp (body j) s' (λ _ s'', I (S j) s'') R) →
  wp (for_n i n body) s (λ _ s', I (i + n) s') R.
Proof.
  induction n as [|n IH]; intros i s Hi Hstep; simpl.
  - apply wp_ret. by rewrite Nat.add_0_r.
  - apply wp_bind. eapply wp_mono; [apply (Hstep i s); [lia|done]| |done].
    intros [] s' Hs'. simpl in Hs'.
    eapply wp_mono; [apply (IH (S i) s' Hs')| |done].
    + intros j s'' Hj. apply Hstep. lia.
    + intros [] s''. by rewrite Nat.add_succ_r.
Qed.

(** What a [wp] fact says about a run with a known outcome. *)
Lemma wp_ok {St A} (c : M St A) s Q R a s' : wp c s Q R → c s = Ok a s' → Q a s'.
Proof. unfold wp. intros H E. by rewrite E in H. Qed.

Lemma wp_throw {St A} (c : M St A) s Q R s' : wp c s Q R → c s = Throw s' → R s'.
Proof. unfold wp. intros H E. by rewrite E in H. Qed.

(** ** Memory updates *)

Lemma cell_at_inb m p :
  is_Some (cell_at m p) ↔ ∃ b n, base p = Some b ∧ blen m b = Some n ∧ offs p < n.
Proof.
  unfold cell_at, blen. destruct (base p) as [b|]; [|split; [by intros [? ?]|by intros (?&?&?&_)]].
  destruct (heap m !! b) as [cs|] eqn:E; simpl.
  - rewrite lookup_lt_is_Some. split.
    + intros H. exists b, (length cs). by rewrite E.
    + intros (b'&n&Hb&Hn&Hlt). simplify_eq. by rewrite E in Hn; simplify_eq/=.
  - split; [by intros [? ?]|]. intros (b'&n&Hb&Hn&_). simplify_eq. by rewrite E in Hn.
Qed.

Lemma cell_at_upd m p c q :
  is_Some (cell_at m p) →
  cell_at (upd m p c) q = if decide (q = p) then Some c else cell_at m q.
Proof.
  intros Hp. destruct p as [bp op], q as [bq oq]. unfold cell_at, upd in *. simpl in *.
  destruct bp as [bp|]; [|by destruct Hp]. simpl.
  destruct (heap m !! bp) as [cs|] eqn:E; [|by destruct Hp].
  apply lookup_lt_is_Some in Hp.
  destruct bq as [bq|]; [|by case_decide].
  destruct (decide (bq = bp)) as [->|Hb].
  - rewrite lookup_alter_eq, E. simpl.
    destruct (decide (oq = op)) as [->|Ho].
    + rewrite decide_True by done. by apply list_lookup_insert_eq.
    + rewrite decide_False by congruence. by apply list_lookup_insert_ne.
  - rewrite lookup_alter_ne by done. rewrite decide_False by congruence. done.
Qed.

Lemma blen_upd m p c b : blen (upd m p c) b = blen m b.
Proof.
  unfold blen, upd. destruct (base p) as [bp|]; [|done]. simpl.
  destruct (decide (bp = b)) as [->|Hb].
  - rewrite lookup_alter_eq. destruct (heap m !! b); [|done]. simpl. by rewrite length_insert.
  - by rewrite lookup_alter_ne.
Qed.

Lemma log_upd m p c : log (upd m p c) = log m.
Proof. unfold upd. by destruct (base p). Qed.

Lemma agree_refl P m : agree P m m.
Proof. by split. Qed.

Lemma agree_trans P m1 m2 m3 : agree P m1 m2 → agree P m2 m3 → agree P m1 m3.
Proof.
  intros [Hb1 Hc1] [Hb2 Hc2]. split.
  - intros b. by rewrite Hb2.
  - intros q Hq. by rewrite Hc2, Hc1.
Qed.

Lemma agree_mono (P P' : ptr → Prop) m m' :
  (∀ q, P q → P' q) → agree P m m' → agree P' m m'.
Proof. intros HP [Hb Hc]. split; [done|]. intros q Hq. apply Hc. naive_solver. Qed.

Lemma agree_upd (P : ptr → Prop) m p c :
  is_Some (cell_at m p) → P p → agree P m (upd m p c).
Proof.
  intros Hp HP. split.
  - intros b. apply blen_upd.
  - intros q Hq. rewrite cell_at_upd by done. case_decide; [by subst|done].
Qed.

Lemma agree_ticked P m : agree P m (ticked m).
Proof. by split. Qed.

Lemma agree_inb P m m' p : agree P m m' → is_Some (cell_at m p) → is_Some (cell_at m' p).
Proof.
  intros [Hb _]. rewrite !cell_at_inb. intros (b&n&?&?&?). exists b, n. by rewrite Hb.
Qed.

(** Blocks that [P] does not touch are the same lists. *)
Lemma agree_heap P m m' b :
  agree P m m' → (∀ o, ¬ P (Ptr (Some b) o)) → heap m' !! b = heap m !! b.
Proof.
  intros [Hb Hc] HP. specialize (Hb b). unfold blen in Hb.
  destruct (heap m' !! b) as [cs'|] eqn:E', (heap m !! b) as [cs|] eqn:E; simplify_eq/=; [|done].
  f_equal. apply list_eq. intros o.
  specialize (Hc (Ptr (Some b) o) (HP o)). unfold cell_at in Hc. simpl in Hc.
  by rewrite E', E in Hc.
Qed.

Lemma eff_refl P m : eff P [] m m.
Proof. split; [apply agree_refl|done]. Qed.

Lemma eff_trans P l1 l2 m1 m2 m3 :
  eff P l1 m1 m2 → eff P l2 m2 m3 → eff P (l2 ++ l1) m1 m3.
Proof.
  intros [Ha1 Hl1] [Ha2 Hl2]. split; [by eapply agree_trans|].
  by rewrite Hl2, Hl1, app_assoc.
Qed.

Lemma eff_mono (P P' : ptr → Prop) l m m' : (∀ q, P q → P' q) → eff P l m m' → eff P' l m m'.
Proof. intros HP [Ha Hl]. split; [by eapply agree_mono|done]. Qed.

Lemma val_at_Some m p v :
  val_at m p = Some v ↔ ∃ c, cell_at m p = Some c ∧ cell_val c = Some v.
Proof.
  unfold val_at. destruct (cell_at m p) as [c|].
  - split; [eauto|]. by intros (c'&[= <-]&?).
  - split; [done|]. by intros (c'&?&_).
Qed.

Lemma val_at_inb m p v : val_at m p = Some v → is_Some (cell_at m p).
Proof. rewrite val_at_Some. intros (c&->&_). eauto. Qed.

Lemma cell_val_assigned c v : cell_val (assigned c v) = Some v.
Proof. by destruct c. Qed.

(** ** The operations of [T] *)

Lemma wp_fallible m (Q : unit → mem → Prop) (R : mem → Prop) :
  (throws (tick m) = false → Q tt (ticked m)) →
  (throws (tick m) = true → R (ticked m)) →
  wp fallible m Q R.
Proof. unfold wp, fallible. destruct (throws (tick m)); auto. Qed.

Lemma wp_move_ctor_check m :
  wp move_ctor_check m (λ _ m', eff (λ _, False) [] m m')
     (λ m', eff (λ _, False) [] m m' ∧ raised ∧ nothrow_move_constructible = false).
Proof.
  unfold move_ctor_check. destruct nothrow_move_constructible; [apply wp_ret, eff_refl|].
  apply wp_fallible; intros Ht.
  - split; [apply agree_ticked|done].
  - split; [split; [apply agree_ticked|done]|]. split; [by exists (tick m)|done].
Qed.

Lemma wp_init_check a m :
  wp (init_check a) m
     (λ _ m', eff (λ _, False) [] m m' ∧
              (nothrow_move_constructible = false → throws (tick m) = false))
     (λ m', eff (λ _, False) [] m m' ∧ raised).
Proof.
  destruct a; simpl;
    try (apply wp_fallible; intros Ht;
         [split; [split; [apply agree_ticked|done]|done]
         |split; [split; [apply agree_ticked|done]|by exists (tick m)]]).
  unfold move_ctor_check. destruct nothrow_move_constructible.
  - apply wp_ret. split; [apply eff_refl|done].
  - apply wp_fallible; intros Ht.
    + split; [split; [apply agree_ticked|done]|done].
    + split; [split; [apply agree_ticked|done]|by exists (tick m)].
Qed.

Lemma wp_load m p c Q R : cell_at m p = Some c → Q c m → wp (load p) m Q R.
Proof. unfold wp, load. by intros ->. Qed.

Lemma wp_store m p c Q R : is_Some (cell_at m p) → Q tt (upd m p c) → wp (store p c) m Q R.
Proof. unfold wp, store. by intros [? ->]. Qed.

Lemma wp_read m p v Q R : val_at m p = Some v → Q v m → wp (read p) m Q R.
Proof.
  rewrite val_at_Some. intros (c&Hc&Hv) HQ. unfold read.
  apply wp_bind, (wp_load _ _ c); [done|]. by apply (wp_some _ v).
Qed.

Lemma wp_record m e Q R : Q tt (logged e m) → wp (record e) m Q R.
Proof. done. Qed.

Lemma eff_store P m p c : is_Some (cell_at m p) → P p → eff P [] m (upd m p c).
Proof. intros Hp HP. split; [by apply agree_upd|apply log_upd]. Qed.

Lemma eff_logged P e m : eff P [e] m (logged e m).
Proof. by split. Qed.

Lemma wp_construct_at m p a :
  is_Some (cell_at m p) →
  wp (construct_at p a) m
     (λ _ m', eff (λ q, q = p) [init_event a (Some p)] m m' ∧
              cell_at m' p = Some (Live (init_val a)) ∧
              (nothrow_move_constructible = false → throws (tick m) = false))
     (λ m', eff (λ _, False) [] m m' ∧ raised).
Proof.
  intros Hp. unfold construct_at. apply wp_bind.
  eapply wp_mono; [apply wp_init_check| |done].
  intros [] m1 [H1 Ht]. simpl.
  assert (is_Some (cell_at m1 p)) as Hp1 by (eapply agree_inb; [apply H1|done]).
  apply wp_bind, wp_store; [done|]. apply wp_record. split; [|split; [|done]].
  - apply (eff_trans _ [] [_] m m1); [by apply (eff_mono (λ _, False))|].
    apply (eff_trans _ [] [_] _ (upd m1 p (Live (init_val a)))); [by apply eff_store|apply eff_logged].
  - change (cell_at (upd m1 p (Live (init_val a))) p = Some (Live (init_val a))).
    rewrite cell_at_upd by done. by rewrite decide_True.
Qed.

Lemma eff_step_store (P : ptr → Prop) l m m1 p c :
  eff P l m m1 → is_Some (cell_at m1 p) → P p → eff P l m (upd m1 p c).
Proof.
  intros H Hp HP. rewrite <- (app_nil_l l).
  eapply eff_trans; [exact H|by apply eff_store].
Qed.

Lemma eff_step_log P l m m1 e : eff P l m m1 → eff P (e :: l) m (logged e m1).
Proof. intros H. apply (eff_trans _ l [e] m m1); [done|apply eff_logged]. Qed.

Lemma eff_step_tick P l m m1 : eff P l m m1 → eff P l m (ticked m1).
Proof. intros [Ha Hl]. split; [|done]. eapply agree_trans; [done|apply agree_ticked]. Qed.

Lemma eff_inb P l m m' p : eff P l m m' → is_Some (cell_at m p) → is_Some (cell_at m' p).
Proof. intros [Ha _]. by eapply agree_inb. Qed.

Lemma eff_cell (P : ptr → Prop) l m m' q : eff P l m m' → ¬ P q → cell_at m' q = cell_at m q.
Proof. intros [[_ Hc] _]. apply Hc. Qed.

Lemma eff_val (P : ptr → Prop) l m m' q : eff P l m m' → ¬ P q → val_at m' q = val_at m q.
Proof. intros H Hq. unfold val_at. by rewrite (eff_cell _ _ _ _ _ H Hq). Qed.

Lemma eff_throw m : throws (tick m) = true → eff (λ _, False) [] m (ticked m) ∧ raised.
Proof. intros Ht. split; [apply eff_step_tick, eff_refl|by exists (tick m)]. Qed.

Lemma wp_copy_construct m dst src v :
  val_at m src = Some v → is_Some (cell_at m dst) →
  wp (copy_construct dst src) m
     (λ _ m', eff (λ q, q = dst) [EvCopyCtor (Some src) (Some dst)] m m' ∧
              cell_at m' dst = Some (Live v))
     (λ m', eff (λ _, False) [] m m' ∧ raised).
Proof.
  intros Hv Hd. unfold copy_construct.
  apply wp_bind, (wp_read _ _ v); [done|].
  apply wp_bind, wp_fallible; [intros _|apply eff_throw].
  apply wp_bind, wp_store; [done|]. apply wp_record. split.
  - apply eff_step_log, eff_step_store; [apply eff_step_tick, eff_refl|done..].
  - change (cell_at (upd (ticked m) dst (Live v)) dst = Some (Live v)).
    rewrite cell_at_upd by done. by rewrite decide_True.
Qed.

Lemma wp_move_construct m dst src v :
  val_at m src = Some v → is_Some (cell_at m dst) → dst ≠ src →
  wp (move_construct dst src) m
     (λ _ m', eff (λ q, q = dst ∨ q = src) [EvMoveCtor (Some src) (Some dst)] m m' ∧
              cell_at m' dst = Some (Live v) ∧ val_at m' src = Some (moved v))
     (λ m', eff (λ _, False) [] m m' ∧ raised ∧ nothrow_move_constructible = false).
Proof.
  intros Hv Hd Hne. unfold move_construct.
  apply wp_bind, (wp_read _ _ v); [done|].
  apply wp_bind. eapply wp_mono; [apply wp_move_ctor_check| |done].
  intros [] m1 H1. simpl.
  assert (is_Some (cell_at m1 dst)) as Hd1 by (by eapply eff_inb).
  assert (is_Some (cell_at m1 src)) as [c Hc] by (eapply eff_inb; [done|by eapply val_at_inb]).
  apply wp_bind, wp_store; [done|].
  assert (cell_at (upd m1 dst (Live v)) src = Some c) as Hc'.
  { rewrite cell_at_upd by done. by rewrite decide_False. }
  apply wp_bind, (wp_load _ _ c); [done|].
  apply wp_bind, wp_store; [by rewrite Hc'|]. apply wp_record. split; [|split].
  - apply eff_step_log, eff_step_store; [|by rewrite Hc'|by right].
    apply eff_step_store; [|done|by left]. by apply (eff_mono (λ _, False)).
  - change (cell_at (upd (upd m1 dst (Live v)) src (assigned c (moved v))) dst = Some (Live v)).
    rewrite cell_at_upd by (by rewrite Hc'). rewrite decide_False by done.
    rewrite cell_at_upd by done. by rewrite decide_True.
  - unfold val_at.
    change (match cell_at (upd (upd m1 dst (Live v)) src (assigned c (moved v))) src with
            | Some c0 => cell_val c0 | None => None end = Some (moved v)).
    rewrite cell_at_upd by (by rewrite Hc'). rewrite decide_True by done.
    apply cell_val_assigned.
Qed.

Lemma wp_copy_assign_elem m dst src v :
  val_at m src = Some v → is_Some (cell_at m dst) →
  wp (copy_assign_elem dst src) m
     (λ _ m', eff (λ q, q = dst) [EvCopyAssign (Some src) (Some dst)] m m' ∧
              val_at m' dst = Some v)
     (λ m', eff (λ _, False) [] m m' ∧ raised).
Proof.
  intros Hv [d Hd]. unfold copy_assign_elem.
  apply wp_bind, (wp_read _ _ v); [done|].
  apply wp_bind, wp_fallible; [intros _|apply eff_throw].
  apply wp_bind, (wp_load _ _ d); [done|].
  assert (is_Some (cell_at (ticked m) dst)) as Hd1 by (exists d; exact Hd).
  apply wp_bind, wp_store; [done|]. apply wp_record. split.
  - apply eff_step_log, eff_step_store; [apply eff_step_tick, eff_refl|done..].
  - unfold val_at.
    change (match cell_at (upd (ticked m) dst (assigned d v)) dst with
            | Some c0 => cell_val c0 | None => None end = Some v).
    rewrite cell_at_upd by done. rewrite decide_True by done.
    apply cell_val_assigned.
Qed.

Lemma wp_move_assign_elem m dst src v :
  val_at m src = Some v → is_Some (cell_at m dst) → dst ≠ src →
  wp (move_assign_elem dst src) m
     (λ _ m', eff (λ q, q = dst ∨ q = src) [EvMoveAssign (Some src) (Some dst)] m m' ∧
              val_at m' dst = Some v ∧ val_at m' src = Some (moved v))
     (λ m', eff (λ _, False) [] m m' ∧ raised).
Proof.
  intros Hv [d Hd] Hne. unfold move_assign_elem.
  apply wp_bind, (wp_read _ _ v); [done|].
  apply wp_bind, wp_fallible; [intros _|apply eff_throw].
  apply wp_bind, (wp_load _ _ d); [done|].
  assert (is_Some (cell_at (ticked m) dst)) as Hd1 by (exists d; exact Hd).
  apply wp_bind, wp_store; [done|].
  destruct (val_at_inb _ _ _ Hv) as [c Hc].
  assert (cell_at (upd (ticked m) dst (assigned d v)) src = Some c) as Hc'.
  { rewrite cell_at_upd by done. by rewrite decide_False. }
  apply wp_bind, (wp_load _ _ c); [done|].
  apply wp_bind, wp_store; [by rewrite Hc'|]. apply wp_record. split; [|split].
  - apply eff_step_log, eff_step_store; [|by rewrite Hc'|by right].
    apply eff_step_store; [|done|by left]. apply eff_step_tick, eff_refl.
  - unfold val_at.
    change (match cell_at (upd (upd (ticked m) dst (assigned d v)) src (assigned c (moved v))) dst
            with Some c0 => cell_val c0 | None => None end = Some v).
    rewrite cell_at_upd by (by rewrite Hc'). rewrite decide_False by done.
    rewrite cell_at_upd by done. rewrite decide_True by done. apply cell_val_assigned.
  - unfold val_at.
    change (match cell_at (upd (upd (ticked m) dst (assigned d v)) src (assigned c (moved v))) src
            with Some c0 => cell_val c0 | None => None end = Some (moved v)).
    rewrite cell_at_upd by (by rewrite Hc'). rewrite decide_True by done.
    apply cell_val_assigned.
Qed.

Lemma wp_make_temp m a :
  wp (make_temp a) m
     (λ v m', v = init_val a ∧ eff (λ _, False) [init_event a None] m m')
     (λ m', eff (λ _, False) [] m m' ∧ raised).
Proof.
  unfold make_temp. apply wp_bind.
  eapply wp_mono; [apply wp_init_check| |done].
  intros [] m1 [H1 _]. simpl. apply wp_bind, wp_record, wp_ret.
  split; [done|]. by apply eff_step_log.
Qed.

Lemma wp_make_temp_of m src v :
  val_at m src = Some v →
  wp (make_temp_of src) m
     (λ t m', t = v ∧ eff (λ _, False) [EvCopyCtor (Some src) None] m m')
     (λ m', eff (λ _, False) [] m m' ∧ raised).
Proof.
  intros Hv. unfold make_temp_of.
  apply wp_bind, (wp_read _ _ v); [done|].
  apply wp_bind, wp_fallible; [intros _|apply eff_throw].
  apply wp_bind, wp_record, wp_ret. split; [done|].
  apply eff_step_log, eff_step_tick, eff_refl.
Qed.

Lemma wp_assign_from_temp m dst v :
  is_Some (cell_at m dst) →
  wp (assign_from_temp dst v) m
     (λ _ m', eff (λ q, q = dst) [EvMoveAssign None (Some dst)] m m' ∧ val_at m' dst = Some v)
     (λ m', eff (λ _, False) [] m m' ∧ raised).
Proof.
  intros [d Hd]. unfold assign_from_temp.
  apply wp_bind, wp_fallible; [intros _|apply eff_throw].
  apply wp_bind, (wp_load _ _ d); [done|].
  assert (is_Some (cell_at (ticked m) dst)) as Hd1 by (exists d; exact Hd).
  apply wp_bind, wp_store; [done|]. apply wp_record. split.
  - apply eff_step_log, eff_step_store; [apply eff_step_tick, eff_refl|done..].
  - unfold val_at.
    change (match cell_at (upd (ticked m) dst (assigned d v)) dst with
            | Some c0 => cell_val c0 | None => None end = Some v).
    rewrite cell_at_upd by done. rewrite decide_True by done.
    apply cell_val_assigned.
Qed.

Lemma wp_destroy_at m p R :
  is_Some (cell_at m p) →
  wp (destroy_at p) m
     (λ _ m', eff (λ q, q = p) [EvDtor (Some p)] m m' ∧ cell_at m' p = Some Raw) R.
Proof.
  intros Hp. unfold destroy_at. apply wp_bind, wp_store; [done|]. apply wp_record. split.
  - apply eff_step_log, eff_step_store; [apply eff_refl|done..].
  - change (cell_at (upd m p Raw) p = Some Raw). rewrite cell_at_upd by done.
    by rewrite decide_True.
Qed.

(** ** The algorithms *)

Lemma evs_S f n : evs f (S n) = f n :: evs f n.
Proof. unfold evs. by rewrite seq_S, map_app, rev_app_distr. Qed.

Lemma ptr_add_inj p j k : ptr_add p j = ptr_add p k → j = k.
Proof. unfold ptr_add. intros [= H]. lia. Qed.

Lemma ptr_add_0 p : ptr_add p 0 = p.
Proof. destruct p. unfold ptr_add. simpl. by rewrite Nat.add_0_r. Qed.

Lemma ptr_add_add p j k : ptr_add (ptr_add p j) k = ptr_add p (j + k).
Proof. unfold ptr_add. simpl. by rewrite Nat.add_assoc. Qed.

Lemma in_range_add p n k : k < n → in_range p n (ptr_add p k).
Proof. unfold in_range, ptr_add. simpl. intros. split; [done|lia]. Qed.

Lemma wp_destroy_n m first n R :
  (∀ k, k < n → is_Some (cell_at m (ptr_add first k))) →
  wp (destroy_n first n) m
     (λ _ m', eff (in_range first n) (evs (λ k, EvDtor (Some (ptr_add first k))) n) m m' ∧
              ∀ k, k < n → cell_at m' (ptr_add first k) = Some Raw) R.
Proof.
  intros Hin. unfold destroy_n.
  set (I := λ (j : nat) (s : mem),
    eff (in_range first n) (evs (λ k, EvDtor (Some (ptr_add first k))) j) m s ∧
    ∀ k, k < j → cell_at s (ptr_add first k) = Some Raw).
  apply (wp_for_n I R _ n 0 m).
  - split; [apply eff_refl|]. intros k Hk. lia.
  - intros j s Hj [He Hraw].
    eapply wp_mono; [apply wp_destroy_at|simpl|done].
    + eapply eff_inb; [done|]. apply Hin. lia.
    + intros [] s' [He' Hc']. split.
      * rewrite evs_S. apply (eff_trans _ _ [_] m s s'); [done|].
        eapply eff_mono; [|done]. intros q ->. apply in_range_add. lia.
      * intros k Hk. destruct (decide (k = j)) as [->|Hne]; [done|].
        rewrite (eff_cell _ _ _ _ _ He'); [apply Hraw; lia|].
        intros Heq. by apply ptr_add_inj in Heq.
Qed.

Lemma wp_uninitialized_copy_n m first n d_first (f : nat → T) :
  (∀ k, k < n → val_at m (ptr_add first k) = Some (f k)) →
  (∀ k, k < n → is_Some (cell_at m (ptr_add d_first k))) →
  (∀ k, k < n → ¬ in_range d_first n (ptr_add first k)) →
  wp (uninitialized_copy_n first n d_first) m
     (λ _ m', eff (in_range d_first n)
                  (evs (λ k, EvCopyCtor (Some (ptr_add first k)) (Some (ptr_add d_first k))) n)
                  m m' ∧
              ∀ k, k < n → cell_at m' (ptr_add d_first k) = Some (Live (f k)))
     (λ m', agree (in_range d_first n) m m' ∧ raised).
Proof.
  intros Hsrc Hdst Hdisj. unfold uninitialized_copy_n.
  set (I := λ (j : nat) (s : mem),
    eff (in_range d_first n)
        (evs (λ k, EvCopyCtor (Some (ptr_add first k)) (Some (ptr_add d_first k))) j) m s ∧
    ∀ k, k < j → cell_at s (ptr_add d_first k) = Some (Live (f k))).
  apply (wp_for_n I _ _ n 0 m).
  - split; [apply eff_refl|]. intros k Hk. lia.
  - intros j s Hj [He Hlive]. simpl in Hj.
    apply wp_on_throw.
    eapply wp_mono; [apply (wp_copy_construct _ _ _ (f j))| |]; simpl.
    + rewrite (eff_val _ _ _ _ _ He); [apply Hsrc; lia|apply Hdisj; lia].
    + eapply eff_inb; [done|]. apply Hdst. lia.
    + intros [] s' [He' Hc']. split.
      * rewrite evs_S. apply (eff_trans _ _ [_] m s s'); [done|].
        eapply eff_mono; [|done]. intros q ->. apply in_range_add. lia.
      * intros k Hk. destruct (decide (k = j)) as [->|Hne]; [done|].
        rewrite (eff_cell _ _ _ _ _ He'); [apply Hlive; lia|].
        intros Heq. by apply ptr_add_inj in Heq.
    + intros s' [He' Hr].
      eapply wp_mono; [apply wp_destroy_n| |done]; simpl.
      * intros k Hk. eapply eff_inb; [done|]. eapply eff_inb; [done|]. apply Hdst. lia.
      * intros [] s'' [[Ha'' _] _]. split; [|done].
        eapply agree_trans; [apply He|]. eapply agree_trans.
        { eapply agree_mono; [|apply He']. done. }
        eapply agree_mono; [|done]. unfold in_range. intros q (?&?). split; [done|lia].
Qed.

Lemma wp_uninitialized_move_n m first n d_first (f : nat → T) :
  (∀ k, k < n → val_at m (ptr_add first k) = Some (f k)) →
  (∀ k, k < n → is_Some (cell_at m (ptr_add d_first k))) →
  (∀ k, k < n → ¬ in_range d_first n (ptr_add first k)) →
  wp (uninitialized_move_n first n d_first) m
     (λ _ m', eff (λ q, in_range d_first n q ∨ in_range first n q)
                  (evs (λ k, EvMoveCtor (Some (ptr_add first k)) (Some (ptr_add d_first k))) n)
                  m m' ∧
              (∀ k, k < n → cell_at m' (ptr_add d_first k) = Some (Live (f k))) ∧
              (∀ k, k < n → val_at m' (ptr_add first k) = Some (moved (f k))))
     (λ m', agree (λ q, in_range d_first n q ∨ in_range first n q) m m' ∧ raised ∧
            nothrow_move_constructible = false).
Proof.
  intros Hsrc Hdst Hdisj. unfold uninitialized_move_n.
  set (P := λ q, in_range d_first n q ∨ in_range first n q).
  set (I := λ (j : nat) (s : mem),
    eff P (evs (λ k, EvMoveCtor (Some (ptr_add first k)) (Some (ptr_add d_first k))) j) m s ∧
    (∀ k, k < j → cell_at s (ptr_add d_first k) = Some (Live (f k))) ∧
    (∀ k, k < j → val_at s (ptr_add first k) = Some (moved (f k))) ∧
    (∀ k, j ≤ k < n → val_at s (ptr_add first k) = Some (f k))).
  eapply wp_mono;
    [apply (wp_for_n I (λ m', agree P m m' ∧ raised ∧ nothrow_move_constructible = false)
              _ n 0 m)| |]; simpl.
  - split; [apply eff_refl|]. split; [intros k Hk; lia|]. split; [intros k Hk; lia|].
    intros k Hk. apply Hsrc. lia.
  - intros j s Hj (He&Hlive&Hmv&Hrest).
    assert (ptr_add d_first j ≠ ptr_add first j) as Hne.
    { intros Heq. apply (Hdisj j); [lia|]. rewrite <- Heq. apply in_range_add. lia. }
    apply wp_on_throw.
    eapply wp_mono; [apply (wp_move_construct _ _ _ (f j))| |]; simpl.
    + apply Hrest. lia.
    + eapply eff_inb; [done|]. apply Hdst. lia.
    + done.
    + intros [] s' (He'&Hc'&Hm'). split; [|split; [|split]].
      * rewrite evs_S. apply (eff_trans _ _ [_] m s s'); [done|].
        eapply eff_mono; [|done]. intros q [->| ->]; [left|right]; apply in_range_add; lia.
      * intros k Hk. destruct (decide (k = j)) as [->|Hkj]; [done|].
        rewrite (eff_cell _ _ _ _ _ He'); [apply Hlive; lia|].
        intros [Heq|Heq]; [by apply ptr_add_inj in Heq|].
        apply (Hdisj j); [lia|]. rewrite <- Heq. apply in_range_add. lia.
      * intros k Hk. destruct (decide (k = j)) as [->|Hkj]; [done|].
        rewrite (eff_val _ _ _ _ _ He'); [apply Hmv; lia|].
        intros [Heq|Heq]; [|by apply ptr_add_inj in Heq].
        apply (Hdisj k); [lia|]. rewrite Heq. apply in_range_add. lia.
      * intros k Hk. rewrite (eff_val _ _ _ _ _ He'); [apply Hrest; lia|].
        intros [Heq|Heq]; [|apply ptr_add_inj in Heq; lia].
        apply (Hdisj k); [lia|]. rewrite Heq. apply in_range_add. lia.
    + intros s' (He'&Hr&Hnt).
      eapply wp_mono; [apply wp_destroy_n| |done]; simpl.
      * intros k Hk. eapply eff_inb; [done|]. eapply eff_inb; [done|]. apply Hdst. lia.
      * intros [] s'' [[Ha'' _] _]. split; [|done].
        eapply agree_trans; [apply He|]. eapply agree_trans.
        { eapply agree_mono; [|apply He']. done. }
        eapply agree_mono; [|done]. unfold P, in_range. intros q (?&?). left. split; [done|lia].
  - intros [] m' (He&Hlive&Hmv&_). done.
  - done.
Qed.

(** A left shift by one slot inside one array, for any assignment [op]
    that behaves like a copy or a move assignment. *)
Lemma wp_shift_left (op : ptr → ptr → M mem unit) (ev : ptr → ptr → event)
    m first d_first n (f : nat → T) :
  (∀ s dst src v, val_at s src = Some v → is_Some (cell_at s dst) → dst ≠ src →
     wp (op dst src) s
        (λ _ s', eff (λ q, q = dst ∨ q = src) [ev src dst] s s' ∧ val_at s' dst = Some v)
        (λ _, raised)) →
  first = ptr_add d_first 1 →
  (∀ k, k < n → val_at m (ptr_add first k) = Some (f k)) →
  is_Some (cell_at m d_first) →
  wp (for_n 0 n (λ i, op (ptr_add d_first i) (ptr_add first i))) m
     (λ _ m', eff (in_range d_first (S n))
                  (evs (λ k, ev (ptr_add first k) (ptr_add d_first k)) n) m m' ∧
              ∀ k, k < n → val_at m' (ptr_add d_first k) = Some (f k))
     (λ _, raised).
Proof.
  intros Hop -> Hsrc Hd.
  set (first := ptr_add d_first 1) in *.
  set (I := λ (j : nat) (s : mem),
    eff (in_range d_first (S n)) (evs (λ k, ev (ptr_add first k) (ptr_add d_first k)) j) m s ∧
    (∀ k, k < j → val_at s (ptr_add d_first k) = Some (f k)) ∧
    (∀ k, j ≤ k < n → val_at s (ptr_add first k) = Some (f k))).
  eapply wp_mono; [apply (wp_for_n I (λ _, raised) _ n 0 m)| |]; simpl.
  - split; [apply eff_refl|]. split; [intros k Hk; lia|]. intros k Hk. apply Hsrc. lia.
  - intros j s Hj (He&Hdone&Hrest).
    eapply wp_mono; [apply (Hop _ _ _ (f j))| |done]; simpl.
    + apply Hrest. lia.
    + eapply eff_inb; [done|]. destruct j as [|j]; [by rewrite ptr_add_0|].
      replace (ptr_add d_first (S j)) with (ptr_add first j)
        by (unfold first, ptr_add; simpl; f_equal; lia).
      eapply val_at_inb. apply Hsrc. lia.
    + unfold first, ptr_add. simpl. intros [= H]. lia.
    + intros [] s' [He' Hv']. split; [|split].
      * rewrite evs_S. apply (eff_trans _ _ [_] m s s'); [done|].
        eapply eff_mono; [|done]. unfold first, in_range, ptr_add.
        intros q [->| ->]; simpl; (split; [done|lia]).
      * intros k Hk. destruct (decide (k = j)) as [->|Hkj]; [done|].
        rewrite (eff_val _ _ _ _ _ He'); [apply Hdone; lia|].
        unfold first, ptr_add. simpl. intros [[= H]|[= H]]; lia.
      * intros k Hk. rewrite (eff_val _ _ _ _ _ He'); [apply Hrest; lia|].
        unfold first, ptr_add. simpl. intros [[= H]|[= H]]; lia.
  - intros [] m' (He&Hdone&_). done.
  - done.
Qed.

Lemma distance_add {St} p j n (s : St) : distance (ptr_add p j) (ptr_add p (j + n)) s = Ok n s.
Proof.
  unfold distance, ptr_add. simpl. rewrite decide_True by (split; [done|lia]).
  unfold ret. f_equal. lia.
Qed.

Lemma distance_add0 {St} p n (s : St) : distance p (ptr_add p n) s = Ok n s.
Proof.
  unfold distance, ptr_add. simpl. rewrite decide_True by (split; [done|lia]).
  unfold ret. f_equal. lia.
Qed.

Lemma wp_std_move m d n (f : nat → T) :
  (∀ k, k < n → val_at m (ptr_add d (S k)) = Some (f k)) →
  is_Some (cell_at m d) →
  wp (std_move (ptr_add d 1) (ptr_add d (1 + n)) d) m
     (λ _ m', eff (in_range d (S n))
                  (evs (λ k, EvMoveAssign (Some (ptr_add (ptr_add d 1) k)) (Some (ptr_add d k))) n)
                  m m' ∧
              ∀ k, k < n → val_at m' (ptr_add d k) = Some (f k))
     (λ _, raised).
Proof.
  intros Hsrc Hd. unfold std_move. apply wp_bind. unfold wp at 1.
  rewrite distance_add.
  apply (wp_shift_left move_assign_elem (λ src dst, EvMoveAssign (Some src) (Some dst))
           m (ptr_add d 1) d n f); [|done| |done].
  - intros s dst src v Hv Hdst Hne.
    eapply wp_mono; [by apply (wp_move_assign_elem _ _ _ v)| |]; simpl.
    + by intros [] s' (?&?&_).
    + by intros s' [_ ?].
  - intros k Hk. rewrite ptr_add_add. by apply Hsrc.
Qed.

Lemma wp_std_copy m d n (f : nat → T) :
  (∀ k, k < n → val_at m (ptr_add d (S k)) = Some (f k)) →
  is_Some (cell_at m d) →
  wp (std_copy (ptr_add d 1) (ptr_add d (1 + n)) d) m
     (λ _ m', eff (in_range d (S n))
                  (evs (λ k, EvCopyAssign (Some (ptr_add (ptr_add d 1) k)) (Some (ptr_add d k))) n)
                  m m' ∧
              ∀ k, k < n → val_at m' (ptr_add d k) = Some (f k))
     (λ _, raised).
Proof.
  intros Hsrc Hd. unfold std_copy. apply wp_bind. unfold wp at 1.
  rewrite distance_add.
  apply (wp_shift_left copy_assign_elem (λ src dst, EvCopyAssign (Some src) (Some dst))
           m (ptr_add d 1) d n f); [|done| |done].
  - intros s dst src v Hv Hdst Hne.
    eapply wp_mono; [by apply (wp_copy_assign_elem _ _ _ v)| |]; simpl.
    + intros [] s' [He ?]. split; [|done]. eapply eff_mono; [|done]. naive_solver.
    + by intros s' [_ ?].
  - intros k Hk. rewrite ptr_add_add. by apply Hsrc.
Qed.

Lemma ptr_sub_add p n k : k ≤ n → ptr_sub (ptr_add p n) k = Some (ptr_add p (n - k)).
Proof.
  intros Hk. unfold ptr_sub, ptr_add. simpl. rewrite decide_True by lia.
  do 2 f_equal. lia.
Qed.

Lemma wp_move_backward m first n (f : nat → T) :
  (∀ k, k < n → val_at m (ptr_add first k) = Some (f k)) →
  is_Some (cell_at m (ptr_add first n)) →
  wp (move_backward first (ptr_add first n) (ptr_add first (S n))) m
     (λ _ m', eff (in_range first (S n))
                  (evs (λ k, EvMoveAssign (Some (ptr_add first (n - S k)))
                                          (Some (ptr_add first (S n - S k)))) n)
                  m m' ∧
              (∀ k, k < n → val_at m' (ptr_add first (S k)) = Some (f k)) ∧
              (n = 0 → m' = m) ∧
              (0 < n → val_at m' first = Some (moved (f 0))))
     (λ _, raised).
Proof.
  intros Hsrc Hlast. unfold move_backward. apply wp_bind. unfold wp at 1.
  rewrite distance_add0.
  set (I := λ (j : nat) (s : mem),
    eff (in_range first (S n))
        (evs (λ k, EvMoveAssign (Some (ptr_add first (n - S k)))
                                (Some (ptr_add first (S n - S k)))) j) m s ∧
    (∀ k, n - j ≤ k < n → val_at s (ptr_add first (S k)) = Some (f k)) ∧
    (∀ k, k < n - j → val_at s (ptr_add first k) = Some (f k)) ∧
    (j = 0 → s = m) ∧
    (0 < j → val_at s (ptr_add first (n - j)) = Some (moved (f (n - j))))).
  assert (∀ k, k ≤ n → is_Some (cell_at m (ptr_add first k))) as Hin.
  { intros k Hk. destruct (decide (k = n)) as [->|?]; [done|].
    eapply val_at_inb, Hsrc. lia. }
  eapply wp_mono; [apply (wp_for_n I (λ _, raised) _ n 0 m)| |]; simpl.
  - split; [apply eff_refl|]. split; [intros k Hk; lia|].
    split; [intros k Hk; apply Hsrc; lia|]. split; [done|]. intros ?. lia.
  - intros j s Hj (He&Hdone&Hrest&_).
    apply wp_bind, (wp_some _ _ _ _ _ (ptr_sub_add first (S n) (S j) ltac:(lia))).
    apply wp_bind, (wp_some _ _ _ _ _ (ptr_sub_add first n (S j) ltac:(lia))).
    eapply wp_mono; [apply (wp_move_assign_elem _ _ _ (f (n - S j)))| |]; simpl.
    + apply Hrest. lia.
    + eapply eff_inb; [done|]. apply Hin. lia.
    + unfold ptr_add. intros [= H]. lia.
    + intros [] s' (He'&Hv'&Hm'). split; [|split; [|split; [|split]]].
      * rewrite evs_S. apply (eff_trans _ _ [_] m s s'); [done|].
        eapply eff_mono; [|done]. unfold in_range, ptr_add.
        intros q [->| ->]; simpl; (split; [done|lia]).
      * intros k Hk. destruct (decide (k = n - S j)) as [->|Hkj].
        { replace (S (n - S j)) with (S n - S j) by lia. done. }
        rewrite (eff_val _ _ _ _ _ He'); [apply Hdone; lia|].
        unfold ptr_add. simpl. intros [[= H]|[= H]]; lia.
      * intros k Hk. rewrite (eff_val _ _ _ _ _ He'); [apply Hrest; lia|].
        unfold ptr_add. simpl. intros [[= H]|[= H]]; lia.
      * intros ?. lia.
      * intros _. exact Hm'.
    + by intros s' [_ ?].
  - intros [] m' (He&Hdone&_&Hz&Hmv). split; [done|]. split; [|split].
    + intros k Hk. apply Hdone. lia.
    + intros ->. by apply Hz.
    + intros Hn. specialize (Hmv Hn). by rewrite Nat.sub_diag, ptr_add_0 in Hmv.
  - done.
Qed.

(** ** Allocation *)

Lemma cell_at_block m m' b q :
  heap m' !! b = heap m !! b → base q = Some b → cell_at m' q = cell_at m q.
Proof. intros Hh Hq. unfold cell_at. by rewrite Hq, Hh. Qed.

Lemma val_at_block m m' b q :
  heap m' !! b = heap m !! b → base q = Some b → val_at m' q = val_at m q.
Proof. intros Hh Hq. unfold val_at. by rewrite (cell_at_block m m' b q). Qed.

Lemma agree_False_heap m m' : agree (λ _, False) m m' → heap m' = heap m.
Proof.
  intros H. apply map_eq. intros b. apply (agree_heap (λ _, False)); [done|]. by intros o ?.
Qed.

Lemma wp_Allocate m n :
  n ≠ 0 →
  wp (Allocate n) m
     (λ p m', ∃ b, p = Ptr (Some b) 0 ∧ heap m !! b = None ∧
                   heap m' = <[b := replicate n Raw]> (heap m) ∧
                   log m' = EvAlloc b n :: log m ∧ tick m' = S (tick m) ∧
                   throws (tick m) = false)
     (λ m', m' = ticked m ∧ throws (tick m) = true).
Proof.
  intros Hn. unfold Allocate. rewrite decide_False by done.
  apply wp_bind, wp_fallible; [|done]. intros Ht. unfold wp. simpl.
  exists (fresh (dom (heap m))). split; [done|]. split; [|done].
  apply not_elem_of_dom, is_fresh.
Qed.

Lemma wp_RawMemory_ctor m n :
  n ≠ 0 →
  wp (RawMemory_ctor n) m
     (λ r m', ∃ b, r = mkRaw (Ptr (Some b) 0) n ∧ heap m !! b = None ∧
                   heap m' = <[b := replicate n Raw]> (heap m) ∧
                   log m' = EvAlloc b n :: log m ∧ tick m' = S (tick m) ∧
                   throws (tick m) = false)
     (λ m', m' = ticked m ∧ throws (tick m) = true).
Proof.
  intros Hn. unfold RawMemory_ctor. apply wp_bind.
  eapply wp_mono; [by apply wp_Allocate| |done]. simpl.
  intros p m' (b&->&?&?&?&?). apply wp_ret. by exists b.
Qed.

Lemma wp_Deallocate m b cs Q R :
  heap m !! b = Some cs →
  Q tt (Mem (delete b (heap m)) (EvFree b :: log m) (tick m)) →
  wp (Deallocate (Ptr (Some b) 0)) m Q R.
Proof. intros Hb HQ. unfold wp, Deallocate. simpl. by rewrite Hb. Qed.

(** Cells of a freshly allocated block. *)
Lemma cell_at_fresh m m' b n k :
  heap m' = <[b := replicate n Raw]> (heap m) → k < n →
  cell_at m' (ptr_add (Ptr (Some b) 0) k) = Some Raw.
Proof.
  intros Hh Hk. unfold cell_at. simpl. rewrite Hh, lookup_insert_eq.
  by apply lookup_replicate_2.
Qed.

(** ** Member functions: reading and writing [this] *)

Lemma wp_get_data (s : Vector * mem) Q R : Q (data_ s.1) s → wp get_data s Q R.
Proof. done. Qed.

Lemma wp_get_size (s : Vector * mem) Q R : Q (size_ s.1) s → wp get_size s Q R.
Proof. done. Qed.

Lemma wp_set_data d (s : Vector * mem) Q R : Q tt (mkVec d (size_ s.1), s.2) → wp (set_data d) s Q R.
Proof. done. Qed.

Lemma wp_set_size n (s : Vector * mem) Q R :
  Q tt (mkVec (data_ s.1) n, s.2) → wp (set_size n) s Q R.
Proof. done. Qed.

Lemma wp_Capacity (s : Vector * mem) Q R : Q (capacity_ (data_ s.1)) s → wp Capacity s Q R.
Proof. done. Qed.

Lemma wp_begin (s : Vector * mem) Q R : Q (buffer_ (data_ s.1)) s → wp begin_ s Q R.
Proof. done. Qed.

Lemma wp_RawMemory_plus {St} r k (s : St) Q R :
  k ≤ capacity_ r → Q (ptr_add (buffer_ r) k) s → wp (RawMemory_plus r k) s Q R.
Proof.
  intros Hk HQ. unfold RawMemory_plus. apply wp_bind, wp_assert; [|done].
  by apply Nat.leb_le.
Qed.

Lemma wp_RawMemory_index {St} r k (s : St) Q R :
  k ≤ capacity_ r → Q (ptr_add (buffer_ r) k) s → wp (RawMemory_index r k) s Q R.
Proof.
  intros Hk HQ. unfold RawMemory_index. apply wp_bind, wp_assert; [|done].
  by apply Nat.leb_le.
Qed.

Lemma wp_end (s : Vector * mem) Q R :
  size_ s.1 ≤ capacity_ (data_ s.1) →
  Q (ptr_add (buffer_ (data_ s.1)) (size_ s.1)) s → wp end_ s Q R.
Proof.
  intros Hle HQ. unfold end_. apply wp_bind, wp_get_size.
  case_decide as Hz.
  - apply wp_begin. rewrite Hz, ptr_add_0 in HQ. done.
  - apply wp_bind, wp_get_data. by apply wp_RawMemory_plus.
Qed.

Lemma wp_dec {St} n (s : St) Q R : Q n s → wp (dec (S n)) s Q R.
Proof. done. Qed.

Lemma wp_distance {St} p n (s : St) Q R : Q n s → wp (distance p (ptr_add p n)) s Q R.
Proof. intros HQ. unfold wp. by rewrite distance_add0. Qed.

Arguments wp : simpl never.

Ltac wpb := lazymatch goal with |- wp (bind _ _) _ _ _ => apply wp_bind end.

Ltac wp_step :=
  lazymatch goal with
  | |- wp (ret _) _ _ _ => apply wp_ret
  | |- wp (bind get_data _) _ _ _ => apply wp_bind, wp_get_data
  | |- wp (bind get_size _) _ _ _ => apply wp_bind, wp_get_size
  | |- wp (bind Size _) _ _ _ => apply wp_bind, wp_get_size
  | |- wp (bind (set_data _) _) _ _ _ => apply wp_bind, wp_set_data
  | |- wp (bind (set_size _) _) _ _ _ => apply wp_bind, wp_set_size
  | |- wp (bind Capacity _) _ _ _ => apply wp_bind, wp_Capacity
  | |- wp (bind begin_ _) _ _ _ => apply wp_bind, wp_begin
  | |- wp (bind cbegin _) _ _ _ => apply wp_bind, wp_begin
  | |- wp (bind (bind _ _) _) _ _ _ => apply wp_bind
  end;
  simpl.

(** ** Consequences of the representation invariant *)

Lemma wf_inb v m k :
  wf v m → k < capacity_ (data_ v) → is_Some (cell_at m (ptr_add (buffer_ (data_ v)) k)).
Proof.
  intros (_&Ho&Hb&_) Hk. apply cell_at_inb.
  destruct (base (buffer_ (data_ v))) as [b|] eqn:E; [|lia].
  exists b, (capacity_ (data_ v)). simpl. rewrite Ho. by destruct Hb.
Qed.

Lemma wf_val v m k :
  wf v m → k < size_ v →
  val_at m (ptr_add (buffer_ (data_ v)) k) =
    Some (default default_value (val_at m (ptr_add (buffer_ (data_ v)) k))).
Proof. intros (_&_&_&Hv) Hk. by destruct (Hv k Hk) as [x ->]. Qed.

(** ** Relocation under the rule of the source, and the commit that follows *)

Lemma wp_relocate (v : Vector) m first n d_first (f : nat → T) :
  (∀ k, k < n → val_at m (ptr_add first k) = Some (f k)) →
  (∀ k, k < n → is_Some (cell_at m (ptr_add d_first k))) →
  (∀ k, k < n → ¬ in_range d_first n (ptr_add first k)) →
  wp (if use_move
      then lift (uninitialized_move_n first n d_first)
      else lift (uninitialized_copy_n first n d_first)) (v, m)
     (λ _ s', s'.1 = v ∧
        eff (λ q, in_range d_first n q ∨ (use_move = true ∧ in_range first n q))
            (evs (λ k, reloc_event (ptr_add first k) (ptr_add d_first k)) n) m s'.2 ∧
        ∀ k, k < n → cell_at s'.2 (ptr_add d_first k) = Some (Live (f k)))
     (λ s', s'.1 = v ∧ raised ∧
        agree (λ q, in_range d_first n q ∨
                    (use_move = true ∧ nothrow_move_constructible = false ∧ in_range first n q))
              m s'.2 ∧
        (use_move = true → nothrow_move_constructible = false)).
Proof.
  intros Hsrc Hdst Hdisj. unfold reloc_event. destruct use_move; apply wp_lift.
  - eapply wp_mono; [by apply (wp_uninitialized_move_n _ _ _ _ f)| |]; simpl.
    + intros [] m' (He&Hl&_). split; [done|]. split; [|done].
      eapply eff_mono; [|done]. intros q [?|?]; [by left|by right].
    + intros m' (Ha&Hr&Hnt). split; [done|]. split; [done|]. split; [|done].
      eapply agree_mono; [|done]. intros q [?|?]; [by left|by right].
  - eapply wp_mono; [by apply (wp_uninitialized_copy_n _ _ _ _ f)| |]; simpl.
    + intros [] m' (He&Hl). split; [done|]. split; [|done].
      eapply eff_mono; [|done]. intros q ?. by left.
    + intros m' (Ha&Hr). split; [done|]. split; [done|]. split; [|done].
      eapply agree_mono; [|done]. intros q ?. by left.
Qed.

Lemma in_range_base p n b o : in_range p n (Ptr (Some b) o) → base p = Some b.
Proof. by intros [? _]. Qed.

(** Swapping the new buffer in, destroying the old elements and releasing
    the old block. *)
Lemma wp_commit (v : Vector) m new_data size Q R :
  (∀ k, k < size → is_Some (cell_at m (ptr_add (buffer_ (data_ v)) k))) →
  offs (buffer_ (data_ v)) = 0 →
  (∀ b, base (buffer_ (data_ v)) = Some b → is_Some (heap m !! b)) →
  (∀ m',
     (∀ b, base (buffer_ (data_ v)) ≠ Some b → heap m' !! b = heap m !! b) →
     (∀ b, base (buffer_ (data_ v)) = Some b → heap m' !! b = None) →
     log m' = free_event (data_ v) ++
              evs (λ k, EvDtor (Some (ptr_add (buffer_ (data_ v)) k))) size ++ log m →
     Q tt (mkVec (mkRaw (buffer_ new_data) (capacity_ new_data)) (size_ v), m')) →
  wp (nd <- Swap_data new_data ;;
      lift (destroy_n (GetAddress nd) size) ;;
      lift (RawMemory_dtor nd)) (v, m) Q R.
Proof.
  intros Hin Ho Hblk HQ. unfold Swap_data.
  do 4 wp_step. apply wp_bind, wp_lift. unfold GetAddress.
  eapply wp_mono; [by apply (wp_destroy_n _ _ _ (λ _, False))| |done]. simpl.
  intros [] m1 [[Ha Hl] _]. apply wp_lift. unfold RawMemory_dtor, free_event in *.
  destruct (buffer_ (data_ v)) as [[ob|] oo] eqn:Eb; simpl in *; subst oo.
  - destruct (Hblk ob eq_refl) as [cs Hcs].
    assert (is_Some (heap m1 !! ob)) as [cs1 Hcs1].
    { destruct Ha as [Hb _]. specialize (Hb ob). unfold blen in Hb. rewrite Hcs in Hb.
      destruct (heap m1 !! ob); [eauto|done]. }
    apply (wp_Deallocate _ _ cs1); [done|]. apply HQ; simpl.
    + intros b Hb. rewrite lookup_delete_ne by congruence.
      apply (agree_heap _ _ _ _ Ha). intros o Hr. apply in_range_base in Hr. simpl in Hr.
      congruence.
    + intros b [= <-]. apply lookup_delete_eq.
    + by rewrite Hl.
  - apply wp_ret. apply HQ; simpl.
    + intros b _. apply (agree_heap _ _ _ _ Ha). intros o Hr. by apply in_range_base in Hr.
    + done.
    + done.
Qed.

(** A throwing body releases the local [new_data]; when nothing outside the
    new block was written, the heap is the one before the allocation. *)
Lemma wp_guard {A} (body : M (Vector * mem) A) (v : Vector) m m1 nb n (safe : Prop) Q :
  heap m !! nb = None →
  heap m1 = <[nb := replicate n Raw]> (heap m) →
  wp body (v, m1) Q
     (λ s', s'.1 = v ∧ raised ∧
            ∃ P : ptr → Prop, agree P m1 s'.2 ∧ (safe → ∀ q, P q → base q = Some nb)) →
  wp (on_throw body (lift (RawMemory_dtor (mkRaw (Ptr (Some nb) 0) n)))) (v, m1) Q
     (λ s', s'.1 = v ∧ raised ∧ (safe → heap s'.2 = heap m)).
Proof.
  intros Hfresh Hheap Hbody. apply wp_on_throw.
  eapply wp_mono; [exact Hbody|done|]. simpl.
  intros [v' m2] (Hv&Hr&P&Ha&HP). simpl in *. subst v'. apply wp_lift.
  assert (is_Some (heap m2 !! nb)) as [cs Hcs].
  { destruct Ha as [Hb _]. specialize (Hb nb). unfold blen in Hb.
    rewrite Hheap, lookup_insert_eq in Hb. destruct (heap m2 !! nb); [eauto|done]. }
  unfold RawMemory_dtor. simpl. apply (wp_Deallocate _ _ cs); [done|]. simpl.
  split; [done|]. split; [done|]. intros Hsafe. apply map_eq. intros b.
  destruct (decide (b = nb)) as [->|Hne].
  - by rewrite lookup_delete_eq.
  - rewrite lookup_delete_ne by done.
    rewrite (agree_heap _ _ _ _ Ha).
    + by rewrite Hheap, lookup_insert_ne.
    + intros o Hq. apply (HP Hsafe) in Hq. simpl in Hq. congruence.
Qed.

(** ** [EmplaceBack] *)

Lemma wp_EmplaceBack v m a :
  wf v m →
  wp (EmplaceBack a) (v, m)
     (λ p s',
        size_ s'.1 = S (size_ v) ∧
        p = ptr_add (buffer_ (data_ s'.1)) (size_ v) ∧
        wf s'.1 s'.2 ∧
        cell_at s'.2 p = Some (Live (init_val a)) ∧
        (∀ i, i < size_ v →
           val_at s'.2 (ptr_add (buffer_ (data_ s'.1)) i) =
           val_at m (ptr_add (buffer_ (data_ v)) i)) ∧
        (size_ v < capacity_ (data_ v) →
           data_ s'.1 = data_ v ∧ log s'.2 = init_event a (Some p) :: log m) ∧
        (capacity_ (data_ v) ≤ size_ v →
           ∃ nb, data_ s'.1 = mkRaw (Ptr (Some nb) 0) (grown (size_ v)) ∧
                 log s'.2 =
                   free_event (data_ v) ++
                   evs (λ k, EvDtor (Some (ptr_add (buffer_ (data_ v)) k))) (size_ v) ++
                   evs (λ k, reloc_event (ptr_add (buffer_ (data_ v)) k)
                                         (ptr_add (Ptr (Some nb) 0) k)) (size_ v) ++
                   [init_event a (Some p); EvAlloc nb (grown (size_ v))] ++ log m))
     (λ s', s'.1 = v ∧ raised ∧
            (use_move = false ∨ nothrow_move_constructible = true ∨
             throws (tick m) = true ∨ throws (S (tick m)) = true ∨
             size_ v < capacity_ (data_ v) → heap s'.2 = heap m)).
Proof.
  intros Hwf. pose proof Hwf as (Hle&Ho&Hblk&Hvals).
  unfold EmplaceBack. do 2 wp_step.
  destruct (size_ v <? capacity_ (data_ v)) eqn:Hlt.
  - apply Nat.ltb_lt in Hlt.
    do 2 wp_step. apply wp_bind, wp_RawMemory_plus; [lia|].
    apply wp_lift.
    eapply wp_mono; [apply wp_construct_at; apply (wf_inb v m); [done|lia]| |]; simpl.
    + intros [] m1 (He&Hc&_). do 3 wp_step.
      replace (size_ v + 1) with (S (size_ v)) by lia.
      apply wp_bind, wp_dec.
      wp_step. apply wp_RawMemory_index; [simpl; lia|]. simpl.
      split; [done|]. split; [done|]. split; [|split; [done|split; [|split]]].
      * split; [simpl; lia|]. split; [done|]. simpl. split.
        { destruct (base (buffer_ (data_ v))) as [b|]; [|done].
          destruct He as [[Hb _] _]. by rewrite Hb. }
        intros i Hi. destruct (decide (i = size_ v)) as [->|Hne].
        { unfold val_at. rewrite Hc. eauto. }
        rewrite (eff_val _ _ _ _ _ He); [apply Hvals; lia|].
        intros Heq. by apply ptr_add_inj in Heq.
      * intros i Hi. apply (eff_val _ _ _ _ _ He).
        intros Heq. apply ptr_add_inj in Heq. lia.
      * intros _. split; [by destruct (data_ v)|]. by destruct He as [_ ->].
      * intros ?. lia.
    + intros m1 [He Hr]. split; [done|]. split; [done|]. intros _.
      apply agree_False_heap, He.
  - apply Nat.ltb_ge in Hlt.
    assert (grown (size_ v) ≠ 0) as Hg0 by (unfold grown; case_decide; lia).
    assert (S (size_ v) ≤ grown (size_ v)) as Hg1 by (unfold grown; case_decide; lia).
    do 2 wp_step. fold (grown (size_ v)). wpb. apply wp_lift.
    eapply wp_mono; [by apply wp_RawMemory_ctor| |]; simpl.
    2:{ intros m' [-> Ht]. split; [done|]. split; [by exists (tick m)|]. done. }
    intros r m1 (nb&->&Hfresh&Hheap&Hlog1&Htick1&Hnt).
    assert (base (buffer_ (data_ v)) ≠ Some nb) as Hnb.
    { intros E. rewrite E in Hblk. destruct Hblk as [Hb _]. unfold blen in Hb.
      by rewrite Hfresh in Hb. }
    set (buf := buffer_ (data_ v)) in *.
    set (new := Ptr (Some nb) 0).
    set (f := λ k, default default_value (val_at m (ptr_add buf k))).
    assert (∀ b, Some b ≠ Some nb → heap m1 !! b = heap m !! b) as Hold.
    { intros b Hb. rewrite Hheap. apply lookup_insert_ne. congruence. }
    assert (∀ k, k < size_ v → val_at m1 (ptr_add buf k) = Some (f k)) as Hsrc1.
    { intros k Hk. destruct (base buf) as [ob|] eqn:Eb.
      - rewrite (val_at_block m m1 ob); [by apply wf_val|apply Hold; congruence|done].
      - lia. }
    wpb.
    eapply wp_mono;
      [apply (wp_guard _ v m m1 nb (grown (size_ v))
                (use_move = false ∨ nothrow_move_constructible = true ∨
                 throws (S (tick m)) = true)
                (λ _ s', s'.1 = v ∧
                   log s'.2 = evs (λ k, reloc_event (ptr_add buf k) (ptr_add new k)) (size_ v) ++
                              [init_event a (Some (ptr_add new (size_ v)));
                               EvAlloc nb (grown (size_ v))] ++ log m ∧
                   (∀ k, k < size_ v → cell_at s'.2 (ptr_add new k) = Some (Live (f k))) ∧
                   cell_at s'.2 (ptr_add new (size_ v)) = Some (Live (init_val a)) ∧
                   (∀ b, blen s'.2 b = blen m1 b))
                Hfresh Hheap)| |]; simpl.
    + wpb. apply wp_RawMemory_plus; [simpl; lia|]. simpl. fold new.
      wpb. apply wp_lift.
      eapply wp_mono; [apply wp_construct_at| |]; simpl.
      * unfold new. rewrite (cell_at_fresh m m1 nb (grown (size_ v))); [eauto|done|lia].
      * intros [] m2 (He2&Hc2&Ht2).
        eapply wp_mono; [apply (wp_relocate v m2 buf (size_ v) new f)| |]; simpl.
        -- intros k Hk. rewrite (eff_val _ _ _ _ _ He2); [by apply Hsrc1|].
           intros Heq. apply (f_equal base) in Heq. simpl in Heq. done.
        -- intros k Hk. eapply eff_inb; [done|].
           unfold new. rewrite (cell_at_fresh m m1 nb (grown (size_ v))); [eauto|done|lia].
        -- intros k Hk [Hb _]. simpl in Hb. done.
        -- intros [] [v3 m3] (Hv&He3&Hl3). simpl in *. split; [done|].
           split; [|split; [done|split]].
           ++ destruct He3 as [_ ->]. destruct He2 as [_ ->]. by rewrite Hlog1.
           ++ rewrite (eff_cell _ _ _ _ _ He3); [done|].
              unfold in_range, new, ptr_add. simpl. intros [[_ ?]|[_ [Hb _]]]; [lia|done].
           ++ intros b. destruct He3 as [[-> _] _]. by destruct He2 as [[-> _] _].
        -- intros [v3 m3] (Hv&Hr&Ha3&_). simpl in *. split; [done|]. split; [done|].
           exists (λ q, q = ptr_add new (size_ v) ∨
                        (in_range new (size_ v) q ∨
                         use_move = true ∧ nothrow_move_constructible = false ∧
                         in_range buf (size_ v) q)).
           split.
           ++ eapply agree_trans; [eapply agree_mono; [|apply He2]; by left|].
              eapply agree_mono; [|done]. by right.
           ++ intros Hsafe q [->|[[Hb _]|(Hu&Hn&_)]]; [done|done|].
              destruct Hsafe as [?|[?|Hs]]; [congruence..|].
              rewrite Htick1 in Ht2. specialize (Ht2 Hn). congruence.
      * intros m2 [He2 Hr]. split; [done|]. split; [done|].
        exists (λ _, False). split; [apply He2|done].
    + intros [] [v3 m3] (Hv&Hl3&Hc3&Hx3&Hb3). simpl in *. subst v3.
      apply wp_commit.
      * intros k Hk. apply cell_at_inb.
        destruct (val_at_inb _ _ _ (Hsrc1 k Hk)) as [c Hc].
        destruct (proj1 (cell_at_inb m1 _) (ex_intro _ c Hc)) as (b&n&?&?&?).
        exists b, n. by rewrite Hb3.
      * done.
      * intros b Eb. fold buf in Eb. specialize (Hb3 b). unfold blen in Hb3.
        rewrite Hold in Hb3 by congruence. rewrite Eb in Hblk. destruct Hblk as [Hb _].
        unfold blen in Hb. destruct (heap m !! b); [|done]. destruct (heap m3 !! b); [eauto|done].
      * intros m4 H1 H2 H3. simpl. do 3 wp_step.
        replace (size_ v + 1) with (S (size_ v)) by lia.
        wpb. apply wp_dec. wp_step. apply wp_RawMemory_index; [simpl; lia|]. simpl. fold new.
        assert (∀ q, base q = Some nb → cell_at m4 q = cell_at m3 q) as Hnew.
        { intros q Hq. apply (cell_at_block _ _ nb); [|done]. apply H1. by fold buf. }
        split; [done|]. split; [done|]. split; [|split; [|split; [|split]]].
        -- split; [simpl; lia|]. split; [done|]. simpl. split.
           { split; [|lia]. unfold blen. rewrite H1 by (by fold buf).
             specialize (Hb3 nb). unfold blen in Hb3. rewrite Hb3, Hheap, lookup_insert_eq.
             simpl. by rewrite length_replicate. }
           intros i Hi. unfold val_at. rewrite Hnew by done.
           destruct (decide (i = size_ v)) as [->|Hne]; [rewrite Hx3; eauto|].
           rewrite Hc3 by lia. eauto.
        -- by rewrite Hnew.
        -- intros i Hi. unfold val_at at 1. rewrite Hnew by done. rewrite Hc3 by done.
           simpl. symmetry. by apply wf_val.
        -- intros ?. lia.
        -- intros _. exists nb. split; [done|]. by rewrite H3, Hl3.
    + intros [v3 m3] (Hv&Hr&Hh). simpl in *. split; [done|]. split; [done|].
      intros [?|[?|[?|[?|?]]]]; [apply Hh; auto..|congruence|apply Hh; auto|lia].
Qed.

(** ** [Reserve] *)

Lemma wp_Reserve v m c :
  wf v m →
  wp (Reserve c) (v, m)
     (λ _ s',
        size_ s'.1 = size_ v ∧
        wf s'.1 s'.2 ∧
        (∀ i, i < size_ v →
           val_at s'.2 (ptr_add (buffer_ (data_ s'.1)) i) =
           val_at m (ptr_add (buffer_ (data_ v)) i)) ∧
        (c ≤ capacity_ (data_ v) → s' = (v, m)) ∧
        (capacity_ (data_ v) < c →
           ∃ nb, data_ s'.1 = mkRaw (Ptr (Some nb) 0) c ∧
                 log s'.2 =
                   free_event (data_ v) ++
                   evs (λ k, EvDtor (Some (ptr_add (buffer_ (data_ v)) k))) (size_ v) ++
                   evs (λ k, reloc_event (ptr_add (buffer_ (data_ v)) k)
                                         (ptr_add (Ptr (Some nb) 0) k)) (size_ v) ++
                   [EvAlloc nb c] ++ log m))
     (λ s', s'.1 = v ∧ raised ∧
            (use_move = false ∨ nothrow_move_constructible = true ∨
             throws (tick m) = true → heap s'.2 = heap m)).
Proof.
  intros Hwf. pose proof Hwf as (Hle&Ho&Hblk&Hvals).
  unfold Reserve. wp_step. unfold RawMemory_Capacity.
  destruct (c <=? capacity_ (data_ v)) eqn:Hc.
  - apply Nat.leb_le in Hc. apply wp_ret. split; [done|]. split; [done|]. split; [done|].
    split; [done|]. intros ?. lia.
  - apply Nat.leb_gt in Hc.
    wpb. apply wp_lift.
    eapply wp_mono; [apply wp_RawMemory_ctor; lia| |]; simpl.
    2:{ intros m' [-> Ht]. split; [done|]. split; [by exists (tick m)|]. done. }
    intros r m1 (nb&->&Hfresh&Hheap&Hlog1&Htick1&Hnt).
    assert (base (buffer_ (data_ v)) ≠ Some nb) as Hnb.
    { intros E. rewrite E in Hblk. destruct Hblk as [Hb _]. unfold blen in Hb.
      by rewrite Hfresh in Hb. }
    set (buf := buffer_ (data_ v)) in *.
    set (new := Ptr (Some nb) 0).
    set (f := λ k, default default_value (val_at m (ptr_add buf k))).
    assert (∀ b, Some b ≠ Some nb → heap m1 !! b = heap m !! b) as Hold.
    { intros b Hb. rewrite Hheap. apply lookup_insert_ne. congruence. }
    assert (∀ k, k < size_ v → val_at m1 (ptr_add buf k) = Some (f k)) as Hsrc1.
    { intros k Hk. destruct (base buf) as [ob|] eqn:Eb.
      - rewrite (val_at_block m m1 ob); [by apply wf_val|apply Hold; congruence|done].
      - lia. }
    wp_step. wpb.
    eapply wp_mono;
      [apply (wp_guard _ v m m1 nb c
                (use_move = false ∨ nothrow_move_constructible = true)
                (λ _ s', s'.1 = v ∧
                   log s'.2 = evs (λ k, reloc_event (ptr_add buf k) (ptr_add new k)) (size_ v) ++
                              [EvAlloc nb c] ++ log m ∧
                   (∀ k, k < size_ v → cell_at s'.2 (ptr_add new k) = Some (Live (f k))) ∧
                   (∀ b, blen s'.2 b = blen m1 b))
                Hfresh Hheap)| |]; simpl.
    + unfold GetAddress. simpl. fold new.
      eapply wp_mono; [apply (wp_relocate v m1 buf (size_ v) new f)| |]; simpl.
      * done.
      * intros k Hk. unfold new. rewrite (cell_at_fresh m m1 nb c); [eauto|done|lia].
      * intros k Hk [Hb _]. simpl in Hb. done.
      * intros [] [v3 m3] (Hv&He3&Hl3). simpl in *. split; [done|].
        split; [|split; [done|]].
        -- destruct He3 as [_ ->]. by rewrite Hlog1.
        -- intros b. by destruct He3 as [[-> _] _].
      * intros [v3 m3] (Hv&Hr&Ha3&_). simpl in *. split; [done|]. split; [done|].
        eexists. split; [exact Ha3|].
        intros Hsafe q [[Hb _]|(Hu&Hn&_)]; [done|].
        destruct Hsafe; congruence.
    + intros [] [v3 m3] (Hv&Hl3&Hc3&Hb3). simpl in *. subst v3.
      apply wp_commit.
      * intros k Hk. apply cell_at_inb.
        destruct (val_at_inb _ _ _ (Hsrc1 k Hk)) as [c0 Hc0].
        destruct (proj1 (cell_at_inb m1 _) (ex_intro _ c0 Hc0)) as (b&n&?&?&?).
        exists b, n. by rewrite Hb3.
      * done.
      * intros b Eb. fold buf in Eb. specialize (Hb3 b). unfold blen in Hb3.
        rewrite Hold in Hb3 by congruence. rewrite Eb in Hblk. destruct Hblk as [Hb _].
        unfold blen in Hb. destruct (heap m !! b); [|done]. destruct (heap m3 !! b); [eauto|done].
      * intros m4 H1 H2 H3. simpl. fold new.
        assert (∀ q, base q = Some nb → cell_at m4 q = cell_at m3 q) as Hnew.
        { intros q Hq. apply (cell_at_block _ _ nb); [|done]. apply H1. by fold buf. }
        split; [done|]. split; [|split; [|split]].
        -- split; [simpl; lia|]. split; [done|]. simpl. split.
           { split; [|lia]. unfold blen. rewrite H1 by (by fold buf).
             specialize (Hb3 nb). unfold blen in Hb3. rewrite Hb3, Hheap, lookup_insert_eq.
             simpl. by rewrite length_replicate. }
           intros i Hi. unfold val_at. rewrite Hnew by done. rewrite Hc3 by lia. eauto.
        -- intros i Hi. unfold val_at at 1. rewrite Hnew by done. rewrite Hc3 by done.
           simpl. symmetry. by apply wf_val.
        -- intros ?. lia.
        -- intros _. exists nb. split; [done|]. by rewrite H3, Hl3.
    + intros [v3 m3] (Hv&Hr&Hh). simpl in *. split; [done|]. split; [done|].
      intros [?|[?|?]]; [apply Hh; auto..|congruence].
Qed.

(** ** [Erase] *)

Lemma wp_Erase v m i :
  wf v m → i < size_ v →
  wp (Erase (ptr_add (buffer_ (data_ v)) i)) (v, m)
     (λ p s',
        data_ s'.1 = data_ v ∧
        S (size_ s'.1) = size_ v ∧
        p = ptr_add (buffer_ (data_ v)) i ∧
        (∀ k, k < i →
           val_at s'.2 (ptr_add (buffer_ (data_ v)) k) =
           val_at m (ptr_add (buffer_ (data_ v)) k)) ∧
        (∀ k, i ≤ k → S k < size_ v →
           val_at s'.2 (ptr_add (buffer_ (data_ v)) k) =
           val_at m (ptr_add (buffer_ (data_ v)) (S k))) ∧
        wf s'.1 s'.2)
     (λ _, raised).
Proof.
  intros Hwf Hi. pose proof Hwf as (Hle&Ho&Hblk&Hvals).
  set (buf := buffer_ (data_ v)) in *.
  set (d := ptr_add buf i).
  set (n := size_ v - S i).
  set (f := λ k, default default_value (val_at m (ptr_add buf (i + S k)))).
  unfold Erase. wp_step. wpb. apply wp_distance. wp_step. fold buf d.
  wpb. apply wp_lift.
  eapply wp_mono; [apply (wp_destroy_at _ _ (λ _, False)); apply (wf_inb v m); [done|lia]| |done].
  simpl. intros [] m1 [He1 Hc1]. wp_step. wpb. apply wp_end; [done|]. simpl. wp_step.
  fold buf d.
  rewrite <- (ptr_add_add buf i 1). fold d.
  replace (ptr_add buf (size_ v)) with (ptr_add d (1 + n))
    by (unfold d, n; rewrite ptr_add_add; f_equal; lia).
  assert (∀ k, k < n → val_at m1 (ptr_add d (S k)) = Some (f k)) as Hsrc.
  { intros k Hk. rewrite (eff_val _ _ _ _ _ He1).
    - unfold d. rewrite ptr_add_add. apply (wf_val v m). done. unfold n in Hk. lia.
    - unfold d, ptr_add. simpl. intros [= H]. lia. }
  assert (is_Some (cell_at m1 d)) as Hd by (rewrite Hc1; eauto).
  wpb.
  apply (wp_mono _ _
           (λ _ s', s'.1 = v ∧ ∃ l, eff (in_range d (S n)) l m1 s'.2 ∧
                    ∀ k, k < n → val_at s'.2 (ptr_add d k) = Some (f k))
           _ (λ _, raised)).
  { destruct use_move; apply wp_lift.
    - eapply wp_mono; [by apply (wp_std_move _ _ _ f)| |done]. simpl.
      intros [] m2 [He2 Hv2]. eauto.
    - eapply wp_mono; [by apply (wp_std_copy _ _ _ f)| |done]. simpl.
      intros [] m2 [He2 Hv2]. eauto. }
  2: done.
  intros [] [v2 m2] (Hv&l&He2&Hv2). simpl in *. subst v2. wp_step.
  destruct (size_ v) as [|sz] eqn:Hsz; [lia|].
  wpb. apply wp_dec. do 3 wp_step. fold buf d.
  assert (∀ k, k < i → val_at m2 (ptr_add buf k) = val_at m (ptr_add buf k)) as Hlow.
  { intros k Hk. rewrite (eff_val _ _ _ _ _ He2), (eff_val _ _ _ _ _ He1); [done| |].
    - unfold d, ptr_add. simpl. intros [= H]. lia.
    - unfold in_range, d, ptr_add. simpl. intros [_ ?]. lia. }
  assert (∀ k, i ≤ k → S k < S sz →
            val_at m2 (ptr_add buf k) = val_at m (ptr_add buf (S k))) as Hhigh.
  { intros k Hk1 Hk2. replace (ptr_add buf k) with (ptr_add d (k - i))
      by (unfold d; rewrite ptr_add_add; f_equal; lia).
    rewrite Hv2 by (unfold n; lia). unfold f.
    replace (i + S (k - i)) with (S k) by lia. symmetry. apply (wf_val v m); [done|lia]. }
  split; [by destruct (data_ v)|]. split; [done|]. split; [done|]. split; [done|].
  split; [done|].
  split; [simpl; lia|]. split; [done|]. simpl. fold buf. split.
  - destruct (base buf) as [b|]; [|done].
    destruct He2 as [[Hb2 _] _]. destruct He1 as [[Hb1 _] _]. by rewrite Hb2, Hb1.
  - intros k Hk. destruct (decide (k < i)) as [Hki|Hki].
    + rewrite Hlow by done. apply Hvals. lia.
    + rewrite Hhigh by lia. apply Hvals. lia.
Qed.

(** ** [Emplace] *)

Lemma wp_dec_eq {St} n k (s : St) Q R : n = S k → Q k s → wp (dec n) s Q R.
Proof. by intros ->. Qed.

Lemma wp_prev {St} p n (s : St) Q R :
  1 ≤ n → Q (ptr_add p (n - 1)) s → wp (prev (ptr_add p n)) s Q R.
Proof. intros Hn HQ. unfold prev. by apply (wp_some _ _ _ _ _ (ptr_sub_add p n 1 Hn)). Qed.

Lemma wp_relocate_n (v : Vector) m first n d_first (f : nat → T) :
  (∀ k, k < n → val_at m (ptr_add first k) = Some (f k)) →
  (∀ k, k < n → is_Some (cell_at m (ptr_add d_first k))) →
  (∀ k, k < n → ¬ in_range d_first n (ptr_add first k)) →
  wp (lift (relocate_n first n d_first)) (v, m)
     (λ _ s', s'.1 = v ∧
        eff (λ q, in_range d_first n q ∨ (use_move = true ∧ in_range first n q))
            (evs (λ k, reloc_event (ptr_add first k) (ptr_add d_first k)) n) m s'.2 ∧
        ∀ k, k < n → cell_at s'.2 (ptr_add d_first k) = Some (Live (f k)))
     (λ s', s'.1 = v ∧ raised ∧
        agree (λ q, in_range d_first n q ∨
                    (use_move = true ∧ nothrow_move_constructible = false ∧ in_range first n q))
              m s'.2 ∧
        (use_move = true → nothrow_move_constructible = false)).
Proof.
  intros H1 H2 H3. pose proof (wp_relocate v m first n d_first f H1 H2 H3) as H.
  unfold relocate_n. by destruct use_move.
Qed.

Lemma wp_Emplace v m i a :
  wf v m → i ≤ size_ v →
  wp (Emplace (ptr_add (buffer_ (data_ v)) i) a) (v, m)
     (λ p s',
        size_ s'.1 = S (size_ v) ∧
        p = ptr_add (buffer_ (data_ s'.1)) i ∧
        wf s'.1 s'.2 ∧
        val_at s'.2 p = Some (init_val a) ∧
        (∀ k, k < i →
           val_at s'.2 (ptr_add (buffer_ (data_ s'.1)) k) =
           val_at m (ptr_add (buffer_ (data_ v)) k)) ∧
        (∀ k, i ≤ k < size_ v →
           val_at s'.2 (ptr_add (buffer_ (data_ s'.1)) (S k)) =
           val_at m (ptr_add (buffer_ (data_ v)) k)) ∧
        (i < size_ v → size_ v < capacity_ (data_ v) →
           data_ s'.1 = data_ v ∧
           log s'.2 =
             [EvDtor None; EvMoveAssign None (Some p); init_event a None] ++
             evs (λ k, EvMoveAssign (Some (ptr_add p (size_ v - S i - S k)))
                                    (Some (ptr_add p (S (size_ v - S i) - S k))))
                 (size_ v - S i) ++
             [EvMoveCtor (Some (ptr_add (buffer_ (data_ v)) (size_ v - 1)))
                         (Some (ptr_add (buffer_ (data_ v)) (size_ v)))] ++ log m) ∧
        (i < size_ v → capacity_ (data_ v) ≤ size_ v →
           ∃ nb, data_ s'.1 = mkRaw (Ptr (Some nb) 0) (grown (size_ v)) ∧
                 log s'.2 =
                   free_event (data_ v) ++
                   evs (λ k, EvDtor (Some (ptr_add (buffer_ (data_ v)) k))) (size_ v) ++
                   evs (λ k, reloc_event
                               (ptr_add (ptr_add (buffer_ (data_ v)) i) k)
                               (ptr_add (ptr_add (Ptr (Some nb) 0) (i + 1)) k))
                       (size_ v - i) ++
                   evs (λ k, reloc_event (ptr_add (buffer_ (data_ v)) k)
                                         (ptr_add (Ptr (Some nb) 0) k)) i ++
                   [init_event a (Some p); EvAlloc nb (grown (size_ v))] ++ log m))
     (λ s', raised ∧
            (capacity_ (data_ v) ≤ size_ v →
             s'.1 = v ∧
             (use_move = false ∨ nothrow_move_constructible = true ∨
              throws (tick m) = true ∨ throws (S (tick m)) = true → heap s'.2 = heap m))).
Proof.
  intros Hwf Hi. pose proof Hwf as (Hle&Ho&Hblk&Hvals).
  set (buf := buffer_ (data_ v)) in *.
  set (g := λ k, default default_value (val_at m (ptr_add buf k))).
  unfold Emplace. wpb. apply wp_end; [done|]. simpl. fold buf.
  destruct (decide (i = size_ v)) as [->|Hne].
  - rewrite decide_True by done. wpb.
    eapply wp_mono; [by apply wp_EmplaceBack| |]; simpl.
    + intros p [v1 m1] (Hs1&->&Hwf1&Hc1&Hv1&_). simpl in *.
      wpb. apply wp_end; [apply Hwf1|]. simpl. rewrite Hs1.
      apply wp_prev; [lia|]. replace (S (size_ v) - 1) with (size_ v) by lia. simpl.
      split; [done|]. split; [done|]. split; [done|]. split; [unfold val_at; by rewrite Hc1|].
      split; [done|]. split; [intros k ?; lia|]. split; intros ?; lia.
    + intros [v1 m1] (Hv&Hr&Hh). simpl in *. split; [done|]. intros Hc. split; [done|].
      intros [?|[?|[?|?]]]; apply Hh; auto.
  - assert (i < size_ v) as Hlt by lia.
    rewrite decide_False by (intros Heq; by apply ptr_add_inj in Heq).
    wp_step. wpb. apply wp_distance. do 2 wp_step.
    destruct (size_ v <? capacity_ (data_ v)) eqn:Hsc.
    + apply Nat.ltb_lt in Hsc.
      set (first := ptr_add buf i).
      set (n := size_ v - S i).
      set (slot := ptr_add buf (size_ v)).
      set (last := ptr_add buf (size_ v - 1)).
      do 2 wp_step. wpb. apply wp_RawMemory_plus; [lia|]. simpl. fold buf slot.
      wpb. apply (wp_dec_eq _ (size_ v - 1)); [lia|].
      wpb. apply wp_RawMemory_index; [lia|]. simpl. fold buf last.
      wpb. apply wp_lift.
      eapply wp_mono; [apply (wp_move_construct _ slot last (g (size_ v - 1)))| |]; simpl.
      { apply (wf_val v m); [done|lia]. }
      { apply (wf_inb v m); [done|lia]. }
      { unfold slot, last, ptr_add. intros [= H]. lia. }
      2:{ intros m' (_&Hr&_). split; [done|]. intros ?. lia. }
      intros [] m1 (He1&Hc1&Hm1).
      wp_step. wpb. apply wp_end; [done|]. simpl. fold buf.
      wpb. apply wp_prev; [lia|]. wpb. apply wp_end; [done|]. simpl. fold buf.
      replace (ptr_add buf (size_ v - 1)) with (ptr_add first n)
        by (unfold first, n; rewrite ptr_add_add; f_equal; lia).
      replace (ptr_add buf (size_ v)) with (ptr_add first (S n))
        by (unfold first, n; rewrite ptr_add_add; f_equal; lia).
      fold first.
      assert (ptr_add first n = last) as Hfl
        by (unfold first, last, n; rewrite ptr_add_add; f_equal; lia).
      assert (ptr_add first (S n) = slot) as Hfs
        by (unfold first, slot, n; rewrite ptr_add_add; f_equal; lia).
      wpb. apply wp_lift.
      eapply wp_mono; [apply (wp_move_backward m1 first n (λ k, g (i + k)))| |]; simpl.
      { intros k Hk. rewrite (eff_val _ _ _ _ _ He1).
        - unfold first. rewrite ptr_add_add. apply (wf_val v m); [done|]. unfold n in Hk. lia.
        - unfold first, slot, last, ptr_add, n in *. simpl. intros [[= H]|[= H]]; lia. }
      { rewrite Hfl. eapply eff_inb; [done|]. apply (wf_inb v m); [done|lia]. }
      2:{ intros m' Hr. split; [done|]. intros ?. lia. }
      intros [] m2 (He2&Hv2&_).
      wpb. apply wp_lift.
      eapply wp_mono; [apply wp_make_temp| |]; simpl.
      2:{ intros m' [_ Hr]. split; [done|]. intros ?. lia. }
      intros tmp m3 (->&He3).
      wpb. apply wp_RawMemory_index; [lia|]. simpl. fold buf first.
      assert (is_Some (cell_at m3 first)) as Hin3.
      { eapply eff_inb; [done|]. eapply eff_inb; [done|]. eapply eff_inb; [done|].
        apply (wf_inb v m); [done|lia]. }
      wpb. apply wp_lift.
      eapply wp_mono; [by apply wp_assign_from_temp| |]; simpl.
      2:{ intros m' [_ Hr]. split; [done|]. intros ?. lia. }
      intros [] m4 (He4&Hv4).
      apply wp_lift, wp_record. simpl. do 4 wp_step. fold buf first.
      assert (∀ q, q ≠ first → val_at (logged (EvDtor None) m4) q = val_at m2 q) as Hlate.
      { intros q Hq. change (val_at m4 q = val_at m2 q).
        rewrite (eff_val _ _ _ _ _ He4) by done.
        rewrite (eff_val _ _ _ _ _ He3); [done|by intros []]. }
      assert (∀ k, k < i → val_at (logged (EvDtor None) m4) (ptr_add buf k) =
                            val_at m (ptr_add buf k)) as Hlow.
      { intros k Hk. rewrite Hlate by (unfold first, ptr_add; intros [= H]; lia).
        rewrite (eff_val _ _ _ _ _ He2), (eff_val _ _ _ _ _ He1); [done| |].
        - unfold slot, last, ptr_add. intros [[= H]|[= H]]; lia.
        - unfold first, in_range, ptr_add. simpl. intros [_ ?]. lia. }
      assert (∀ k, i ≤ k < size_ v → val_at (logged (EvDtor None) m4) (ptr_add buf (S k)) =
                                      val_at m (ptr_add buf k)) as Hhigh.
      { intros k Hk. rewrite Hlate by (unfold first, ptr_add; intros [= H]; lia).
        destruct (decide (k = size_ v - 1)) as [->|Hk'].
        - replace (ptr_add buf (S (size_ v - 1))) with slot by (unfold slot; f_equal; lia).
          rewrite (eff_val _ _ _ _ _ He2).
          + unfold val_at at 1. rewrite Hc1. simpl. symmetry. apply (wf_val v m); [done|lia].
          + rewrite <- Hfs. unfold in_range, ptr_add. simpl. intros [_ ?]. lia.
        - replace (ptr_add buf (S k)) with (ptr_add first (S (k - i)))
            by (unfold first; rewrite ptr_add_add; f_equal; lia).
          rewrite Hv2 by (unfold n; lia). replace (i + (k - i)) with k by lia.
          symmetry. apply (wf_val v m); [done|lia]. }
      split; [lia|]. split; [done|]. split; [|split; [|split; [done|split; [done|split]]]].
      * split; [simpl; lia|]. split; [done|]. simpl. fold buf. split.
        { destruct (base buf) as [b|]; [|done].
          change (blen m4 b = Some (capacity_ (data_ v)) ∧ 0 < capacity_ (data_ v)).
          destruct He4 as [[-> _] _]. destruct He3 as [[-> _] _].
          destruct He2 as [[-> _] _]. by destruct He1 as [[-> _] _]. }
        intros k Hk. destruct (decide (k < i)) as [Hki|Hki].
        { rewrite Hlow by done. apply Hvals. lia. }
        destruct (decide (k = i)) as [->|Hki'].
        { change (is_Some (val_at m4 first)). rewrite Hv4. eauto. }
        replace k with (S (k - 1)) by lia. rewrite Hhigh by lia. apply Hvals. lia.
      * change (val_at m4 first = Some (init_val a)). done.
      * intros _ _. split; [by destruct (data_ v)|].
        unfold logged. simpl. f_equal.
        destruct He4 as [_ ->]. destruct He3 as [_ ->]. destruct He2 as [_ ->].
        by destruct He1 as [_ ->].
      * intros _ ?. lia.
    + apply Nat.ltb_ge in Hsc.
      assert (grown (size_ v) ≠ 0) as Hg0 by (unfold grown; case_decide; lia).
      assert (S (size_ v) ≤ grown (size_ v)) as Hg1 by (unfold grown; case_decide; lia).
      do 2 wp_step. fold (grown (size_ v)). wpb. apply wp_lift.
      eapply wp_mono; [by apply wp_RawMemory_ctor| |]; simpl.
      2:{ intros m' [-> Ht]. split; [by exists (tick m)|]. done. }
      intros r m1 (nb&->&Hfresh&Hheap&Hlog1&Htick1&Hnt).
      assert (base buf ≠ Some nb) as Hnb.
      { intros E. rewrite E in Hblk. destruct Hblk as [Hb _]. unfold blen in Hb.
        by rewrite Hfresh in Hb. }
      set (new := Ptr (Some nb) 0).
      assert (∀ b, Some b ≠ Some nb → heap m1 !! b = heap m !! b) as Hold.
      { intros b Hb. rewrite Hheap. apply lookup_insert_ne. congruence. }
      assert (∀ k, k < size_ v → val_at m1 (ptr_add buf k) = Some (g k)) as Hsrc1.
      { intros k Hk. destruct (base buf) as [ob|] eqn:Eb.
        - rewrite (val_at_block m m1 ob); [by apply wf_val|apply Hold; congruence|done].
        - lia. }
      assert (∀ k, k < grown (size_ v) → is_Some (cell_at m1 (ptr_add new k))) as Hnew1.
      { intros k Hk. unfold new. rewrite (cell_at_fresh m m1 nb (grown (size_ v))); [eauto|done..]. }
      wpb.
      replace (if use_move
               then lift (uninitialized_move_n (GetAddress (data_ v)) i
                            (GetAddress (mkRaw new (grown (size_ v))))) ;;
                    src <- RawMemory_plus (data_ v) i ;;
                    dst <- RawMemory_plus (mkRaw new (grown (size_ v))) (i + 1) ;;
                    lift (uninitialized_move_n src (size_ v - i) dst)
               else lift (uninitialized_copy_n (GetAddress (data_ v)) i
                            (GetAddress (mkRaw new (grown (size_ v))))) ;;
                    src <- RawMemory_plus (data_ v) i ;;
                    dst <- RawMemory_plus (mkRaw new (grown (size_ v))) (i + 1) ;;
                    lift (uninitialized_copy_n src (size_ v - i) dst))
        with (lift (V:=Vector) (relocate_n buf i new) ;;
              src <- RawMemory_plus (data_ v) i ;;
              dst <- RawMemory_plus (mkRaw new (grown (size_ v))) (i + 1) ;;
              lift (relocate_n src (size_ v - i) dst))
        by (unfold relocate_n, GetAddress, buf; simpl; by destruct use_move).
      eapply wp_mono;
        [apply (wp_guard _ v m m1 nb (grown (size_ v))
                  (use_move = false ∨ nothrow_move_constructible = true ∨
                   throws (S (tick m)) = true)
                  (λ _ s', s'.1 = v ∧
                     log s'.2 =
                       evs (λ k, reloc_event (ptr_add (ptr_add buf i) k)
                                             (ptr_add (ptr_add new (i + 1)) k)) (size_ v - i) ++
                       evs (λ k, reloc_event (ptr_add buf k) (ptr_add new k)) i ++
                       [init_event a (Some (ptr_add new i)); EvAlloc nb (grown (size_ v))] ++
                       log m ∧
                     (∀ k, k < i → cell_at s'.2 (ptr_add new k) = Some (Live (g k))) ∧
                     cell_at s'.2 (ptr_add new i) = Some (Live (init_val a)) ∧
                     (∀ k, k < size_ v - i →
                        cell_at s'.2 (ptr_add (ptr_add new (i + 1)) k) = Some (Live (g (i + k)))) ∧
                     (∀ b, blen s'.2 b = blen m1 b))
                  Hfresh Hheap)| |]; simpl.
      * wpb. apply wp_RawMemory_plus; [simpl; lia|]. simpl. fold new.
        wpb. apply wp_lift.
        eapply wp_mono; [apply wp_construct_at| |]; simpl.
        { apply Hnew1. lia. }
        2:{ intros m2 [He2 Hr]. split; [done|]. split; [done|].
            exists (λ _, False). split; [apply He2|done]. }
        intros [] m2 (He2&Hc2&Ht2).
        wpb.
        eapply wp_mono; [apply (wp_relocate_n v m2 buf i new g)| |]; simpl.
        { intros k Hk. rewrite (eff_val _ _ _ _ _ He2); [apply Hsrc1; lia|].
          intros Heq. apply (f_equal base) in Heq. simpl in Heq. done. }
        { intros k Hk. eapply eff_inb; [done|]. apply Hnew1. lia. }
        { intros k Hk [Hb _]. simpl in Hb. done. }
        2:{ intros [v3 m3] (Hv&Hr&Ha3&_). simpl in *. split; [done|]. split; [done|].
            exists (λ q, q = ptr_add new i ∨
                         (in_range new i q ∨
                          use_move = true ∧ nothrow_move_constructible = false ∧
                          in_range buf i q)).
            split.
            - eapply agree_trans; [eapply agree_mono; [|apply He2]; by left|].
              eapply agree_mono; [|done]. by right.
            - intros Hsafe q [->|[[Hb _]|(Hu&Hn&_)]]; [done|done|].
              destruct Hsafe as [?|[?|Hs]]; [congruence..|].
              rewrite Htick1 in Ht2. specialize (Ht2 Hn). congruence. }
        intros [] [v3 m3] (Hv&He3&Hl3). simpl in *. subst v3.
        wpb. apply wp_RawMemory_plus; [lia|]. simpl. fold buf.
        wpb. apply wp_RawMemory_plus; [simpl; lia|]. simpl. fold new.
        eapply wp_mono;
          [apply (wp_relocate_n v m3 (ptr_add buf i) (size_ v - i) (ptr_add new (i + 1))
                    (λ k, g (i + k)))| |]; simpl.
        { intros k Hk. rewrite (eff_val _ _ _ _ _ He3), (eff_val _ _ _ _ _ He2).
          - rewrite ptr_add_add. apply Hsrc1. lia.
          - intros Heq. apply (f_equal base) in Heq. simpl in Heq. done.
          - unfold in_range, ptr_add. simpl. intros [[Hb _]|[_ [_ ?]]]; [done|lia]. }
        { intros k Hk. eapply eff_inb; [done|]. eapply eff_inb; [done|].
          rewrite ptr_add_add. apply Hnew1. lia. }
        { intros k Hk [Hb _]. simpl in Hb. done. }
        2:{ intros [v4 m4] (Hv&Hr&Ha4&Hnt4). simpl in *. split; [done|]. split; [done|].
            exists (λ q, base q = Some nb ∨
                         (use_move = true ∧ nothrow_move_constructible = false)).
            split.
            - eapply agree_trans; [eapply agree_mono; [|apply He2]; by intros q ->; left|].
              eapply agree_trans.
              + eapply agree_mono; [|apply He3].
                intros q [[Hb _]|[Hu _]]; [by left|]. right. auto.
              + eapply agree_mono; [|apply Ha4].
                intros q [[Hb _]|(Hu&Hn&_)]; [by left|by right].
            - intros Hsafe q [?|[Hu Hn]]; [done|].
              destruct Hsafe as [?|[?|Hs]]; [congruence..|].
              rewrite Htick1 in Ht2. specialize (Ht2 Hn). congruence. }
        intros [] [v4 m4] (Hv&He4&Hl4). simpl in *. split; [done|].
        assert (∀ q, base q = Some nb → offs q ≤ i → cell_at m4 q = cell_at m3 q) as Hkeep.
        { intros q Hb Hq. apply (eff_cell _ _ _ _ _ He4).
          unfold in_range, ptr_add. simpl. intros [[_ ?]|[_ [Hb' _]]]; [lia|]. congruence. }
        split; [|split; [|split; [|split; [done|]]]].
        -- destruct He4 as [_ ->]. destruct He3 as [_ ->]. destruct He2 as [_ ->].
           by rewrite Hlog1.
        -- intros k Hk. rewrite Hkeep; [by apply Hl3|done|simpl; lia].
        -- rewrite Hkeep; [|done|simpl; lia]. rewrite (eff_cell _ _ _ _ _ He3); [done|].
           unfold in_range, ptr_add. simpl. intros [[_ ?]|[_ [Hb' _]]]; [lia|done].
        -- intros b. destruct He4 as [[-> _] _]. destruct He3 as [[-> _] _].
           by destruct He2 as [[-> _] _].
      * intros [] [v4 m4] (Hv&Hl4&Hp4&Hx4&Hs4&Hb4). simpl in *. subst v4.
        apply wp_commit.
        { intros k Hk. apply cell_at_inb.
          destruct (val_at_inb _ _ _ (Hsrc1 k Hk)) as [c Hc].
          destruct (proj1 (cell_at_inb m1 _) (ex_intro _ c Hc)) as (b&n&?&?&?).
          exists b, n. by rewrite Hb4. }
        { done. }
        { intros b Eb. fold buf in Eb. specialize (Hb4 b). unfold blen in Hb4.
          rewrite Hold in Hb4 by congruence. rewrite Eb in Hblk. destruct Hblk as [Hb _].
          unfold blen in Hb. destruct (heap m !! b); [|done].
          destruct (heap m4 !! b); [eauto|done]. }
        intros m5 H1 H2 H3. simpl. do 4 wp_step. fold new.
        assert (∀ q, base q = Some nb → cell_at m5 q = cell_at m4 q) as Hnew.
        { intros q Hq. apply (cell_at_block _ _ nb); [|done]. apply H1. by fold buf. }
        assert (∀ k, k < i → val_at m5 (ptr_add new k) = val_at m (ptr_add buf k)) as Hlow.
        { intros k Hk. unfold val_at at 1. rewrite Hnew by done. rewrite Hp4 by done.
          simpl. symmetry. apply (wf_val v m); [done|lia]. }
        assert (∀ k, i ≤ k < size_ v →
                  val_at m5 (ptr_add new (S k)) = val_at m (ptr_add buf k)) as Hhigh.
        { intros k Hk. unfold val_at at 1. rewrite Hnew by done.
          replace (ptr_add new (S k)) with (ptr_add (ptr_add new (i + 1)) (k - i))
            by (rewrite ptr_add_add; f_equal; lia).
          rewrite Hs4 by lia. simpl. replace (i + (k - i)) with k by lia.
          symmetry. apply (wf_val v m); [done|lia]. }
        split; [lia|]. split; [done|]. split; [|split; [|split; [done|split; [done|split]]]].
        -- split; [simpl; lia|]. split; [done|]. simpl. split.
           { split; [|lia]. unfold blen. rewrite H1 by (by fold buf).
             specialize (Hb4 nb). unfold blen in Hb4. rewrite Hb4, Hheap, lookup_insert_eq.
             simpl. by rewrite length_replicate. }
           fold new. intros k Hk. destruct (decide (k < i)) as [Hki|Hki].
           { rewrite Hlow by done. apply Hvals. lia. }
           destruct (decide (k = i)) as [->|Hki'].
           { unfold val_at. rewrite Hnew by done. rewrite Hx4. eauto. }
           replace k with (S (k - 1)) by lia. rewrite Hhigh by lia. apply Hvals. lia.
        -- unfold val_at. rewrite Hnew by done. by rewrite Hx4.
        -- intros _ ?. lia.
        -- intros _ _. exists nb. split; [done|]. by rewrite H3, Hl4.
      * intros [v3 m3] (Hv&Hr&Hh). simpl in *. split; [done|]. intros _. split; [done|].
        intros [?|[?|[?|?]]]; [apply Hh; auto..|congruence|apply Hh; auto].
Qed.

(** ** [Emplace] with an element of the vector as its argument *)

Lemma EmplaceBack_ref_Outside a : EmplaceBack_ref (Outside a) = EmplaceBack a.
Proof. reflexivity. Qed.

Lemma Emplace_ref_Outside pos a : Emplace_ref pos (Outside a) = Emplace pos a.
Proof. reflexivity. Qed.

Lemma wp_construct_from m p x t :
  is_Some (cell_at m p) → arg_val m x = Some t →
  wp (construct_from p x) m
     (λ _ m', eff (λ q, q = p) [arg_event x (Some p)] m m' ∧
              cell_at m' p = Some (Live t) ∧
              (nothrow_move_constructible = false → throws (tick m) = false))
     (λ m', eff (λ _, False) [] m m' ∧ raised).
Proof.
  intros Hp Hx. destruct x as [a|src]; simpl in *.
  - injection Hx as <-. by apply wp_construct_at.
  - unfold copy_construct. apply wp_bind, (wp_read _ _ t); [done|].
    apply wp_bind, wp_fallible; [intros Hno|apply eff_throw].
    apply wp_bind, wp_store; [done|]. apply wp_record. split; [|split; [|done]].
    + apply eff_step_log, eff_step_store; [apply eff_step_tick, eff_refl|done..].
    + change (cell_at (upd (ticked m) p (Live t)) p = Some (Live t)).
      rewrite cell_at_upd by done. by rewrite decide_True.
Qed.

(** The append path and the growth path build the new element first, from
    the argument as it is before anything is relocated. *)
Lemma wp_EmplaceBack_ref v m x t :
  wf v m → arg_in v x → arg_val m x = Some t →
  wp (EmplaceBack_ref x) (v, m)
     (λ p s',
        size_ s'.1 = S (size_ v) ∧
        p = ptr_add (buffer_ (data_ s'.1)) (size_ v) ∧
        wf s'.1 s'.2 ∧
        cell_at s'.2 p = Some (Live t) ∧
        (∀ i, i < size_ v →
           val_at s'.2 (ptr_add (buffer_ (data_ s'.1)) i) =
           val_at m (ptr_add (buffer_ (data_ v)) i)) ∧
        (size_ v < capacity_ (data_ v) →
           data_ s'.1 = data_ v ∧ log s'.2 = arg_event x (Some p) :: log m) ∧
        (capacity_ (data_ v) ≤ size_ v →
           ∃ nb, data_ s'.1 = mkRaw (Ptr (Some nb) 0) (grown (size_ v)) ∧
                 log s'.2 =
                   free_event (data_ v) ++
                   evs (λ k, EvDtor (Some (ptr_add (buffer_ (data_ v)) k))) (size_ v) ++
                   evs (λ k, reloc_event (ptr_add (buffer_ (data_ v)) k)
                                         (ptr_add (Ptr (Some nb) 0) k)) (size_ v) ++
                   [arg_event x (Some p); EvAlloc nb (grown (size_ v))] ++ log m))
     (λ s', s'.1 = v ∧ raised ∧
            (use_move = false ∨ nothrow_move_constructible = true ∨
             throws (tick m) = true ∨ throws (S (tick m)) = true ∨
             size_ v < capacity_ (data_ v) → heap s'.2 = heap m)).
Proof.
  intros Hwf Hin Hx. pose proof Hwf as (Hle&Ho&Hblk&Hvals).
  unfold EmplaceBack_ref. do 2 wp_step.
  destruct (size_ v <? capacity_ (data_ v)) eqn:Hlt.
  - apply Nat.ltb_lt in Hlt.
    do 2 wp_step. apply wp_bind, wp_RawMemory_plus; [lia|].
    apply wp_lift.
    eapply wp_mono;
      [apply (wp_construct_from _ _ x t); [apply (wf_inb v m); [done|lia]|done]| |]; simpl.
    + intros [] m1 (He&Hc&_). do 3 wp_step.
      replace (size_ v + 1) with (S (size_ v)) by lia.
      apply wp_bind, wp_dec.
      wp_step. apply wp_RawMemory_index; [simpl; lia|]. simpl.
      split; [done|]. split; [done|]. split; [|split; [done|split; [|split]]].
      * split; [simpl; lia|]. split; [done|]. simpl. split.
        { destruct (base (buffer_ (data_ v))) as [b|]; [|done].
          destruct He as [[Hb _] _]. by rewrite Hb. }
        intros i Hi. destruct (decide (i = size_ v)) as [->|Hne].
        { unfold val_at. rewrite Hc. eauto. }
        rewrite (eff_val _ _ _ _ _ He); [apply Hvals; lia|].
        intros Heq. by apply ptr_add_inj in Heq.
      * intros i Hi. apply (eff_val _ _ _ _ _ He).
        intros Heq. apply ptr_add_inj in Heq. lia.
      * intros _. split; [by destruct (data_ v)|]. by destruct He as [_ ->].
      * intros ?. lia.
    + intros m1 [He Hr]. split; [done|]. split; [done|]. intros _.
      apply agree_False_heap, He.
  - apply Nat.ltb_ge in Hlt.
    assert (grown (size_ v) ≠ 0) as Hg0 by (unfold grown; case_decide; lia).
    assert (S (size_ v) ≤ grown (size_ v)) as Hg1 by (unfold grown; case_decide; lia).
    do 2 wp_step. fold (grown (size_ v)). wpb. apply wp_lift.
    eapply wp_mono; [by apply wp_RawMemory_ctor| |]; simpl.
    2:{ intros m' [-> Ht]. split; [done|]. split; [by exists (tick m)|]. done. }
    intros r m1 (nb&->&Hfresh&Hheap&Hlog1&Htick1&Hnt).
    assert (base (buffer_ (data_ v)) ≠ Some nb) as Hnb.
    { intros E. rewrite E in Hblk. destruct Hblk as [Hb _]. unfold blen in Hb.
      by rewrite Hfresh in Hb. }
    set (buf := buffer_ (data_ v)) in *.
    set (new := Ptr (Some nb) 0).
    set (f := λ k, default default_value (val_at m (ptr_add buf k))).
    assert (∀ b, Some b ≠ Some nb → heap m1 !! b = heap m !! b) as Hold.
    { intros b Hb. rewrite Hheap. apply lookup_insert_ne. congruence. }
    assert (∀ k, k < size_ v → val_at m1 (ptr_add buf k) = Some (f k)) as Hsrc1.
    { intros k Hk. destruct (base buf) as [ob|] eqn:Eb.
      - rewrite (val_at_block m m1 ob); [by apply wf_val|apply Hold; congruence|done].
      - lia. }
    assert (arg_val m1 x = Some t) as Hx1.
    { destruct x as [a|src]; [done|]. destruct Hin as (j&Hj&->). simpl in *. fold buf in Hx.
      rewrite Hsrc1 by done. unfold f. by rewrite Hx. }
    wpb.
    eapply wp_mono;
      [apply (wp_guard _ v m m1 nb (grown (size_ v))
                (use_move = false ∨ nothrow_move_constructible = true ∨
                 throws (S (tick m)) = true)
                (λ _ s', s'.1 = v ∧
                   log s'.2 = evs (λ k, reloc_event (ptr_add buf k) (ptr_add new k)) (size_ v) ++
                              [arg_event x (Some (ptr_add new (size_ v)));
                               EvAlloc nb (grown (size_ v))] ++ log m ∧
                   (∀ k, k < size_ v → cell_at s'.2 (ptr_add new k) = Some (Live (f k))) ∧
                   cell_at s'.2 (ptr_add new (size_ v)) = Some (Live t) ∧
                   (∀ b, blen s'.2 b = blen m1 b))
                Hfresh Hheap)| |]; simpl.
    + wpb. apply wp_RawMemory_plus; [simpl; lia|]. simpl. fold new.
      wpb. apply wp_lift.
      eapply wp_mono; [apply (wp_construct_from _ _ x t); [|exact Hx1]| |]; simpl.
      * unfold new. rewrite (cell_at_fresh m m1 nb (grown (size_ v))); [eauto|done|lia].
      * intros [] m2 (He2&Hc2&Ht2).
        eapply wp_mono; [apply (wp_relocate v m2 buf (size_ v) new f)| |]; simpl.
        -- intros k Hk. rewrite (eff_val _ _ _ _ _ He2); [by apply Hsrc1|].
           intros Heq. apply (f_equal base) in Heq. simpl in Heq. done.
        -- intros k Hk. eapply eff_inb; [done|].
           unfold new. rewrite (cell_at_fresh m m1 nb (grown (size_ v))); [eauto|done|lia].
        -- intros k Hk [Hb _]. simpl in Hb. done.
        -- intros [] [v3 m3] (Hv&He3&Hl3). simpl in *. split; [done|].
           split; [|split; [done|split]].
           ++ destruct He3 as [_ ->]. destruct He2 as [_ ->]. by rewrite Hlog1.
           ++ rewrite (eff_cell _ _ _ _ _ He3); [done|].
              unfold in_range, new, ptr_add. simpl. intros [[_ ?]|[_ [Hb _]]]; [lia|done].
           ++ intros b. destruct He3 as [[-> _] _]. by destruct He2 as [[-> _] _].
        -- intros [v3 m3] (Hv&Hr&Ha3&_). simpl in *. split; [done|]. split; [done|].
           exists (λ q, q = ptr_add new (size_ v) ∨
                        (in_range new (size_ v) q ∨
                         use_move = true ∧ nothrow_move_constructible = false ∧
                         in_range buf (size_ v) q)).
           split.
           ++ eapply agree_trans; [eapply agree_mono; [|apply He2]; by left|].
              eapply agree_mono; [|done]. by right.
           ++ intros Hsafe q [->|[[Hb _]|(Hu&Hn&_)]]; [done|done|].
              destruct Hsafe as [?|[?|Hs]]; [congruence..|].
              rewrite Htick1 in Ht2. specialize (Ht2 Hn). congruence.
      * intros m2 [He2 Hr]. split; [done|]. split; [done|].
        exists (λ _, False). split; [apply He2|done].
    + intros [] [v3 m3] (Hv&Hl3&Hc3&Hx3&Hb3). simpl in *. subst v3.
      apply wp_commit.
      * intros k Hk. apply cell_at_inb.
        destruct (val_at_inb _ _ _ (Hsrc1 k Hk)) as [c Hc].
        destruct (proj1 (cell_at_inb m1 _) (ex_intro _ c Hc)) as (b&n&?&?&?).
        exists b, n. by rewrite Hb3.
      * done.
      * intros b Eb. fold buf in Eb. specialize (Hb3 b). unfold blen in Hb3.
        rewrite Hold in Hb3 by congruence. rewrite Eb in Hblk. destruct Hblk as [Hb _].
        unfold blen in Hb. destruct (heap m !! b); [|done]. destruct (heap m3 !! b); [eauto|done].
      * intros m4 H1 H2 H3. simpl. do 3 wp_step.
        replace (size_ v + 1) with (S (size_ v)) by lia.
        wpb. apply wp_dec. wp_step. apply wp_RawMemory_index; [simpl; lia|]. simpl. fold new.
        assert (∀ q, base q = Some nb → cell_at m4 q = cell_at m3 q) as Hnew.
        { intros q Hq. apply (cell_at_block _ _ nb); [|done]. apply H1. by fold buf. }
        split; [done|]. split; [done|]. split; [|split; [|split; [|split]]].
        -- split; [simpl; lia|]. split; [done|]. simpl. split.
           { split; [|lia]. unfold blen. rewrite H1 by (by fold buf).
             specialize (Hb3 nb). unfold blen in Hb3. rewrite Hb3, Hheap, lookup_insert_eq.
             simpl. by rewrite length_replicate. }
           intros i Hi. unfold val_at. rewrite Hnew by done.
           destruct (decide (i = size_ v)) as [->|Hne]; [rewrite Hx3; eauto|].
           rewrite Hc3 by lia. eauto.
        -- by rewrite Hnew.
        -- intros i Hi. unfold val_at at 1. rewrite Hnew by done. rewrite Hc3 by done.
           simpl. symmetry. by apply wf_val.
        -- intros ?. lia.
        -- intros _. exists nb. split; [done|]. by rewrite H3, Hl3.
    + intros [v3 m3] (Hv&Hr&Hh). simpl in *. split; [done|]. split; [done|].
      intros [?|[?|[?|[?|?]]]]; [apply Hh; auto..|congruence|apply Hh; auto|lia].
Qed.

Lemma wp_Emplace_ref_grow v m i x t :
  wf v m → i ≤ size_ v → arg_in v x → arg_val m x = Some t →
  i = size_ v ∨ capacity_ (data_ v) ≤ size_ v →
  wp (Emplace_ref (ptr_add (buffer_ (data_ v)) i) x) (v, m)
     (λ p s',
        size_ s'.1 = S (size_ v) ∧
        p = ptr_add (buffer_ (data_ s'.1)) i ∧
        wf s'.1 s'.2 ∧
        val_at s'.2 p = Some t ∧
        (∀ k, k < i →
           val_at s'.2 (ptr_add (buffer_ (data_ s'.1)) k) =
           val_at m (ptr_add (buffer_ (data_ v)) k)) ∧
        (∀ k, i ≤ k < size_ v →
           val_at s'.2 (ptr_add (buffer_ (data_ s'.1)) (S k)) =
           val_at m (ptr_add (buffer_ (data_ v)) k)) ∧
        (i < size_ v → capacity_ (data_ v) ≤ size_ v →
           ∃ nb, data_ s'.1 = mkRaw (Ptr (Some nb) 0) (grown (size_ v)) ∧
                 log s'.2 =
                   free_event (data_ v) ++
                   evs (λ k, EvDtor (Some (ptr_add (buffer_ (data_ v)) k))) (size_ v) ++
                   evs (λ k, reloc_event
                               (ptr_add (ptr_add (buffer_ (data_ v)) i) k)
                               (ptr_add (ptr_add (Ptr (Some nb) 0) (i + 1)) k))
                       (size_ v - i) ++
                   evs (λ k, reloc_event (ptr_add (buffer_ (data_ v)) k)
                                         (ptr_add (Ptr (Some nb) 0) k)) i ++
                   [arg_event x (Some p); EvAlloc nb (grown (size_ v))] ++ log m))
     (λ s', raised ∧
            (capacity_ (data_ v) ≤ size_ v →
             s'.1 = v ∧
             (use_move = false ∨ nothrow_move_constructible = true ∨
              throws (tick m) = true ∨ throws (S (tick m)) = true → heap s'.2 = heap m))).
Proof.
  intros Hwf Hi Hin Hx Hpath. pose proof Hwf as (Hle&Ho&Hblk&Hvals).
  set (buf := buffer_ (data_ v)) in *.
  set (g := λ k, default default_value (val_at m (ptr_add buf k))).
  unfold Emplace_ref. wpb. apply wp_end; [done|]. simpl. fold buf.
  destruct (decide (i = size_ v)) as [->|Hne].
  - rewrite decide_True by done. wpb.
    eapply wp_mono; [by apply (wp_EmplaceBack_ref v m x t)| |]; simpl.
    + intros p [v1 m1] (Hs1&->&Hwf1&Hc1&Hv1&_). simpl in *.
      wpb. apply wp_end; [apply Hwf1|]. simpl. rewrite Hs1.
      apply wp_prev; [lia|]. replace (S (size_ v) - 1) with (size_ v) by lia. simpl.
      split; [done|]. split; [done|]. split; [done|]. split; [unfold val_at; by rewrite Hc1|].
      split; [done|]. split; [intros k ?; lia|]. intros ?. lia.
    + intros [v1 m1] (Hv&Hr&Hh). simpl in *. split; [done|]. intros Hc. split; [done|].
      intros [?|[?|[?|?]]]; apply Hh; auto.
  - assert (i < size_ v) as Hlt by lia.
    rewrite decide_False by (intros Heq; by apply ptr_add_inj in Heq).
    wp_step. wpb. apply wp_distance. do 2 wp_step.
    destruct (size_ v <? capacity_ (data_ v)) eqn:Hsc.
    + apply Nat.ltb_lt in Hsc. exfalso. lia.
    + apply Nat.ltb_ge in Hsc.
      assert (grown (size_ v) ≠ 0) as Hg0 by (unfold grown; case_decide; lia).
      assert (S (size_ v) ≤ grown (size_ v)) as Hg1 by (unfold grown; case_decide; lia).
      do 2 wp_step. fold (grown (size_ v)). wpb. apply wp_lift.
      eapply wp_mono; [by apply wp_RawMemory_ctor| |]; simpl.
      2:{ intros m' [-> Ht]. split; [by exists (tick m)|]. done. }
      intros r m1 (nb&->&Hfresh&Hheap&Hlog1&Htick1&Hnt).
      assert (base buf ≠ Some nb) as Hnb.
      { intros E. rewrite E in Hblk. destruct Hblk as [Hb _]. unfold blen in Hb.
        by rewrite Hfresh in Hb. }
      set (new := Ptr (Some nb) 0).
      assert (∀ b, Some b ≠ Some nb → heap m1 !! b = heap m !! b) as Hold.
      { intros b Hb. rewrite Hheap. apply lookup_insert_ne. congruence. }
      assert (∀ k, k < size_ v → val_at m1 (ptr_add buf k) = Some (g k)) as Hsrc1.
      { intros k Hk. destruct (base buf) as [ob|] eqn:Eb.
        - rewrite (val_at_block m m1 ob); [by apply wf_val|apply Hold; congruence|done].
        - lia. }
      assert (arg_val m1 x = Some t) as Hx1.
      { destruct x as [a|src]; [done|]. destruct Hin as (j&Hj&->). simpl in *. fold buf in Hx.
        rewrite Hsrc1 by done. unfold g. by rewrite Hx. }
      assert (∀ k, k < grown (size_ v) → is_Some (cell_at m1 (ptr_add new k))) as Hnew1.
      { intros k Hk. unfold new. rewrite (cell_at_fresh m m1 nb (grown (size_ v))); [eauto|done..]. }
      wpb.
      replace (if use_move
               then lift (uninitialized_move_n (GetAddress (data_ v)) i
                            (GetAddress (mkRaw new (grown (size_ v))))) ;;
                    src <- RawMemory_plus (data_ v) i ;;
                    dst <- RawMemory_plus (mkRaw new (grown (size_ v))) (i + 1) ;;
                    lift (uninitialized_move_n src (size_ v - i) dst)
               else lift (uninitialized_copy_n (GetAddress (data_ v)) i
                            (GetAddress (mkRaw new (grown (size_ v))))) ;;
                    src <- RawMemory_plus (data_ v) i ;;
                    dst <- RawMemory_plus (mkRaw new (grown (size_ v))) (i + 1) ;;
                    lift (uninitialized_copy_n src (size_ v - i) dst))
        with (lift (V:=Vector) (relocate_n buf i new) ;;
              src <- RawMemory_plus (data_ v) i ;;
              dst <- RawMemory_plus (mkRaw new (grown (size_ v))) (i + 1) ;;
              lift (relocate_n src (size_ v - i) dst))
        by (unfold relocate_n, GetAddress, buf; simpl; by destruct use_move).
      eapply wp_mono;
        [apply (wp_guard _ v m m1 nb (grown (size_ v))
                  (use_move = false ∨ nothrow_move_constructible = true ∨
                   throws (S (tick m)) = true)
                  (λ _ s', s'.1 = v ∧
                     log s'.2 =
                       evs (λ k, reloc_event (ptr_add (ptr_add buf i) k)
                                             (ptr_add (ptr_add new (i + 1)) k)) (size_ v - i) ++
                       evs (λ k, reloc_event (ptr_add buf k) (ptr_add new k)) i ++
                       [arg_event x (Some (ptr_add new i)); EvAlloc nb (grown (size_ v))] ++
                       log m ∧
                     (∀ k, k < i → cell_at s'.2 (ptr_add new k) = Some (Live (g k))) ∧
                     cell_at s'.2 (ptr_add new i) = Some (Live t) ∧
                     (∀ k, k < size_ v - i →
                        cell_at s'.2 (ptr_add (ptr_add new (i + 1)) k) = Some (Live (g (i + k)))) ∧
                     (∀ b, blen s'.2 b = blen m1 b))
                  Hfresh Hheap)| |]; simpl.
      * wpb. apply wp_RawMemory_plus; [simpl; lia|]. simpl. fold new.
        wpb. apply wp_lift.
        eapply wp_mono; [apply (wp_construct_from _ _ x t); [|exact Hx1]| |]; simpl.
        { apply Hnew1. lia. }
        2:{ intros m2 [He2 Hr]. split; [done|]. split; [done|].
            exists (λ _, False). split; [apply He2|done]. }
        intros [] m2 (He2&Hc2&Ht2).
        wpb.
        eapply wp_mono; [apply (wp_relocate_n v m2 buf i new g)| |]; simpl.
        { intros k Hk. rewrite (eff_val _ _ _ _ _ He2); [apply Hsrc1; lia|].
          intros Heq. apply (f_equal base) in Heq. simpl in Heq. done. }
        { intros k Hk. eapply eff_inb; [done|]. apply Hnew1. lia. }
        { intros k Hk [Hb _]. simpl in Hb. done. }
        2:{ intros [v3 m3] (Hv&Hr&Ha3&_). simpl in *. split; [done|]. split; [done|].
            exists (λ q, q = ptr_add new i ∨
                         (in_range new i q ∨
                          use_move = true ∧ nothrow_move_constructible = false ∧
                          in_range buf i q)).
            split.
            - eapply agree_trans; [eapply agree_mono; [|apply He2]; by left|].
              eapply agree_mono; [|done]. by right.
            - intros Hsafe q [->|[[Hb _]|(Hu&Hn&_)]]; [done|done|].
              destruct Hsafe as [?|[?|Hs]]; [congruence..|].
              rewrite Htick1 in Ht2. specialize (Ht2 Hn). congruence. }
        intros [] [v3 m3] (Hv&He3&Hl3). simpl in *. subst v3.
        wpb. apply wp_RawMemory_plus; [lia|]. simpl. fold buf.
        wpb. apply wp_RawMemory_plus; [simpl; lia|]. simpl. fold new.
        eapply wp_mono;
          [apply (wp_relocate_n v m3 (ptr_add buf i) (size_ v - i) (ptr_add new (i + 1))
                    (λ k, g (i + k)))| |]; simpl.
        { intros k Hk. rewrite (eff_val _ _ _ _ _ He3), (eff_val _ _ _ _ _ He2).
          - rewrite ptr_add_add. apply Hsrc1. lia.
          - intros Heq. apply (f_equal base) in Heq. simpl in Heq. done.
          - unfold in_range, ptr_add. simpl. intros [[Hb _]|[_ [_ ?]]]; [done|lia]. }
        { intros k Hk. eapply eff_inb; [done|]. eapply eff_inb; [done|].
          rewrite ptr_add_add. apply Hnew1. lia. }
        { intros k Hk [Hb _]. simpl in Hb. done. }
        2:{ intros [v4 m4] (Hv&Hr&Ha4&Hnt4). simpl in *. split; [done|]. split; [done|].
            exists (λ q, base q = Some nb ∨
                         (use_move = true ∧ nothrow_move_constructible = false)).
            split.
            - eapply agree_trans; [eapply agree_mono; [|apply He2]; by intros q ->; left|].
              eapply agree_trans.
              + eapply agree_mono; [|apply He3].
                intros q [[Hb _]|[Hu _]]; [by left|]. right. auto.
              + eapply agree_mono; [|apply Ha4].
                intros q [[Hb _]|(Hu&Hn&_)]; [by left|by right].
            - intros Hsafe q [?|[Hu Hn]]; [done|].
              destruct Hsafe as [?|[?|Hs]]; [congruence..|].
              rewrite Htick1 in Ht2. specialize (Ht2 Hn). congruence. }
        intros [] [v4 m4] (Hv&He4&Hl4). simpl in *. split; [done|].
        assert (∀ q, base q = Some nb → offs q ≤ i → cell_at m4 q = cell_at m3 q) as Hkeep.
        { intros q Hb Hq. apply (eff_cell _ _ _ _ _ He4).
          unfold in_range, ptr_add. simpl. intros [[_ ?]|[_ [Hb' _]]]; [lia|]. congruence. }
        split; [|split; [|split; [|split; [done|]]]].
        -- destruct He4 as [_ ->]. destruct He3 as [_ ->]. destruct He2 as [_ ->].
           by rewrite Hlog1.
        -- intros k Hk. rewrite Hkeep; [by apply Hl3|done|simpl; lia].
        -- rewrite Hkeep; [|done|simpl; lia]. rewrite (eff_cell _ _ _ _ _ He3); [done|].
           unfold in_range, ptr_add. simpl. intros [[_ ?]|[_ [Hb' _]]]; [lia|done].
        -- intros b. destruct He4 as [[-> _] _]. destruct He3 as [[-> _] _].
           by destruct He2 as [[-> _] _].
      * intros [] [v4 m4] (Hv&Hl4&Hp4&Hx4&Hs4&Hb4). simpl in *. subst v4.
        apply wp_commit.
        { intros k Hk. apply cell_at_inb.
          destruct (val_at_inb _ _ _ (Hsrc1 k Hk)) as [c Hc].
          destruct (proj1 (cell_at_inb m1 _) (ex_intro _ c Hc)) as (b&n&?&?&?).
          exists b, n. by rewrite Hb4. }
        { done. }
        { intros b Eb. fold buf in Eb. specialize (Hb4 b). unfold blen in Hb4.
          rewrite Hold in Hb4 by congruence. rewrite Eb in Hblk. destruct Hblk as [Hb _].
          unfold blen in Hb. destruct (heap m !! b); [|done].
          destruct (heap m4 !! b); [eauto|done]. }
        intros m5 H1 H2 H3. simpl. do 4 wp_step. fold new.
        assert (∀ q, base q = Some nb → cell_at m5 q = cell_at m4 q) as Hnew.
        { intros q Hq. apply (cell_at_block _ _ nb); [|done]. apply H1. by fold buf. }
        assert (∀ k, k < i → val_at m5 (ptr_add new k) = val_at m (ptr_add buf k)) as Hlow.
        { intros k Hk. unfold val_at at 1. rewrite Hnew by done. rewrite Hp4 by done.
          simpl. symmetry. apply (wf_val v m); [done|lia]. }
        assert (∀ k, i ≤ k < size_ v →
                  val_at m5 (ptr_add new (S k)) = val_at m (ptr_add buf k)) as Hhigh.
        { intros k Hk. unfold val_at at 1. rewrite Hnew by done.
          replace (ptr_add new (S k)) with (ptr_add (ptr_add new (i + 1)) (k - i))
            by (rewrite ptr_add_add; f_equal; lia).
          rewrite Hs4 by lia. simpl. replace (i + (k - i)) with k by lia.
          symmetry. apply (wf_val v m); [done|lia]. }
        split; [lia|]. split; [done|]. split; [|split; [|split; [done|split; [done|]]]].
        -- split; [simpl; lia|]. split; [done|]. simpl. split.
           { split; [|lia]. unfold blen. rewrite H1 by (by fold buf).
             specialize (Hb4 nb). unfold blen in Hb4. rewrite Hb4, Hheap, lookup_insert_eq.
             simpl. by rewrite length_replicate. }
           fold new. intros k Hk. destruct (decide (k < i)) as [Hki|Hki].
           { rewrite Hlow by done. apply Hvals. lia. }
           destruct (decide (k = i)) as [->|Hki'].
           { unfold val_at. rewrite Hnew by done. rewrite Hx4. eauto. }
           replace k with (S (k - 1)) by lia. rewrite Hhigh by lia. apply Hvals. lia.
        -- unfold val_at. rewrite Hnew by done. by rewrite Hx4.
        -- intros _ _. exists nb. split; [done|]. by rewrite H3, Hl4.
      * intros [v3 m3] (Hv&Hr&Hh). simpl in *. split; [done|]. intros _. split; [done|].
        intros [?|[?|[?|?]]]; [apply Hh; auto..|congruence|apply Hh; auto].
Qed.

(** The in-place path: the temporary is a copy of what the slot of the
    argument holds after the shift. *)
Lemma wp_Emplace_ref_in_place v m i j :
  wf v m → i < size_ v → size_ v < capacity_ (data_ v) → j < size_ v →
  wp (Emplace_ref (ptr_add (buffer_ (data_ v)) i) (Element (ptr_add (buffer_ (data_ v)) j)))
     (v, m)
     (λ p s',
        p = ptr_add (buffer_ (data_ v)) i ∧
        data_ s'.1 = data_ v ∧
        size_ s'.1 = S (size_ v) ∧
        val_at s'.2 p =
          (if decide (j < i) then val_at m (ptr_add (buffer_ (data_ v)) j)
           else if decide (j = i) then moved <$> val_at m (ptr_add (buffer_ (data_ v)) i)
           else val_at m (ptr_add (buffer_ (data_ v)) (j - 1))) ∧
        (∀ k, k < i →
           val_at s'.2 (ptr_add (buffer_ (data_ v)) k) =
           val_at m (ptr_add (buffer_ (data_ v)) k)) ∧
        (∀ k, i ≤ k < size_ v →
           val_at s'.2 (ptr_add (buffer_ (data_ v)) (S k)) =
           val_at m (ptr_add (buffer_ (data_ v)) k)) ∧
        log s'.2 =
          [EvDtor None; EvMoveAssign None (Some p);
           EvCopyCtor (Some (ptr_add (buffer_ (data_ v)) j)) None] ++
          evs (λ k, EvMoveAssign (Some (ptr_add p (size_ v - S i - S k)))
                                 (Some (ptr_add p (S (size_ v - S i) - S k))))
              (size_ v - S i) ++
          [EvMoveCtor (Some (ptr_add (buffer_ (data_ v)) (size_ v - 1)))
                      (Some (ptr_add (buffer_ (data_ v)) (size_ v)))] ++ log m)
     (λ _, raised).
Proof.
  intros Hwf Hi Hsc Hj. pose proof Hwf as (Hle&Ho&Hblk&Hvals).
  set (buf := buffer_ (data_ v)) in *.
  set (g := λ k, default default_value (val_at m (ptr_add buf k))).
  assert (∀ k, k < size_ v → val_at m (ptr_add buf k) = Some (g k)) as Hg
    by (intros k Hk; by apply (wf_val v m)).
  unfold Emplace_ref. wpb. apply wp_end; [done|]. simpl. fold buf.
  rewrite decide_False by (intros Heq; apply ptr_add_inj in Heq; lia).
  wp_step. wpb. apply wp_distance. do 2 wp_step.
  rewrite (proj2 (Nat.ltb_lt _ _) Hsc).
  set (first := ptr_add buf i).
  set (n := size_ v - S i).
  set (slot := ptr_add buf (size_ v)).
  set (last := ptr_add buf (size_ v - 1)).
  do 2 wp_step. wpb. apply wp_RawMemory_plus; [lia|]. simpl. fold buf slot.
  wpb. apply (wp_dec_eq _ (size_ v - 1)); [lia|].
  wpb. apply wp_RawMemory_index; [lia|]. simpl. fold buf last.
  wpb. apply wp_lift.
  eapply wp_mono; [apply (wp_move_construct _ slot last (g (size_ v - 1)))| |]; simpl.
  { apply Hg. lia. }
  { apply (wf_inb v m); [done|lia]. }
  { unfold slot, last, ptr_add. intros [= H]. lia. }
  2:{ by intros m' (_&Hr&_). }
  intros [] m1 (He1&Hc1&Hm1).
  wp_step. wpb. apply wp_end; [done|]. simpl. fold buf.
  wpb. apply wp_prev; [lia|]. wpb. apply wp_end; [done|]. simpl. fold buf.
  replace (ptr_add buf (size_ v - 1)) with (ptr_add first n)
    by (unfold first, n; rewrite ptr_add_add; f_equal; lia).
  replace (ptr_add buf (size_ v)) with (ptr_add first (S n))
    by (unfold first, n; rewrite ptr_add_add; f_equal; lia).
  fold first.
  assert (ptr_add first n = last) as Hfl
    by (unfold first, last, n; rewrite ptr_add_add; f_equal; lia).
  assert (ptr_add first (S n) = slot) as Hfs
    by (unfold first, slot, n; rewrite ptr_add_add; f_equal; lia).
  wpb. apply wp_lift.
  eapply wp_mono; [apply (wp_move_backward m1 first n (λ k, g (i + k)))| |]; simpl.
  { intros k Hk. rewrite (eff_val _ _ _ _ _ He1).
    - unfold first. rewrite ptr_add_add. apply Hg. unfold n in Hk. lia.
    - unfold first, slot, last, ptr_add, n in *. simpl. intros [[= H]|[= H]]; lia. }
  { rewrite Hfl. eapply eff_inb; [done|]. apply (wf_inb v m); [done|lia]. }
  2:{ by intros m' Hr. }
  intros [] m2 (He2&Hv2&Hz2&Hmv2).
  set (tmp := if decide (j < i) then g j
              else if decide (j = i) then moved (g i) else g (j - 1)).
  assert (val_at m2 (ptr_add buf j) = Some tmp) as Hsrc2.
  { unfold tmp. destruct (decide (j < i)) as [Hji|Hji].
    - rewrite (eff_val _ _ _ _ _ He2), (eff_val _ _ _ _ _ He1); [by apply Hg| |].
      + unfold slot, last, ptr_add. intros [[= H]|[= H]]; lia.
      + unfold first, in_range, ptr_add. simpl. intros [_ ?]. lia.
    - destruct (decide (j = i)) as [->|Hne].
      + fold first. destruct (decide (n = 0)) as [Hn|Hn].
        * rewrite (Hz2 Hn). assert (i = size_ v - 1) as -> by (unfold n in Hn; lia).
          exact Hm1.
        * rewrite (Hmv2 ltac:(lia)). by rewrite Nat.add_0_r.
      + replace (ptr_add buf j) with (ptr_add first (S (j - i - 1)))
          by (unfold first; rewrite ptr_add_add; f_equal; lia).
        rewrite Hv2 by (unfold n; lia). do 2 f_equal. lia. }
  wpb. apply wp_lift.
  eapply wp_mono; [apply (wp_make_temp_of m2 (ptr_add buf j) tmp Hsrc2)| |]; simpl.
  2:{ by intros m' [_ Hr]. }
  intros t m3 (->&He3).
  wpb. apply wp_RawMemory_index; [lia|]. simpl. fold buf first.
  assert (is_Some (cell_at m3 first)) as Hin3.
  { eapply eff_inb; [done|]. eapply eff_inb; [done|]. eapply eff_inb; [done|].
    apply (wf_inb v m); [done|lia]. }
  wpb. apply wp_lift.
  eapply wp_mono; [by apply wp_assign_from_temp| |]; simpl.
  2:{ by intros m' [_ Hr]. }
  intros [] m4 (He4&Hv4).
  apply wp_lift, wp_record. simpl. do 4 wp_step. fold buf first.
  assert (∀ q, q ≠ first → val_at (logged (EvDtor None) m4) q = val_at m2 q) as Hlate.
  { intros q Hq. change (val_at m4 q = val_at m2 q).
    rewrite (eff_val _ _ _ _ _ He4) by done.
    rewrite (eff_val _ _ _ _ _ He3); [done|by intros []]. }
  split; [done|]. split; [by destruct (data_ v)|]. split; [lia|].
  split; [|split; [|split]].
  - transitivity (val_at m4 first); [done|]. rewrite Hv4. unfold tmp.
    destruct (decide (j < i)); [by rewrite Hg|].
    destruct (decide (j = i)) as [->|]; [unfold first; by rewrite Hg|].
    rewrite Hg by lia. done.
  - intros k Hk. rewrite Hlate by (unfold first, ptr_add; intros [= H]; lia).
    rewrite (eff_val _ _ _ _ _ He2), (eff_val _ _ _ _ _ He1); [done| |].
    + unfold slot, last, ptr_add. intros [[= H]|[= H]]; lia.
    + unfold first, in_range, ptr_add. simpl. intros [_ ?]. lia.
  - intros k Hk. rewrite Hlate by (unfold first, ptr_add; intros [= H]; lia).
    destruct (decide (k = size_ v - 1)) as [->|Hk'].
    + replace (ptr_add buf (S (size_ v - 1))) with slot by (unfold slot; f_equal; lia).
      rewrite (eff_val _ _ _ _ _ He2).
      * unfold val_at at 1. rewrite Hc1. simpl. symmetry. apply Hg. lia.
      * rewrite <- Hfs. unfold in_range, ptr_add. simpl. intros [_ ?]. lia.
    + replace (ptr_add buf (S k)) with (ptr_add first (S (k - i)))
        by (unfold first; rewrite ptr_add_add; f_equal; lia).
      rewrite Hv2 by (unfold n; lia). replace (i + (k - i)) with k by lia.
      symmetry. apply Hg. lia.
  - unfold logged. simpl. f_equal.
    destruct He4 as [_ ->]. destruct He3 as [_ ->]. destruct He2 as [_ ->].
    by destruct He1 as [_ ->].
Qed.

Lemma wfb_wf v m : wfb v m = true → wf v m.
Proof.
  unfold wfb, wf. rewrite !andb_true_iff, Nat.leb_le, Nat.eqb_eq, forallb_forall.
  intros [[[Hle Ho] Hb] Hv]. split; [done|]. split; [done|]. split.
  - destruct (base (buffer_ (data_ v))).
    + apply andb_true_iff in Hb as [Hb Hc]. apply bool_decide_eq_true in Hb.
      by apply Nat.ltb_lt in Hc.
    + by apply Nat.eqb_eq.
  - intros i Hi. specialize (Hv i). rewrite bool_decide_eq_true in Hv.
    apply Hv, in_seq. lia.
Qed.

(** ** Requests that fit

    For a request that does not wrap, the block has room for the number of
    objects asked for, and the three calls that take a number from the caller
    run as they do with the product taken in the natural numbers. *)

Lemma granted_fits sizeof_T n : fits sizeof_T n → granted sizeof_T n = n.
Proof.
  unfold fits, granted, size_t_mul. intros H.
  rewrite Z.mod_small by lia. rewrite Z.div_mul by lia. lia.
Qed.

Lemma Allocate_sized_fits sizeof_T n : fits sizeof_T n → Allocate_sized sizeof_T n = Allocate n.
Proof. intros H. unfold Allocate_sized, Allocate. by rewrite granted_fits. Qed.

Lemma RawMemory_ctor_sized_fits sizeof_T n :
  fits sizeof_T n → RawMemory_ctor_sized sizeof_T n = RawMemory_ctor n.
Proof. intros H. unfold RawMemory_ctor_sized, RawMemory_ctor. by rewrite Allocate_sized_fits. Qed.


Lemma Reserve_sized_fits sizeof_T c (v : Vector) (m : mem) :
  (capacity_ (data_ v) < c → fits sizeof_T c) →
  Reserve_sized sizeof_T c (v, m) = Reserve c (v, m).
Proof.
  intros H. destruct (decide (capacity_ (data_ v) < c)) as [Hc|Hc].
  - unfold Reserve_sized, Reserve. by rewrite RawMemory_ctor_sized_fits by auto.
  - unfold Reserve_sized, Reserve, bind, get_data, RawMemory_Capacity. simpl.
    by rewrite (proj2 (Nat.leb_le c (capacity_ (data_ v))) ltac:(lia)).
Qed.

Lemma Resize_sized_fits sizeof_T n (v : Vector) (m : mem) :
  (capacity_ (data_ v) < n → fits sizeof_T n) →
  Resize_sized sizeof_T n (v, m) = Resize n (v, m).
Proof.
  intros H. unfold Resize_sized, Resize, Capacity, bind, get_size, get_data, ret.
  unfold RawMemory_Capacity. cbn [fst snd].
  destruct (n <? size_ v); [done|]. cbn [fst snd].
  destruct (capacity_ (data_ v) <? n) eqn:E; [|done].
  apply Nat.ltb_lt in E. by rewrite Reserve_sized_fits by auto.
Qed.

(** * Properties of the two classes *)

Lemma wp_total {St A} (c : M St A) s Q (R : St → Prop) :
  wp c s Q R → (∀ s', R s' → raised) → (∀ k, throws k = false) →
  ∃ a s', c s = Ok a s' ∧ Q a s'.
Proof.
  unfold wp. intros H HR Hno. destruct (c s) as [a s'|s'|]; [eauto| |done].
  destruct (HR s' H) as [k Hk]. rewrite Hno in Hk. done.
Qed.


(** C3. Move construction of a [RawMemory] transfers the buffer pointer and
    the capacity and leaves the source null with capacity 0. Move assignment
    transfers both as well and nulls the source pointer, but the source
    keeps its capacity: after [a = std::move(b)] with [b] of capacity 3,
    [b.Capacity()] is still 3. *)
Theorem C3_move_assign_keeps_source_capacity :
  (∀ other,
     RawMemory_move_ctor other =
       (mkRaw (buffer_ other) (capacity_ other), mkRaw nullptr 0)) ∧
  (∀ this other,
     RawMemory_move_assign this other =
       (mkRaw (buffer_ other) (capacity_ other), mkRaw nullptr (capacity_ other))) ∧
  let b := mkRaw (Ptr (Some 1%positive) 0) 3 in
  GetAddress (RawMemory_move_assign RawMemory_default b).2 = nullptr ∧
  RawMemory_Capacity (RawMemory_move_assign RawMemory_default b).2 = 3.
Proof. done. Qed.

(** C4, as the code has it. With spare capacity and a position before the
    end, [Emplace] move-constructs the last element into the one-past-end
    slot, shifts the elements from the position to the one before the last
    one slot to the right by move assignment, from the back, whatever the
    traits of [T], builds a temporary from the arguments, move-assigns it to
    the slot at the position and destroys it. The values before the position
    are kept and the values from the position on are one slot further. The
    temporary is built after the shift: for an argument outside the storage
    the slot at the position gets the argument's value; for an argument that
    is the element at index [j] of this vector, [Insert(pos, v[j])], it gets
    what slot [j] holds after the shift, which is the old element [j] when
    [j] is before the position, the moved-from state of the old element at
    the position when [j] is the position, and the old element [j - 1] when
    [j] is past the position. *)
Theorem C4_in_place_insertion (v : Vector) (m : mem) (i : nat) :
  wf v m → i < size_ v → size_ v < capacity_ (data_ v) →
  let buf := buffer_ (data_ v) in
  let pos := ptr_add buf i in
  let steps (temporary : event) :=
    [EvDtor None; EvMoveAssign None (Some pos); temporary] ++
    evs (λ k, EvMoveAssign (Some (ptr_add pos (size_ v - S i - S k)))
                           (Some (ptr_add pos (S (size_ v - S i) - S k))))
        (size_ v - S i) ++
    [EvMoveCtor (Some (ptr_add buf (size_ v - 1))) (Some (ptr_add buf (size_ v)))] in
  let shifted (s' : Vector * mem) :=
    (∀ k, k < i → val_at s'.2 (ptr_add buf k) = val_at m (ptr_add buf k)) ∧
    (∀ k, i ≤ k < size_ v → val_at s'.2 (ptr_add buf (S k)) = val_at m (ptr_add buf k)) in
  (∀ a,
     (∀ p s', Emplace pos a (v, m) = Ok p s' →
        p = pos ∧ data_ s'.1 = data_ v ∧ size_ s'.1 = S (size_ v) ∧ shifted s' ∧
        val_at s'.2 pos = Some (init_val a) ∧
        log s'.2 = steps (init_event a None) ++ log m) ∧
     ((∀ k, throws k = false) → ∃ p s', Emplace pos a (v, m) = Ok p s')) ∧
  (∀ j, j < size_ v →
     (∀ p s', Insert_ref pos (ptr_add buf j) (v, m) = Ok p s' →
        p = pos ∧ data_ s'.1 = data_ v ∧ size_ s'.1 = S (size_ v) ∧ shifted s' ∧
        val_at s'.2 pos =
          (if decide (j < i) then val_at m (ptr_add buf j)
           else if decide (j = i) then moved <$> val_at m pos
           else val_at m (ptr_add buf (j - 1))) ∧
        log s'.2 = steps (EvCopyCtor (Some (ptr_add buf j)) None) ++ log m) ∧
     ((∀ k, throws k = false) → ∃ p s', Insert_ref pos (ptr_add buf j) (v, m) = Ok p s')).
Proof.
  intros Hwf Hi Hc buf pos steps shifted. split.
  - intros a. pose proof (wp_Emplace v m i a Hwf ltac:(lia)) as H. split.
    + intros p s' Hrun.
      pose proof (wp_ok _ _ _ _ _ _ H Hrun) as (Hs&Hp&_&Hv&Hlow&Hhigh&Hlog&_).
      destruct (Hlog Hi Hc) as [Hd Hl]. rewrite Hd in Hp, Hlow, Hhigh. subst p.
      split; [done|]. split; [done|]. split; [done|]. split; [by split|].
      split; [done|]. unfold steps. rewrite Hl. by rewrite <- !app_assoc.
    + intros Hno.
      destruct (wp_total _ _ _ _ H ltac:(by intros ? [? _]) Hno) as (p&s'&Hrun&_).
      eauto.
  - intros j Hj. pose proof (wp_Emplace_ref_in_place v m i j Hwf Hi Hc Hj) as H. split.
    + intros p s' Hrun.
      pose proof (wp_ok _ _ _ _ _ _ H Hrun) as (->&Hd&Hs&Hv&Hlow&Hhigh&Hl).
      split; [done|]. split; [done|]. split; [done|]. split; [by split|].
      split; [done|]. unfold steps. rewrite Hl. by rewrite <- !app_assoc.
    + intros Hno. destruct (wp_total _ _ _ _ H ltac:(done) Hno) as (p&s'&Hrun&_). eauto.
Qed.

(** C5, as the code has it. [PushBack] returns nothing; when it returns, the
    size has grown by exactly 1 and the value is stored at index [size - 1].
    The reference to the newly stored element is what [EmplaceBack], which
    [PushBack] calls, returns. If no operation throws, [PushBack] returns. *)
Theorem C5_append (v : Vector) (m : mem) :
  wf v m →
  (∀ x r s', PushBack x (v, m) = Ok r s' →
     r = tt ∧ size_ s'.1 = S (size_ v) ∧
     val_at s'.2 (ptr_add (buffer_ (data_ s'.1)) (size_ s'.1 - 1)) = Some x) ∧
  (∀ a p s', EmplaceBack a (v, m) = Ok p s' →
     size_ s'.1 = S (size_ v) ∧
     p = ptr_add (buffer_ (data_ s'.1)) (size_ s'.1 - 1) ∧
     val_at s'.2 p = Some (init_val a)) ∧
  (∀ x, (∀ k, throws k = false) → ∃ s', PushBack x (v, m) = Ok tt s').
Proof.
  intros Hwf.
  assert (∀ a p s', EmplaceBack a (v, m) = Ok p s' →
     size_ s'.1 = S (size_ v) ∧
     p = ptr_add (buffer_ (data_ s'.1)) (size_ s'.1 - 1) ∧
     val_at s'.2 p = Some (init_val a)) as HEB.
  { intros a p s' Hrun.
    pose proof (wp_ok _ _ _ _ _ _ (wp_EmplaceBack v m a Hwf) Hrun) as (Hs&Hp&_&Hc&_).
    split; [done|]. rewrite Hs. replace (S (size_ v) - 1) with (size_ v) by lia.
    split; [done|]. unfold val_at. by rewrite Hc. }
  split; [|split; [done|]].
  - intros x [] s' Hrun. unfold PushBack, bind in Hrun.
    destruct (EmplaceBack (ByCopy x) (v, m)) as [p s1|s1|] eqn:E; [|done..].
    unfold ret in Hrun. injection Hrun as <-.
    destruct (HEB _ _ _ E) as (Hs&Hp&Hv). split; [done|]. split; [done|]. by rewrite <- Hp.
  - intros x Hno.
    destruct (wp_total _ _ _ _ (wp_EmplaceBack v m (ByCopy x) Hwf)
                ltac:(by intros ? (_&?&_)) Hno) as (p&s'&Hrun&_).
    exists s'. unfold PushBack, bind. by rewrite Hrun.
Qed.

(** ** Capacity along a run of appends *)

Lemma cap_ok_step k c :
  k ≤ c → cap_ok k c → cap_ok (S k) (if k <? c then c else grown k).
Proof.
  intros Hkc [[-> ->]|[Hk ((j&->)&Hle&Hmin)]]; right; (split; [lia|]).
  - simpl. unfold grown. simpl. split; [by exists 0|]. split; [done|].
    intros j _. change 1 with (2 ^ 0). apply Nat.pow_le_mono_r; lia.
  - destruct (k <? 2 ^ j) eqn:E.
    + apply Nat.ltb_lt in E. split; [by exists j|]. split; [lia|].
      intros j' Hj'. apply Hmin. lia.
    + apply Nat.ltb_ge in E. assert (k = 2 ^ j) as -> by lia.
      unfold grown. rewrite decide_False by lia.
      split; [exists (S j); simpl; lia|]. split; [lia|].
      intros j' Hj'. assert (j < j') as Hlt.
      { apply (Nat.pow_lt_mono_r_iff 2); lia. }
      replace (2 ^ j * 2) with (2 ^ S j) by (simpl; lia).
      apply Nat.pow_le_mono_r; lia.
Qed.

Lemma wp_PushBack v m x :
  wf v m →
  wp (PushBack x) (v, m)
     (λ _ s', size_ s'.1 = S (size_ v) ∧ wf s'.1 s'.2 ∧
              capacity_ (data_ s'.1) =
                (if size_ v <? capacity_ (data_ v) then capacity_ (data_ v)
                 else grown (size_ v)))
     (λ _, raised).
Proof.
  intros Hwf. unfold PushBack. wpb.
  eapply wp_mono; [by apply wp_EmplaceBack| |]; simpl.
  - intros p s' (Hs&_&Hwf'&_&_&Hspare&Hgrow). apply wp_ret.
    split; [done|]. split; [done|].
    destruct (size_ v <? capacity_ (data_ v)) eqn:E.
    + apply Nat.ltb_lt in E. by destruct (Hspare E) as [-> _].
    + apply Nat.ltb_ge in E. by destruct (Hgrow E) as (nb&->&_).
  - by intros s' (_&?&_).
Qed.

Lemma wp_appends xs : ∀ v m,
  wf v m → cap_ok (size_ v) (capacity_ (data_ v)) →
  wp (appends xs) (v, m)
     (λ _ s', size_ s'.1 = size_ v + length xs ∧
              cap_ok (size_ s'.1) (capacity_ (data_ s'.1)) ∧ wf s'.1 s'.2)
     (λ _, raised).
Proof.
  induction xs as [|x xs IH]; intros v m Hwf Hcap; simpl.
  - apply wp_ret. simpl. split; [lia|done].
  - wpb. eapply wp_mono; [by apply wp_PushBack| |done]. simpl.
    intros [] [v1 m1] (Hs&Hwf1&Hc). simpl in *.
    eapply wp_mono; [apply IH; [done|]| |done].
    + rewrite Hs, Hc. apply cap_ok_step; [apply Hwf|done].
    + simpl. intros [] s' (Hs'&Hc'&Hwf'). split; [lia|done].
Qed.

Lemma wf_default m : wf Vector_default m.
Proof. split; [done|]. split; [done|]. split; [done|]. simpl. intros i Hi. lia. Qed.

(** C6. After [k] appends to a default-constructed vector (size 0,
    capacity 0), with nothing in between, the size is [k] and, for [k] at
    least 1, the capacity is the smallest of 1, 2, 4, 8, ... that is at least
    [k]; with no append the capacity is still 0. One append to a full vector
    takes capacity 0 to 1 and any other capacity to its double. Appends
    return unless an operation throws. *)
Theorem C6_growth_doubling (xs : list T) (m : mem) :
  (∀ r s', appends xs (Vector_default, m) = Ok r s' →
     size_ s'.1 = length xs ∧
     (length xs = 0 → capacity_ (data_ s'.1) = 0) ∧
     (0 < length xs → smallest_doubling (length xs) (capacity_ (data_ s'.1)))) ∧
  (∀ v x r s', wf v m → size_ v = capacity_ (data_ v) → PushBack x (v, m) = Ok r s' →
     capacity_ (data_ s'.1) =
       if decide (capacity_ (data_ v) = 0) then 1 else capacity_ (data_ v) * 2) ∧
  ((∀ k, throws k = false) → ∃ s', appends xs (Vector_default, m) = Ok tt s').
Proof.
  assert (cap_ok (size_ Vector_default) (capacity_ (data_ Vector_default))) as H0
    by (by left).
  split; [|split].
  - intros r s' Hrun.
    pose proof (wp_ok _ _ _ _ _ _ (wp_appends xs _ m (wf_default m) H0) Hrun) as (Hs&Hc&_).
    simpl in Hs. split; [done|]. rewrite Hs in Hc.
    destruct Hc as [[? ?]|[? ?]]; split; intros; (done || lia).
  - intros v x r s' Hwf Hfull Hrun.
    pose proof (wp_ok _ _ _ _ _ _ (wp_PushBack v m x Hwf) Hrun) as (_&_&->).
    rewrite Hfull, Nat.ltb_irrefl. done.
  - intros Hno.
    destruct (wp_total _ _ _ _ (wp_appends xs _ m (wf_default m) H0) ltac:(done) Hno)
      as ([]&s'&Hrun&_).
    eauto.
Qed.

(** C8. Inserting at any position of [begin, end] and then erasing at the
    returned position, which is the same index, gives back the original
    sequence: same size, same values in the same order. [Insert] is
    [Emplace] with a copy or a move of the value. If no operation throws,
    both calls return. *)
Theorem C8_insert_then_erase (v : Vector) (m : mem) (i : nat) (a : init) :
  wf v m → i ≤ size_ v →
  let pos := ptr_add (buffer_ (data_ v)) i in
  (∀ p s1 q s2, Emplace pos a (v, m) = Ok p s1 → Erase p s1 = Ok q s2 →
     size_ s2.1 = size_ v ∧ contents s2.1 s2.2 = contents v m ∧ q = p) ∧
  ((∀ k, throws k = false) →
     ∃ p s1 q s2, Emplace pos a (v, m) = Ok p s1 ∧ Erase p s1 = Ok q s2).
Proof.
  intros Hwf Hi pos.
  assert (∀ p s1, Emplace pos a (v, m) = Ok p s1 →
            wp (Erase p) s1
               (λ q s2, size_ s2.1 = size_ v ∧ contents s2.1 s2.2 = contents v m ∧ q = p)
               (λ _, raised)) as Hround.
  { intros p [v1 m1] Hrun.
    pose proof (wp_ok _ _ _ _ _ _ (wp_Emplace v m i a Hwf Hi) Hrun)
      as (Hs1&->&Hwf1&_&Hlow1&Hhigh1&_). simpl in *.
    eapply wp_mono; [apply (wp_Erase v1 m1 i Hwf1); lia| |done]. simpl.
    intros q [v2 m2] (Hd&Hs2&->&Hlow2&Hhigh2&_). simpl in *.
    split; [lia|]. split; [|done].
    unfold contents, GetAddress. rewrite Hd. replace (size_ v2) with (size_ v) by lia.
    apply map_ext_in. intros k Hk. apply in_seq in Hk.
    destruct (decide (k < i)) as [Hki|Hki].
    - rewrite Hlow2 by done. by apply Hlow1.
    - rewrite Hhigh2 by lia. apply Hhigh1. lia. }
  split.
  - intros p s1 q s2 Hrun1 Hrun2. exact (wp_ok _ _ _ _ _ _ (Hround p s1 Hrun1) Hrun2).
  - intros Hno.
    destruct (wp_total _ _ _ _ (wp_Emplace v m i a Hwf Hi) ltac:(by intros ? [? _]) Hno)
      as (p&s1&Hrun1&_).
    destruct (wp_total _ _ _ _ (Hround p s1 Hrun1) ltac:(done) Hno) as (q&s2&Hrun2&_).
    eauto 6.
Qed.

(** C9. Copy-assigning a vector to itself does nothing: the guard
    [this != &other] skips the body, so the objects, the heap and the log of
    constructor, assignment and destructor calls are unchanged. *)
Theorem C9_self_copy_assign (this : nat) (s : gmap nat Vector * mem) :
  copy_assign this this s = Ok tt s.
Proof. unfold copy_assign. by rewrite decide_False by (by intros H). Qed.

(** C10. [begin()] and [end()] are the same position exactly when the size
    is 0; on a default-constructed vector both are the null buffer address;
    [cbegin()] and [cend()] return what [begin()] and [end()] return. *)
Theorem C10_begin_end (v : Vector) (m : mem) :
  size_ v ≤ capacity_ (data_ v) →
  ∃ e, begin_ (v, m) = Ok (buffer_ (data_ v)) (v, m) ∧
       end_ (v, m) = Ok e (v, m) ∧
       (buffer_ (data_ v) = e ↔ size_ v = 0) ∧
       cbegin (v, m) = begin_ (v, m) ∧
       cend (v, m) = end_ (v, m) ∧
       begin_ (Vector_default, m) = Ok nullptr (Vector_default, m) ∧
       end_ (Vector_default, m) = Ok nullptr (Vector_default, m).
Proof.
  intros Hle.
  assert (end_ (v, m) =
          Ok (if decide (size_ v = 0) then buffer_ (data_ v)
              else ptr_add (buffer_ (data_ v)) (size_ v)) (v, m)) as He.
  { unfold end_, bind, get_size. simpl. case_decide; [done|].
    unfold get_data, RawMemory_plus, bind, assert_. simpl.
    by rewrite (proj2 (Nat.leb_le _ _) Hle). }
  eexists. split; [done|]. split; [exact He|]. split; [|done].
  case_decide as Hz; [done|]. split; [|done].
  unfold ptr_add. destruct (buffer_ (data_ v)). simpl. intros [= H]. lia.
Qed.

(** * Further properties of [Vector]

    ** The values held, as a list *)

Lemma wp_no_abort {St A} (c : M St A) s Q R : wp c s Q R → c s ≠ Abort.
Proof. unfold wp. intros H E. by rewrite E in H. Qed.

Lemma contents_length v m : length (contents v m) = size_ v.
Proof. unfold contents. by rewrite length_map, length_seq. Qed.

Lemma contents_lookup v m k :
  contents v m !! k =
    if decide (k < size_ v) then Some (val_at m (ptr_add (buffer_ (data_ v)) k)) else None.
Proof.
  unfold contents, GetAddress. change (map ?f ?l) with (f <$> l).
  rewrite list_lookup_fmap. case_decide.
  - by rewrite lookup_seq_lt.
  - by rewrite lookup_seq_ge by lia.
Qed.

Lemma contents_eq v m (l : list (option T)) :
  length l = size_ v →
  (∀ k, k < size_ v → l !! k = Some (val_at m (ptr_add (buffer_ (data_ v)) k))) →
  contents v m = l.
Proof.
  intros Hlen Hl. apply list_eq. intros k. rewrite contents_lookup. case_decide.
  - symmetry. by apply Hl.
  - symmetry. apply lookup_ge_None. lia.
Qed.

(** X1. [Erase] at a position before the end removes exactly the element
    at that position: the values before it stay, the values after it move
    one index down, the size drops by one, the buffer and the capacity are
    kept, and the returned iterator is the position erased. It never stops
    on a failed check, and returns unless an assignment throws. *)
Theorem Erase_deletes (v : Vector) (m : mem) (i : nat) :
  wf v m → i < size_ v →
  let pos := ptr_add (buffer_ (data_ v)) i in
  (∀ q s', Erase pos (v, m) = Ok q s' →
     q = pos ∧ data_ s'.1 = data_ v ∧ size_ s'.1 = size_ v - 1 ∧
     contents s'.1 s'.2 = delete i (contents v m) ∧ wf s'.1 s'.2) ∧
  Erase pos (v, m) ≠ Abort ∧
  ((∀ k, throws k = false) → ∃ q s', Erase pos (v, m) = Ok q s').
Proof.
  intros Hwf Hi pos. pose proof (wp_Erase v m i Hwf Hi) as H. split; [|split].
  - intros q [v' m'] Hrun.
    pose proof (wp_ok _ _ _ _ _ _ H Hrun) as (Hd&Hs&->&Hlow&Hhigh&Hwf'). simpl in *.
    split; [done|]. split; [done|]. split; [lia|]. split; [|done].
    apply contents_eq.
    + rewrite length_delete by (rewrite contents_lookup, decide_True by done; eauto).
      rewrite contents_length. lia.
    + intros k Hk. rewrite Hd. destruct (decide (k < i)) as [Hki|Hki].
      * rewrite list_lookup_delete_lt by done. rewrite contents_lookup, decide_True by lia.
        by rewrite Hlow.
      * rewrite list_lookup_delete_ge by lia. rewrite contents_lookup, decide_True by lia.
        by rewrite Hhigh by lia.
  - by apply wp_no_abort in H.
  - intros Hno. destruct (wp_total _ _ _ _ H ltac:(done) Hno) as (q&s'&Hrun&_). eauto.
Qed.


Lemma end_eq (v : Vector) m :
  size_ v ≤ capacity_ (data_ v) →
  end_ (v, m) = Ok (ptr_add (buffer_ (data_ v)) (size_ v)) (v, m).
Proof.
  intros Hle. unfold end_, bind, get_size. simpl. case_decide as Hz.
  - by rewrite Hz, ptr_add_0.
  - unfold get_data, RawMemory_plus, bind, assert_. simpl.
    by rewrite (proj2 (Nat.leb_le _ _) Hle).
Qed.

(** [Emplace] at [end()] is [EmplaceBack] followed by [std::prev(end())]. *)
Lemma Emplace_at_end v m a :
  size_ v ≤ capacity_ (data_ v) →
  Emplace (ptr_add (buffer_ (data_ v)) (size_ v)) a (v, m) =
  (EmplaceBack a ;; e <- end_ ;; prev e) (v, m).
Proof.
  intros Hle. unfold Emplace. unfold bind at 1. unfold cend. rewrite end_eq by done.
  by rewrite decide_True.
Qed.

Lemma Emplace_capacity v m i a p s' :
  wf v m → i ≤ size_ v →
  Emplace (ptr_add (buffer_ (data_ v)) i) a (v, m) = Ok p s' →
  capacity_ (data_ s'.1) =
    if size_ v <? capacity_ (data_ v) then capacity_ (data_ v) else grown (size_ v).
Proof.
  intros Hwf Hi Hrun. destruct (decide (i = size_ v)) as [->|Hne].
  - rewrite Emplace_at_end in Hrun by apply Hwf. unfold bind in Hrun.
    pose proof (wp_EmplaceBack v m a Hwf) as H. unfold wp in H.
    destruct (EmplaceBack a (v, m)) as [p1 [v1 m1]|s1|]; [|done..].
    destruct H as (_&_&Hwf1&_&_&Hspare&Hgrow). simpl in *.
    rewrite end_eq in Hrun by apply Hwf1.
    destruct (prev (ptr_add (buffer_ (data_ v1)) (size_ v1)) (v1, m1)) as [p2 s2|s2|] eqn:E;
      [|done..].
    unfold prev, some_or_abort in E. destruct (ptr_sub _ _); [|done].
    injection E as <- <-. injection Hrun as <- <-. simpl.
    destruct (size_ v <? capacity_ (data_ v)) eqn:Hc.
    + apply Nat.ltb_lt in Hc. by destruct (Hspare Hc) as [-> _].
    + apply Nat.ltb_ge in Hc. by destruct (Hgrow Hc) as (nb&->&_).
  - pose proof (wp_ok _ _ _ _ _ _ (wp_Emplace v m i a Hwf Hi) Hrun)
      as (_&_&_&_&_&_&Hspare&Hgrow).
    destruct (size_ v <? capacity_ (data_ v)) eqn:Hc.
    + apply Nat.ltb_lt in Hc. by destruct (Hspare ltac:(lia) Hc) as [-> _].
    + apply Nat.ltb_ge in Hc. by destruct (Hgrow ltac:(lia) Hc) as (nb&->&_).
Qed.

(** X2. [Emplace] (and so [Insert]) at any position of [begin, end], with
    an argument that is not an element of the vector itself, puts the new
    value at that index: the values before it stay, the values from it on
    move one index up. The returned iterator is the position of the new
    element in the buffer the vector now has. The capacity is kept when there
    was room and goes to 1 or to twice the size when the vector was full. *)
Theorem Emplace_inserts (v : Vector) (m : mem) (i : nat) (a : init) :
  wf v m → i ≤ size_ v →
  let pos := ptr_add (buffer_ (data_ v)) i in
  (∀ p s', Emplace_ref pos (Outside a) (v, m) = Ok p s' →
     p = ptr_add (buffer_ (data_ s'.1)) i ∧
     contents s'.1 s'.2 = take i (contents v m) ++ Some (init_val a) :: drop i (contents v m) ∧
     capacity_ (data_ s'.1) =
       (if size_ v <? capacity_ (data_ v) then capacity_ (data_ v) else grown (size_ v)) ∧
     wf s'.1 s'.2) ∧
  Emplace_ref pos (Outside a) (v, m) ≠ Abort ∧
  ((∀ k, throws k = false) → ∃ p s', Emplace_ref pos (Outside a) (v, m) = Ok p s').
Proof.
  intros Hwf Hi pos. rewrite Emplace_ref_Outside.
  pose proof (wp_Emplace v m i a Hwf Hi) as H. split; [|split].
  - intros p [v' m'] Hrun.
    pose proof (Emplace_capacity v m i a p _ Hwf Hi Hrun) as Hcap.
    pose proof (wp_ok _ _ _ _ _ _ H Hrun) as (Hs&->&Hwf'&Hv&Hlow&Hhigh&_). simpl in *.
    split; [done|]. split; [|done].
    assert (length (take i (contents v m)) = i) as Hlen
      by (rewrite length_take_le; [done|rewrite contents_length; lia]).
    apply contents_eq.
    + rewrite length_app, Hlen. simpl. rewrite length_drop, contents_length. lia.
    + intros k Hk. destruct (decide (k < i)) as [Hki|Hki].
      * rewrite lookup_app_l by lia. rewrite lookup_take_lt by done.
        rewrite contents_lookup, decide_True by lia. by rewrite Hlow.
      * destruct (decide (k = i)) as [->|Hne].
        { rewrite list_lookup_middle by done. by rewrite Hv. }
        rewrite lookup_app_r by lia. rewrite Hlen.
        destruct (k - i) as [|j] eqn:Ej; [lia|]. simpl.
        rewrite lookup_drop, contents_lookup, decide_True by lia.
        replace k with (S (i + j)) by lia. by rewrite Hhigh by lia.
  - by apply wp_no_abort in H.
  - intros Hno. destruct (wp_total _ _ _ _ H ltac:(by intros ? [? _]) Hno) as (p&s'&Hrun&_).
    eauto.
Qed.

(** X3. [Reserve], for a request that is within the capacity or does not
    wrap, keeps the size and the values; afterwards the capacity is the larger
    of the old capacity and the request, so it never shrinks, and a request
    within the capacity changes nothing at all: no allocation, no element is
    touched. *)
Theorem Reserve_keeps_the_elements (sizeof_T : positive) (v : Vector) (m : mem) (c : nat) :
  wf v m → (capacity_ (data_ v) < c → fits sizeof_T c) →
  (∀ r s', Reserve_sized sizeof_T c (v, m) = Ok r s' →
     size_ s'.1 = size_ v ∧ contents s'.1 s'.2 = contents v m ∧
     capacity_ (data_ s'.1) = capacity_ (data_ v) `max` c ∧
     wf s'.1 s'.2 ∧
     (c ≤ capacity_ (data_ v) → s' = (v, m))) ∧
  ((∀ k, throws k = false) → ∃ s', Reserve_sized sizeof_T c (v, m) = Ok tt s').
Proof.
  intros Hwf Hfit. rewrite Reserve_sized_fits by done.
  pose proof (wp_Reserve v m c Hwf) as H. split.
  - intros r [v' m'] Hrun.
    pose proof (wp_ok _ _ _ _ _ _ H Hrun) as (Hs&Hwf'&Hvals&Hnoop&Hgrow). simpl in *.
    split; [done|]. split; [|split; [|done]].
    + apply contents_eq; [by rewrite contents_length|].
      intros k Hk. rewrite contents_lookup, decide_True by lia. rewrite Hvals by lia. done.
    + destruct (decide (c ≤ capacity_ (data_ v))) as [Hc|Hc].
      * injection (Hnoop Hc) as -> ->. lia.
      * destruct (Hgrow ltac:(lia)) as (nb&->&_). simpl. lia.
  - intros Hno. destruct (wp_total _ _ _ _ H ltac:(by intros ? (_&?&_)) Hno) as ([]&s'&Hrun&_).
    eauto.
Qed.

(** X28. When a growth-triggered relocation ends in an exception thrown by
    the allocation, by the construction of the new element or by the copy
    of an element, the vector is in its state before the operation: same
    buffer, capacity and size, same element values, and the heap is the heap
    before the operation, so nothing was written outside the new block and
    the new block has been released. The hypothesis on the traits and on the
    schedule excludes only an exception thrown by a move during relocation;
    the request of [Reserve] is one whose size in bytes does not wrap. On a
    well-formed vector none of the three operations stops on a failed
    check. Nothing is said here of the objects that were built in the new
    block. *)
Theorem growth_strong_guarantee (sizeof_T : positive) (v : Vector) (m : mem) :
  wf v m →
  (∀ c s', capacity_ (data_ v) < c → fits sizeof_T c →
     Reserve_sized sizeof_T c (v, m) = Throw s' →
     nothrow_move_constructible || negb copy_constructible = false ∨
     nothrow_move_constructible = true ∨ throws (tick m) = true →
     s'.1 = v ∧ heap s'.2 = heap m ∧ contents s'.1 s'.2 = contents v m) ∧
  (∀ a s', capacity_ (data_ v) ≤ size_ v → EmplaceBack a (v, m) = Throw s' →
     nothrow_move_constructible || negb copy_constructible = false ∨
     nothrow_move_constructible = true ∨
     throws (tick m) = true ∨ throws (S (tick m)) = true →
     s'.1 = v ∧ heap s'.2 = heap m ∧ contents s'.1 s'.2 = contents v m) ∧
  (∀ i a s', i ≤ size_ v → capacity_ (data_ v) ≤ size_ v →
     Emplace (ptr_add (buffer_ (data_ v)) i) a (v, m) = Throw s' →
     nothrow_move_constructible || negb copy_constructible = false ∨
     nothrow_move_constructible = true ∨
     throws (tick m) = true ∨ throws (S (tick m)) = true →
     s'.1 = v ∧ heap s'.2 = heap m ∧ contents s'.1 s'.2 = contents v m) ∧
  (∀ c, (capacity_ (data_ v) < c → fits sizeof_T c) →
     Reserve_sized sizeof_T c (v, m) ≠ Abort) ∧
  (∀ a, EmplaceBack a (v, m) ≠ Abort) ∧
  (∀ i a, i ≤ size_ v → Emplace (ptr_add (buffer_ (data_ v)) i) a (v, m) ≠ Abort).
Proof.
  intros Hwf.
  assert (∀ s' : Vector * mem, s'.1 = v → heap s'.2 = heap m →
            s'.1 = v ∧ heap s'.2 = heap m ∧ contents s'.1 s'.2 = contents v m) as Hfin.
  { intros [v' m'] Hv Hh. simpl in *. subst v'. split; [done|]. split; [done|].
    unfold contents, val_at, cell_at. by rewrite Hh. }
  split; [|split; [|split; [|split; [|split]]]].
  - intros c s' Hc Hfit Hrun Hsafe. rewrite Reserve_sized_fits in Hrun by done.
    pose proof (wp_throw _ _ _ _ _ (wp_Reserve v m c Hwf) Hrun) as (Hv&_&Hh).
    apply Hfin; [done|]. apply Hh. destruct Hsafe as [?|[?|?]]; auto.
  - intros a s' Hc Hrun Hsafe.
    pose proof (wp_throw _ _ _ _ _ (wp_EmplaceBack v m a Hwf) Hrun) as (Hv&_&Hh).
    apply Hfin; [done|]. apply Hh. destruct Hsafe as [?|[?|[?|?]]]; auto.
  - intros i a s' Hi Hc Hrun Hsafe.
    pose proof (wp_throw _ _ _ _ _ (wp_Emplace v m i a Hwf Hi) Hrun) as (_&H).
    destruct (H Hc) as [Hv Hh]. apply Hfin; [done|]. apply Hh.
    destruct Hsafe as [?|[?|[?|?]]]; auto.
  - intros c Hfit. rewrite Reserve_sized_fits by done.
    exact (wp_no_abort _ _ _ _ (wp_Reserve v m c Hwf)).
  - intros a. exact (wp_no_abort _ _ _ _ (wp_EmplaceBack v m a Hwf)).
  - intros i a Hi. exact (wp_no_abort _ _ _ _ (wp_Emplace v m i a Hwf Hi)).
Qed.

(** X29. [Reserve] does not check that the size in bytes of its request
    fits in a [size_t]. When the product wraps, so that the block has room
    for fewer objects than were asked for, [Reserve] on an empty vector
    returns all the same: the vector records the capacity asked for over a
    block that is smaller, and is not well-formed any more. *)
Theorem Reserve_of_a_wrapping_request (sizeof_T : positive) (c : nat) (m : mem) :
  granted sizeof_T c < c → throws (tick m) = false →
  ∃ nb m',
    Reserve_sized sizeof_T c (Vector_default, m) =
      Ok tt (mkVec (mkRaw (Ptr (Some nb) 0) c) 0, m') ∧
    blen m' nb = Some (granted sizeof_T c) ∧
    ¬ wf (mkVec (mkRaw (Ptr (Some nb) 0) c) 0) m'.
Proof.
  intros Hg Ht. exists (fresh (dom (heap m))).
  exists (Mem (<[fresh (dom (heap m)) := replicate (granted sizeof_T c) Raw]> (heap m))
              (EvAlloc (fresh (dom (heap m))) c :: log m) (S (tick m))).
  assert (heap m !! fresh (dom (heap m)) = None) as Hfresh
    by apply not_elem_of_dom, is_fresh.
  split; [|split].
  - unfold Reserve_sized, RawMemory_ctor_sized, Allocate_sized, Swap_data, RawMemory_dtor,
      uninitialized_move_n, uninitialized_copy_n, destroy_n, Deallocate, fallible,
      get_data, get_size, set_data, lift, on_throw, bind, ret. simpl.
    rewrite (proj2 (Nat.leb_gt c 0)) by lia. rewrite decide_False by lia. simpl. rewrite Ht.
    by destruct use_move.
  - unfold blen. simpl. rewrite lookup_insert_eq. simpl. by rewrite length_replicate.
  - intros (_&_&[Hb _]&_). unfold blen in Hb. simpl in Hb.
    rewrite lookup_insert_eq in Hb. simpl in Hb. rewrite length_replicate in Hb.
    injection Hb as Hb. lia.
Qed.

(** X30. [Insert] (or [Emplace]) whose argument is a reference to an element
    [v[j]] of the vector itself, at the end of the vector or into a full
    vector: the new element is built from the argument before any element is
    relocated, so the value inserted is the one [v[j]] had before the call,
    also when the elements are relocated by a move that changes its source.
    The values before the position stay, the values from it on move one index
    up, and the call returns when nothing throws. *)
Theorem Insert_of_an_element_when_appending_or_growing
    (v : Vector) (m : mem) (i j : nat) :
  wf v m → i ≤ size_ v → j < size_ v →
  i = size_ v ∨ capacity_ (data_ v) ≤ size_ v →
  let buf := buffer_ (data_ v) in
  (∀ p s', Insert_ref (ptr_add buf i) (ptr_add buf j) (v, m) = Ok p s' →
     p = ptr_add (buffer_ (data_ s'.1)) i ∧
     contents s'.1 s'.2 =
       take i (contents v m) ++ val_at m (ptr_add buf j) :: drop i (contents v m) ∧
     wf s'.1 s'.2) ∧
  Insert_ref (ptr_add buf i) (ptr_add buf j) (v, m) ≠ Abort ∧
  ((∀ k, throws k = false) →
     ∃ p s', Insert_ref (ptr_add buf i) (ptr_add buf j) (v, m) = Ok p s').
Proof.
  intros Hwf Hi Hj Hpath buf. unfold Insert_ref.
  pose proof (wf_val v m j Hwf Hj) as Ht. fold buf in Ht.
  set (t := default default_value (val_at m (ptr_add buf j))) in Ht.
  assert (arg_in v (Element (ptr_add buf j))) as Hin by (exists j; done).
  pose proof (wp_Emplace_ref_grow v m i (Element (ptr_add buf j)) t Hwf Hi Hin Ht Hpath) as H.
  fold buf in H. split; [|split].
  - intros p [v' m'] Hrun.
    pose proof (wp_ok _ _ _ _ _ _ H Hrun) as (Hs&->&Hwf'&Hv&Hlow&Hhigh&_). simpl in *.
    split; [done|]. split; [|done].
    assert (length (take i (contents v m)) = i) as Hlen
      by (rewrite length_take_le; [done|rewrite contents_length; lia]).
    apply contents_eq.
    + rewrite length_app, Hlen. simpl. rewrite length_drop, contents_length. lia.
    + intros k Hk. destruct (decide (k < i)) as [Hki|Hki].
      * rewrite lookup_app_l by lia. rewrite lookup_take_lt by done.
        rewrite contents_lookup, decide_True by lia. by rewrite Hlow.
      * destruct (decide (k = i)) as [->|Hne].
        { rewrite list_lookup_middle by done. by rewrite Hv, Ht. }
        rewrite lookup_app_r by lia. rewrite Hlen.
        destruct (k - i) as [|j'] eqn:Ej; [lia|]. simpl.
        rewrite lookup_drop, contents_lookup, decide_True by lia.
        replace k with (S (i + j')) by lia. by rewrite Hhigh by lia.
  - by apply wp_no_abort in H.
  - intros Hno. destruct (wp_total _ _ _ _ H ltac:(by intros ? [? _]) Hno) as (p&s'&Hrun&_).
    eauto.
Qed.

Lemma EmplaceBack_contents v m a p s' :
  wf v m → EmplaceBack a (v, m) = Ok p s' →
  wf s'.1 s'.2 ∧ contents s'.1 s'.2 = contents v m ++ [Some (init_val a)].
Proof.
  intros Hwf Hrun.
  pose proof (wp_ok _ _ _ _ _ _ (wp_EmplaceBack v m a Hwf) Hrun) as (Hs&->&Hwf'&Hc&Hvals&_).
  split; [done|]. apply contents_eq.
  - rewrite length_app, contents_length. simpl. lia.
  - intros k Hk. destruct (decide (k = size_ v)) as [->|Hne].
    + rewrite list_lookup_middle by (by rewrite contents_length).
      unfold val_at. by rewrite Hc.
    + rewrite lookup_app_l by (rewrite contents_length; lia).
      rewrite contents_lookup, decide_True by lia. by rewrite Hvals by lia.
Qed.

(** X4. With spare capacity [EmplaceBack] allocates nothing and relocates
    nothing: the buffer is the same, the only constructor call is the one of
    the new element, in the slot at index [size], and the value is appended.
    If that constructor throws, the vector and the heap are as before. *)
Theorem EmplaceBack_with_spare_capacity (v : Vector) (m : mem) (a : init) :
  wf v m → size_ v < capacity_ (data_ v) →
  (∀ p s', EmplaceBack a (v, m) = Ok p s' →
     data_ s'.1 = data_ v ∧ p = ptr_add (buffer_ (data_ v)) (size_ v) ∧
     log s'.2 = init_event a (Some p) :: log m ∧
     contents s'.1 s'.2 = contents v m ++ [Some (init_val a)]) ∧
  (∀ s', EmplaceBack a (v, m) = Throw s' → s'.1 = v ∧ heap s'.2 = heap m).
Proof.
  intros Hwf Hc. pose proof (wp_EmplaceBack v m a Hwf) as H. split.
  - intros p s' Hrun. destruct (EmplaceBack_contents v m a p s' Hwf Hrun) as [_ Hcont].
    pose proof (wp_ok _ _ _ _ _ _ H Hrun) as (_&Hp&_&_&_&Hspare&_).
    destruct (Hspare Hc) as [Hd Hl]. rewrite Hd in Hp. done.
  - intros s' Hrun. pose proof (wp_throw _ _ _ _ _ H Hrun) as (Hv&_&Hh).
    split; [done|]. apply Hh. auto.
Qed.

Lemma wp_appends_contents xs : ∀ v m,
  wf v m →
  wp (appends xs) (v, m)
     (λ _ s', wf s'.1 s'.2 ∧ contents s'.1 s'.2 = contents v m ++ map Some xs)
     (λ _, raised).
Proof.
  induction xs as [|x xs IH]; intros v m Hwf; simpl.
  - apply wp_ret. by rewrite app_nil_r.
  - wpb. unfold PushBack. wpb.
    pose proof (wp_EmplaceBack v m (ByCopy x) Hwf) as H. unfold wp in H |- *.
    destruct (EmplaceBack (ByCopy x) (v, m)) as [p [v1 m1]|s1|] eqn:E; [|by destruct H as (_&?&_)|done].
    destruct (EmplaceBack_contents v m _ _ _ Hwf E) as [Hwf1 Hc1]. simpl in *.
    pose proof (IH v1 m1 Hwf1) as H1. unfold wp in H1.
    destruct (appends xs (v1, m1)) as [[] s2|s2|]; [|done..].
    destruct H1 as [Hwf2 Hc2]. split; [done|]. by rewrite Hc2, Hc1, <- app_assoc.
Qed.

(** X5. Appending the values of a list, in order, to a default-constructed
    vector gives a vector that holds exactly that list. *)
Theorem appends_contents (xs : list T) (m : mem) r s' :
  appends xs (Vector_default, m) = Ok r s' →
  size_ s'.1 = length xs ∧ contents s'.1 s'.2 = map Some xs ∧ wf s'.1 s'.2.
Proof.
  intros Hrun.
  pose proof (wp_ok _ _ _ _ _ _ (wp_appends_contents xs _ m (wf_default m)) Hrun) as [Hwf Hc].
  change (contents Vector_default m) with (@nil (option T)) in Hc. simpl in Hc.
  split; [|done]. by rewrite <- (contents_length s'.1 s'.2), Hc, length_map.
Qed.

(** X6. [operator[]] checks the index against the size: an index below the
    size gives the address of that element and changes nothing, and the value
    read there is the element of the sequence at that index; an index at or
    past the size fails the assertion. *)
Theorem index_reads_contents (v : Vector) (m : mem) (i : nat) :
  wf v m →
  (i < size_ v →
     ∃ p x, index i (v, m) = Ok p (v, m) ∧ val_at m p = Some x ∧ contents v m !! i = Some (Some x)) ∧
  (size_ v ≤ i → index i (v, m) = Abort).
Proof.
  intros Hwf. pose proof Hwf as (Hle&_&_&Hvals). split.
  - intros Hi. destruct (Hvals i Hi) as [x Hx].
    exists (ptr_add (buffer_ (data_ v)) i), x. split; [|split; [done|]].
    + unfold index, bind, get_size, get_data, RawMemory_index, assert_. simpl.
      rewrite (proj2 (Nat.ltb_lt _ _) Hi). simpl. unfold bind.
      by rewrite (proj2 (Nat.leb_le i (capacity_ (data_ v))) ltac:(lia)).
    + by rewrite contents_lookup, decide_True, Hx by done.
  - intros Hi. unfold index, bind, get_size, assert_. simpl.
    by rewrite (proj2 (Nat.ltb_ge _ _) Hi).
Qed.

Lemma end_cases (v : Vector) m :
  end_ (v, m) = Abort ∨ end_ (v, m) = Ok (ptr_add (buffer_ (data_ v)) (size_ v)) (v, m).
Proof.
  destruct (decide (size_ v ≤ capacity_ (data_ v))) as [Hle|Hgt]; [right; by apply end_eq|].
  left. unfold end_, bind, get_size. simpl. rewrite decide_False by lia.
  unfold get_data, RawMemory_plus, bind, assert_. simpl.
  by rewrite (proj2 (Nat.leb_gt (size_ v) (capacity_ (data_ v))) ltac:(lia)).
Qed.

(** ** Construction and destruction *)

Lemma wp_value_construct m p :
  is_Some (cell_at m p) →
  wp (value_construct p) m
     (λ _ m', eff (λ q, q = p) [EvValueCtor p] m m' ∧
              cell_at m' p = Some (Live default_value))
     (λ m', eff (λ _, False) [] m m' ∧ raised).
Proof.
  intros Hp. unfold value_construct.
  apply wp_bind, wp_fallible; [intros _|apply eff_throw].
  apply wp_bind, wp_store; [done|]. apply wp_record. split.
  - apply eff_step_log, eff_step_store; [apply eff_step_tick, eff_refl|done..].
  - change (cell_at (upd (ticked m) p (Live default_value)) p = Some (Live default_value)).
    rewrite cell_at_upd by done. by rewrite decide_True.
Qed.

Lemma wp_uninitialized_value_construct_n m first n :
  (∀ k, k < n → is_Some (cell_at m (ptr_add first k))) →
  wp (uninitialized_value_construct_n first n) m
     (λ _ m', eff (in_range first n) (evs (λ k, EvValueCtor (ptr_add first k)) n) m m' ∧
              ∀ k, k < n → cell_at m' (ptr_add first k) = Some (Live default_value))
     (λ m', agree (in_range first n) m m' ∧ raised).
Proof.
  intros Hdst. unfold uninitialized_value_construct_n.
  set (I := λ (j : nat) (s : mem),
    eff (in_range first n) (evs (λ k, EvValueCtor (ptr_add first k)) j) m s ∧
    ∀ k, k < j → cell_at s (ptr_add first k) = Some (Live default_value)).
  apply (wp_for_n I _ _ n 0 m).
  - split; [apply eff_refl|]. intros k Hk. lia.
  - intros j s Hj [He Hlive]. simpl in Hj.
    apply wp_on_throw.
    eapply wp_mono; [apply wp_value_construct| |]; simpl.
    + eapply eff_inb; [done|]. apply Hdst. lia.
    + intros [] s' [He' Hc']. split.
      * rewrite evs_S. apply (eff_trans _ _ [_] m s s'); [done|].
        eapply eff_mono; [|done]. intros q ->. apply in_range_add. lia.
      * intros k Hk. destruct (decide (k = j)) as [->|Hne]; [done|].
        rewrite (eff_cell _ _ _ _ _ He'); [apply Hlive; lia|].
        intros Heq. by apply ptr_add_inj in Heq.
    + intros s' [He' Hr].
      eapply wp_mono; [apply wp_destroy_n| |done]; simpl.
      * intros k Hk. eapply eff_inb; [done|]. eapply eff_inb; [done|]. apply Hdst. lia.
      * intros [] s'' [[Ha'' _] _]. split; [|done].
        eapply agree_trans; [apply He|]. eapply agree_trans.
        { eapply agree_mono; [|apply He']. done. }
        eapply agree_mono; [|done]. unfold in_range. intros q (?&?). split; [done|lia].
Qed.

Lemma RawMemory_ctor_0 m : RawMemory_ctor 0 m = Ok (mkRaw nullptr 0) m.
Proof. done. Qed.

(** The heap after the cells of a freshly allocated block have been filled. *)
Lemma heap_fresh_block m m1 m' b n (cs : list cell) :
  heap m1 = <[b := replicate n Raw]> (heap m) →
  agree (in_range (Ptr (Some b) 0) n) m1 m' →
  length cs = n →
  (∀ k, k < n → cell_at m' (ptr_add (Ptr (Some b) 0) k) = cs !! k) →
  heap m' = <[b := cs]> (heap m).
Proof.
  intros Hheap Ha Hlen Hcs. apply map_eq. intros b'.
  destruct (decide (b' = b)) as [->|Hne].
  - rewrite lookup_insert_eq. pose proof (proj1 Ha b) as Hb. unfold blen in Hb.
    rewrite Hheap, lookup_insert_eq in Hb. simpl in Hb. rewrite length_replicate in Hb.
    destruct (heap m' !! b) as [cs'|] eqn:E; [|done]. simpl in Hb. f_equal.
    apply list_eq. intros k. destruct (decide (k < n)) as [Hk|Hk].
    + specialize (Hcs k Hk). unfold cell_at in Hcs. simpl in Hcs. by rewrite E in Hcs.
    + rewrite !(proj2 (lookup_ge_None _ _)); [done|lia|]. injection Hb as ->. lia.
  - rewrite lookup_insert_ne by done. rewrite (agree_heap _ _ _ _ Ha).
    + by rewrite Hheap, lookup_insert_ne.
    + intros o Hr. apply in_range_base in Hr. simpl in Hr. congruence.
Qed.

(** Releasing a fresh block whose cells alone were written gives the heap
    back. *)
Lemma wp_release_fresh (P : ptr → Prop) m m1 m2 b n R :
  heap m !! b = None →
  heap m1 = <[b := replicate n Raw]> (heap m) →
  agree P m1 m2 → (∀ q, P q → base q = Some b) →
  wp (RawMemory_dtor (mkRaw (Ptr (Some b) 0) n)) m2
     (λ _ m3, heap m3 = heap m ∧ log m3 = EvFree b :: log m2) R.
Proof.
  intros Hfresh Hheap Ha HP.
  assert (is_Some (heap m2 !! b)) as [cs Hcs].
  { destruct Ha as [Hb _]. specialize (Hb b). unfold blen in Hb.
    rewrite Hheap, lookup_insert_eq in Hb. destruct (heap m2 !! b); [eauto|done]. }
  unfold RawMemory_dtor. simpl. apply (wp_Deallocate _ _ cs); [done|]. simpl.
  split; [|done]. apply map_eq. intros b'.
  destruct (decide (b' = b)) as [->|Hne].
  - by rewrite lookup_delete_eq.
  - rewrite lookup_delete_ne by done.
    rewrite (agree_heap _ _ _ _ Ha).
    + by rewrite Hheap, lookup_insert_ne.
    + intros o Hq. apply HP in Hq. simpl in Hq. congruence.
Qed.

Lemma wp_Vector_ctor m n :
  wp (Vector_ctor n) m
     (λ v m',
        (n = 0 ∧ v = Vector_default ∧ m' = m) ∨
        (0 < n ∧ ∃ b, v = mkVec (mkRaw (Ptr (Some b) 0) n) n ∧ heap m !! b = None ∧
           heap m' = <[b := replicate n (Live default_value)]> (heap m) ∧
           log m' = evs (λ k, EvValueCtor (ptr_add (Ptr (Some b) 0) k)) n ++
                    EvAlloc b n :: log m))
     (λ m', heap m' = heap m ∧ raised).
Proof.
  unfold Vector_ctor. wpb. destruct (decide (n = 0)) as [->|Hn].
  - unfold wp at 1. rewrite RawMemory_ctor_0. unfold wp. simpl. by left.
  - eapply wp_mono; [by apply wp_RawMemory_ctor| |]; simpl.
    2:{ intros m' [-> Ht]. split; [done|]. by exists (tick m). }
    intros r m1 (b&->&Hfresh&Hheap&Hlog1&_&_). wpb. apply wp_on_throw. unfold GetAddress. simpl.
    eapply wp_mono; [apply wp_uninitialized_value_construct_n| |]; simpl.
    + intros k Hk. rewrite (cell_at_fresh m m1 b n); [eauto|done..].
    + intros [] m2 [He Hc]. apply wp_ret. right. split; [lia|]. exists b.
      split; [done|]. split; [done|]. split.
      * apply (heap_fresh_block m m1 m2 b n); [done|apply He|by rewrite length_replicate|].
        intros k Hk. rewrite Hc by done. symmetry. by apply lookup_replicate_2.
      * destruct He as [_ ->]. by rewrite Hlog1.
    + intros m2 [Ha Hr].
      eapply wp_mono;
        [apply (wp_release_fresh _ m m1 m2 b n (λ _, False) Hfresh Hheap Ha); by intros q [? _]
        |simpl|done].
      by intros [] m3 [? _].
Qed.

Lemma invariant_true v m :
  invariant v m = true ↔
  size_ v ≤ capacity_ (data_ v) ∧
  ∀ i, i < capacity_ (data_ v) →
    ∃ c, cell_at m (ptr_add (buffer_ (data_ v)) i) = Some c ∧ is_live c = (i <? size_ v).
Proof.
  unfold invariant. rewrite andb_true_iff, Nat.leb_le, forallb_forall.
  split; intros [Hle Hs]; (split; [done|]).
  - intros i Hi. assert (In i (seq 0 (capacity_ (data_ v)))) as Hin by (apply in_seq; lia).
    specialize (Hs i Hin). unfold slot_ok in Hs.
    destruct (cell_at m _) as [c|]; [|done]. apply bool_decide_eq_true in Hs. eauto.
  - intros i Hi. apply in_seq in Hi. destruct (Hs i ltac:(lia)) as (c&Hc&Hl).
    unfold slot_ok. rewrite Hc. by apply bool_decide_eq_true.
Qed.

(** The cells of a block known as a list. *)
Lemma cell_at_heap m b (cs : list cell) k :
  heap m !! b = Some cs → cell_at m (ptr_add (Ptr (Some b) 0) k) = cs !! k.
Proof. intros Hb. unfold cell_at. simpl. by rewrite Hb. Qed.

(** A vector that owns a whole block of live objects. *)
Lemma owns_block_wf m b n (vals : list T) :
  0 < n → length vals = n → heap m !! b = Some (Live <$> vals) →
  let v := mkVec (mkRaw (Ptr (Some b) 0) n) n in
  wf v m ∧ invariant v m = true ∧ contents v m = Some <$> vals.
Proof.
  intros Hn Hlen Hb v.
  assert (∀ k, k < n → ∃ x, vals !! k = Some x ∧
            cell_at m (ptr_add (Ptr (Some b) 0) k) = Some (Live x)) as Hc.
  { intros k Hk. destruct (lookup_lt_is_Some_2 vals k ltac:(lia)) as [x Hx].
    exists x. split; [done|]. rewrite (cell_at_heap m b _ k Hb), list_lookup_fmap, Hx. done. }
  split; [|split].
  - split; [done|]. split; [done|]. split.
    + simpl. split; [|done]. unfold blen. rewrite Hb. simpl. by rewrite length_fmap, Hlen.
    + intros k Hk. simpl in *. destruct (Hc k Hk) as (x&_&Hx). unfold val_at. rewrite Hx. eauto.
  - apply invariant_true. split; [done|]. intros k Hk. simpl in *.
    destruct (Hc k Hk) as (x&_&Hx). exists (Live x). split; [done|].
    simpl. symmetry. by apply Nat.ltb_lt.
  - apply contents_eq; [by rewrite length_fmap|].
    intros k Hk. simpl in *. destruct (Hc k Hk) as (x&Hx&Hcx).
    rewrite list_lookup_fmap, Hx. unfold val_at. by rewrite Hcx.
Qed.


Lemma Vector_copy_ctor_0 other m :
  size_ other = 0 → Vector_copy_ctor other m = Ok Vector_default m.
Proof. intros H. unfold Vector_copy_ctor. by rewrite H. Qed.

Lemma wp_Vector_copy_ctor other m :
  wf other m →
  wp (Vector_copy_ctor other) m
     (λ v m',
        (size_ other = 0 ∧ v = Vector_default ∧ m' = m) ∨
        (0 < size_ other ∧
         ∃ b vals, v = mkVec (mkRaw (Ptr (Some b) 0) (size_ other)) (size_ other) ∧
           heap m !! b = None ∧ length vals = size_ other ∧
           contents other m = Some <$> vals ∧
           heap m' = <[b := Live <$> vals]> (heap m) ∧
           log m' = evs (λ k, EvCopyCtor (Some (ptr_add (buffer_ (data_ other)) k))
                                         (Some (ptr_add (Ptr (Some b) 0) k))) (size_ other) ++
                    EvAlloc b (size_ other) :: log m))
     (λ m', heap m' = heap m ∧ raised).
Proof.
  intros Hwf. pose proof Hwf as (Hle&Ho&Hblk&Hvals).
  destruct (decide (size_ other = 0)) as [Hz|Hn].
  { unfold wp. rewrite Vector_copy_ctor_0 by done. by left. }
  set (n := size_ other) in *. set (buf := buffer_ (data_ other)) in *.
  set (f := λ k, default default_value (val_at m (ptr_add buf k))).
  unfold Vector_copy_ctor. fold n. wpb.
  eapply wp_mono; [by apply wp_RawMemory_ctor| |]; simpl.
  2:{ intros m' [-> Ht]. split; [done|]. by exists (tick m). }
  intros r m1 (b&->&Hfresh&Hheap&Hlog1&_&_). wpb. apply wp_on_throw. unfold GetAddress. simpl.
  fold buf.
  assert (base buf ≠ Some b) as Hnb.
  { intros E. rewrite E in Hblk. destruct Hblk as [Hb _]. unfold blen in Hb.
    by rewrite Hfresh in Hb. }
  assert (∀ k, k < n → val_at m1 (ptr_add buf k) = Some (f k)) as Hsrc1.
  { intros k Hk. destruct (base buf) as [ob|] eqn:Eb; [|lia].
    rewrite (val_at_block m m1 ob); [by apply wf_val| |done].
    rewrite Hheap. apply lookup_insert_ne. congruence. }
  eapply wp_mono; [apply (wp_uninitialized_copy_n m1 buf n (Ptr (Some b) 0) f)| |]; simpl.
  - done.
  - intros k Hk. rewrite (cell_at_fresh m m1 b n); [eauto|done..].
  - intros k Hk [Hb _]. simpl in Hb. done.
  - intros [] m2 [He Hc]. apply wp_ret. right. split; [lia|].
    exists b, (f <$> seq 0 n).
    split; [done|]. split; [done|]. split; [by rewrite length_fmap, length_seq|].
    split; [|split].
    + apply contents_eq; [by rewrite !length_fmap, length_seq|].
      intros k Hk. fold n in Hk. rewrite !list_lookup_fmap, lookup_seq_lt by done. simpl.
      by rewrite (wf_val other m k Hwf Hk).
    + apply (heap_fresh_block m m1 m2 b n); [done|apply He|by rewrite !length_fmap, length_seq|].
      intros k Hk. rewrite Hc by done. by rewrite !list_lookup_fmap, lookup_seq_lt.
    + destruct He as [_ ->]. by rewrite Hlog1.
  - intros m2 [Ha Hr].
    eapply wp_mono;
      [apply (wp_release_fresh _ m m1 m2 b n (λ _, False) Hfresh Hheap Ha); by intros q [? _]
      |simpl|done].
    by intros [] m3 [? _].
Qed.

(** Cells of [m] that are still there, unchanged, in a larger heap. *)
Lemma cell_at_subseteq m m' q :
  heap m ⊆ heap m' → is_Some (cell_at m q) → cell_at m' q = cell_at m q.
Proof.
  intros Hsub [c Hc]. unfold cell_at in *. destruct (base q) as [b|]; [|done].
  destruct (heap m !! b) as [cs|] eqn:E; [|done].
  by rewrite (lookup_weaken _ _ _ _ E Hsub).
Qed.

Lemma wf_subseteq v m m' :
  heap m ⊆ heap m' → wf v m → wf v m' ∧ contents v m' = contents v m.
Proof.
  intros Hsub Hwf. pose proof Hwf as (Hle&Ho&Hblk&Hvals).
  assert (∀ k, k < size_ v →
            val_at m' (ptr_add (buffer_ (data_ v)) k) =
            val_at m (ptr_add (buffer_ (data_ v)) k)) as Hv.
  { intros k Hk. unfold val_at. rewrite (cell_at_subseteq m m'); [done..|].
    apply (wf_inb v m); [done|lia]. }
  split.
  - split; [done|]. split; [done|]. split.
    + destruct (base (buffer_ (data_ v))) as [b|]; [|done]. destruct Hblk as [Hb Hc].
      split; [|done]. unfold blen in *. destruct (heap m !! b) as [cs|] eqn:E; [|done].
      by rewrite (lookup_weaken _ _ _ _ E Hsub).
    + intros k Hk. rewrite Hv by done. by apply Hvals.
  - apply contents_eq; [by rewrite contents_length|].
    intros k Hk. rewrite contents_lookup, decide_True by done. by rewrite Hv.
Qed.


Lemma wp_Vector_dtor v m :
  wf v m →
  wp (Vector_dtor v) m
     (λ _ m',
        heap m' = match base (buffer_ (data_ v)) with
                  | Some b => delete b (heap m)
                  | None => heap m
                  end ∧
        log m' = free_event (data_ v) ++
                 evs (λ k, EvDtor (Some (ptr_add (buffer_ (data_ v)) k))) (size_ v) ++ log m)
     (λ _, False).
Proof.
  intros Hwf. pose proof Hwf as (Hle&Ho&Hblk&Hvals).
  unfold Vector_dtor, GetAddress. wpb.
  eapply wp_mono; [apply (wp_destroy_n _ _ _ (λ _, False))| |done]; simpl.
  { intros k Hk. apply (wf_inb v m); [done|lia]. }
  intros [] m1 [[Ha Hl] _]. unfold RawMemory_dtor, free_event.
  destruct (buffer_ (data_ v)) as [[b|] o] eqn:Eb; simpl in *; subst o.
  - destruct Hblk as [Hb _].
    assert (is_Some (heap m1 !! b)) as [cs1 Hcs1].
    { pose proof (proj1 Ha b) as Hb1. unfold blen in *.
      destruct (heap m !! b); [|done]. destruct (heap m1 !! b); [eauto|done]. }
    apply (wp_Deallocate _ _ cs1); [done|]. simpl. split; [|by rewrite Hl].
    apply map_eq. intros b'. destruct (decide (b' = b)) as [->|Hne].
    + by rewrite !lookup_delete_eq.
    + rewrite !lookup_delete_ne by done. apply (agree_heap _ _ _ _ Ha).
      intros o' [Hr _]. simpl in Hr. congruence.
  - apply wp_ret. split; [|done]. apply map_eq. intros b'.
    apply (agree_heap _ _ _ _ Ha). by intros o' [Hr _].
Qed.

(** X10. [~Vector()] never throws and never stops on a failed check: it
    calls the destructor of the elements at the indices below the size, once
    each and in index order, then releases the block; every other block of the
    heap stays as it is. *)
Theorem Vector_dtor_destroys_and_releases (v : Vector) (m : mem) :
  wf v m →
  ∃ m', Vector_dtor v m = Ok tt m' ∧
    heap m' = match base (buffer_ (data_ v)) with
              | Some b => delete b (heap m)
              | None => heap m
              end ∧
    log m' = free_event (data_ v) ++
             evs (λ k, EvDtor (Some (ptr_add (buffer_ (data_ v)) k))) (size_ v) ++ log m.
Proof.
  intros Hwf. pose proof (wp_Vector_dtor v m Hwf) as H. unfold wp in H.
  destruct (Vector_dtor v m) as [[] m'|m'|]; [eauto|done..].
Qed.

(** X11. A vector built by either constructor and then destroyed leaves the
    heap exactly as it was before the construction: nothing leaks and nothing
    else is released. *)
Theorem construct_then_destroy (m : mem) :
  (∀ n v m1, Vector_ctor n m = Ok v m1 →
     ∃ m2, Vector_dtor v m1 = Ok tt m2 ∧ heap m2 = heap m) ∧
  (∀ other v m1, wf other m → Vector_copy_ctor other m = Ok v m1 →
     ∃ m2, Vector_dtor v m1 = Ok tt m2 ∧ heap m2 = heap m).
Proof.
  assert (∀ v m1, wf v m1 →
            ∃ m2, Vector_dtor v m1 = Ok tt m2 ∧
                  heap m2 = match base (buffer_ (data_ v)) with
                            | Some b => delete b (heap m1)
                            | None => heap m1
                            end) as Hdtor.
  { intros v m1 Hwf. pose proof (wp_Vector_dtor v m1 Hwf) as H. unfold wp in H.
    destruct (Vector_dtor v m1) as [[] m2|m2|]; [|done..]. destruct H as [? _]. eauto. }
  assert (∀ n b (vals : list T) m1, 0 < n → length vals = n → heap m !! b = None →
            heap m1 = <[b := Live <$> vals]> (heap m) →
            ∃ m2, Vector_dtor (mkVec (mkRaw (Ptr (Some b) 0) n) n) m1 = Ok tt m2 ∧
                  heap m2 = heap m) as Hblock.
  { intros n b vals m1 Hn Hlen Hfresh Hheap.
    destruct (owns_block_wf m1 b n vals Hn Hlen ltac:(by rewrite Hheap, lookup_insert_eq))
      as (Hwf&_).
    destruct (Hdtor _ m1 Hwf) as (m2&Hrun&Hh).
    exists m2. split; [done|]. simpl in Hh. rewrite Hh, Hheap. by apply delete_insert_id. }
  split.
  - intros n v m1 Hrun.
    destruct (wp_ok _ _ _ _ _ _ (wp_Vector_ctor m n) Hrun)
      as [(_&->&->)|(Hn&b&->&Hfresh&Hheap&_)]; [apply Hdtor, wf_default|].
    apply (Hblock n b (replicate n default_value)); [done|by rewrite length_replicate|done|].
    by rewrite fmap_replicate.
  - intros other v m1 Hwf Hrun.
    destruct (wp_ok _ _ _ _ _ _ (wp_Vector_copy_ctor other m Hwf) Hrun)
      as [(_&->&->)|(Hn&b&vals&->&Hfresh&Hlen&_&Hheap&_)]; [apply Hdtor, wf_default|].
    by apply (Hblock _ b vals).
Qed.

(** ** [PopBack] and [Resize] *)

Lemma wp_PopBack v m :
  wf v m → 0 < size_ v →
  wp PopBack (v, m)
     (λ _ s', data_ s'.1 = data_ v ∧ S (size_ s'.1) = size_ v ∧
        eff (λ q, q = ptr_add (buffer_ (data_ v)) (size_ v - 1))
            [EvDtor (Some (ptr_add (buffer_ (data_ v)) (size_ v - 1)))] m s'.2 ∧
        cell_at s'.2 (ptr_add (buffer_ (data_ v)) (size_ v - 1)) = Some Raw)
     (λ _, False).
Proof.
  intros Hwf Hpos. pose proof Hwf as (Hle&Ho&Hblk&Hvals).
  unfold PopBack. wp_step. wpb. apply wp_assert; [by apply Nat.ltb_lt|]. wp_step.
  destruct (size_ v) as [|n] eqn:Hs; [lia|]. wpb. apply wp_dec.
  wpb. apply wp_RawMemory_plus; [lia|]. wpb. apply wp_lift.
  eapply wp_mono; [apply (wp_destroy_at _ _ (λ _, False)); apply (wf_inb v m); [done|lia]| |done].
  simpl. intros [] m1 [He Hc]. wp_step. rewrite Hs. wpb. apply wp_dec. apply wp_set_size. simpl.
  replace (n - 0) with n by lia. by destruct (data_ v).
Qed.

(** A vector whose first [n] values are those of a well-formed vector with
    the same buffer. *)
Lemma wf_prefix (P : ptr → Prop) v m m' n :
  wf v m → n ≤ size_ v → agree P m m' →
  (∀ q, P q → base q = base (buffer_ (data_ v)) ∧ n ≤ offs q) →
  wf (mkVec (data_ v) n) m' ∧ contents (mkVec (data_ v) n) m' = take n (contents v m).
Proof.
  intros Hwf Hn Ha HP. pose proof Hwf as (Hle&Ho&Hblk&Hvals).
  assert (∀ k, k < n → val_at m' (ptr_add (buffer_ (data_ v)) k) =
                       val_at m (ptr_add (buffer_ (data_ v)) k)) as Hv.
  { intros k Hk. unfold val_at. rewrite (proj2 Ha); [done|].
    intros Hq. apply HP in Hq as [_ Hq]. simpl in Hq. lia. }
  split.
  - split; [simpl; lia|]. split; [done|]. simpl. split.
    + destruct (base (buffer_ (data_ v))) as [b|]; [|done]. by rewrite (proj1 Ha).
    + intros k Hk. rewrite Hv by done. apply Hvals. lia.
  - apply contents_eq; [rewrite length_take_le; [done|by rewrite contents_length]|].
    simpl. intros k Hk. rewrite lookup_take_lt by done.
    rewrite contents_lookup, decide_True by lia. by rewrite Hv.
Qed.

Lemma PopBack_contents v m r s' :
  wf v m → 0 < size_ v → PopBack (v, m) = Ok r s' →
  data_ s'.1 = data_ v ∧ S (size_ s'.1) = size_ v ∧ wf s'.1 s'.2 ∧
  contents s'.1 s'.2 = take (size_ v - 1) (contents v m) ∧
  log s'.2 = EvDtor (Some (ptr_add (buffer_ (data_ v)) (size_ v - 1))) :: log m ∧
  cell_at s'.2 (ptr_add (buffer_ (data_ v)) (size_ v - 1)) = Some Raw.
Proof.
  intros Hwf Hpos Hrun. destruct s' as [v' m'].
  pose proof (wp_ok _ _ _ _ _ _ (wp_PopBack v m Hwf Hpos) Hrun) as (Hd&Hs&He&Hc). simpl in *.
  destruct (wf_prefix _ v m m' (size_ v - 1) Hwf ltac:(lia) (proj1 He)) as [Hwf' Hc'].
  { intros q ->. simpl. split; [done|]. lia. }
  assert (v' = mkVec (data_ v) (size_ v - 1)) as ->.
  { destruct v' as [d' n']. simpl in *. subst d'. f_equal. lia. }
  split; [done|]. split; [done|]. split; [done|]. split; [done|]. split; [apply He|done].
Qed.

(** X12. [PopBack] on a vector that is not empty destroys the last element
    and nothing else: the size drops by one, the values before it stay, the
    buffer and the capacity are kept, and the slot it leaves holds no object.
    It does not throw. On an empty vector the assertion fails. *)
Theorem PopBack_removes_the_last (v : Vector) (m : mem) :
  wf v m →
  (0 < size_ v →
     ∃ s', PopBack (v, m) = Ok tt s' ∧
       data_ s'.1 = data_ v ∧ S (size_ s'.1) = size_ v ∧
       contents s'.1 s'.2 = take (size_ v - 1) (contents v m) ∧
       log s'.2 = EvDtor (Some (ptr_add (buffer_ (data_ v)) (size_ v - 1))) :: log m ∧
       cell_at s'.2 (ptr_add (buffer_ (data_ v)) (size_ v - 1)) = Some Raw ∧
       wf s'.1 s'.2) ∧
  (size_ v = 0 → PopBack (v, m) = Abort).
Proof.
  intros Hwf. split.
  - intros Hpos. pose proof (wp_PopBack v m Hwf Hpos) as H. unfold wp in H.
    destruct (PopBack (v, m)) as [[] s'|s'|] eqn:Hrun; [|done..].
    destruct (PopBack_contents v m tt s' Hwf Hpos Hrun) as (?&?&?&?&?&?).
    exists s'. done.
  - intros Hz. unfold PopBack, bind, get_size, assert_. simpl. by rewrite Hz.
Qed.

(** X13. [EmplaceBack] (and so [PushBack]) followed by [PopBack] gives back
    the original sequence: same size, same values. The capacity stays where
    the append left it. *)
Theorem EmplaceBack_then_PopBack (v : Vector) (m : mem) (a : init) p s1 :
  wf v m → EmplaceBack a (v, m) = Ok p s1 →
  ∃ s2, PopBack s1 = Ok tt s2 ∧
    size_ s2.1 = size_ v ∧ contents s2.1 s2.2 = contents v m ∧ data_ s2.1 = data_ s1.1.
Proof.
  intros Hwf Hrun. destruct (EmplaceBack_contents v m a p s1 Hwf Hrun) as [Hwf1 Hc1].
  assert (size_ s1.1 = S (size_ v)) as Hs1.
  { rewrite <- contents_length with (m := s1.2). rewrite Hc1, length_app, contents_length.
    simpl. lia. }
  destruct s1 as [v1 m1]. simpl in *.
  pose proof (wp_PopBack v1 m1 Hwf1 ltac:(lia)) as H. unfold wp in H.
  destruct (PopBack (v1, m1)) as [[] s2|s2|] eqn:Hrun2; [|done..].
  destruct (PopBack_contents v1 m1 tt s2 Hwf1 ltac:(lia) Hrun2) as (Hd&Hs&_&Hc&_).
  exists s2. split; [done|]. split; [lia|]. split; [|done].
  rewrite Hc, Hc1, Hs1. replace (S (size_ v) - 1) with (length (contents v m))
    by (rewrite contents_length; lia).
  by rewrite take_app_length.
Qed.



(** ** Copy assignment between two vectors *)

Lemma wp_copy_n m first n d_first (f : nat → T) :
  (∀ k, k < n → val_at m (ptr_add first k) = Some (f k)) →
  (∀ k, k < n → is_Some (cell_at m (ptr_add d_first k))) →
  (∀ k, k < n → ¬ in_range d_first n (ptr_add first k)) →
  wp (copy_n first n d_first) m
     (λ _ m', eff (in_range d_first n)
                  (evs (λ k, EvCopyAssign (Some (ptr_add first k)) (Some (ptr_add d_first k))) n)
                  m m' ∧
              ∀ k, k < n → val_at m' (ptr_add d_first k) = Some (f k))
     (λ m', raised ∧ ∃ j, j < n ∧ agree (in_range d_first j) m m' ∧
              ∀ k, k < j → val_at m' (ptr_add d_first k) = Some (f k)).
Proof.
  intros Hsrc Hdst Hdisj. unfold copy_n.
  set (I := λ (j : nat) (s : mem),
    eff (in_range d_first j)
        (evs (λ k, EvCopyAssign (Some (ptr_add first k)) (Some (ptr_add d_first k))) j) m s ∧
    ∀ k, k < j → val_at s (ptr_add d_first k) = Some (f k)).
  assert (∀ j q, j ≤ n → in_range d_first j q → in_range d_first n q) as Hmono.
  { unfold in_range. intros j q Hj [? ?]. split; [done|lia]. }
  eapply wp_mono;
    [apply (wp_for_n I (λ m', raised ∧ ∃ j, j < n ∧ agree (in_range d_first j) m m' ∧
                          ∀ k, k < j → val_at m' (ptr_add d_first k) = Some (f k)) _ n 0 m)
    | |]; simpl.
  - split; [apply eff_refl|]. intros k Hk. lia.
  - intros j s Hj [He Hdone]. simpl in Hj.
    eapply wp_mono; [apply (wp_copy_assign_elem _ _ _ (f j))| |]; simpl.
    + rewrite (eff_val _ _ _ _ _ He); [apply Hsrc; lia|].
      intros Hr. apply (Hdisj j); [lia|]. apply (Hmono j); [lia|done].
    + eapply eff_inb; [done|]. apply Hdst. lia.
    + intros [] s' [He' Hv']. split.
      * rewrite evs_S. apply (eff_trans _ _ [_] m s s').
        { eapply eff_mono; [|done]. unfold in_range. intros q [? ?]. split; [done|lia]. }
        eapply eff_mono; [|done]. intros q ->. apply in_range_add. lia.
      * intros k Hk. destruct (decide (k = j)) as [->|Hne]; [done|].
        rewrite (eff_val _ _ _ _ _ He'); [apply Hdone; lia|].
        intros Heq. by apply ptr_add_inj in Heq.
    + intros s' [He' Hr]. split; [done|]. exists j. split; [lia|]. split.
      * eapply agree_trans; [apply He|]. eapply agree_mono; [|apply He']. by intros q [].
      * intros k Hk. rewrite (eff_val _ _ _ _ _ He'); [by apply Hdone|by intros []].
  - intros [] m' [He Hv]. done.
  - done.
Qed.

(** A well-formed vector stays so when the cells of its block that hold its
    elements keep a value and the block keeps its length. *)
Lemma wf_kept v m m' :
  wf v m →
  (∀ b, base (buffer_ (data_ v)) = Some b → blen m' b = blen m b) →
  (∀ k, k < size_ v → is_Some (val_at m' (ptr_add (buffer_ (data_ v)) k))) →
  wf v m'.
Proof.
  intros (Hle&Ho&Hblk&Hvals) Hb Hv. split; [done|]. split; [done|]. split; [|done].
  destruct (base (buffer_ (data_ v))) as [b|]; [|done]. by rewrite Hb.
Qed.

Lemma val_at_heap_eq m m' q :
  (∀ b, base q = Some b → heap m' !! b = heap m !! b) → val_at m' q = val_at m q.
Proof.
  intros H. unfold val_at, cell_at. destruct (base q) as [b|]; [|done]. by rewrite H.
Qed.

Lemma wf_block_eq v m m' :
  wf v m →
  (∀ b, base (buffer_ (data_ v)) = Some b → heap m' !! b = heap m !! b) →
  wf v m' ∧ ∀ k, val_at m' (ptr_add (buffer_ (data_ v)) k) =
                 val_at m (ptr_add (buffer_ (data_ v)) k).
Proof.
  intros Hwf Hb.
  assert (∀ k, val_at m' (ptr_add (buffer_ (data_ v)) k) =
               val_at m (ptr_add (buffer_ (data_ v)) k)) as Hv
    by (intros k; by apply val_at_heap_eq).
  split; [|done]. apply (wf_kept v m); [done| |].
  - intros b Eb. unfold blen. by rewrite Hb.
  - intros k Hk. rewrite Hv. by apply Hwf.
Qed.

Lemma wp_Swap_this local (s : Vector * mem) Q R :
  Q (Swap s.1 local).2 ((Swap s.1 local).1, s.2) → wp (Swap_this local) s Q R.
Proof. done. Qed.

Lemma wp_copy_assign_body a b m :
  wf a m → wf b m → separate a b →
  wp (copy_assign_body b) (a, m)
     (λ _ s',
        size_ s'.1 = size_ b ∧ wf s'.1 s'.2 ∧ wf b s'.2 ∧ separate s'.1 b ∧
        capacity_ (data_ s'.1) =
          (if capacity_ (data_ a) <? size_ b then size_ b else capacity_ (data_ a)) ∧
        (size_ b ≤ capacity_ (data_ a) → data_ s'.1 = data_ a) ∧
        (∀ k, k < size_ b →
           val_at s'.2 (ptr_add (buffer_ (data_ s'.1)) k) =
           val_at m (ptr_add (buffer_ (data_ b)) k)) ∧
        (∀ k, k < size_ b →
           val_at s'.2 (ptr_add (buffer_ (data_ b)) k) =
           val_at m (ptr_add (buffer_ (data_ b)) k)))
     (λ s',
        raised ∧ s'.1 = a ∧ wf a s'.2 ∧ wf b s'.2 ∧
        (∀ k, k < size_ b →
           val_at s'.2 (ptr_add (buffer_ (data_ b)) k) =
           val_at m (ptr_add (buffer_ (data_ b)) k)) ∧
        (capacity_ (data_ a) < size_ b → heap s'.2 = heap m)).
Proof.
  intros Hwfa Hwfb Hsep.
  pose proof Hwfa as (Hlea&Hoa&Hblka&Hvalsa). pose proof Hwfb as (Hleb&Hob&Hblkb&Hvalsb).
  set (bufa := buffer_ (data_ a)) in *. set (bufb := buffer_ (data_ b)) in *.
  set (f := λ k, default default_value (val_at m (ptr_add bufb k))).
  unfold copy_assign_body. wp_step. destruct (capacity_ (data_ a) <? size_ b) eqn:E.
  - apply Nat.ltb_lt in E. wpb. apply wp_lift.
    eapply wp_mono; [by apply wp_Vector_copy_ctor| |]; simpl.
    + intros tmp m1 [(Hz&_)|(Hn&nb&vals&->&Hfresh&Hlen&Hcont&Hheap&_)]; [lia|].
      wpb. apply wp_Swap_this. simpl. apply wp_lift.
      assert (heap m ⊆ heap m1) as Hsub by (rewrite Hheap; by apply insert_subseteq).
      destruct (wf_subseteq a m m1 Hsub Hwfa) as [Hwfa1 _].
      eapply wp_mono; [apply (wp_Vector_dtor _ m1); exact Hwfa1| |done]. simpl.
      intros [] m2 [Hh2 _]. fold bufa in Hh2.
      assert (base bufa ≠ Some nb) as Hnb.
      { intros Eb. rewrite Eb in Hblka. destruct Hblka as [Hb _]. unfold blen in Hb.
        by rewrite Hfresh in Hb. }
      assert (base bufb ≠ Some nb) as Hnbb.
      { intros Eb. rewrite Eb in Hblkb. destruct Hblkb as [Hb _]. unfold blen in Hb.
        by rewrite Hfresh in Hb. }
      assert (heap m2 !! nb = Some (Live <$> vals)) as Hnew.
      { rewrite Hh2. destruct (base bufa) as [ob|].
        - rewrite lookup_delete_ne by congruence. by rewrite Hheap, lookup_insert_eq.
        - by rewrite Hheap, lookup_insert_eq. }
      assert (∀ bb, base bufb = Some bb → heap m2 !! bb = heap m !! bb) as Hbb.
      { intros bb Ebb. rewrite Hh2.
        assert (heap m1 !! bb = heap m !! bb) as H1
          by (rewrite Hheap; apply lookup_insert_ne; congruence).
        destruct (base bufa) as [ob|] eqn:Eba; [|done].
        rewrite lookup_delete_ne; [done|]. intros ->.
        unfold separate in Hsep. fold bufa bufb in Hsep. rewrite Eba, Ebb in Hsep.
        by specialize (Hsep eq_refl). }
      destruct (owns_block_wf m2 nb (size_ b) vals Hn Hlen Hnew) as (Hwf'&_&Hc').
      destruct (wf_block_eq b m m2 Hwfb Hbb) as [Hwfb2 Hvb2].
      split; [done|]. split; [done|]. split; [done|]. split.
      { intros Heq. simpl in Heq. fold bufb in Heq. congruence. }
      split; [done|]. split; [lia|]. split; [|intros k _; apply Hvb2].
      intros k Hk.
      assert (contents (mkVec (mkRaw (Ptr (Some nb) 0) (size_ b)) (size_ b)) m2 !! k =
              contents b m !! k) as Hl by (by rewrite Hc', Hcont).
      rewrite !contents_lookup, !decide_True in Hl by done. by injection Hl.
    + intros m1 [Hh Hr]. split; [done|]. split; [done|].
      assert (∀ v, wf v m → wf v m1 ∧ ∀ k, val_at m1 (ptr_add (buffer_ (data_ v)) k) =
                                            val_at m (ptr_add (buffer_ (data_ v)) k)) as Hsame.
      { intros v Hv. apply wf_block_eq; [done|]. intros bb _. by rewrite Hh. }
      split; [by apply Hsame|]. split; [by apply Hsame|]. split; [|done].
      intros k _. by apply (Hsame b).
  - apply Nat.ltb_ge in E. do 2 wp_step. unfold GetAddress. fold bufa bufb.
    set (n := size_ a `min` size_ b).
    assert (∀ k, k < size_ b → base (ptr_add bufb k) ≠ base bufa) as Hbne.
    { intros k Hk Hb. simpl in Hb. symmetry in Hb.
      specialize (Hsep Hb). fold bufa in Hsep. rewrite Hsep in Hblka. lia. }
    assert (∀ (P : ptr → Prop) m1 m2,
              agree P m1 m2 → (∀ q, P q → base q = base bufa) →
              ∀ q, base q ≠ base bufa → val_at m2 q = val_at m1 q) as Hfar.
    { intros P m1 m2 Ha HP q Hq. unfold val_at. rewrite (proj2 Ha); [done|].
      intros HPq. by apply HP in HPq. }
    assert (∀ m', (∀ bb, blen m' bb = blen m bb) →
              (∀ q, base q ≠ base bufa → val_at m' q = val_at m q) → wf b m') as Hwfb'.
    { intros m' Hlen Hv. apply (wf_kept b m); [done|by intros bb _|].
      intros k Hk. fold bufb. rewrite Hv by (by apply Hbne). by apply Hvalsb. }
    wpb. apply wp_lift.
    eapply wp_mono; [apply (wp_copy_n m bufb n bufa f)| |]; simpl.
    + intros k Hk. apply (wf_val b m); [done|lia].
    + intros k Hk. apply (wf_inb a m); [done|lia].
    + intros k Hk [Hb _]. by apply (Hbne k); [lia|].
    + intros [] m1 [He1 Hv1].
      pose proof (Hfar _ m m1 (proj1 He1) ltac:(by intros q [? _])) as Hfar1.
      destruct (size_ b <? size_ a) eqn:E2.
      * apply Nat.ltb_lt in E2. wpb. wpb. apply wp_RawMemory_plus; [lia|]. fold bufa.
        apply wp_lift.
        eapply wp_mono; [apply (wp_destroy_n _ _ _ (λ _, False))| |done]; simpl.
        { intros k Hk. rewrite ptr_add_add. eapply eff_inb; [done|].
          apply (wf_inb a m); [done|lia]. }
        intros [] m2 [[Ha2 _] _]. apply wp_set_size. simpl. fold bufa.
        pose proof (Hfar _ m1 m2 Ha2 ltac:(by intros q [? _])) as Hfar2.
        assert (∀ k, k < size_ b → val_at m2 (ptr_add bufa k) = Some (f k)) as Hv2.
        { intros k Hk. unfold val_at. rewrite (proj2 Ha2).
          - apply Hv1. lia.
          - unfold in_range, ptr_add. simpl. intros [_ ?]. lia. }
        split; [done|]. split; [|split; [|split; [|split; [done|split; [done|split]]]]].
        -- split; [simpl; lia|]. split; [done|]. simpl. fold bufa. split.
           { destruct (base bufa) as [ba|]; [|done].
             by rewrite (proj1 Ha2), (proj1 (proj1 He1)). }
           intros k Hk. rewrite Hv2 by done. eauto.
        -- apply Hwfb'.
           ++ intros bb. by rewrite (proj1 Ha2), (proj1 (proj1 He1)).
           ++ intros q Hq. by rewrite Hfar2, Hfar1.
        -- intros Hb. unfold separate in Hsep. simpl in *. fold bufa bufb in Hb, Hsep. auto.
        -- intros k Hk. rewrite Hv2 by done. symmetry. by apply (wf_val b m).
        -- intros k Hk. rewrite Hfar2, Hfar1 by (by apply Hbne). done.
      * apply Nat.ltb_ge in E2. wpb. wpb.
        apply wp_RawMemory_plus; [lia|]. wpb. apply wp_RawMemory_plus; [lia|].
        fold bufa bufb. apply wp_lift.
        eapply wp_mono;
          [apply (wp_uninitialized_copy_n m1 (ptr_add bufb (size_ a)) (size_ b - size_ a)
                    (ptr_add bufa (size_ a)) (λ k, f (size_ a + k)))| |]; simpl.
        -- intros k Hk. rewrite ptr_add_add, Hfar1 by (apply Hbne; lia).
           apply (wf_val b m); [done|lia].
        -- intros k Hk. rewrite ptr_add_add. eapply eff_inb; [done|].
           apply (wf_inb a m); [done|lia].
        -- intros k Hk [Hb _]. rewrite ptr_add_add in Hb. by apply (Hbne (size_ a + k)); [lia|].
        -- intros [] m2 [He2 Hl2]. apply wp_set_size. simpl. fold bufa.
           pose proof (Hfar _ m1 m2 (proj1 He2) ltac:(by intros q [? _])) as Hfar2.
           assert (∀ k, k < size_ b → val_at m2 (ptr_add bufa k) = Some (f k)) as Hv2.
           { intros k Hk. destruct (decide (k < size_ a)) as [Hlt|Hge].
             - rewrite (eff_val _ _ _ _ _ He2); [apply Hv1; lia|].
               unfold in_range, ptr_add. simpl. intros [_ ?]. lia.
             - unfold val_at. replace k with (size_ a + (k - size_ a)) at 1 by lia.
               rewrite <- ptr_add_add, Hl2 by lia. simpl. do 2 f_equal. lia. }
           split; [done|]. split; [|split; [|split; [|split; [done|split; [done|split]]]]].
           ++ split; [simpl; lia|]. split; [done|]. simpl. fold bufa. split.
              { destruct (base bufa) as [ba|]; [|done].
                by rewrite (proj1 (proj1 He2)), (proj1 (proj1 He1)). }
              intros k Hk. rewrite Hv2 by done. eauto.
           ++ apply Hwfb'.
              ** intros bb. by rewrite (proj1 (proj1 He2)), (proj1 (proj1 He1)).
              ** intros q Hq. by rewrite Hfar2, Hfar1.
           ++ intros Hb. unfold separate in Hsep. simpl in *. fold bufa bufb in Hb, Hsep. auto.
           ++ intros k Hk. rewrite Hv2 by done. symmetry. by apply (wf_val b m).
           ++ intros k Hk. rewrite Hfar2, Hfar1 by (by apply Hbne). done.
        -- intros m2 [Ha2 Hr]. split; [done|]. split; [done|].
           pose proof (Hfar _ m1 m2 Ha2 ltac:(by intros q [? _])) as Hfar2.
           split; [|split; [|split; [|intros ?; lia]]].
           ++ apply (wf_kept a m); [done| |].
              ** intros ba _. by rewrite (proj1 Ha2), (proj1 (proj1 He1)).
              ** intros k Hk. fold bufa. unfold val_at. rewrite (proj2 Ha2).
                 { fold (val_at m1 (ptr_add bufa k)). rewrite Hv1 by lia. eauto. }
                 unfold in_range, ptr_add. simpl. intros [_ ?]. lia.
           ++ apply Hwfb'.
              ** intros bb. by rewrite (proj1 Ha2), (proj1 (proj1 He1)).
              ** intros q Hq. by rewrite Hfar2, Hfar1.
           ++ intros k Hk. rewrite Hfar2, Hfar1 by (by apply Hbne). done.
    + intros m1 (Hr&j&Hj&Ha1&Hv1). split; [done|]. split; [done|].
      pose proof (Hfar _ m m1 Ha1 ltac:(by intros q [? _])) as Hfar1.
      split; [|split; [|split; [|intros ?; lia]]].
      * apply (wf_kept a m); [done| |].
        -- intros ba _. by rewrite (proj1 Ha1).
        -- intros k Hk. fold bufa. destruct (decide (k < j)) as [Hlt|Hge].
           ++ rewrite Hv1 by done. eauto.
           ++ unfold val_at. rewrite (proj2 Ha1).
              { by apply Hvalsa. }
              unfold in_range, ptr_add. simpl. intros [_ ?]. lia.
      * apply Hwfb'; [|done]. intros bb. by rewrite (proj1 Ha1).
      * intros k Hk. by apply Hfar1, Hbne.
Qed.

Lemma copy_assign_run (this other : nat) (objs : gmap nat Vector) (m : mem) (a b : Vector) :
  this ≠ other → objs !! this = Some a → objs !! other = Some b →
  copy_assign this other (objs, m) =
    match copy_assign_body b (a, m) with
    | Ok r (a', m') => Ok r (<[this := a']> objs, m')
    | Throw (a', m') => Throw (<[this := a']> objs, m')
    | Abort => Abort
    end.
Proof.
  intros Hne Ha Hb. unfold copy_assign. rewrite decide_True by done.
  unfold bind, object, at_this. cbn [fst snd]. rewrite Hb. cbn [fst snd]. by rewrite Ha.
Qed.

(** X15. Copy assignment between two different vectors makes [this] hold
    the size and the values of [other] and leaves [other] as it was. When
    [other] has more elements than [this] has capacity, [this] gets a new
    block whose capacity is the size of [other]; otherwise it keeps its
    buffer and its capacity. If an exception leaves the assignment, [this]
    keeps its buffer and its size, and [other] its values; in the case with a
    new block the whole heap is as before. *)
Theorem copy_assign_copies (this other : nat) (objs : gmap nat Vector) (m : mem)
    (a b : Vector) :
  this ≠ other → objs !! this = Some a → objs !! other = Some b →
  wf a m → wf b m → separate a b →
  (∀ r s', copy_assign this other (objs, m) = Ok r s' →
     ∃ a', s'.1 = <[this := a']> objs ∧
       size_ a' = size_ b ∧
       contents a' s'.2 = contents b m ∧ contents b s'.2 = contents b m ∧
       capacity_ (data_ a') =
         (if capacity_ (data_ a) <? size_ b then size_ b else capacity_ (data_ a)) ∧
       (size_ b ≤ capacity_ (data_ a) → data_ a' = data_ a) ∧
       wf a' s'.2 ∧ wf b s'.2 ∧ separate a' b) ∧
  (∀ s', copy_assign this other (objs, m) = Throw s' →
     s'.1 = objs ∧ wf a s'.2 ∧ contents b s'.2 = contents b m ∧
     (capacity_ (data_ a) < size_ b → heap s'.2 = heap m)) ∧
  copy_assign this other (objs, m) ≠ Abort ∧
  ((∀ k, throws k = false) → ∃ s', copy_assign this other (objs, m) = Ok tt s').
Proof.
  intros Hne Ha Hb Hwfa Hwfb Hsep.
  pose proof (wp_copy_assign_body a b m Hwfa Hwfb Hsep) as H.
  rewrite (copy_assign_run this other objs m a b Hne Ha Hb).
  assert (∀ m', (∀ k, k < size_ b →
                   val_at m' (ptr_add (buffer_ (data_ b)) k) =
                   val_at m (ptr_add (buffer_ (data_ b)) k)) →
                contents b m' = contents b m) as Hcb.
  { intros m' Hv. apply contents_eq; [by rewrite contents_length|].
    intros k Hk. rewrite contents_lookup, decide_True by done. by rewrite Hv. }
  unfold wp in H. destruct (copy_assign_body b (a, m)) as [[] [a' m']|[a' m']|]; [| |done].
  - destruct H as (Hs&Hwf'&Hwfb'&Hsep'&Hcap&Hd&Hv&Hvb). simpl in *.
    split; [|split; [done|split; [done|eauto]]].
    intros r s' [= <- <-]. exists a'. simpl.
    split; [done|]. split; [done|]. split; [|split; [by apply Hcb|done]].
    apply contents_eq; [by rewrite contents_length|].
    intros k Hk. rewrite contents_lookup, decide_True by lia. rewrite Hv by lia. done.
  - destruct H as (Hr&Ha'&Hwfa'&Hwfb'&Hvb&Hh). simpl in *. subst a'.
    split; [done|]. split; [|split; [done|]].
    + intros s' [= <-]. simpl. split; [by apply insert_id|]. split; [done|].
      split; [by apply Hcb|done].
    + intros Hno. destruct Hr as [k Hk]. by rewrite Hno in Hk.
Qed.

(** X16. Moving a vector is a swap of the two objects and touches no
    element and no block: the move constructor gives the new vector the
    buffer, the capacity and the size of its source and leaves the source
    empty with a null buffer; move assignment gives [this] what [other] had
    and leaves in [other] what [this] had, which is neither destroyed nor
    released; a move assignment of a vector to itself changes nothing.
    Swapping twice gives the two vectors back. *)
Theorem moves_swap (this other : nat) (objs : gmap nat Vector) (m : mem) (a b : Vector) :
  objs !! this = Some a → objs !! other = Some b →
  move_assign this other (objs, m) = Ok tt (<[other := a]> (<[this := b]> objs), m) ∧
  (this = other → move_assign this other (objs, m) = Ok tt (objs, m)) ∧
  Vector_move_ctor b = (b, Vector_default) ∧
  Swap a b = (b, a) ∧
  Swap (Swap a b).1 (Swap a b).2 = (a, b).
Proof.
  intros Ha Hb.
  assert (∀ x y : Vector, Swap x y = (y, x)) as Hswap by (by intros [[] ?] [[] ?]).
  assert (move_assign this other (objs, m) = Ok tt (<[other := a]> (<[this := b]> objs), m))
    as Hrun.
  { unfold move_assign, bind, object. cbn [fst snd]. rewrite Ha. cbn [fst snd]. rewrite Hb.
    cbn [fst snd]. by rewrite Hswap. }
  split; [done|]. split; [|split; [|split]].
  - intros ->. rewrite Hrun. rewrite Ha in Hb. injection Hb as ->.
    by rewrite insert_insert_eq, insert_id.
  - unfold Vector_move_ctor. by rewrite Hswap.
  - done.
  - by rewrite !Hswap.
Qed.

(** * Which slots hold an object

    ** Rules for runs that return or throw *)

Lemma wp_pc {St A} (c : M St A) s Q R : wp c s Q R → pc c s Q R.
Proof. unfold wp, pc. by destruct (c s). Qed.

Lemma pc_ok {St A} (c : M St A) s Q R a s' : pc c s Q R → c s = Ok a s' → Q a s'.
Proof. unfold pc. intros H E. by rewrite E in H. Qed.

Lemma pc_throw {St A} (c : M St A) s Q R s' : pc c s Q R → c s = Throw s' → R s'.
Proof. unfold pc. intros H E. by rewrite E in H. Qed.

Lemma pc_ret {St A} (a : A) (s : St) Q R : Q a s → pc (ret a) s Q R.
Proof. done. Qed.

Lemma pc_bind {St A B} (c : M St A) (k : A → M St B) s Q R :
  pc c s (λ a s', pc (k a) s' Q R) R → pc (x <- c ;; k x) s Q R.
Proof. unfold pc, bind. by destruct (c s). Qed.

Lemma pc_mono {St A} (c : M St A) s (Q Q' : A → St → Prop) (R R' : St → Prop) :
  pc c s Q R → (∀ a s', Q a s' → Q' a s') → (∀ s', R s' → R' s') → pc c s Q' R'.
Proof. unfold pc. destruct (c s); auto. Qed.

Lemma pc_on_throw {St A} (c : M St A) cleanup s Q R :
  pc c s Q (λ s', pc cleanup s' (λ _ s'', R s'') R) → pc (on_throw c cleanup) s Q R.
Proof.
  unfold pc, on_throw. destruct (c s) as [a s'|s'|]; [done| |done].
  by destruct (cleanup s').
Qed.

Lemma pc_lift {V St A} (c : M St A) (v : V) s Q R :
  pc c s (λ a s', Q a (v, s')) (λ s', R (v, s')) → pc (lift c) (v, s) Q R.
Proof. unfold pc, lift. simpl. by destruct (c s). Qed.

Lemma pc_assert {St} (b : bool) (s : St) Q R : (b = true → Q tt s) → pc (assert_ b) s Q R.
Proof. destruct b; [|done]. intros H. by apply H. Qed.

Lemma pc_some {St A} (o : option A) (s : St) Q R :
  (∀ a, o = Some a → Q a s) → pc (some_or_abort o) s Q R.
Proof. destruct o; [|done]. intros H. by apply H. Qed.

Lemma pc_dec {St} n (s : St) Q R : (∀ k, n = S k → Q k s) → pc (dec n) s Q R.
Proof. destruct n; [done|]. intros H. by apply H. Qed.

Lemma pc_distance {St} p q (s : St) Q R :
  (base p = base q → offs p ≤ offs q → Q (offs q - offs p) s) → pc (distance p q) s Q R.
Proof. unfold pc, distance. case_decide as H; [|done]. intros HQ. destruct H. by apply HQ. Qed.

Lemma pc_for_n {St} (I : nat → St → Prop) (R : St → Prop) body n : ∀ i s,
  I i s →
  (∀ j s', i ≤ j < i + n → I j s' → pc (body j) s' (λ _ s'', I (S j) s'') R) →
  pc (for_n i n body) s (λ _ s', I (i + n) s') R.
Proof.
  induction n as [|n IH]; intros i s Hi Hstep; simpl.
  - apply pc_ret. by rewrite Nat.add_0_r.
  - apply pc_bind. eapply pc_mono; [apply (Hstep i s); [lia|done]| |done].
    intros [] s' Hs'. simpl in Hs'.
    eapply pc_mono; [apply (IH (S i) s' Hs')| |done].
    + intros j s'' Hj. apply Hstep. lia.
    + intros [] s''. by rewrite Nat.add_succ_r.
Qed.

Lemma pc_get_data (s : Vector * mem) Q R : Q (data_ s.1) s → pc get_data s Q R.
Proof. done. Qed.

Lemma pc_get_size (s : Vector * mem) Q R : Q (size_ s.1) s → pc get_size s Q R.
Proof. done. Qed.

Lemma pc_set_data d (s : Vector * mem) Q R : Q tt (mkVec d (size_ s.1), s.2) → pc (set_data d) s Q R.
Proof. done. Qed.

Lemma pc_set_size n (s : Vector * mem) Q R :
  Q tt (mkVec (data_ s.1) n, s.2) → pc (set_size n) s Q R.
Proof. done. Qed.

Lemma pc_Capacity (s : Vector * mem) Q R : Q (capacity_ (data_ s.1)) s → pc Capacity s Q R.
Proof. done. Qed.

Lemma pc_begin (s : Vector * mem) Q R : Q (buffer_ (data_ s.1)) s → pc begin_ s Q R.
Proof. done. Qed.

Lemma pc_RawMemory_plus {St} r k (s : St) Q R :
  (k ≤ capacity_ r → Q (ptr_add (buffer_ r) k) s) → pc (RawMemory_plus r k) s Q R.
Proof.
  intros HQ. unfold RawMemory_plus. apply pc_bind, pc_assert. intros Hk.
  apply pc_ret, HQ. by apply Nat.leb_le.
Qed.

Lemma pc_RawMemory_index {St} r k (s : St) Q R :
  (k ≤ capacity_ r → Q (ptr_add (buffer_ r) k) s) → pc (RawMemory_index r k) s Q R.
Proof.
  intros HQ. unfold RawMemory_index. apply pc_bind, pc_assert. intros Hk.
  apply pc_ret, HQ. by apply Nat.leb_le.
Qed.

Lemma pc_end (s : Vector * mem) Q R :
  (size_ s.1 ≤ capacity_ (data_ s.1) → Q (ptr_add (buffer_ (data_ s.1)) (size_ s.1)) s) →
  pc end_ s Q R.
Proof.
  intros HQ. destruct s as [v m]. unfold pc.
  destruct (end_cases v m) as [E|E]; rewrite E; [done|]. apply HQ. simpl.
  destruct (decide (size_ v ≤ capacity_ (data_ v))) as [?|Hgt]; [done|].
  assert (end_ (v, m) = Abort) as He.
  { unfold end_, bind, get_size. simpl. rewrite decide_False by lia.
    unfold get_data, RawMemory_plus, bind, assert_. simpl.
    by rewrite (proj2 (Nat.leb_gt (size_ v) (capacity_ (data_ v))) ltac:(lia)). }
  by rewrite He in E.
Qed.

(** ** The kinds of cells under the operations of [T] and the algorithms *)

Lemma tag_heap m m' q : heap m' = heap m → tag m' q = tag m q.
Proof. intros H. unfold tag, cell_at. by rewrite H. Qed.

Lemma tag_logged e m q : tag (logged e m) q = tag m q.
Proof. done. Qed.

Lemma tag_ticked m q : tag (ticked m) q = tag m q.
Proof. done. Qed.

Lemma tag_upd m p c q :
  is_Some (cell_at m p) →
  tag (upd m p c) q = if decide (q = p) then Some (is_live c) else tag m q.
Proof. intros Hp. unfold tag. rewrite cell_at_upd by done. by case_decide. Qed.

Lemma tag_upd_assigned m p c v q :
  cell_at m p = Some c → tag (upd m p (assigned c v)) q = tag m q.
Proof.
  intros Hc. rewrite tag_upd by (by rewrite Hc). case_decide as E; [|done].
  subst q. unfold tag. rewrite Hc. by destruct c.
Qed.

Lemma same_tags_refl m : same_tags m m.
Proof. done. Qed.

Lemma same_tags_trans m1 m2 m3 : same_tags m1 m2 → same_tags m2 m3 → same_tags m1 m3.
Proof. intros H1 H2 q. by rewrite H2, H1. Qed.

Lemma same_tags_heap m m' : heap m' = heap m → same_tags m m'.
Proof. intros H q. by apply tag_heap. Qed.

Lemma pc_fallible m (Q : unit → mem → Prop) (R : mem → Prop) :
  Q tt (ticked m) → R (ticked m) → pc fallible m Q R.
Proof. unfold pc, fallible. by destruct (throws (tick m)). Qed.

Lemma pc_move_ctor_check m (Q : unit → mem → Prop) (R : mem → Prop) :
  (∀ m', heap m' = heap m → Q tt m') →
  (∀ m', heap m' = heap m → nothrow_move_constructible = false → R m') →
  pc move_ctor_check m Q R.
Proof.
  intros HQ HR. unfold move_ctor_check.
  destruct nothrow_move_constructible; [by apply pc_ret, HQ|].
  apply pc_fallible; [by apply HQ|by apply HR].
Qed.

Lemma pc_init_check a m (Q : unit → mem → Prop) (R : mem → Prop) :
  (∀ m', heap m' = heap m → Q tt m') → (∀ m', heap m' = heap m → R m') →
  pc (init_check a) m Q R.
Proof.
  intros HQ HR.
  assert (pc fallible m Q R) as Hf by (apply pc_fallible; [by apply HQ|by apply HR]).
  destruct a; simpl; try done.
  apply pc_move_ctor_check; [done|]. intros m' Hm' _. by apply HR.
Qed.

Lemma pc_load m p Q R : (∀ c, cell_at m p = Some c → Q c m) → pc (load p) m Q R.
Proof. unfold pc, load. destruct (cell_at m p); [|done]. intros H. by apply H. Qed.

Lemma pc_store m p c Q R : (is_Some (cell_at m p) → Q tt (upd m p c)) → pc (store p c) m Q R.
Proof. unfold pc, store. destruct (cell_at m p); [|done]. intros H. apply H. eauto. Qed.

Lemma pc_read m p (Q : T → mem → Prop) R : (∀ v, Q v m) → pc (read p) m Q R.
Proof.
  intros H. unfold read. apply pc_bind, pc_load. intros c _. apply pc_some. intros v _. apply H.
Qed.

Lemma pc_record m e Q R : Q tt (logged e m) → pc (record e) m Q R.
Proof. done. Qed.

Lemma pc_construct_at m p a :
  pc (construct_at p a) m (λ _ m', sets_tag p true m m') (λ m', same_tags m m').
Proof.
  unfold construct_at. apply pc_bind, pc_init_check.
  - intros m1 H1. apply pc_bind, pc_store. intros Hp. apply pc_record. intros q.
    rewrite tag_logged, tag_upd by done. case_decide; [done|]. by apply tag_heap.
  - intros m1 H1. by apply same_tags_heap.
Qed.

Lemma pc_value_construct m p :
  pc (value_construct p) m (λ _ m', sets_tag p true m m') (λ m', same_tags m m').
Proof.
  unfold value_construct. apply pc_bind, pc_fallible; [|done].
  apply pc_bind, pc_store. intros Hp. apply pc_record. intros q.
  rewrite tag_logged, tag_upd by done. by case_decide.
Qed.

Lemma pc_copy_construct m dst src :
  pc (copy_construct dst src) m (λ _ m', sets_tag dst true m m') (λ m', same_tags m m').
Proof.
  unfold copy_construct. apply pc_bind, pc_read. intros v.
  apply pc_bind, pc_fallible; [|done].
  apply pc_bind, pc_store. intros Hp. apply pc_record. intros q.
  rewrite tag_logged, tag_upd by done. by case_decide.
Qed.

Lemma pc_move_construct m dst src :
  pc (move_construct dst src) m (λ _ m', sets_tag dst true m m')
     (λ m', same_tags m m' ∧ nothrow_move_constructible = false).
Proof.
  unfold move_construct. apply pc_bind, pc_read. intros v.
  apply pc_bind, pc_move_ctor_check.
  - intros m1 H1. apply pc_bind, pc_store. intros Hp.
    apply pc_bind, pc_load. intros c Hc. apply pc_bind, pc_store. intros _.
    apply pc_record. intros q.
    rewrite tag_logged, (tag_upd_assigned _ _ _ _ _ Hc), tag_upd by done.
    case_decide; [done|]. by apply tag_heap.
  - intros m1 H1 Hnt. split; [by apply same_tags_heap|done].
Qed.

Lemma pc_copy_assign_elem m dst src :
  pc (copy_assign_elem dst src) m (λ _ m', same_tags m m') (λ m', same_tags m m').
Proof.
  unfold copy_assign_elem. apply pc_bind, pc_read. intros v.
  apply pc_bind, pc_fallible; [|done].
  apply pc_bind, pc_load. intros d Hd. apply pc_bind, pc_store. intros _.
  apply pc_record. intros q. by rewrite tag_logged, (tag_upd_assigned _ _ _ _ _ Hd).
Qed.

Lemma pc_move_assign_elem m dst src :
  pc (move_assign_elem dst src) m (λ _ m', same_tags m m') (λ m', same_tags m m').
Proof.
  unfold move_assign_elem. apply pc_bind, pc_read. intros v.
  apply pc_bind, pc_fallible; [|done].
  apply pc_bind, pc_load. intros d Hd. apply pc_bind, pc_store. intros _.
  apply pc_bind, pc_load. intros c Hc. apply pc_bind, pc_store. intros _.
  apply pc_record. intros q.
  by rewrite tag_logged, (tag_upd_assigned _ _ _ _ _ Hc), (tag_upd_assigned _ _ _ _ _ Hd).
Qed.

Lemma pc_make_temp m a :
  pc (make_temp a) m (λ _ m', same_tags m m') (λ m', same_tags m m').
Proof.
  unfold make_temp. apply pc_bind, pc_init_check.
  - intros m1 H1. apply pc_bind, pc_record, pc_ret. intros q. rewrite tag_logged.
    by apply tag_heap.
  - intros m1 H1. by apply same_tags_heap.
Qed.

Lemma pc_assign_from_temp m dst v :
  pc (assign_from_temp dst v) m (λ _ m', same_tags m m') (λ m', same_tags m m').
Proof.
  unfold assign_from_temp. apply pc_bind, pc_fallible; [|done].
  apply pc_bind, pc_load. intros d Hd. apply pc_bind, pc_store. intros _.
  apply pc_record. intros q. by rewrite tag_logged, (tag_upd_assigned _ _ _ _ _ Hd).
Qed.

Lemma pc_destroy_at m p R :
  pc (destroy_at p) m (λ _ m', sets_tag p false m m') R.
Proof.
  unfold destroy_at. apply pc_bind, pc_store. intros Hp. apply pc_record. intros q.
  rewrite tag_logged, tag_upd by done. by case_decide.
Qed.

Lemma in_range_dec p n q : Decision (in_range p n q).
Proof. unfold in_range. apply _. Defined.

Lemma in_range_inv p n q : in_range p n q → ∃ k, k < n ∧ q = ptr_add p k.
Proof.
  intros [Hb Ho]. exists (offs q - offs p). split; [lia|].
  destruct q as [bq oq]. unfold ptr_add. simpl in *. f_equal; [done|lia].
Qed.

Lemma in_range_S p n q : in_range p (S n) q ↔ in_range p n q ∨ q = ptr_add p n.
Proof.
  split.
  - intros H. destruct (in_range_inv _ _ _ H) as (k&Hk&->).
    destruct (decide (k = n)) as [->|?]; [by right|]. left. apply in_range_add. lia.
  - intros [[? ?]| ->]; [split; [done|lia]|]. apply in_range_add. lia.
Qed.

Lemma pc_destroy_n m first n R :
  pc (destroy_n first n) m
     (λ _ m', (∀ k, k < n → tag m' (ptr_add first k) = Some false) ∧
              tags (in_range first n) m m') R.
Proof.
  unfold destroy_n.
  set (I := λ (j : nat) (s : mem),
    (∀ k, k < j → tag s (ptr_add first k) = Some false) ∧ tags (in_range first j) m s).
  apply (pc_for_n I R _ n 0 m).
  - split; [intros k Hk; lia|]. by intros q _.
  - intros j s _ [Hdone Hout].
    eapply pc_mono; [apply (pc_destroy_at _ _ R)| |done]. simpl.
    intros [] s' Hs'. split.
    + intros k Hk. rewrite Hs'. case_decide as E; [done|]. apply Hdone.
      destruct (decide (k = j)) as [->|?]; [done|lia].
    + intros q Hq. rewrite Hs'. rewrite in_range_S in Hq.
      rewrite decide_False by tauto. apply Hout. tauto.
Qed.

(** The [uninitialized_*] algorithms over storage that holds no object. *)
Lemma pc_uninitialized (ctor : nat → M mem unit) m d n :
  (∀ i s, pc (ctor i) s (λ _ s', sets_tag (ptr_add d i) true s s') (λ s', same_tags s s')) →
  (∀ k, k < n → tag m (ptr_add d k) = Some false) →
  pc (for_n 0 n (λ i, on_throw (ctor i) (destroy_n d i))) m
     (λ _ m', (∀ k, k < n → tag m' (ptr_add d k) = Some true) ∧ tags (in_range d n) m m')
     (λ m', same_tags m m').
Proof.
  intros Hctor Hraw.
  set (I := λ (j : nat) (s : mem),
    (∀ k, k < j → tag s (ptr_add d k) = Some true) ∧ tags (in_range d j) m s).
  apply (pc_for_n I _ _ n 0 m).
  - split; [intros k Hk; lia|]. by intros q _.
  - intros j s Hj [Hdone Hout]. simpl in Hj. apply pc_on_throw.
    eapply pc_mono; [apply Hctor| |]; simpl.
    + intros [] s' Hs'. split.
      * intros k Hk. rewrite Hs'. case_decide as E; [done|]. apply Hdone.
        destruct (decide (k = j)) as [->|?]; [done|lia].
      * intros q Hq. rewrite Hs'. rewrite in_range_S in Hq.
        rewrite decide_False by tauto. apply Hout. tauto.
    + intros s' Hs'.
      eapply pc_mono; [apply (pc_destroy_n _ _ _ (λ _, False))| |done]. simpl.
      intros [] s'' [Hdead Hfar] q.
      destruct (in_range_dec d j q) as [Hin|Hnin].
      * destruct (in_range_inv _ _ _ Hin) as (k&Hk&->).
        rewrite Hdead by done. symmetry. apply Hraw. lia.
      * rewrite Hfar by done. rewrite Hs'. by apply Hout.
Qed.

Lemma pc_uninitialized_value_construct_n m d n :
  (∀ k, k < n → tag m (ptr_add d k) = Some false) →
  pc (uninitialized_value_construct_n d n) m
     (λ _ m', (∀ k, k < n → tag m' (ptr_add d k) = Some true) ∧ tags (in_range d n) m m')
     (λ m', same_tags m m').
Proof.
  intros Hraw. apply (pc_uninitialized (λ i, value_construct (ptr_add d i))); [|done].
  intros i s. apply pc_value_construct.
Qed.

Lemma pc_uninitialized_copy_n m first n d :
  (∀ k, k < n → tag m (ptr_add d k) = Some false) →
  pc (uninitialized_copy_n first n d) m
     (λ _ m', (∀ k, k < n → tag m' (ptr_add d k) = Some true) ∧ tags (in_range d n) m m')
     (λ m', same_tags m m').
Proof.
  intros Hraw.
  apply (pc_uninitialized (λ i, copy_construct (ptr_add d i) (ptr_add first i))); [|done].
  intros i s. apply pc_copy_construct.
Qed.

Lemma pc_uninitialized_move_n m first n d :
  (∀ k, k < n → tag m (ptr_add d k) = Some false) →
  pc (uninitialized_move_n first n d) m
     (λ _ m', (∀ k, k < n → tag m' (ptr_add d k) = Some true) ∧ tags (in_range d n) m m')
     (λ m', same_tags m m').
Proof.
  intros Hraw.
  apply (pc_uninitialized (λ i, move_construct (ptr_add d i) (ptr_add first i))); [|done].
  intros i s. eapply pc_mono; [apply pc_move_construct|done|]. by intros s' [? _].
Qed.

Lemma pc_relocate_n m first n d :
  (∀ k, k < n → tag m (ptr_add d k) = Some false) →
  pc (relocate_n first n d) m
     (λ _ m', (∀ k, k < n → tag m' (ptr_add d k) = Some true) ∧ tags (in_range d n) m m')
     (λ m', same_tags m m').
Proof.
  intros Hraw. unfold relocate_n.
  destruct use_move; [by apply pc_uninitialized_move_n|by apply pc_uninitialized_copy_n].
Qed.

(** Loops of assignments leave every cell of its kind. *)
Lemma pc_for_n_same (body : nat → M mem unit) m n : ∀ i,
  (∀ j s, pc (body j) s (λ _ s', same_tags s s') (λ s', same_tags s s')) →
  pc (for_n i n body) m (λ _ m', same_tags m m') (λ m', same_tags m m').
Proof.
  intros i Hbody.
  apply (pc_for_n (λ _ s, same_tags m s) (same_tags m) _ n i m); [done|].
  intros j s _ Hs. eapply pc_mono; [apply Hbody| |]; simpl.
  - intros [] s' Hs'. by eapply same_tags_trans.
  - intros s' Hs'. by eapply same_tags_trans.
Qed.

Lemma pc_copy_n m first n d :
  pc (copy_n first n d) m (λ _ m', same_tags m m') (λ m', same_tags m m').
Proof. apply pc_for_n_same. intros j s. apply pc_copy_assign_elem. Qed.

Lemma pc_std_copy m first last d :
  pc (std_copy first last d) m (λ _ m', same_tags m m') (λ m', same_tags m m').
Proof.
  unfold std_copy. apply pc_bind, pc_distance. intros _ _.
  apply pc_for_n_same. intros j s. apply pc_copy_assign_elem.
Qed.

Lemma pc_std_move m first last d :
  pc (std_move first last d) m (λ _ m', same_tags m m') (λ m', same_tags m m').
Proof.
  unfold std_move. apply pc_bind, pc_distance. intros _ _.
  apply pc_for_n_same. intros j s. apply pc_move_assign_elem.
Qed.

Lemma pc_move_backward m first last d :
  pc (move_backward first last d) m (λ _ m', same_tags m m') (λ m', same_tags m m').
Proof.
  unfold move_backward. apply pc_bind, pc_distance. intros _ _.
  apply pc_for_n_same. intros j s.
  apply pc_bind, pc_some. intros dst _. apply pc_bind, pc_some. intros src _.
  apply pc_move_assign_elem.
Qed.

(** ** Allocation and release *)

Lemma pc_RawMemory_ctor m n :
  pc (RawMemory_ctor n) m
     (λ r m',
        (n = 0 ∧ r = mkRaw nullptr 0 ∧ m' = m) ∨
        (0 < n ∧ ∃ b, r = mkRaw (Ptr (Some b) 0) n ∧ heap m !! b = None ∧
           heap m' = <[b := replicate n Raw]> (heap m)))
     (λ m', heap m' = heap m).
Proof.
  destruct (decide (n = 0)) as [->|Hn].
  - unfold pc. rewrite RawMemory_ctor_0. by left.
  - apply wp_pc. eapply wp_mono; [by apply wp_RawMemory_ctor| |]; simpl.
    + intros r m' (b&->&?&?&_). right. split; [lia|]. by exists b.
    + by intros m' [-> _].
Qed.

Lemma pc_RawMemory_dtor r m R :
  pc (RawMemory_dtor r) m
     (λ _ m', heap m' = match base (buffer_ r) with
                        | Some b => delete b (heap m)
                        | None => heap m
                        end) R.
Proof.
  unfold pc, RawMemory_dtor, Deallocate. destruct (base (buffer_ r)) as [b|]; [|done].
  destruct (heap m !! b); [|done]. by case_decide.
Qed.

Lemma tag_fresh m m' b n q :
  heap m !! b = None → heap m' = <[b := replicate n Raw]> (heap m) →
  tag m' q = if decide (base q = Some b ∧ offs q < n) then Some false else tag m q.
Proof.
  intros Hfresh Hheap. unfold tag, cell_at. destruct (base q) as [bq|] eqn:Eb.
  - rewrite Hheap. destruct (decide (bq = b)) as [->|Hne].
    + rewrite lookup_insert_eq, Hfresh. case_decide as E.
      * destruct E as [_ E]. by rewrite (lookup_replicate_2 n Raw (offs q) E).
      * assert (replicate n Raw !! offs q = None) as ->; [|done].
        apply lookup_replicate_None. apply Nat.le_ngt. tauto.
    + rewrite lookup_insert_ne by done. rewrite decide_False; [done|].
      intros [[= ?] _]. done.
  - rewrite decide_False; [done|]. by intros [? _].
Qed.

Lemma tag_absent m b q : heap m !! b = None → base q = Some b → tag m q = None.
Proof. intros Hb Hq. unfold tag, cell_at. by rewrite Hq, Hb. Qed.

Lemma tag_delete m m' b q :
  heap m' = delete b (heap m) →
  tag m' q = if decide (base q = Some b) then None else tag m q.
Proof.
  intros Hheap. unfold tag, cell_at. destruct (base q) as [bq|] eqn:Eb.
  - rewrite Hheap. destruct (decide (bq = b)) as [->|Hne].
    + rewrite lookup_delete_eq. by rewrite decide_True.
    + rewrite lookup_delete_ne by done. rewrite decide_False; [done|]. by intros [= ?].
  - by rewrite decide_False.
Qed.

(** ** The invariant in terms of the kinds of cells *)

Lemma invariant_tags v m : invariant v m = true ↔ inv_tags v m.
Proof.
  rewrite invariant_true. unfold inv_tags, tag. split; intros [Hle H]; (split; [done|]).
  - intros i Hi. destruct (H i Hi) as (c&->&<-). done.
  - intros i Hi. specialize (H i Hi).
    destruct (cell_at m (ptr_add (buffer_ (data_ v)) i)) as [c|]; [|done].
    exists c. split; [done|]. by injection H.
Qed.

(** ** The kinds of cells under the member functions *)

Arguments pc : simpl never.

Ltac pcb := lazymatch goal with |- pc (bind _ _) _ _ _ => apply pc_bind end.

Ltac pc_step :=
  lazymatch goal with
  | |- pc (ret _) _ _ _ => apply pc_ret
  | |- pc (bind get_data _) _ _ _ => apply pc_bind, pc_get_data
  | |- pc (bind get_size _) _ _ _ => apply pc_bind, pc_get_size
  | |- pc (bind Size _) _ _ _ => apply pc_bind, pc_get_size
  | |- pc (bind (set_data _) _) _ _ _ => apply pc_bind, pc_set_data
  | |- pc (bind (set_size _) _) _ _ _ => apply pc_bind, pc_set_size
  | |- pc (bind Capacity _) _ _ _ => apply pc_bind, pc_Capacity
  | |- pc (bind begin_ _) _ _ _ => apply pc_bind, pc_begin
  | |- pc (bind cbegin _) _ _ _ => apply pc_bind, pc_begin
  | |- pc (bind (bind _ _) _) _ _ _ => apply pc_bind
  end;
  simpl.

Ltac ltb_lia :=
  repeat match goal with
         | |- context [?a <? ?b] => destruct (Nat.ltb_spec a b)
         end;
  (done || lia).

Lemma inv_tags_same v m m' :
  (∀ i, i < capacity_ (data_ v) →
     tag m' (ptr_add (buffer_ (data_ v)) i) = tag m (ptr_add (buffer_ (data_ v)) i)) →
  inv_tags v m → inv_tags v m'.
Proof. intros H [Hle Ht]. split; [done|]. intros i Hi. rewrite H by done. by apply Ht. Qed.

Lemma pc_PopBack v m :
  inv_tags v m →
  pc PopBack (v, m) (λ _ s', inv_tags s'.1 s'.2) (λ _, False).
Proof.
  intros [Hle Htags]. unfold PopBack. pc_step. pcb. apply pc_assert. intros Hpos. pc_step.
  pcb. apply pc_dec. intros k Hk. pcb. apply pc_RawMemory_plus. intros _.
  pcb. apply pc_lift. eapply pc_mono; [apply (pc_destroy_at _ _ (λ _, False))| |done]. simpl.
  intros [] m1 Hm1. pc_step. pcb. apply pc_dec. intros k' Hk'. apply pc_set_size. simpl.
  assert (k' = k) as -> by lia. split; [simpl; lia|]. simpl. intros i Hi.
  rewrite Hm1. case_decide as E.
  - apply ptr_add_inj in E as ->. by rewrite Nat.ltb_irrefl.
  - rewrite Htags by done. f_equal. rewrite Hk.
    destruct (decide (i = k)) as [->|Hne]; [done|]. ltb_lia.
Qed.

Lemma pc_Erase v m i :
  pc (Erase (ptr_add (buffer_ (data_ v)) i)) (v, m)
     (λ _ s', s'.1 = mkVec (data_ v) (size_ v - 1) ∧ 0 < size_ v ∧
              sets_tag (ptr_add (buffer_ (data_ v)) i) false m s'.2)
     (λ s', s'.1 = v ∧ sets_tag (ptr_add (buffer_ (data_ v)) i) false m s'.2).
Proof.
  unfold Erase. pc_step. pcb. apply pc_distance. intros _ _.
  replace (offs (ptr_add (buffer_ (data_ v)) i) - offs (buffer_ (data_ v))) with i
    by (simpl; lia).
  pc_step. pcb. apply pc_lift.
  eapply pc_mono; [apply (pc_destroy_at _ _ (λ _, False))| |done]. simpl.
  intros [] m1 Hm1. pc_step. pcb. apply pc_end. intros _. simpl. pc_step. pcb.
  apply (pc_mono _ _ (λ _ s', s'.1 = v ∧ same_tags m1 s'.2) _
                     (λ s', s'.1 = v ∧ same_tags m1 s'.2)).
  { destruct use_move; apply pc_lift.
    - eapply pc_mono; [apply pc_std_move|done..].
    - eapply pc_mono; [apply pc_std_copy|done..]. }
  - intros [] [v2 m2] [Hv Hm2]. simpl in *. subst v2. pc_step.
    pcb. apply pc_dec. intros k Hk. do 3 pc_step.
    split; [f_equal; lia|]. split; [lia|]. intros q. rewrite Hm2. apply Hm1.
  - intros [v2 m2] [Hv Hm2]. simpl in *. split; [done|]. intros q. rewrite Hm2. apply Hm1.
Qed.

(** Relocation into storage that holds no object. *)
Lemma pc_relocate (v : Vector) m first n d :
  (∀ k, k < n → tag m (ptr_add d k) = Some false) →
  pc (if use_move
      then lift (uninitialized_move_n first n d)
      else lift (uninitialized_copy_n first n d)) (v, m)
     (λ _ s', s'.1 = v ∧ (∀ k, k < n → tag s'.2 (ptr_add d k) = Some true) ∧
              tags (in_range d n) m s'.2)
     (λ s', s'.1 = v ∧ same_tags m s'.2).
Proof.
  intros Hraw. destruct use_move; apply pc_lift.
  - eapply pc_mono; [by apply pc_uninitialized_move_n| |]; simpl; [|done].
    by intros [] m' [? ?].
  - eapply pc_mono; [by apply pc_uninitialized_copy_n| |]; simpl; [|done].
    by intros [] m' [? ?].
Qed.

(** Swapping the new buffer in, destroying the old elements and releasing
    the old block leaves the cells of the new block as they are. *)
Lemma pc_commit (v : Vector) m new_data size nb R :
  base (buffer_ (data_ v)) ≠ Some nb →
  pc (nd <- Swap_data new_data ;;
      lift (destroy_n (GetAddress nd) size) ;;
      lift (RawMemory_dtor nd)) (v, m)
     (λ _ s', s'.1 = mkVec (mkRaw (buffer_ new_data) (capacity_ new_data)) (size_ v) ∧
              ∀ q, base q = Some nb → tag s'.2 q = tag m q) R.
Proof.
  intros Hnb. unfold Swap_data. do 4 pc_step. pcb. apply pc_lift. unfold GetAddress.
  eapply pc_mono; [apply (pc_destroy_n _ _ _ (λ _, False))| |done]. simpl.
  intros [] m1 [_ Hm1]. apply pc_lift.
  eapply pc_mono; [apply (pc_RawMemory_dtor _ _ (λ _, False))| |done]. simpl.
  intros [] m2 Hm2. split; [done|]. intros q Hq.
  assert (tag m2 q = tag m1 q) as ->.
  { destruct (base (buffer_ (data_ v))) as [ob|] eqn:Eb; [|by apply tag_heap].
    rewrite (tag_delete m1 m2 ob q Hm2). rewrite decide_False; [done|]. congruence. }
  apply Hm1. intros [Hb _]. congruence.
Qed.

(** The old block of a well-formed vector is not a fresh one. *)
Lemma wf_not_fresh v m nb :
  wf v m → heap m !! nb = None → base (buffer_ (data_ v)) ≠ Some nb.
Proof.
  intros (_&_&Hblk&_) Hfresh E. rewrite E in Hblk. destruct Hblk as [Hb _].
  unfold blen in Hb. by rewrite Hfresh in Hb.
Qed.

(** After a failed growth the new block is released: every cell is of the
    kind it was before the allocation. *)
Lemma same_tags_released m m1 m2 m3 nb n :
  heap m !! nb = None → heap m1 = <[nb := replicate n Raw]> (heap m) →
  (∀ q, base q ≠ Some nb → tag m2 q = tag m1 q) →
  heap m3 = delete nb (heap m2) →
  same_tags m m3.
Proof.
  intros Hfresh Hheap H12 H3 q. rewrite (tag_delete m2 m3 nb q H3). case_decide as E.
  - symmetry. by apply (tag_absent m nb).
  - rewrite H12 by done. rewrite (tag_fresh m m1 nb n q Hfresh Hheap).
    rewrite decide_False; [done|]. by intros [? _].
Qed.

Lemma pc_Reserve v m c :
  wf v m → inv_tags v m →
  pc (Reserve c) (v, m) (λ _ s', inv_tags s'.1 s'.2) (λ s', s'.1 = v ∧ same_tags m s'.2).
Proof.
  intros Hwf Hinv. pose proof Hinv as [Hle Htags].
  unfold Reserve. pc_step. unfold RawMemory_Capacity.
  destruct (c <=? capacity_ (data_ v)) eqn:Hc; [by apply pc_ret|].
  apply Nat.leb_gt in Hc. pcb. apply pc_lift.
  eapply pc_mono; [apply pc_RawMemory_ctor| |]; simpl.
  2:{ intros m' Hh. split; [done|]. by apply same_tags_heap. }
  intros r m1 [(Hz&_)|(Hn&nb&->&Hfresh&Hheap)]; [lia|].
  pose proof (wf_not_fresh v m nb Hwf Hfresh) as Hnb.
  pc_step. pcb. apply pc_on_throw. unfold GetAddress. simpl.
  set (new := Ptr (Some nb) 0).
  assert (∀ k, k < c → tag m1 (ptr_add new k) = Some false) as Hraw.
  { intros k Hk. rewrite (tag_fresh m m1 nb c _ Hfresh Hheap). by rewrite decide_True. }
  eapply pc_mono; [apply (pc_relocate v m1 _ (size_ v) new)| |]; simpl.
  - intros k Hk. apply Hraw. lia.
  - intros [] [v2 m2] (Hv&Hlive&Hfar). simpl in *. subst v2.
    eapply pc_mono; [by apply (pc_commit v m2 _ (size_ v) nb (λ _, False))| |done]. simpl.
    intros [] [v3 m3] [Hv Hnew]. simpl in *. subst v3. split; [simpl; lia|]. simpl.
    intros i Hi. fold new. rewrite Hnew by done.
    destruct (decide (i < size_ v)) as [Hlt|Hge].
    + rewrite Hlive by done. f_equal. ltb_lia.
    + rewrite Hfar; [rewrite Hraw by done; f_equal; ltb_lia|].
      unfold in_range, new, ptr_add. simpl. intros [_ ?]. lia.
  - intros [v2 m2] [Hv Hsame]. simpl in *. subst v2. apply pc_lift.
    eapply pc_mono; [apply (pc_RawMemory_dtor _ _ (λ _, False))| |done]. simpl.
    intros [] m3 Hm3. split; [done|].
    apply (same_tags_released m m1 m2 m3 nb c); [done..| |done]. intros q _. apply Hsame.
Qed.

Lemma pc_EmplaceBack v m a :
  wf v m → inv_tags v m →
  pc (EmplaceBack a) (v, m) (λ _ s', inv_tags s'.1 s'.2) (λ s', s'.1 = v ∧ same_tags m s'.2).
Proof.
  intros Hwf Hinv. pose proof Hinv as [Hle Htags].
  unfold EmplaceBack. do 2 pc_step.
  destruct (size_ v <? capacity_ (data_ v)) eqn:Hlt.
  - apply Nat.ltb_lt in Hlt. do 2 pc_step. pcb. apply pc_RawMemory_plus. intros _.
    apply pc_lift. eapply pc_mono; [apply pc_construct_at| |]; simpl.
    + intros [] m1 Hm1. do 3 pc_step. pcb. apply pc_dec. intros k Hk. pc_step.
      apply pc_RawMemory_index. intros _. simpl. split; [simpl; lia|]. simpl.
      intros i Hi. rewrite Hm1. case_decide as E.
      * apply ptr_add_inj in E as ->. f_equal. ltb_lia.
      * rewrite Htags by done. f_equal.
        destruct (decide (i = size_ v)) as [->|Hne]; [done|]. ltb_lia.
    + intros m1 Hm1. done.
  - apply Nat.ltb_ge in Hlt. do 2 pc_step. fold (grown (size_ v)). pcb. apply pc_lift.
    assert (S (size_ v) ≤ grown (size_ v)) as Hg by (unfold grown; case_decide; lia).
    eapply pc_mono; [apply pc_RawMemory_ctor| |]; simpl.
    2:{ intros m' Hh. split; [done|]. by apply same_tags_heap. }
    intros r m1 [(Hz&_)|(Hn&nb&->&Hfresh&Hheap)]; [lia|].
    pose proof (wf_not_fresh v m nb Hwf Hfresh) as Hnb.
    set (new := Ptr (Some nb) 0).
    assert (∀ k, k < grown (size_ v) → tag m1 (ptr_add new k) = Some false) as Hraw.
    { intros k Hk. rewrite (tag_fresh m m1 nb _ _ Hfresh Hheap). by rewrite decide_True. }
    pcb.
    apply (pc_mono _ _
             (λ _ s', s'.1 = v ∧
                ∀ i, i < grown (size_ v) → tag s'.2 (ptr_add new i) = Some (i <? S (size_ v)))
             _ (λ s', s'.1 = v ∧ same_tags m s'.2)).
    + apply pc_on_throw.
      apply (pc_mono _ _
               (λ _ s', s'.1 = v ∧
                  ∀ i, i < grown (size_ v) →
                    tag s'.2 (ptr_add new i) = Some (i <? S (size_ v)))
               _ (λ s', s'.1 = v ∧ ∀ q, base q ≠ Some nb → tag s'.2 q = tag m1 q)).
      * pcb. apply pc_RawMemory_plus. intros _. simpl. fold new. pcb. apply pc_lift.
        eapply pc_mono; [apply pc_construct_at| |]; simpl.
        -- intros [] m2 Hm2. unfold GetAddress. simpl. fold new.
           eapply pc_mono; [apply (pc_relocate v m2 _ (size_ v) new)| |]; simpl.
           ++ intros k Hk. rewrite Hm2. rewrite decide_False.
              { apply Hraw. lia. }
              intros E. apply ptr_add_inj in E. lia.
           ++ intros [] [v3 m3] (Hv&Hlive&Hfar). simpl in *. split; [done|].
              intros i Hi. destruct (decide (i < size_ v)) as [Hlt'|Hge].
              { rewrite Hlive by done. f_equal. ltb_lia. }
              rewrite Hfar by (unfold in_range, new, ptr_add; simpl; intros [_ ?]; lia).
              rewrite Hm2. case_decide as E.
              { apply ptr_add_inj in E as ->. f_equal. ltb_lia. }
              rewrite Hraw by done. f_equal.
              destruct (decide (i = size_ v)) as [->|Hne]; [done|]. ltb_lia.
           ++ intros [v3 m3] [Hv Hsame]. simpl in *. split; [done|]. intros q Hq.
              rewrite Hsame, Hm2. rewrite decide_False; [done|]. intros ->. by apply Hq.
        -- intros m2 Hm2. split; [done|]. intros q _. apply Hm2.
      * done.
      * intros [v3 m3] [Hv Hfar]. simpl in *. subst v3. apply pc_lift.
        eapply pc_mono; [apply (pc_RawMemory_dtor _ _ (λ _, False))| |done]. simpl.
        intros [] m4 Hm4. split; [done|].
        by apply (same_tags_released m m1 m3 m4 nb (grown (size_ v))).
    + intros [] [v3 m3] [Hv Hnew]. simpl in *. subst v3.
      eapply pc_mono; [by apply (pc_commit v m3 _ (size_ v) nb (λ _, False))| |done]. simpl.
      intros [] [v4 m4] [Hv Hkeep]. simpl in *. subst v4. do 3 pc_step.
      pcb. apply pc_dec. intros k Hk. pc_step. apply pc_RawMemory_index. intros _. simpl.
      split; [simpl; lia|]. simpl. intros i Hi. fold new. rewrite Hkeep by done.
      rewrite Hnew by done. f_equal. ltb_lia.
    + done.
Qed.

Lemma wp_pc_conj {St A} (c : M St A) s Q R Q' R' :
  wp c s Q R → pc c s Q' R' → pc c s (λ a s', Q a s' ∧ Q' a s') (λ s', R s' ∧ R' s').
Proof. unfold wp, pc. by destruct (c s). Qed.

(** The two relocations of [Emplace] around the slot of the new element. *)
Lemma pc_relocate_around (alg : ptr → nat → ptr → M mem unit) (v : Vector) m d new i size :
  (∀ m first n dst, (∀ k, k < n → tag m (ptr_add dst k) = Some false) →
     pc (alg first n dst) m
        (λ _ m', (∀ k, k < n → tag m' (ptr_add dst k) = Some true) ∧
                 tags (in_range dst n) m m')
        (λ m', same_tags m m')) →
  i ≤ size →
  (∀ k, k ≤ size → k ≠ i → tag m (ptr_add (buffer_ new) k) = Some false) →
  pc (lift (alg (GetAddress d) i (GetAddress new)) ;;
      src <- RawMemory_plus d i ;;
      dst <- RawMemory_plus new (i + 1) ;;
      lift (alg src (size - i) dst)) (v, m)
     (λ _ s', s'.1 = v ∧
        (∀ k, k ≤ size → k ≠ i → tag s'.2 (ptr_add (buffer_ new) k) = Some true) ∧
        tags (λ q, in_range (buffer_ new) (S size) q ∧ q ≠ ptr_add (buffer_ new) i) m s'.2)
     (λ s', s'.1 = v ∧ ∀ q, base q ≠ base (buffer_ new) → tag s'.2 q = tag m q).
Proof.
  intros Halg Hi Hraw. unfold GetAddress. pcb. apply pc_lift.
  eapply pc_mono; [apply Halg| |]; simpl.
  - intros k Hk. apply Hraw; lia.
  - intros [] m1 [Hl1 Hf1]. pcb. apply pc_RawMemory_plus. intros _.
    pcb. apply pc_RawMemory_plus. intros _. apply pc_lift.
    eapply pc_mono; [apply Halg| |]; simpl.
    + intros k Hk. rewrite ptr_add_add. rewrite Hf1.
      * apply Hraw; lia.
      * unfold in_range, ptr_add. simpl. intros [_ ?]. lia.
    + intros [] m2 [Hl2 Hf2]. split; [done|]. split.
      * intros k Hk Hne. destruct (decide (k < i)) as [Hlt|Hge].
        -- rewrite Hf2; [by apply Hl1|].
           unfold in_range, ptr_add. simpl. intros [_ ?]. lia.
        -- replace k with (i + 1 + (k - i - 1)) by lia. rewrite <- ptr_add_add.
           apply Hl2. lia.
      * intros q Hq. rewrite Hf2, Hf1; [done| |].
        -- intros [Hb Ho]. apply Hq. split; [split; [done|lia]|].
           intros ->. simpl in Ho. lia.
        -- intros [Hb Ho]. simpl in *. apply Hq. split; [split; [done|lia]|].
           intros ->. simpl in Ho. lia.
    + intros m2 Hsame. split; [done|]. intros q Hq. rewrite Hsame. apply Hf1.
      intros [Hb _]. congruence.
  - intros m1 Hsame. split; [done|]. intros q _. apply Hsame.
Qed.

Lemma pc_Emplace v m i a :
  wf v m → inv_tags v m → i ≤ size_ v →
  pc (Emplace (ptr_add (buffer_ (data_ v)) i) a) (v, m)
     (λ _ s', inv_tags s'.1 s'.2)
     (λ s', s'.1 = v ∧
        ((same_tags m s'.2 ∧
          (i < size_ v → size_ v < capacity_ (data_ v) →
           nothrow_move_constructible = false)) ∨
         (i < size_ v ∧ size_ v < capacity_ (data_ v) ∧
          sets_tag (ptr_add (buffer_ (data_ v)) (size_ v)) true m s'.2))).
Proof.
  intros Hwf Hinv Hi. pose proof Hinv as [Hle Htags].
  set (buf := buffer_ (data_ v)) in *.
  unfold Emplace. pcb. unfold cend. apply pc_end. intros _. simpl. fold buf.
  case_decide as Epos.
  - apply ptr_add_inj in Epos. subst i. pcb.
    eapply pc_mono; [by apply pc_EmplaceBack| |]; simpl.
    + intros p s1 Hs1. pcb. apply pc_end. intros _. unfold prev. apply pc_some. by intros.
    + intros s1 [Hv Hs]. split; [done|]. left. split; [done|]. intros ?. lia.
  - assert (i < size_ v) as Hlt.
    { destruct (decide (i = size_ v)) as [->|?]; [done|lia]. }
    pc_step. fold buf. pcb. apply pc_distance. intros _ _.
    replace (offs (ptr_add buf i) - offs buf) with i by (simpl; lia).
    do 2 pc_step. destruct (size_ v <? capacity_ (data_ v)) eqn:Hc.
    + apply Nat.ltb_lt in Hc.
      set (slot := ptr_add buf (size_ v)).
      assert (∀ m', sets_tag slot true m m' →
                inv_tags (mkVec (data_ v) (size_ v + 1)) m') as Hfin.
      { intros m' Hm'. split; [simpl; lia|]. simpl. fold buf. intros j Hj.
        rewrite Hm'. unfold slot. case_decide as E.
        - apply ptr_add_inj in E as ->. f_equal. ltb_lia.
        - rewrite Htags by done. f_equal.
          destruct (decide (j = size_ v)) as [->|?]; [done|]. ltb_lia. }
      assert (∀ m1 m2, sets_tag slot true m m1 → same_tags m1 m2 → sets_tag slot true m m2)
        as Hstep.
      { intros m1 m2 H1 H2 q. rewrite H2. apply H1. }
      assert (∀ m', sets_tag slot true m m' →
                (v, m').1 = v ∧
                ((same_tags m (v, m').2 ∧
                  (i < size_ v → size_ v < capacity_ (data_ v) →
                   nothrow_move_constructible = false)) ∨
                 (i < size_ v ∧ size_ v < capacity_ (data_ v) ∧
                  sets_tag slot true m (v, m').2))) as Hthrow.
      { intros m' Hm'. split; [done|]. right. done. }
      pcb. pc_step. fold buf. pcb. apply pc_RawMemory_plus. intros _. fold buf slot.
      pcb. apply pc_dec. intros k Hk. pcb. apply pc_RawMemory_index. intros _.
      pcb. apply pc_lift. eapply pc_mono; [apply pc_move_construct| |]; simpl.
      2:{ intros m1 [Hs Hnt]. split; [done|]. left. split; [done|]. by intros _ _. }
      intros [] m1 Hm1. pc_step. fold buf. pcb. apply pc_end. intros _. simpl.
      pcb. unfold prev. apply pc_some. intros pe _. pcb. apply pc_end. intros _. simpl.
      pcb. apply pc_lift. eapply pc_mono; [apply pc_move_backward| |]; simpl.
      2:{ intros m2 Hm2. apply Hthrow. by apply (Hstep m1). }
      intros [] m2 Hm2. pose proof (Hstep m1 m2 Hm1 Hm2) as Hm2'.
      pcb. apply pc_lift. eapply pc_mono; [apply pc_make_temp| |]; simpl.
      2:{ intros m3 Hm3. apply Hthrow. by apply (Hstep m2). }
      intros tmp m3 Hm3. pose proof (Hstep m2 m3 Hm2' Hm3) as Hm3'.
      pcb. apply pc_RawMemory_index. intros _.
      pcb. apply pc_lift. eapply pc_mono; [apply pc_assign_from_temp| |]; simpl.
      2:{ intros m4 Hm4. apply Hthrow. by apply (Hstep m3). }
      intros [] m4 Hm4. pose proof (Hstep m3 m4 Hm3' Hm4) as Hm4'.
      apply pc_lift. unfold destroy_temp. apply pc_record. simpl.
      do 3 pc_step. apply Hfin. intros q. exact (Hm4' q).
    + apply Nat.ltb_ge in Hc. pcb. pc_step. fold (grown (size_ v)). pcb. apply pc_lift.
      assert (S (size_ v) ≤ grown (size_ v)) as Hg by (unfold grown; case_decide; lia).
      eapply pc_mono; [apply pc_RawMemory_ctor| |]; simpl.
      2:{ intros m' Hh. split; [done|]. left. split; [by apply same_tags_heap|].
          intros _ ?. lia. }
      intros r m1 [(Hz&_)|(Hn&nb&->&Hfresh&Hheap)]; [lia|].
      pose proof (wf_not_fresh v m nb Hwf Hfresh) as Hnb.
      set (new := Ptr (Some nb) 0).
      assert (∀ k, k < grown (size_ v) → tag m1 (ptr_add new k) = Some false) as Hraw.
      { intros k Hk. rewrite (tag_fresh m m1 nb _ _ Hfresh Hheap). by rewrite decide_True. }
      pcb.
      apply (pc_mono _ _
               (λ _ s', s'.1 = v ∧
                  ∀ j, j < grown (size_ v) →
                    tag s'.2 (ptr_add new j) = Some (j <? S (size_ v)))
               _ (λ s', s'.1 = v ∧ same_tags m s'.2)).
      * apply pc_on_throw.
        apply (pc_mono _ _
                 (λ _ s', s'.1 = v ∧
                    ∀ j, j < grown (size_ v) →
                      tag s'.2 (ptr_add new j) = Some (j <? S (size_ v)))
                 _ (λ s', s'.1 = v ∧ ∀ q, base q ≠ Some nb → tag s'.2 q = tag m1 q)).
        -- pcb. apply pc_RawMemory_plus. intros _. simpl. fold new. pcb. apply pc_lift.
           eapply pc_mono; [apply pc_construct_at| |]; simpl.
           ++ intros [] m2 Hm2.
              apply (pc_mono _ _
                       (λ _ s', s'.1 = v ∧
                          (∀ k, k ≤ size_ v → k ≠ i → tag s'.2 (ptr_add new k) = Some true) ∧
                          tags (λ q, in_range new (S (size_ v)) q ∧ q ≠ ptr_add new i)
                               m2 s'.2)
                       _
                       (λ s', s'.1 = v ∧ ∀ q, base q ≠ Some nb → tag s'.2 q = tag m2 q)).
              { assert (∀ k, k ≤ size_ v → k ≠ i → tag m2 (ptr_add new k) = Some false)
                  as Hraw2.
                { intros k Hk Hne. rewrite Hm2. rewrite decide_False.
                  - apply Hraw. lia.
                  - intros E. by apply ptr_add_inj in E. }
                destruct use_move.
                - apply (pc_relocate_around uninitialized_move_n v m2 (data_ v)
                           (mkRaw new (grown (size_ v))) i (size_ v)); [|done..].
                  intros. by apply pc_uninitialized_move_n.
                - apply (pc_relocate_around uninitialized_copy_n v m2 (data_ v)
                           (mkRaw new (grown (size_ v))) i (size_ v)); [|done..].
                  intros. by apply pc_uninitialized_copy_n. }
              ** intros [] [v3 m3] (Hv&Hlive&Hfar). simpl in *. split; [done|].
                 intros j Hj. destruct (decide (j = i)) as [->|Hne].
                 { rewrite Hfar by tauto. rewrite Hm2, decide_True by done. f_equal. ltb_lia. }
                 destruct (decide (j ≤ size_ v)) as [Hjs|Hjs].
                 { rewrite Hlive by done. f_equal. ltb_lia. }
                 rewrite Hfar.
                 { rewrite Hm2, decide_False.
                   - rewrite Hraw by done. f_equal. ltb_lia.
                   - intros E. by apply ptr_add_inj in E. }
                 unfold in_range, new, ptr_add. simpl. intros [[_ ?] _]. lia.
              ** intros [v3 m3] [Hv Hfar]. simpl in *. split; [done|]. intros q Hq.
                 rewrite Hfar, Hm2 by done. rewrite decide_False; [done|].
                 intros ->. by apply Hq.
           ++ intros m2 Hm2. split; [done|]. intros q _. apply Hm2.
        -- done.
        -- intros [v3 m3] [Hv Hfar]. simpl in *. subst v3. apply pc_lift.
           eapply pc_mono; [apply (pc_RawMemory_dtor _ _ (λ _, False))| |done]. simpl.
           intros [] m4 Hm4. split; [done|].
           by apply (same_tags_released m m1 m3 m4 nb (grown (size_ v))).
      * intros [] [v3 m3] [Hv Hnew]. simpl in *. subst v3.
        eapply pc_mono; [by apply (pc_commit v m3 _ (size_ v) nb (λ _, False))| |done]. simpl.
        intros [] [v4 m4] [Hv Hkeep]. simpl in *. subst v4. do 4 pc_step.
        split; [simpl; lia|]. simpl. intros j Hj. fold new. rewrite Hkeep by done.
        rewrite Hnew by done. f_equal. ltb_lia.
      * intros s' [Hv Hs]. split; [done|]. left. split; [done|]. intros _ ?. lia.
Qed.

Lemma pc_Resize v m n :
  wf v m → inv_tags v m →
  pc (Resize n) (v, m) (λ _ s', inv_tags s'.1 s'.2) (λ s', inv_tags s'.1 s'.2).
Proof.
  intros Hwf Hinv. pose proof Hinv as [Hle Htags].
  unfold Resize. pc_step. destruct (n <? size_ v) eqn:E.
  - apply Nat.ltb_lt in E. pcb. pc_step. pcb. apply pc_RawMemory_plus. intros _.
    apply pc_lift.
    eapply pc_mono; [apply (pc_destroy_n _ _ _ (λ _, False))| |done]. simpl.
    intros [] m1 [Hdead Hfar]. apply pc_set_size. simpl.
    split; [simpl; lia|]. simpl. intros i Hi.
    destruct (decide (n ≤ i < size_ v)) as [Hin|Hout].
    + replace i with (n + (i - n)) at 1 by lia. rewrite <- ptr_add_add.
      rewrite Hdead by lia. f_equal. ltb_lia.
    + rewrite Hfar.
      * rewrite Htags by done. f_equal. ltb_lia.
      * unfold in_range, ptr_add. simpl. intros [_ ?]. lia.
  - apply Nat.ltb_ge in E. pcb. pc_step. pcb.
    apply (pc_mono _ _
             (λ _ s1, size_ s1.1 = size_ v ∧ n ≤ capacity_ (data_ s1.1) ∧ inv_tags s1.1 s1.2)
             _ (λ s', inv_tags s'.1 s'.2)).
    { destruct (capacity_ (data_ v) <? n) eqn:Ec.
      - apply Nat.ltb_lt in Ec.
        eapply pc_mono;
          [apply (wp_pc_conj _ _ _ _ _ _ (wp_Reserve v m n Hwf) (pc_Reserve v m n Hwf Hinv))
          | |]; simpl.
        + intros [] s1 [(Hs&_&_&_&Hgrow) Hinv1]. destruct (Hgrow Ec) as (nb&Hd&_).
          split; [done|]. split; [by rewrite Hd|done].
        + intros [v1 m1] [_ [Hv Hsame]]. simpl in *. subst v1.
          apply (inv_tags_same v m); [|done]. intros i _. apply Hsame.
      - apply Nat.ltb_ge in Ec. apply pc_ret. simpl. done. }
    + intros [] [v1 m1] (Hs1&Hc1&[Hle1 Htags1]). simpl in *.
      pc_step. pcb. apply pc_RawMemory_plus. intros _. apply pc_lift.
      eapply pc_mono; [apply pc_uninitialized_value_construct_n| |]; simpl.
      * intros k Hk. rewrite ptr_add_add. rewrite Htags1 by lia. f_equal. ltb_lia.
      * intros [] m2 [Hlive Hfar]. apply pc_set_size. simpl.
        split; [simpl; lia|]. simpl. intros i Hi.
        destruct (decide (size_ v ≤ i < n)) as [Hin|Hout].
        -- replace i with (size_ v + (i - size_ v)) at 1 by lia. rewrite <- ptr_add_add.
           rewrite Hlive by lia. f_equal. ltb_lia.
        -- rewrite Hfar.
           ++ rewrite Htags1 by done. f_equal. ltb_lia.
           ++ unfold in_range, ptr_add. simpl. intros [_ ?]. lia.
      * intros m2 Hsame. apply (inv_tags_same v1 m1); [|done]. intros i _. apply Hsame.
    + done.
Qed.

Lemma tag_block_eq m m' q :
  (∀ b, base q = Some b → heap m' !! b = heap m !! b) → tag m' q = tag m q.
Proof. intros H. unfold tag, cell_at. destruct (base q) as [b|]; [|done]. by rewrite H. Qed.

Lemma pc_Swap_this local (s : Vector * mem) Q R :
  Q (Swap s.1 local).2 ((Swap s.1 local).1, s.2) → pc (Swap_this local) s Q R.
Proof. done. Qed.

Lemma pc_copy_assign_body a b m :
  wf a m → wf b m → separate a b → inv_tags a m → inv_tags b m →
  pc (copy_assign_body b) (a, m)
     (λ _ s', inv_tags s'.1 s'.2 ∧ inv_tags b s'.2)
     (λ s', inv_tags s'.1 s'.2 ∧ inv_tags b s'.2).
Proof.
  intros Hwfa Hwfb Hsep Hinva Hinvb.
  pose proof Hwfa as (Hlea&Hoa&Hblka&Hvalsa). pose proof Hwfb as (Hleb&Hob&Hblkb&Hvalsb).
  pose proof Hinva as [_ Htagsa].
  set (bufa := buffer_ (data_ a)) in *. set (bufb := buffer_ (data_ b)) in *.
  assert (∀ m', same_tags m m' → inv_tags a m' ∧ inv_tags b m') as Hsame.
  { intros m' Hm'. split; (eapply inv_tags_same; [|done]); intros i _; apply Hm'. }
  unfold copy_assign_body. pc_step. destruct (capacity_ (data_ a) <? size_ b) eqn:E.
  - apply Nat.ltb_lt in E. pcb. apply pc_lift.
    eapply pc_mono; [apply wp_pc, wp_Vector_copy_ctor; done| |]; simpl.
    2:{ intros m1 [Hh _]. by apply Hsame, same_tags_heap. }
    intros tmp m1 [(Hz&_)|(Hn&nb&vals&->&Hfresh&Hlen&Hcont&Hheap&_)]; [lia|].
    pcb. apply pc_Swap_this. simpl. apply pc_lift.
    assert (heap m ⊆ heap m1) as Hsub by (rewrite Hheap; by apply insert_subseteq).
    destruct (wf_subseteq a m m1 Hsub Hwfa) as [Hwfa1 _].
    eapply pc_mono; [apply wp_pc, (wp_Vector_dtor _ m1); exact Hwfa1| |done]. simpl.
    intros [] m2 [Hh2 _]. fold bufa in Hh2.
    pose proof (wf_not_fresh a m nb Hwfa Hfresh) as Hnb. fold bufa in Hnb.
    pose proof (wf_not_fresh b m nb Hwfb Hfresh) as Hnbb. fold bufb in Hnbb.
    assert (heap m2 !! nb = Some (Live <$> vals)) as Hnew.
    { rewrite Hh2. destruct (base bufa) as [ob|].
      - rewrite lookup_delete_ne by congruence. by rewrite Hheap, lookup_insert_eq.
      - by rewrite Hheap, lookup_insert_eq. }
    assert (∀ bb, base bufb = Some bb → heap m2 !! bb = heap m !! bb) as Hbb.
    { intros bb Ebb. rewrite Hh2.
      assert (heap m1 !! bb = heap m !! bb) as H1
        by (rewrite Hheap; apply lookup_insert_ne; congruence).
      destruct (base bufa) as [ob|] eqn:Eba; [|done].
      rewrite lookup_delete_ne; [done|]. intros ->.
      unfold separate in Hsep. fold bufa bufb in Hsep. rewrite Eba, Ebb in Hsep.
      by specialize (Hsep eq_refl). }
    split.
    + apply invariant_tags.
      by destruct (owns_block_wf m2 nb (size_ b) vals Hn Hlen Hnew) as (_&?&_).
    + apply (inv_tags_same b m); [|done]. intros i _. apply tag_block_eq.
      intros bb Ebb. by apply Hbb.
  - apply Nat.ltb_ge in E. do 2 pc_step. unfold GetAddress. fold bufa bufb.
    assert (∀ j, j < capacity_ (data_ b) → base (ptr_add bufb j) ≠ base bufa) as Hbne.
    { intros j Hj Hb. simpl in Hb. symmetry in Hb. pose proof (Hsep Hb) as Hnone.
      fold bufa in Hnone. rewrite Hnone in Hb. rewrite <- Hb in Hblkb. lia. }
    assert (∀ (P : ptr → Prop) m1 m2, same_tags m m1 → tags P m1 m2 →
              (∀ q, P q → base q = base bufa) → inv_tags b m2) as Hb'.
    { intros P m1 m2 H1 H2 HP. apply (inv_tags_same b m); [|done]. intros j Hj. fold bufb.
      rewrite H2, H1; [done|]. intros HPq. apply HP in HPq. by apply (Hbne j). }
    pcb. apply pc_lift. eapply pc_mono; [apply pc_copy_n| |]; simpl.
    2:{ intros m1 Hm1. by apply Hsame. }
    intros [] m1 Hm1. destruct (size_ b <? size_ a) eqn:E2.
    + apply Nat.ltb_lt in E2. pcb. pcb. apply pc_RawMemory_plus. intros _. fold bufa.
      apply pc_lift.
      eapply pc_mono; [apply (pc_destroy_n _ _ _ (λ _, False))| |done]. simpl.
      intros [] m2 [Hdead Hfar]. apply pc_set_size. simpl. split.
      * split; [simpl; lia|]. simpl. fold bufa. intros i Hi.
        destruct (decide (size_ b ≤ i < size_ a)) as [Hin|Hout].
        -- replace i with (size_ b + (i - size_ b)) at 1 by lia. rewrite <- ptr_add_add.
           rewrite Hdead by lia. f_equal. ltb_lia.
        -- rewrite Hfar, Hm1.
           ++ rewrite Htagsa by done. f_equal. ltb_lia.
           ++ unfold in_range, ptr_add. simpl. intros [_ ?]. lia.
      * apply (Hb' _ m1 m2 Hm1 Hfar). by intros q [? _].
    + apply Nat.ltb_ge in E2. pcb. pcb. apply pc_RawMemory_plus. intros _.
      pcb. apply pc_RawMemory_plus. intros _. fold bufa bufb. apply pc_lift.
      eapply pc_mono; [apply pc_uninitialized_copy_n| |]; simpl.
      * intros k Hk. rewrite ptr_add_add, Hm1, Htagsa by lia. f_equal. ltb_lia.
      * intros [] m2 [Hlive Hfar]. apply pc_set_size. simpl. split.
        -- split; [simpl; lia|]. simpl. fold bufa. intros i Hi.
           destruct (decide (size_ a ≤ i < size_ b)) as [Hin|Hout].
           ++ replace i with (size_ a + (i - size_ a)) at 1 by lia. rewrite <- ptr_add_add.
              rewrite Hlive by lia. f_equal. ltb_lia.
           ++ rewrite Hfar, Hm1.
              ** rewrite Htagsa by done. f_equal. ltb_lia.
              ** unfold in_range, ptr_add. simpl. intros [_ ?]. lia.
        -- apply (Hb' _ m1 m2 Hm1 Hfar). by intros q [? _].
      * intros m2 Hm2. apply Hsame. by eapply same_tags_trans.
Qed.

(** ** The slot invariant under the member functions

    [invariant v m] is the invariant of the data model: the size is within
    the capacity, the slots below the size hold constructed objects and the
    slots from the size to the capacity hold none. *)

Lemma invariant_false v m : ¬ inv_tags v m → invariant v m = false.
Proof.
  intros H. destruct (invariant v m) eqn:E; [|done]. by apply invariant_tags in E.
Qed.

(** X17. [EmplaceBack] and both [PushBack] keep the slot invariant, whether
    they return or throw, with or without growth. *)
Theorem EmplaceBack_keeps_the_invariant (v : Vector) (m : mem) :
  wf v m → invariant v m = true →
  (∀ a p s', EmplaceBack a (v, m) = Ok p s' → invariant s'.1 s'.2 = true) ∧
  (∀ a s', EmplaceBack a (v, m) = Throw s' → invariant s'.1 s'.2 = true) ∧
  (∀ x r s', PushBack x (v, m) = Ok r s' ∨ PushBack_move x (v, m) = Ok r s' →
     invariant s'.1 s'.2 = true).
Proof.
  intros Hwf Hinv. apply invariant_tags in Hinv.
  assert (∀ a p s', EmplaceBack a (v, m) = Ok p s' → invariant s'.1 s'.2 = true) as Hok.
  { intros a p s' Hrun. apply invariant_tags.
    exact (pc_ok _ _ _ _ _ _ (pc_EmplaceBack v m a Hwf Hinv) Hrun). }
  split; [done|]. split.
  - intros a s' Hrun. apply invariant_tags.
    destruct (pc_throw _ _ _ _ _ (pc_EmplaceBack v m a Hwf Hinv) Hrun) as [-> Hs].
    apply (inv_tags_same v m); [|done]. intros i _. apply Hs.
  - intros x r s' [Hrun|Hrun]; unfold PushBack, PushBack_move, bind in Hrun.
    + destruct (EmplaceBack (ByCopy x) (v, m)) as [p s1|s1|] eqn:E; [|done..].
      injection Hrun as _ <-. by apply (Hok _ _ _ E).
    + destruct (EmplaceBack (ByMove x) (v, m)) as [p s1|s1|] eqn:E; [|done..].
      injection Hrun as _ <-. by apply (Hok _ _ _ E).
Qed.

(** X18. [Reserve], for a request that is within the capacity or does not
    wrap, keeps the slot invariant, whether it returns or throws. *)
Theorem Reserve_keeps_the_invariant (sizeof_T : positive) (v : Vector) (m : mem) (c : nat) :
  wf v m → invariant v m = true → (capacity_ (data_ v) < c → fits sizeof_T c) →
  (∀ r s', Reserve_sized sizeof_T c (v, m) = Ok r s' → invariant s'.1 s'.2 = true) ∧
  (∀ s', Reserve_sized sizeof_T c (v, m) = Throw s' → invariant s'.1 s'.2 = true).
Proof.
  intros Hwf Hinv Hfit. rewrite Reserve_sized_fits by done.
  apply invariant_tags in Hinv. split.
  - intros r s' Hrun. apply invariant_tags.
    exact (pc_ok _ _ _ _ _ _ (pc_Reserve v m c Hwf Hinv) Hrun).
  - intros s' Hrun. apply invariant_tags.
    destruct (pc_throw _ _ _ _ _ (pc_Reserve v m c Hwf Hinv) Hrun) as [-> Hs].
    apply (inv_tags_same v m); [|done]. intros i _. apply Hs.
Qed.

(** X19. [Emplace] (and so [Insert]) keeps the slot invariant whenever it
    returns, at every position of [begin, end] and on each of its three
    paths; an exception on the append path or on the growth path keeps it
    too. *)
Theorem Emplace_keeps_the_invariant (v : Vector) (m : mem) (i : nat) (a : init) :
  wf v m → invariant v m = true → i ≤ size_ v →
  let pos := ptr_add (buffer_ (data_ v)) i in
  (∀ p s', Emplace pos a (v, m) = Ok p s' → invariant s'.1 s'.2 = true) ∧
  (∀ s', Emplace pos a (v, m) = Throw s' →
     i = size_ v ∨ capacity_ (data_ v) ≤ size_ v → invariant s'.1 s'.2 = true).
Proof.
  intros Hwf Hinv Hi pos. apply invariant_tags in Hinv.
  pose proof (pc_Emplace v m i a Hwf Hinv Hi) as H. split.
  - intros p s' Hrun. apply invariant_tags. exact (pc_ok _ _ _ _ _ _ H Hrun).
  - intros s' Hrun Hpath. apply invariant_tags.
    destruct (pc_throw _ _ _ _ _ H Hrun) as [-> [[Hs _]|(?&?&_)]]; [|lia].
    apply (inv_tags_same v m); [|done]. intros j _. apply Hs.
Qed.

(** X20. The in-place path of [Emplace] is not exception safe. When it
    throws, the size is unchanged, and either nothing was done (the move
    constructor of the last element threw, which a non-throwing move
    excludes), or the slot one past the last element holds the object that was
    move-constructed there: a constructed object outside the size, which no
    destructor will reach, and the slot invariant is broken. *)
Theorem Emplace_in_place_throw_leaves_an_object (v : Vector) (m : mem) (i : nat) (a : init) s' :
  wf v m → invariant v m = true → i < size_ v → size_ v < capacity_ (data_ v) →
  Emplace (ptr_add (buffer_ (data_ v)) i) a (v, m) = Throw s' →
  s'.1 = v ∧
  ((nothrow_move_constructible = false ∧ invariant s'.1 s'.2 = true) ∨
   (tag s'.2 (ptr_add (buffer_ (data_ v)) (size_ v)) = Some true ∧
    invariant s'.1 s'.2 = false)).
Proof.
  intros Hwf Hinv Hi Hc Hrun. apply invariant_tags in Hinv.
  destruct (pc_throw _ _ _ _ _ (pc_Emplace v m i a Hwf Hinv ltac:(lia)) Hrun)
    as [Hv [[Hs Hnt]|(_&_&Hs)]]; (split; [done|]); rewrite Hv.
  - left. split; [by apply Hnt|]. apply invariant_tags.
    apply (inv_tags_same v m); [|done]. intros j _. apply Hs.
  - right. assert (tag s'.2 (ptr_add (buffer_ (data_ v)) (size_ v)) = Some true) as Ht
      by (by rewrite Hs, decide_True).
    split; [done|]. apply invariant_false. intros [_ Ht'].
    rewrite Ht' in Ht by done. rewrite Nat.ltb_irrefl in Ht. done.
Qed.

(** X21. [Resize], for a size that is within the capacity or does not wrap,
    keeps the slot invariant, whether it returns or throws. *)
Theorem Resize_keeps_the_invariant (sizeof_T : positive) (v : Vector) (m : mem) (n : nat) :
  wf v m → invariant v m = true → (capacity_ (data_ v) < n → fits sizeof_T n) →
  (∀ r s', Resize_sized sizeof_T n (v, m) = Ok r s' → invariant s'.1 s'.2 = true) ∧
  (∀ s', Resize_sized sizeof_T n (v, m) = Throw s' → invariant s'.1 s'.2 = true).
Proof.
  intros Hwf Hinv Hfit. rewrite Resize_sized_fits by done.
  apply invariant_tags in Hinv.
  pose proof (pc_Resize v m n Hwf Hinv) as H. split.
  - intros r s' Hrun. apply invariant_tags. exact (pc_ok _ _ _ _ _ _ H Hrun).
  - intros s' Hrun. apply invariant_tags. exact (pc_throw _ _ _ _ _ H Hrun).
Qed.

(** X22. [PopBack] keeps the slot invariant. *)
Theorem PopBack_keeps_the_invariant (v : Vector) (m : mem) r s' :
  invariant v m = true → PopBack (v, m) = Ok r s' → invariant s'.1 s'.2 = true.
Proof.
  intros Hinv Hrun. apply invariant_tags in Hinv. apply invariant_tags.
  exact (pc_ok _ _ _ _ _ _ (pc_PopBack v m Hinv) Hrun).
Qed.

(** X23. Copy assignment between two different vectors keeps the slot
    invariant of both, whether it returns or throws. *)
Theorem copy_assign_keeps_the_invariant (this other : nat) (objs : gmap nat Vector) (m : mem)
    (a b : Vector) :
  this ≠ other → objs !! this = Some a → objs !! other = Some b →
  wf a m → wf b m → separate a b → invariant a m = true → invariant b m = true →
  match copy_assign this other (objs, m) with
  | Ok _ s' | Throw s' =>
      ∃ a', s'.1 !! this = Some a' ∧ s'.1 !! other = Some b ∧
            invariant a' s'.2 = true ∧ invariant b s'.2 = true
  | Abort => False
  end.
Proof.
  intros Hne Ha Hb Hwfa Hwfb Hsep Hinva Hinvb.
  apply invariant_tags in Hinva. apply invariant_tags in Hinvb.
  rewrite (copy_assign_run this other objs m a b Hne Ha Hb).
  pose proof (wp_copy_assign_body a b m Hwfa Hwfb Hsep) as Hwp.
  pose proof (pc_copy_assign_body a b m Hwfa Hwfb Hsep Hinva Hinvb) as Hpc.
  unfold wp in Hwp. unfold pc in Hpc.
  destruct (copy_assign_body b (a, m)) as [[] [a' m']|[a' m']|]; [| |done];
    destruct Hpc as [Hia Hib]; exists a'; simpl in *;
    (split; [by rewrite lookup_insert_eq|]);
    (split; [by rewrite lookup_insert_ne|]);
    by split; apply invariant_tags.
Qed.

(** X24. [Erase] keeps the slot invariant only when it erases the last
    element. At any earlier position the slot at the position has been
    destroyed before the shift assigns over it and the old last slot is never
    destroyed, so the invariant is broken when [Erase] returns; when an
    assignment of the shift throws it is broken too. *)
Theorem Erase_keeps_the_invariant_only_at_the_back (v : Vector) (m : mem) (i : nat) :
  invariant v m = true → i < size_ v →
  let pos := ptr_add (buffer_ (data_ v)) i in
  (∀ q s', Erase pos (v, m) = Ok q s' → (invariant s'.1 s'.2 = true ↔ i + 1 = size_ v)) ∧
  (∀ s', Erase pos (v, m) = Throw s' → invariant s'.1 s'.2 = false).
Proof.
  intros Hinv Hi pos. apply invariant_tags in Hinv. destruct Hinv as [Hle Htags].
  pose proof (pc_Erase v m i) as H. split.
  - intros q [v' m'] Hrun. destruct (pc_ok _ _ _ _ _ _ H Hrun) as (Hv&_&Hs). simpl in *.
    subst v'. rewrite invariant_tags. split.
    + intros [_ Ht]. simpl in Ht. specialize (Ht i ltac:(lia)).
      rewrite Hs, decide_True in Ht by done. injection Ht as Ht. symmetry in Ht.
      apply Nat.ltb_ge in Ht. lia.
    + intros Hlast. split; [simpl; lia|]. simpl. intros j Hj. rewrite Hs. case_decide as E.
      * apply ptr_add_inj in E as ->. f_equal. ltb_lia.
      * rewrite Htags by done. f_equal.
        destruct (decide (j = i)) as [->|?]; [done|]. ltb_lia.
  - intros [v' m'] Hrun. destruct (pc_throw _ _ _ _ _ H Hrun) as [Hv Hs]. simpl in *.
    subst v'. apply invariant_false. intros [_ Ht]. specialize (Ht i ltac:(lia)).
    rewrite Hs, decide_True in Ht by done. injection Ht as Ht. symmetry in Ht.
    apply Nat.ltb_ge in Ht. lia.
Qed.

(** ** Appends within the capacity, and two edges *)

Lemma evs_ext (f g : nat → event) n : (∀ k, k < n → f k = g k) → evs f n = evs g n.
Proof.
  induction n as [|n IH]; intros H; [done|]. rewrite !evs_S, H by lia.
  f_equal. apply IH. intros k Hk. apply H. lia.
Qed.

Lemma evs_shift (g : nat → event) n : evs (λ k, g (S k)) n ++ [g 0] = evs g (S n).
Proof.
  induction n as [|n IH]; [done|]. rewrite (evs_S g (S n)), <- IH.
  by rewrite (evs_S (λ k, g (S k)) n).
Qed.

Lemma wp_appends_in_place xs : ∀ v m,
  wf v m → size_ v + length xs ≤ capacity_ (data_ v) →
  wp (appends xs) (v, m)
     (λ _ s',
        data_ s'.1 = data_ v ∧ size_ s'.1 = size_ v + length xs ∧ wf s'.1 s'.2 ∧
        log s'.2 =
          evs (λ k, EvCopyCtor None (Some (ptr_add (buffer_ (data_ v)) (size_ v + k))))
              (length xs) ++ log m)
     (λ _, raised).
Proof.
  induction xs as [|x xs IH]; intros v m Hwf Hfit; simpl in *.
  - apply wp_ret. simpl. split; [done|]. split; [lia|]. done.
  - wpb. unfold PushBack. wpb.
    eapply wp_mono; [by apply wp_EmplaceBack| |]; simpl.
    2:{ by intros s' (_&?&_). }
    intros p [v1 m1] (Hs1&Hp&Hwf1&_&_&Hspare&_). simpl in *.
    destruct (Hspare ltac:(lia)) as [Hd1 Hl1]. apply wp_ret.
    eapply wp_mono; [apply (IH v1 m1 Hwf1); rewrite Hs1, Hd1; lia| |done]. simpl.
    intros [] [v2 m2] (Hd2&Hs2&Hwf2&Hl2). simpl in *.
    split; [congruence|]. split; [lia|]. split; [done|].
    rewrite Hl2, Hl1, Hp, Hd1, Hs1.
    rewrite <- (evs_shift (λ k, EvCopyCtor None
                                  (Some (ptr_add (buffer_ (data_ v)) (size_ v + k))))).
    rewrite Nat.add_0_r, <- app_assoc. simpl. f_equal.
    apply evs_ext. intros k _. do 3 f_equal. lia.
Qed.

(** X25. Appends that fit in the capacity never reallocate: the buffer and
    the capacity stay the same, so addresses of elements stay valid, and the
    only operations on [T] are the copy constructions of the new elements,
    one per append, each in the next free slot. *)
Theorem appends_within_capacity_do_not_reallocate (xs : list T) (v : Vector) (m : mem) :
  wf v m → size_ v + length xs ≤ capacity_ (data_ v) →
  (∀ r s', appends xs (v, m) = Ok r s' →
     data_ s'.1 = data_ v ∧ size_ s'.1 = size_ v + length xs ∧
     contents s'.1 s'.2 = contents v m ++ map Some xs ∧
     log s'.2 =
       evs (λ k, EvCopyCtor None (Some (ptr_add (buffer_ (data_ v)) (size_ v + k))))
           (length xs) ++ log m) ∧
  ((∀ k, throws k = false) → ∃ s', appends xs (v, m) = Ok tt s').
Proof.
  intros Hwf Hfit. pose proof (wp_appends_in_place xs v m Hwf Hfit) as H. split.
  - intros r s' Hrun. destruct (wp_ok _ _ _ _ _ _ H Hrun) as (Hd&Hs&_&Hl).
    destruct (wp_ok _ _ _ _ _ _ (wp_appends_contents xs v m Hwf) Hrun) as [_ Hc]. done.
  - intros Hno. destruct (wp_total _ _ _ _ H ltac:(done) Hno) as ([]&s'&Hrun&_). eauto.
Qed.

(** X26. [RawMemory::operator[]] asserts [index <= capacity], not
    [index < capacity]: on the storage of a well-formed vector the index equal
    to the capacity passes the assertion and yields an address one past the
    block, where there is no cell to read; only an index past that fails the
    assertion. *)
Theorem RawMemory_index_accepts_one_past_the_end (v : Vector) (m : mem) :
  wf v m →
  let p := ptr_add (buffer_ (data_ v)) (capacity_ (data_ v)) in
  RawMemory_index (data_ v) (capacity_ (data_ v)) m = Ok p m ∧
  cell_at m p = None ∧ read p m = Abort ∧
  RawMemory_index (data_ v) (S (capacity_ (data_ v))) m = Abort.
Proof.
  intros (Hle&Ho&Hblk&_) p.
  assert (cell_at m p = None) as Hnone.
  { unfold p, cell_at. simpl. destruct (base (buffer_ (data_ v))) as [b|]; [|done].
    destruct Hblk as [Hb _]. unfold blen in Hb. destruct (heap m !! b) as [cs|]; [|done].
    simpl in Hb. apply lookup_ge_None. injection Hb as ->. lia. }
  split; [|split; [done|split]].
  - unfold RawMemory_index, bind, assert_. by rewrite Nat.leb_refl.
  - unfold read, bind, load. by rewrite Hnone.
  - unfold RawMemory_index, bind, assert_.
    by rewrite (proj2 (Nat.leb_gt (S (capacity_ (data_ v))) (capacity_ (data_ v))) ltac:(lia)).
Qed.

(** X27. [Insert] at [end()] is [PushBack]: the two calls on the same vector
    end in the same state, by return or by exception, and [Insert] returns
    the address of the new last element. *)
Theorem Insert_at_end_is_PushBack (v : Vector) (m : mem) (x : T) :
  wf v m →
  let at_end := ptr_add (buffer_ (data_ v)) (size_ v) in
  (∀ s', PushBack x (v, m) = Ok tt s' ↔
         Insert at_end x (v, m) = Ok (ptr_add (buffer_ (data_ s'.1)) (size_ v)) s') ∧
  (∀ s', PushBack x (v, m) = Throw s' ↔ Insert at_end x (v, m) = Throw s') ∧
  (∀ p s', Insert at_end x (v, m) = Ok p s' → val_at s'.2 p = Some x).
Proof.
  intros Hwf at_end. unfold Insert, at_end. rewrite Emplace_at_end by apply Hwf.
  unfold PushBack, bind.
  pose proof (wp_EmplaceBack v m (ByCopy x) Hwf) as H. unfold wp in H.
  destruct (EmplaceBack (ByCopy x) (v, m)) as [p [v1 m1]|s1|]; [| |done].
  - destruct H as (Hs1&Hp&Hwf1&Hc&_). simpl in *.
    rewrite end_eq by apply Hwf1. rewrite Hs1. unfold prev.
    rewrite (ptr_sub_add (buffer_ (data_ v1)) (S (size_ v)) 1) by lia.
    replace (S (size_ v) - 1) with (size_ v) by lia. unfold some_or_abort, ret.
    split; [|split; [done|]].
    + intros s'. split; [by intros [= <-]|]. intros E.
      assert (s' = (v1, m1)) as -> by congruence. done.
    + intros p' s' E.
      assert (p' = p) as -> by congruence. assert (s' = (v1, m1)) as -> by congruence.
      unfold val_at. cbn [snd]. rewrite Hc. reflexivity.
  - split; [done|]. split; [|by intros p' s'].
    intros s'. split; intros E; assert (s' = s1) as -> by congruence; done.
Qed.

End Model.

(** * Runs on concrete vectors

    The element type is [nat]. A type the source relocates by copy has a move
    constructor that may throw and a copy constructor ([false], [true]); a
    type it relocates by move has a move constructor that does not throw. *)

Definition empty_mem : mem (T:=nat) := Mem ∅ [] 0.

(** [{1, 2, 3}] with capacity 4 and [{1, 2, 3, 4}] with capacity 4, of a
    type relocated by copy, built by appends to an empty vector. *)
Definition copied_123 : Vector * mem :=
  after (appends husk false true never [1; 2; 3] (Vector_default, empty_mem)).

Definition copied_1234 : Vector * mem :=
  after (appends husk false true never [1; 2; 3; 4] (Vector_default, empty_mem)).

(** The same vector in a run whose fallible operation number 13, the copy
    of the second element during the next growth, throws. *)
Definition copied_1234_then_throw : Vector * mem :=
  after (appends husk false true (throw_at 13) [1; 2; 3; 4] (Vector_default, empty_mem)).

(** The full vectors [{1}] and [{1, 2}] of that type, in runs whose next
    growth fails at the copy of an element: the fallible operations 4 and 8. *)
Definition copied_1_then_throw : Vector * mem :=
  after (appends husk false true (throw_at 4) [1] (Vector_default, empty_mem)).

Definition copied_12_then_throw : Vector * mem :=
  after (appends husk false true (throw_at 8) [1; 2] (Vector_default, empty_mem)).

(** The full vector [{1, 2, 3, 4}] of a type whose move constructor does
    not throw and leaves 0 in its source. *)
Definition moved_1234 : Vector * mem :=
  after (appends husk true true never [1; 2; 3; 4] (Vector_default, empty_mem)).

(** [{1, 2, 3}] with capacity 4 of [int], whose move leaves the source as it
    is and does not throw. *)
Definition ints_123 : Vector * mem :=
  after (appends keep true true never [1; 2; 3] (Vector_default, empty_mem)).

Example copied_123_view :
  copied_123.1 = mkVec (mkRaw (Ptr (Some 3%positive) 0) 4) 3 ∧
  heap copied_123.2 !! 3%positive = Some [Live 1; Live 2; Live 3; Raw] ∧
  contents copied_123.1 copied_123.2 = [Some 1; Some 2; Some 3].
Proof. by vm_compute. Qed.


(** The relocation event of the first element when [{1}] grows, for the four
    combinations of the two traits: a copy only for a copyable type whose move
    may throw. *)
Example relocation_kinds :
  map (λ traits : bool * bool,
         nth 2 (log (after (appends husk traits.1 traits.2 never [1; 2]
                              (Vector_default, empty_mem))).2) (EvFree 1%positive))
      [(true, true); (true, false); (false, false); (false, true)] =
    [EvMoveCtor (Some (Ptr (Some 1%positive) 0)) (Some (Ptr (Some 2%positive) 0));
     EvMoveCtor (Some (Ptr (Some 1%positive) 0)) (Some (Ptr (Some 2%positive) 0));
     EvMoveCtor (Some (Ptr (Some 1%positive) 0)) (Some (Ptr (Some 2%positive) 0));
     EvCopyCtor (Some (Ptr (Some 1%positive) 0)) (Some (Ptr (Some 2%positive) 0))].
Proof. by vm_compute. Qed.

(** C2 fails on the objects built in the new block. [{1}] is full; while
    [EmplaceBack(2)] grows it, the copy of the element 1 into the new block
    throws. The vector and the heap are then as before the call, and the new
    block, block 2, has been released; but the new element, built at offset 1
    of that block before the relocation, has had no destructor call: the log
    of the call is its construction between the allocation and the release.
    [{1, 2}] is full; while [Emplace(begin() + 1, 9)] grows it, the copy of
    the element 2 throws: the new element at offset 1 of block 3 and the copy
    of the element 1 at offset 0, which the first relocation call had built,
    are released with the block and never destroyed. *)
Theorem C2_new_block_released_with_live_objects :
  (∃ s', EmplaceBack husk false true (throw_at 4) (ByCopy 2) copied_1_then_throw = Throw s' ∧
         s'.1 = copied_1_then_throw.1 ∧ heap s'.2 = heap copied_1_then_throw.2 ∧
         contents s'.1 s'.2 = [Some 1] ∧
         log s'.2 =
           [EvFree 2%positive;
            EvCopyCtor None (Some (Ptr (Some 2%positive) 1));
            EvAlloc 2%positive 2] ++ log copied_1_then_throw.2) ∧
  (∃ s', Emplace husk false true (throw_at 8) (Ptr (Some 2%positive) 1) (ByCopy 9)
           copied_12_then_throw = Throw s' ∧
         s'.1 = copied_12_then_throw.1 ∧ heap s'.2 = heap copied_12_then_throw.2 ∧
         contents s'.1 s'.2 = [Some 1; Some 2] ∧
         log s'.2 =
           [EvFree 3%positive;
            EvCopyCtor (Some (Ptr (Some 2%positive) 0)) (Some (Ptr (Some 3%positive) 0));
            EvCopyCtor None (Some (Ptr (Some 3%positive) 1));
            EvAlloc 3%positive 4] ++ log copied_12_then_throw.2).
Proof.
  split; (eexists; split; [vm_compute; reflexivity|]; by vm_compute).
Qed.

(** The copy of the second element throws while [{1, 2, 3, 4}] grows: the
    vector and the heap are as before. *)
Lemma growth_strong_guarantee_witness :
  wf copied_1234_then_throw.1 copied_1234_then_throw.2 ∧
  ∃ s', EmplaceBack husk false true (throw_at 13) (ByCopy 5)
          (copied_1234_then_throw.1, copied_1234_then_throw.2) = Throw s' ∧
        s'.1 = copied_1234_then_throw.1 ∧
        heap s'.2 = heap copied_1234_then_throw.2 ∧
        contents s'.1 s'.2 = [Some 1; Some 2; Some 3; Some 4].
Proof.
  assert (wf copied_1234_then_throw.1 copied_1234_then_throw.2) as Hwf
    by (apply wfb_wf; vm_compute; reflexivity).
  split; [exact Hwf|].
  destruct (growth_strong_guarantee 0 husk false true (throw_at 13) 4 _ _ Hwf) as (_&H&_).
  exists (after (EmplaceBack husk false true (throw_at 13) (ByCopy 5)
                   (copied_1234_then_throw.1, copied_1234_then_throw.2))).
  assert (EmplaceBack husk false true (throw_at 13) (ByCopy 5)
            (copied_1234_then_throw.1, copied_1234_then_throw.2) =
          Throw (after (EmplaceBack husk false true (throw_at 13) (ByCopy 5)
                          (copied_1234_then_throw.1, copied_1234_then_throw.2))))
    as Hrun by (vm_compute; reflexivity).
  split; [exact Hrun|].
  destruct (H (ByCopy 5) _ ltac:(vm_compute; lia) Hrun (or_introl eq_refl)) as (Hv&Hh&Hc).
  split; [exact Hv|]. split; [exact Hh|]. rewrite Hc. vm_compute. reflexivity.
Defined.

(** A move-only type whose move may throw is relocated by move; when the
    second relocating move throws while [{1, 2}] grows, the first element has
    already been moved from: the vector keeps its buffer and size, with a
    moved-from first element. *)
Example throwing_move_tears_the_vector :
  let push := PushBack_move husk false false (throw_at 8) in
  let two := after ((push 1 ;; push 2) (Vector_default, empty_mem)) in
  contents two.1 two.2 = [Some 1; Some 2] ∧
  ∃ s', push 3 two = Throw s' ∧ s'.1 = two.1 ∧ contents s'.1 s'.2 = [Some 0; Some 2].
Proof. split; [by vm_compute|]. eexists. split; [vm_compute; reflexivity|]. by vm_compute. Qed.

(** C4 as stated fails for a type relocated by copy: inserting 9 at index 1
    of [{1, 2, 3}] with capacity 4 does not run as the specification words
    it. The source moves where the wording copies. *)
Lemma C4_counterexample :
  Emplace husk false true never (Ptr (Some 3%positive) 1) (ByCopy 9) copied_123 ≠
  Emplace_in_place_as_specified husk false true never (Ptr (Some 3%positive) 1) (ByCopy 9)
    copied_123.
Proof.
  intros H. apply (f_equal (λ o, take 5 (log (after o).2))) in H.
  vm_compute in H. discriminate H.
Qed.

Example C4_logs :
  take 5 (log (after (Emplace husk false true never (Ptr (Some 3%positive) 1) (ByCopy 9)
                        copied_123)).2) =
    [EvDtor None;
     EvMoveAssign None (Some (Ptr (Some 3%positive) 1));
     EvCopyCtor None None;
     EvMoveAssign (Some (Ptr (Some 3%positive) 1)) (Some (Ptr (Some 3%positive) 2));
     EvMoveCtor (Some (Ptr (Some 3%positive) 2)) (Some (Ptr (Some 3%positive) 3))] ∧
  take 5 (log (after (Emplace_in_place_as_specified husk false true never
                        (Ptr (Some 3%positive) 1) (ByCopy 9) copied_123)).2) =
    [EvDtor None;
     EvMoveAssign None (Some (Ptr (Some 3%positive) 1));
     EvCopyCtor None None;
     EvCopyAssign (Some (Ptr (Some 3%positive) 1)) (Some (Ptr (Some 3%positive) 2));
     EvCopyCtor (Some (Ptr (Some 3%positive) 2)) (Some (Ptr (Some 3%positive) 3))].
Proof. by vm_compute. Qed.

(** [{1, 2, 3}] of [int] with capacity 4: inserting 9 at the front gives
    [{9, 1, 2, 3}]; inserting the vector's own last element at the front,
    [v.Insert(v.begin(), v[2])], gives [{2, 1, 2, 3}], because slot 2 holds
    the old element 1 when the temporary is built. *)
Lemma C4_in_place_insertion_witness :
  wf ints_123.1 ints_123.2 ∧ 0 < size_ ints_123.1 ∧
  size_ ints_123.1 < capacity_ (data_ ints_123.1) ∧ 2 < size_ ints_123.1 ∧
  (∃ p s',
     Emplace keep true true never (ptr_add (buffer_ (data_ ints_123.1)) 0) (ByCopy 9)
       (ints_123.1, ints_123.2) = Ok p s' ∧
     val_at s'.2 (ptr_add (buffer_ (data_ ints_123.1)) 0) = Some 9 ∧
     contents s'.1 s'.2 = [Some 9; Some 1; Some 2; Some 3]) ∧
  (∃ p s',
     Insert_ref keep true true never (ptr_add (buffer_ (data_ ints_123.1)) 0)
       (ptr_add (buffer_ (data_ ints_123.1)) 2) (ints_123.1, ints_123.2) = Ok p s' ∧
     val_at s'.2 (ptr_add (buffer_ (data_ ints_123.1)) 0) = Some 2 ∧
     contents s'.1 s'.2 = [Some 2; Some 1; Some 2; Some 3] ∧
     take 5 (log s'.2) =
       [EvDtor None;
        EvMoveAssign None (Some (Ptr (Some 3%positive) 0));
        EvCopyCtor (Some (Ptr (Some 3%positive) 2)) None;
        EvMoveAssign (Some (Ptr (Some 3%positive) 0)) (Some (Ptr (Some 3%positive) 1));
        EvMoveAssign (Some (Ptr (Some 3%positive) 1)) (Some (Ptr (Some 3%positive) 2))]).
Proof.
  assert (wf ints_123.1 ints_123.2) as Hwf by (apply wfb_wf; vm_compute; reflexivity).
  assert (0 < size_ ints_123.1) as Hi by (vm_compute; lia).
  assert (size_ ints_123.1 < capacity_ (data_ ints_123.1)) as Hc by (vm_compute; lia).
  assert (2 < size_ ints_123.1) as Hj by (vm_compute; lia).
  split; [exact Hwf|]. split; [exact Hi|]. split; [exact Hc|]. split; [exact Hj|].
  destruct (C4_in_place_insertion 0 keep true true never _ _ 0 Hwf Hi Hc) as [Hval Hel].
  split.
  - destruct (Hval (ByCopy 9)) as [H Htotal].
    destruct (Htotal (λ k, eq_refl)) as (p&s'&Hrun). exists p, s'. split; [exact Hrun|].
    destruct (H p s' Hrun) as (_&_&_&_&Hv&_). split; [exact Hv|].
    vm_compute in Hrun. injection Hrun as <- <-. vm_compute. reflexivity.
  - destruct (Hel 2 Hj) as [H Htotal].
    destruct (Htotal (λ k, eq_refl)) as (p&s'&Hrun). exists p, s'. split; [exact Hrun|].
    destruct (H p s' Hrun) as (_&_&_&_&Hv&Hl).
    split; [rewrite Hv; vm_compute; reflexivity|].
    split; [|rewrite Hl; vm_compute; reflexivity].
    vm_compute in Hrun. injection Hrun as <- <-. vm_compute. reflexivity.
Defined.

(** C5 as stated fails: what [PushBack] returns cannot be read as a
    reference to the new element. Pushing 7 onto the empty vector and onto
    [{1, 2, 3}] returns the same thing, and the new elements are at
    different addresses. *)
Lemma C5_counterexample :
  ¬ ∃ as_reference : unit → ptr,
      ∀ s, s = (Vector_default, empty_mem) ∨ s = copied_123 →
        ∀ r s', PushBack husk false true never 7 s = Ok r s' →
          as_reference r = ptr_add (buffer_ (data_ s'.1)) (size_ s'.1 - 1) ∧
          val_at s'.2 (as_reference r) = Some 7.
Proof.
  intros [f H].
  destruct (H _ (or_introl eq_refl) tt
              (after (PushBack husk false true never 7 (Vector_default, empty_mem))))
    as [H1 _]; [vm_compute; reflexivity|].
  destruct (H _ (or_intror eq_refl) tt (after (PushBack husk false true never 7 copied_123)))
    as [H2 _]; [vm_compute; reflexivity|].
  rewrite H1 in H2. vm_compute in H2. discriminate H2.
Qed.

Lemma C5_append_witness :
  wf copied_123.1 copied_123.2 ∧
  size_ (after (PushBack husk false true never 7 copied_123)).1 = 4 ∧
  contents (after (PushBack husk false true never 7 copied_123)).1
           (after (PushBack husk false true never 7 copied_123)).2 =
    [Some 1; Some 2; Some 3; Some 7].
Proof.
  assert (wf copied_123.1 copied_123.2) as Hwf by (apply wfb_wf; vm_compute; reflexivity).
  split; [exact Hwf|].
  destruct (C5_append 0 husk false true never _ _ Hwf) as (H&_&_).
  destruct (H 7 tt (after (PushBack husk false true never 7 copied_123))) as (_&Hs&_).
  - vm_compute. reflexivity.
  - split; [exact Hs|]. vm_compute. reflexivity.
Defined.

Example C6_five_appends :
  capacity_ (data_ (after (appends keep true true never [1; 2; 3; 4; 5]
                             (Vector_default, empty_mem))).1) = 8.
Proof. by vm_compute. Qed.

(** C7 fails on [Erase]. [{1, 2, 3}] of [int] with capacity 4 satisfies the
    invariant; after [Erase(begin())] the size is 2 and within the capacity,
    slot 0 holds a value but no constructed object (its object was destroyed
    before the others were assigned over it), and slot 2, outside the size,
    still holds a constructed object that no destructor will reach. *)
Theorem C7_Erase_breaks_the_slot_invariant :
  invariant ints_123.1 ints_123.2 = true ∧
  ∃ q v' m',
    Erase keep true true never (Ptr (Some 3%positive) 0) ints_123 = Ok q (v', m') ∧
    size_ v' = 2 ∧ capacity_ (data_ v') = 4 ∧
    heap m' !! 3%positive = Some [Stale 2; Live 3; Live 3; Raw] ∧
    invariant v' m' = false.
Proof.
  split; [by vm_compute|].
  eexists _, _, _. split; [vm_compute; reflexivity|]. by vm_compute.
Qed.

Lemma C8_insert_then_erase_witness :
  wf copied_123.1 copied_123.2 ∧ 1 ≤ size_ copied_123.1 ∧
  ∃ p s1 q s2,
    Emplace husk false true never (Ptr (Some 3%positive) 1) (ByCopy 9) copied_123 = Ok p s1 ∧
    contents s1.1 s1.2 = [Some 1; Some 9; Some 2; Some 3] ∧
    Erase husk false true never p s1 = Ok q s2 ∧
    size_ s2.1 = 3 ∧
    contents s2.1 s2.2 = [Some 1; Some 2; Some 3].
Proof.
  assert (wf copied_123.1 copied_123.2) as Hwf by (apply wfb_wf; vm_compute; reflexivity).
  assert (1 ≤ size_ copied_123.1) as Hi by (vm_compute; lia).
  split; [exact Hwf|]. split; [exact Hi|].
  destruct (C8_insert_then_erase 0 husk false true never _ _ 1 (ByCopy 9) Hwf Hi) as [H _].
  eexists _, _, _, _. split; [vm_compute; reflexivity|]. split; [vm_compute; reflexivity|].
  split; [vm_compute; reflexivity|].
  edestruct H as (Hs&Hc&_); [vm_compute; reflexivity|vm_compute; reflexivity|].
  split; [exact Hs|]. rewrite Hc. vm_compute. reflexivity.
Defined.

(** Without the guard the body of the copy assignment would run on [this]
    itself and copy-assign every element onto itself. *)
Example copy_assign_body_on_itself :
  take 3 (log (after (copy_assign_body never copied_123.1 copied_123)).2) =
    [EvCopyAssign (Some (Ptr (Some 3%positive) 2)) (Some (Ptr (Some 3%positive) 2));
     EvCopyAssign (Some (Ptr (Some 3%positive) 1)) (Some (Ptr (Some 3%positive) 1));
     EvCopyAssign (Some (Ptr (Some 3%positive) 0)) (Some (Ptr (Some 3%positive) 0))] ∧
  copy_assign never 0 0 ({[0 := copied_123.1]}, copied_123.2) =
    Ok tt ({[0 := copied_123.1]}, copied_123.2).
Proof. split; [by vm_compute|reflexivity]. Qed.

Lemma C10_begin_end_witness :
  size_ copied_123.1 ≤ capacity_ (data_ copied_123.1) ∧
  ∃ e, end_ (copied_123.1, copied_123.2) = Ok e (copied_123.1, copied_123.2) ∧
       e = Ptr (Some 3%positive) 3 ∧
       buffer_ (data_ copied_123.1) ≠ e.
Proof.
  assert (size_ copied_123.1 ≤ capacity_ (data_ copied_123.1)) as Hle by (vm_compute; lia).
  split; [exact Hle|].
  destruct (C10_begin_end copied_123.1 copied_123.2 Hle) as (e&_&He&Hiff&_).
  exists e. split; [exact He|].
  assert (e = Ptr (Some 3%positive) 3) as ->.
  { vm_compute in He. by injection He as <-. }
  split; [reflexivity|]. intros Hb. apply Hiff in Hb. vm_compute in Hb. discriminate Hb.
Defined.

(** * The further properties on concrete vectors *)

(** Five value-initialised [int]s built in the memory that holds [{1, 2, 3}]
    of the type relocated by copy: two vectors side by side. *)
Definition zeros_5_beside_123 : Vector * mem :=
  match Vector_ctor 0 never 5 copied_123.2 with
  | Ok v m => (v, m)
  | _ => (Vector_default, empty_mem)
  end.

Lemma Erase_deletes_witness :
  wf ints_123.1 ints_123.2 ∧ 1 < size_ ints_123.1 ∧
  ∃ q s',
    Erase keep true true never (ptr_add (buffer_ (data_ ints_123.1)) 1)
      (ints_123.1, ints_123.2) = Ok q s' ∧
    contents s'.1 s'.2 = [Some 1; Some 3].
Proof.
  assert (wf ints_123.1 ints_123.2) as Hwf by (apply wfb_wf; vm_compute; reflexivity).
  assert (1 < size_ ints_123.1) as Hi by (vm_compute; lia).
  split; [exact Hwf|]. split; [exact Hi|].
  destruct (Erase_deletes 0 keep true true never _ _ 1 Hwf Hi) as (H&_&Htotal).
  destruct (Htotal (λ k, eq_refl)) as (q&s'&Hrun).
  exists q, s'. split; [exact Hrun|].
  destruct (H q s' Hrun) as (_&_&_&Hc&_). rewrite Hc. vm_compute. reflexivity.
Defined.

Lemma Emplace_inserts_witness :
  wf copied_123.1 copied_123.2 ∧ 1 ≤ size_ copied_123.1 ∧
  ∃ p s',
    Emplace_ref husk false true never (ptr_add (buffer_ (data_ copied_123.1)) 1)
      (Outside (ByCopy 9)) (copied_123.1, copied_123.2) = Ok p s' ∧
    contents s'.1 s'.2 = [Some 1; Some 9; Some 2; Some 3] ∧
    capacity_ (data_ s'.1) = 4.
Proof.
  assert (wf copied_123.1 copied_123.2) as Hwf by (apply wfb_wf; vm_compute; reflexivity).
  assert (1 ≤ size_ copied_123.1) as Hi by (vm_compute; lia).
  split; [exact Hwf|]. split; [exact Hi|].
  destruct (Emplace_inserts 0 husk false true never _ _ 1 (ByCopy 9) Hwf Hi) as (H&_&Htotal).
  destruct (Htotal (λ k, eq_refl)) as (p&s'&Hrun).
  exists p, s'. split; [exact Hrun|].
  destruct (H p s' Hrun) as (_&Hc&Hcap&_).
  split; [rewrite Hc|rewrite Hcap]; vm_compute; reflexivity.
Defined.

Lemma Reserve_keeps_the_elements_witness :
  wf copied_123.1 copied_123.2 ∧ fits 4 10 ∧
  ∃ s',
    Reserve_sized husk false true never 4 10 (copied_123.1, copied_123.2) = Ok tt s' ∧
    contents s'.1 s'.2 = [Some 1; Some 2; Some 3] ∧ capacity_ (data_ s'.1) = 10.
Proof.
  assert (wf copied_123.1 copied_123.2) as Hwf by (apply wfb_wf; vm_compute; reflexivity).
  assert (fits 4 10) as Hfit by (vm_compute; reflexivity).
  split; [exact Hwf|]. split; [exact Hfit|].
  destruct (Reserve_keeps_the_elements 0 husk false true never 4 _ _ 10 Hwf (λ _, Hfit))
    as (H&Htotal).
  destruct (Htotal (λ k, eq_refl)) as (s'&Hrun).
  exists s'. split; [exact Hrun|].
  destruct (H tt s' Hrun) as (_&Hc&Hcap&_).
  split; [rewrite Hc|rewrite Hcap]; vm_compute; reflexivity.
Defined.

(** The copy constructor of the new element throws: nothing changes. *)
Lemma EmplaceBack_with_spare_capacity_witness :
  wf copied_123.1 copied_123.2 ∧ size_ copied_123.1 < capacity_ (data_ copied_123.1) ∧
  ∃ s',
    EmplaceBack husk false true (throw_at 9) (ByCopy 7) (copied_123.1, copied_123.2) = Throw s' ∧
    s'.1 = copied_123.1 ∧ heap s'.2 = heap copied_123.2.
Proof.
  assert (wf copied_123.1 copied_123.2) as Hwf by (apply wfb_wf; vm_compute; reflexivity).
  assert (size_ copied_123.1 < capacity_ (data_ copied_123.1)) as Hc by (vm_compute; lia).
  split; [exact Hwf|]. split; [exact Hc|].
  destruct (EmplaceBack_with_spare_capacity 0 husk false true (throw_at 9) _ _ (ByCopy 7) Hwf Hc)
    as (_&H).
  exists (after (EmplaceBack husk false true (throw_at 9) (ByCopy 7)
                   (copied_123.1, copied_123.2))).
  split; [vm_compute; reflexivity|]. apply H. vm_compute. reflexivity.
Defined.

Lemma appends_contents_witness :
  ∃ s', appends husk false true never [1; 2; 3] (Vector_default, empty_mem) = Ok tt s' ∧
        size_ s'.1 = 3 ∧ contents s'.1 s'.2 = [Some 1; Some 2; Some 3].
Proof.
  exists (after (appends husk false true never [1; 2; 3] (Vector_default, empty_mem))).
  assert (appends husk false true never [1; 2; 3] (Vector_default, empty_mem) =
          Ok tt (after (appends husk false true never [1; 2; 3] (Vector_default, empty_mem))))
    as Hrun by (vm_compute; reflexivity).
  split; [exact Hrun|].
  destruct (appends_contents 0 husk false true never _ _ _ _ Hrun) as (Hs&Hc&_).
  split; [exact Hs|exact Hc].
Defined.

Lemma index_reads_contents_witness :
  wf copied_123.1 copied_123.2 ∧ 1 < size_ copied_123.1 ∧ size_ copied_123.1 ≤ 3 ∧
  (∃ p, index 1 (copied_123.1, copied_123.2) = Ok p (copied_123.1, copied_123.2) ∧
        val_at copied_123.2 p = Some 2) ∧
  index 3 (copied_123.1, copied_123.2) = Abort.
Proof.
  assert (wf copied_123.1 copied_123.2) as Hwf by (apply wfb_wf; vm_compute; reflexivity).
  assert (1 < size_ copied_123.1) as Hi by (vm_compute; lia).
  assert (size_ copied_123.1 ≤ 3) as Hj by (vm_compute; lia).
  split; [exact Hwf|]. split; [exact Hi|]. split; [exact Hj|].
  split.
  - destruct (index_reads_contents copied_123.1 copied_123.2 1 Hwf) as [H _].
    destruct (H Hi) as (p&x&Hrun&Hx&Hc). exists p. split; [exact Hrun|].
    rewrite Hx. vm_compute in Hc. injection Hc as <-. reflexivity.
  - destruct (index_reads_contents copied_123.1 copied_123.2 3 Hwf) as [_ H]. exact (H Hj).
Defined.


Lemma Vector_dtor_destroys_and_releases_witness :
  wf copied_123.1 copied_123.2 ∧
  ∃ m',
    Vector_dtor copied_123.1 copied_123.2 = Ok tt m' ∧
    heap m' = ∅ ∧
    take 4 (log m') =
      [EvFree 3%positive;
       EvDtor (Some (Ptr (Some 3%positive) 2));
       EvDtor (Some (Ptr (Some 3%positive) 1));
       EvDtor (Some (Ptr (Some 3%positive) 0))].
Proof.
  assert (wf copied_123.1 copied_123.2) as Hwf by (apply wfb_wf; vm_compute; reflexivity).
  split; [exact Hwf|].
  destruct (Vector_dtor_destroys_and_releases 0 husk _ _ Hwf) as (m'&Hrun&Hh&Hl).
  exists m'. split; [exact Hrun|].
  split; [rewrite Hh|rewrite Hl]; vm_compute; reflexivity.
Defined.

Lemma PopBack_removes_the_last_witness :
  wf copied_123.1 copied_123.2 ∧ 0 < size_ copied_123.1 ∧
  ∃ s',
    PopBack (copied_123.1, copied_123.2) = Ok tt s' ∧
    contents s'.1 s'.2 = [Some 1; Some 2] ∧
    capacity_ (data_ s'.1) = 4.
Proof.
  assert (wf copied_123.1 copied_123.2) as Hwf by (apply wfb_wf; vm_compute; reflexivity).
  assert (0 < size_ copied_123.1) as Hpos by (vm_compute; lia).
  split; [exact Hwf|]. split; [exact Hpos|].
  destruct (PopBack_removes_the_last copied_123.1 copied_123.2 Hwf) as [H _].
  destruct (H Hpos) as (s'&Hrun&Hd&_&Hc&_).
  exists s'. split; [exact Hrun|].
  split; [rewrite Hc|rewrite Hd]; vm_compute; reflexivity.
Defined.

(** Appending to the full [{1, 2, 3, 4}] grows it; removing the new element
    gives the four values back, in the larger block. *)
Lemma EmplaceBack_then_PopBack_witness :
  wf copied_1234.1 copied_1234.2 ∧
  ∃ p s1 s2,
    EmplaceBack husk false true never (ByCopy 5) (copied_1234.1, copied_1234.2) = Ok p s1 ∧
    PopBack s1 = Ok tt s2 ∧
    contents s2.1 s2.2 = [Some 1; Some 2; Some 3; Some 4] ∧
    capacity_ (data_ s2.1) = 8.
Proof.
  assert (wf copied_1234.1 copied_1234.2) as Hwf by (apply wfb_wf; vm_compute; reflexivity).
  split; [exact Hwf|].
  assert (EmplaceBack husk false true never (ByCopy 5) (copied_1234.1, copied_1234.2) =
          Ok (Ptr (Some 4%positive) 4)
             (after (EmplaceBack husk false true never (ByCopy 5)
                       (copied_1234.1, copied_1234.2)))) as Hrun
    by (vm_compute; reflexivity).
  destruct (EmplaceBack_then_PopBack 0 husk false true never _ _ _ _ _ Hwf Hrun)
    as (s2&Hrun2&_&Hc&Hd).
  eexists _, _, s2. split; [exact Hrun|]. split; [exact Hrun2|].
  split; [rewrite Hc|rewrite Hd]; vm_compute; reflexivity.
Defined.


(** [zeros = v] for [zeros] of five elements and [v = {1, 2, 3}]: the
    first three elements are assigned, the last two destroyed, the buffer of
    capacity 5 is kept. *)
Lemma copy_assign_copies_witness :
  let objs : gmap nat Vector := {[0 := zeros_5_beside_123.1; 1 := copied_123.1]} in
  0 ≠ 1 ∧ objs !! 0 = Some zeros_5_beside_123.1 ∧ objs !! 1 = Some copied_123.1 ∧
  wf zeros_5_beside_123.1 zeros_5_beside_123.2 ∧ wf copied_123.1 zeros_5_beside_123.2 ∧
  separate zeros_5_beside_123.1 copied_123.1 ∧
  ∃ s' a',
    copy_assign never 0 1 (objs, zeros_5_beside_123.2) = Ok tt s' ∧
    s'.1 = <[0 := a']> objs ∧
    contents a' s'.2 = [Some 1; Some 2; Some 3] ∧
    contents copied_123.1 s'.2 = [Some 1; Some 2; Some 3] ∧
    capacity_ (data_ a') = 5.
Proof.
  intros objs.
  assert (0 ≠ 1) as Hne by lia.
  assert (objs !! 0 = Some zeros_5_beside_123.1) as Ha by (vm_compute; reflexivity).
  assert (objs !! 1 = Some copied_123.1) as Hb by (vm_compute; reflexivity).
  assert (wf zeros_5_beside_123.1 zeros_5_beside_123.2) as Hwfa
    by (apply wfb_wf; vm_compute; reflexivity).
  assert (wf copied_123.1 zeros_5_beside_123.2) as Hwfb
    by (apply wfb_wf; vm_compute; reflexivity).
  assert (separate zeros_5_beside_123.1 copied_123.1) as Hsep
    by (intros Hbase; vm_compute in Hbase; discriminate Hbase).
  split; [exact Hne|]. split; [exact Ha|]. split; [exact Hb|]. split; [exact Hwfa|].
  split; [exact Hwfb|]. split; [exact Hsep|].
  destruct (copy_assign_copies 0 husk never 0 1 objs _ _ _ Hne Ha Hb Hwfa Hwfb Hsep)
    as (H&_&_&Htotal).
  destruct (Htotal (λ k, eq_refl)) as (s'&Hrun).
  destruct (H tt s' Hrun) as (a'&Hs&_&Hc&Hcb&Hcap&_).
  exists s', a'. split; [exact Hrun|]. split; [exact Hs|].
  split; [rewrite Hc|split; [rewrite Hcb|rewrite Hcap]]; vm_compute; reflexivity.
Defined.

Lemma moves_swap_witness :
  let objs : gmap nat Vector := {[0 := Vector_default; 1 := copied_123.1]} in
  objs !! 0 = Some Vector_default ∧ objs !! 1 = Some copied_123.1 ∧
  move_assign 0 1 (objs, copied_123.2) =
    Ok tt (<[1 := Vector_default]> (<[0 := copied_123.1]> objs), copied_123.2).
Proof.
  intros objs.
  assert (objs !! 0 = Some Vector_default) as Ha by (vm_compute; reflexivity).
  assert (objs !! 1 = Some copied_123.1) as Hb by (vm_compute; reflexivity).
  split; [exact Ha|]. split; [exact Hb|].
  destruct (moves_swap 0 1 objs copied_123.2 _ _ Ha Hb) as (H&_). exact H.
Defined.

(** ** The slot invariant on concrete vectors *)

(** The full [{1, 2, 3, 4}] grows by copy and the invariant holds in the
    new block. *)
Lemma EmplaceBack_keeps_the_invariant_witness :
  wf copied_1234.1 copied_1234.2 ∧ invariant copied_1234.1 copied_1234.2 = true ∧
  ∃ p s',
    EmplaceBack husk false true never (ByCopy 5) (copied_1234.1, copied_1234.2) = Ok p s' ∧
    capacity_ (data_ s'.1) = 8 ∧ invariant s'.1 s'.2 = true.
Proof.
  assert (wf copied_1234.1 copied_1234.2) as Hwf by (apply wfb_wf; vm_compute; reflexivity).
  assert (invariant copied_1234.1 copied_1234.2 = true) as Hinv by (vm_compute; reflexivity).
  split; [exact Hwf|]. split; [exact Hinv|].
  destruct (EmplaceBack_keeps_the_invariant 0 husk false true never _ _ Hwf Hinv) as (H&_).
  exists (Ptr (Some 4%positive) 4),
         (after (EmplaceBack husk false true never (ByCopy 5) (copied_1234.1, copied_1234.2))).
  assert (EmplaceBack husk false true never (ByCopy 5) (copied_1234.1, copied_1234.2) =
          Ok (Ptr (Some 4%positive) 4)
             (after (EmplaceBack husk false true never (ByCopy 5)
                       (copied_1234.1, copied_1234.2)))) as Hrun
    by (vm_compute; reflexivity).
  split; [exact Hrun|]. split; [vm_compute; reflexivity|]. exact (H _ _ _ Hrun).
Defined.

Lemma Reserve_keeps_the_invariant_witness :
  wf copied_123.1 copied_123.2 ∧ invariant copied_123.1 copied_123.2 = true ∧ fits 4 10 ∧
  ∃ s',
    Reserve_sized husk false true never 4 10 (copied_123.1, copied_123.2) = Ok tt s' ∧
    capacity_ (data_ s'.1) = 10 ∧ invariant s'.1 s'.2 = true.
Proof.
  assert (wf copied_123.1 copied_123.2) as Hwf by (apply wfb_wf; vm_compute; reflexivity).
  assert (invariant copied_123.1 copied_123.2 = true) as Hinv by (vm_compute; reflexivity).
  assert (fits 4 10) as Hfit by (vm_compute; reflexivity).
  split; [exact Hwf|]. split; [exact Hinv|]. split; [exact Hfit|].
  destruct (Reserve_keeps_the_invariant 0 husk false true never 4 _ _ 10 Hwf Hinv (λ _, Hfit))
    as (H&_).
  exists (after (Reserve_sized husk false true never 4 10 (copied_123.1, copied_123.2))).
  assert (Reserve_sized husk false true never 4 10 (copied_123.1, copied_123.2) =
          Ok tt (after (Reserve_sized husk false true never 4 10
                          (copied_123.1, copied_123.2))))
    as Hrun by (vm_compute; reflexivity).
  split; [exact Hrun|]. split; [vm_compute; reflexivity|]. exact (H _ _ Hrun).
Defined.

Lemma Emplace_keeps_the_invariant_witness :
  wf copied_123.1 copied_123.2 ∧ invariant copied_123.1 copied_123.2 = true ∧
  1 ≤ size_ copied_123.1 ∧
  ∃ p s',
    Emplace husk false true never (ptr_add (buffer_ (data_ copied_123.1)) 1) (ByCopy 9)
      (copied_123.1, copied_123.2) = Ok p s' ∧
    size_ s'.1 = 4 ∧ invariant s'.1 s'.2 = true.
Proof.
  assert (wf copied_123.1 copied_123.2) as Hwf by (apply wfb_wf; vm_compute; reflexivity).
  assert (invariant copied_123.1 copied_123.2 = true) as Hinv by (vm_compute; reflexivity).
  assert (1 ≤ size_ copied_123.1) as Hi by (vm_compute; lia).
  split; [exact Hwf|]. split; [exact Hinv|]. split; [exact Hi|].
  destruct (Emplace_keeps_the_invariant 0 husk false true never _ _ 1 (ByCopy 9) Hwf Hinv Hi)
    as (H&_).
  exists (Ptr (Some 3%positive) 1),
         (after (Emplace husk false true never (ptr_add (buffer_ (data_ copied_123.1)) 1)
                   (ByCopy 9) (copied_123.1, copied_123.2))).
  assert (Emplace husk false true never (ptr_add (buffer_ (data_ copied_123.1)) 1) (ByCopy 9)
            (copied_123.1, copied_123.2) =
          Ok (Ptr (Some 3%positive) 1)
             (after (Emplace husk false true never (ptr_add (buffer_ (data_ copied_123.1)) 1)
                       (ByCopy 9) (copied_123.1, copied_123.2)))) as Hrun
    by (vm_compute; reflexivity).
  split; [exact Hrun|]. split; [vm_compute; reflexivity|]. exact (H _ _ Hrun).
Defined.

(** Inserting 9 at index 1 of the [int] vector [{1, 2, 3}] with capacity 4
    when the first move assignment of the shift throws: the size is still 3
    and slot 3 holds the object move-constructed from the last element. *)
Lemma Emplace_in_place_throw_leaves_an_object_witness :
  wf ints_123.1 ints_123.2 ∧ invariant ints_123.1 ints_123.2 = true ∧
  1 < size_ ints_123.1 ∧ size_ ints_123.1 < capacity_ (data_ ints_123.1) ∧
  ∃ s',
    Emplace keep true true (throw_at 6) (ptr_add (buffer_ (data_ ints_123.1)) 1) (ByCopy 9)
      (ints_123.1, ints_123.2) = Throw s' ∧
    s'.1 = ints_123.1 ∧
    tag s'.2 (ptr_add (buffer_ (data_ ints_123.1)) (size_ ints_123.1)) = Some true ∧
    invariant s'.1 s'.2 = false.
Proof.
  assert (wf ints_123.1 ints_123.2) as Hwf by (apply wfb_wf; vm_compute; reflexivity).
  assert (invariant ints_123.1 ints_123.2 = true) as Hinv by (vm_compute; reflexivity).
  assert (1 < size_ ints_123.1) as Hi by (vm_compute; lia).
  assert (size_ ints_123.1 < capacity_ (data_ ints_123.1)) as Hc by (vm_compute; lia).
  split; [exact Hwf|]. split; [exact Hinv|]. split; [exact Hi|]. split; [exact Hc|].
  exists (after (Emplace keep true true (throw_at 6)
                   (ptr_add (buffer_ (data_ ints_123.1)) 1) (ByCopy 9)
                   (ints_123.1, ints_123.2))).
  assert (Emplace keep true true (throw_at 6) (ptr_add (buffer_ (data_ ints_123.1)) 1)
            (ByCopy 9) (ints_123.1, ints_123.2) =
          Throw (after (Emplace keep true true (throw_at 6)
                          (ptr_add (buffer_ (data_ ints_123.1)) 1) (ByCopy 9)
                          (ints_123.1, ints_123.2)))) as Hrun
    by (vm_compute; reflexivity).
  split; [exact Hrun|].
  destruct (Emplace_in_place_throw_leaves_an_object 0 keep true true (throw_at 6) _ _ 1
              (ByCopy 9) _ Hwf Hinv Hi Hc Hrun) as (Hv&[[Hnt _]|[Ht Hbroken]]).
  - discriminate Hnt.
  - split; [exact Hv|]. split; [exact Ht|exact Hbroken].
Defined.

Lemma Resize_keeps_the_invariant_witness :
  wf copied_123.1 copied_123.2 ∧ invariant copied_123.1 copied_123.2 = true ∧ fits 4 5 ∧
  ∃ s',
    Resize_sized 0 husk false true never 4 5 (copied_123.1, copied_123.2) = Ok tt s' ∧
    size_ s'.1 = 5 ∧ invariant s'.1 s'.2 = true.
Proof.
  assert (wf copied_123.1 copied_123.2) as Hwf by (apply wfb_wf; vm_compute; reflexivity).
  assert (invariant copied_123.1 copied_123.2 = true) as Hinv by (vm_compute; reflexivity).
  assert (fits 4 5) as Hfit by (vm_compute; reflexivity).
  split; [exact Hwf|]. split; [exact Hinv|]. split; [exact Hfit|].
  destruct (Resize_keeps_the_invariant 0 husk false true never 4 _ _ 5 Hwf Hinv (λ _, Hfit))
    as (H&_).
  exists (after (Resize_sized 0 husk false true never 4 5 (copied_123.1, copied_123.2))).
  assert (Resize_sized 0 husk false true never 4 5 (copied_123.1, copied_123.2) =
          Ok tt (after (Resize_sized 0 husk false true never 4 5
                          (copied_123.1, copied_123.2))))
    as Hrun by (vm_compute; reflexivity).
  split; [exact Hrun|]. split; [vm_compute; reflexivity|]. exact (H _ _ Hrun).
Defined.

Lemma PopBack_keeps_the_invariant_witness :
  invariant copied_123.1 copied_123.2 = true ∧
  ∃ s',
    PopBack (copied_123.1, copied_123.2) = Ok tt s' ∧
    size_ s'.1 = 2 ∧ invariant s'.1 s'.2 = true.
Proof.
  assert (invariant copied_123.1 copied_123.2 = true) as Hinv by (vm_compute; reflexivity).
  split; [exact Hinv|].
  exists (after (PopBack (copied_123.1, copied_123.2))).
  assert (PopBack (copied_123.1, copied_123.2) =
          Ok tt (after (PopBack (copied_123.1, copied_123.2)))) as Hrun
    by (vm_compute; reflexivity).
  split; [exact Hrun|]. split; [vm_compute; reflexivity|].
  exact (PopBack_keeps_the_invariant _ _ _ _ Hinv Hrun).
Defined.

Lemma copy_assign_keeps_the_invariant_witness :
  let objs : gmap nat Vector := {[0 := zeros_5_beside_123.1; 1 := copied_123.1]} in
  0 ≠ 1 ∧ objs !! 0 = Some zeros_5_beside_123.1 ∧ objs !! 1 = Some copied_123.1 ∧
  wf zeros_5_beside_123.1 zeros_5_beside_123.2 ∧ wf copied_123.1 zeros_5_beside_123.2 ∧
  separate zeros_5_beside_123.1 copied_123.1 ∧
  invariant zeros_5_beside_123.1 zeros_5_beside_123.2 = true ∧
  invariant copied_123.1 zeros_5_beside_123.2 = true ∧
  ∃ s' a',
    copy_assign never 0 1 (objs, zeros_5_beside_123.2) = Ok tt s' ∧
    s'.1 !! 0 = Some a' ∧ invariant a' s'.2 = true ∧ invariant copied_123.1 s'.2 = true.
Proof.
  intros objs.
  assert (0 ≠ 1) as Hne by lia.
  assert (objs !! 0 = Some zeros_5_beside_123.1) as Ha by (vm_compute; reflexivity).
  assert (objs !! 1 = Some copied_123.1) as Hb by (vm_compute; reflexivity).
  assert (wf zeros_5_beside_123.1 zeros_5_beside_123.2) as Hwfa
    by (apply wfb_wf; vm_compute; reflexivity).
  assert (wf copied_123.1 zeros_5_beside_123.2) as Hwfb
    by (apply wfb_wf; vm_compute; reflexivity).
  assert (separate zeros_5_beside_123.1 copied_123.1) as Hsep
    by (intros Hbase; vm_compute in Hbase; discriminate Hbase).
  assert (invariant zeros_5_beside_123.1 zeros_5_beside_123.2 = true) as Hia
    by (vm_compute; reflexivity).
  assert (invariant copied_123.1 zeros_5_beside_123.2 = true) as Hib
    by (vm_compute; reflexivity).
  split; [exact Hne|]. split; [exact Ha|]. split; [exact Hb|]. split; [exact Hwfa|].
  split; [exact Hwfb|]. split; [exact Hsep|]. split; [exact Hia|]. split; [exact Hib|].
  pose proof (copy_assign_keeps_the_invariant 0 husk never 0 1 objs _ _ _
                Hne Ha Hb Hwfa Hwfb Hsep Hia Hib) as H.
  revert H.
  destruct (copy_assign never 0 1 (objs, zeros_5_beside_123.2)) as [[] s'|s'|] eqn:E;
    intros H.
  - destruct H as (a'&H0&_&Hia'&Hib'). exists s', a'.
    split; [reflexivity|]. split; [exact H0|]. split; [exact Hia'|exact Hib'].
  - vm_compute in E. discriminate E.
  - destruct H.
Defined.

(** Erasing the first element of the [int] vector [{1, 2, 3}] breaks the
    invariant; erasing its last element keeps it. *)
Lemma Erase_keeps_the_invariant_only_at_the_back_witness :
  invariant ints_123.1 ints_123.2 = true ∧ 0 < size_ ints_123.1 ∧ 2 < size_ ints_123.1 ∧
  (∃ q s', Erase keep true true never (ptr_add (buffer_ (data_ ints_123.1)) 0)
             (ints_123.1, ints_123.2) = Ok q s' ∧ invariant s'.1 s'.2 = false) ∧
  (∃ q s', Erase keep true true never (ptr_add (buffer_ (data_ ints_123.1)) 2)
             (ints_123.1, ints_123.2) = Ok q s' ∧ invariant s'.1 s'.2 = true).
Proof.
  assert (invariant ints_123.1 ints_123.2 = true) as Hinv by (vm_compute; reflexivity).
  assert (0 < size_ ints_123.1) as H0 by (vm_compute; lia).
  assert (2 < size_ ints_123.1) as H2 by (vm_compute; lia).
  split; [exact Hinv|]. split; [exact H0|]. split; [exact H2|]. split.
  - destruct (Erase_keeps_the_invariant_only_at_the_back keep true true never _ _ 0 Hinv H0)
      as [H _].
    exists (Ptr (Some 3%positive) 0),
           (after (Erase keep true true never (ptr_add (buffer_ (data_ ints_123.1)) 0)
                     (ints_123.1, ints_123.2))).
    assert (Erase keep true true never (ptr_add (buffer_ (data_ ints_123.1)) 0)
              (ints_123.1, ints_123.2) =
            Ok (Ptr (Some 3%positive) 0)
               (after (Erase keep true true never (ptr_add (buffer_ (data_ ints_123.1)) 0)
                         (ints_123.1, ints_123.2)))) as Hrun
      by (vm_compute; reflexivity).
    split; [exact Hrun|]. specialize (H _ _ Hrun).
    match goal with |- ?b = false => destruct b eqn:Ei end; [|reflexivity].
    destruct H as [H _]. specialize (H eq_refl). vm_compute in H. discriminate H.
  - destruct (Erase_keeps_the_invariant_only_at_the_back keep true true never _ _ 2 Hinv H2)
      as [H _].
    exists (Ptr (Some 3%positive) 2),
           (after (Erase keep true true never (ptr_add (buffer_ (data_ ints_123.1)) 2)
                     (ints_123.1, ints_123.2))).
    assert (Erase keep true true never (ptr_add (buffer_ (data_ ints_123.1)) 2)
              (ints_123.1, ints_123.2) =
            Ok (Ptr (Some 3%positive) 2)
               (after (Erase keep true true never (ptr_add (buffer_ (data_ ints_123.1)) 2)
                         (ints_123.1, ints_123.2)))) as Hrun
      by (vm_compute; reflexivity).
    split; [exact Hrun|]. apply (H _ _ Hrun). vm_compute. reflexivity.
Defined.

(** * Appends within the capacity, and two edges, on concrete vectors *)

(** [{1, 2, 3}] after [Reserve(10)]: seven free slots. *)
Definition reserved_10 : Vector * mem :=
  after (Reserve husk false true never 10 (copied_123.1, copied_123.2)).

Lemma appends_within_capacity_do_not_reallocate_witness :
  wf reserved_10.1 reserved_10.2 ∧
  size_ reserved_10.1 + length [7; 8] ≤ capacity_ (data_ reserved_10.1) ∧
  ∃ s',
    appends husk false true never [7; 8] (reserved_10.1, reserved_10.2) = Ok tt s' ∧
    data_ s'.1 = data_ reserved_10.1 ∧
    contents s'.1 s'.2 = [Some 1; Some 2; Some 3; Some 7; Some 8].
Proof.
  assert (wf reserved_10.1 reserved_10.2) as Hwf by (apply wfb_wf; vm_compute; reflexivity).
  assert (size_ reserved_10.1 + length [7; 8] ≤ capacity_ (data_ reserved_10.1)) as Hfit
    by (vm_compute; lia).
  split; [exact Hwf|]. split; [exact Hfit|].
  destruct (appends_within_capacity_do_not_reallocate 0 husk false true never [7; 8] _ _
              Hwf Hfit) as (H&Htotal).
  destruct (Htotal (λ k, eq_refl)) as (s'&Hrun).
  exists s'. split; [exact Hrun|].
  destruct (H tt s' Hrun) as (Hd&_&Hc&_).
  split; [exact Hd|]. rewrite Hc. vm_compute. reflexivity.
Defined.

Lemma RawMemory_index_accepts_one_past_the_end_witness :
  wf copied_123.1 copied_123.2 ∧
  RawMemory_index (data_ copied_123.1) 4 copied_123.2 =
    Ok (Ptr (Some 3%positive) 4) copied_123.2 ∧
  read (T:=nat) (Ptr (Some 3%positive) 4) copied_123.2 = Abort ∧
  RawMemory_index (St:=mem) (data_ copied_123.1) 5 copied_123.2 = Abort.
Proof.
  assert (wf copied_123.1 copied_123.2) as Hwf by (apply wfb_wf; vm_compute; reflexivity).
  split; [exact Hwf|].
  destruct (RawMemory_index_accepts_one_past_the_end copied_123.1 copied_123.2 Hwf)
    as (H1&_&H2&H3).
  split; [exact H1|]. split; [exact H2|exact H3].
Defined.

Lemma Insert_at_end_is_PushBack_witness :
  wf copied_123.1 copied_123.2 ∧
  Insert husk false true never (ptr_add (buffer_ (data_ copied_123.1)) (size_ copied_123.1)) 4
         (copied_123.1, copied_123.2) =
    Ok (ptr_add (buffer_ (data_ copied_1234.1)) (size_ copied_123.1)) copied_1234.
Proof.
  assert (wf copied_123.1 copied_123.2) as Hwf by (apply wfb_wf; vm_compute; reflexivity).
  split; [exact Hwf|].
  destruct (Insert_at_end_is_PushBack 0 husk false true never _ _ 4 Hwf) as (H&_).
  apply (H copied_1234). vm_compute. reflexivity.
Defined.

(** * Requests chosen by the caller, on concrete vectors *)


(** [Vector<int> v; v.Reserve(size_t(1) << 62);] with [sizeof(int) = 4]: the
    request is for [2^64] bytes, which is 0 bytes in a [size_t]. *)
Lemma Reserve_of_a_wrapping_request_witness :
  granted 4 (Z.to_nat (2 ^ 62)) = 0 ∧
  ∃ nb m',
    Reserve_sized husk false true never 4 (Z.to_nat (2 ^ 62)) (Vector_default, empty_mem) =
      Ok tt (mkVec (mkRaw (Ptr (Some nb) 0) (Z.to_nat (2 ^ 62))) 0, m') ∧
    blen m' nb = Some 0.
Proof.
  assert (granted 4 (Z.to_nat (2 ^ 62)) = 0) as Hg.
  { unfold granted, size_t_mul. rewrite Z2Nat.id by lia. reflexivity. }
  split; [exact Hg|].
  destruct (Reserve_of_a_wrapping_request husk false true never 4 (Z.to_nat (2 ^ 62)) empty_mem)
    as (nb&m'&Hrun&Hb&_).
  - rewrite Hg. lia.
  - reflexivity.
  - exists nb, m'. split; [exact Hrun|]. rewrite Hb, Hg. reflexivity.
Defined.

(** [v.Insert(v.begin() + 1, v[2])] on the full [{1, 2, 3, 4}], whose
    elements are relocated by a move that leaves 0 behind, gives
    [{1, 3, 2, 3, 4}]. *)
Lemma Insert_of_an_element_when_appending_or_growing_witness :
  wf moved_1234.1 moved_1234.2 ∧ 1 ≤ size_ moved_1234.1 ∧ 2 < size_ moved_1234.1 ∧
  (1 = size_ moved_1234.1 ∨ capacity_ (data_ moved_1234.1) ≤ size_ moved_1234.1) ∧
  ∃ p s',
    Insert_ref husk true true never (ptr_add (buffer_ (data_ moved_1234.1)) 1)
      (ptr_add (buffer_ (data_ moved_1234.1)) 2) (moved_1234.1, moved_1234.2) = Ok p s' ∧
    contents s'.1 s'.2 = [Some 1; Some 3; Some 2; Some 3; Some 4].
Proof.
  assert (wf moved_1234.1 moved_1234.2) as Hwf by (apply wfb_wf; vm_compute; reflexivity).
  assert (1 ≤ size_ moved_1234.1) as Hi by (vm_compute; lia).
  assert (2 < size_ moved_1234.1) as Hj by (vm_compute; lia).
  assert (1 = size_ moved_1234.1 ∨ capacity_ (data_ moved_1234.1) ≤ size_ moved_1234.1)
    as Hpath by (right; vm_compute; lia).
  split; [exact Hwf|]. split; [exact Hi|]. split; [exact Hj|]. split; [exact Hpath|].
  destruct (Insert_of_an_element_when_appending_or_growing 0 husk true true never
              _ _ 1 2 Hwf Hi Hj Hpath) as (H&_&Htotal).
  destruct (Htotal (λ k, eq_refl)) as (p&s'&Hrun).
  exists p, s'. split; [exact Hrun|].
  destruct (H p s' Hrun) as (_&Hc&_). rewrite Hc. vm_compute. reflexivity.
Defined.
